(** * Content detection and Mermaid auto-fixing: a shallow embedding

    The two TypeScript modules [contentDetector.ts] and [mermaidFixer.ts]
    are pure functions over JavaScript strings, written almost entirely
    with regular expressions.  A JavaScript string is a sequence of
    UTF-16 code units, and a regular expression without the [u] flag
    works on code units, so a string is a [list Z] here.  The regular
    expressions are kept as syntax trees and run by a backtracking
    matcher that follows the matcher combinators of ECMA-262 (section
    RegExp Pattern Semantics); the string methods the source uses
    ([trim], [split], [toLowerCase], [startsWith], [test], [match],
    [replace]) are defined on top of it. *)

From Stdlib Require Import String Ascii DecimalString DecimalN ZArith Arith Bool List Lia.
Import ListNotations.

Set Implicit Arguments.

(** ** Strings as UTF-16 code units *)

Definition str := list Z.

(** A Basic Latin literal of the source as code units. *)
Definition u16 (s : string) : str :=
  map (fun a => Z.of_N (N_of_ascii a)) (list_ascii_of_string s).

Definition dquote : Z := 34.

Definition inRange (lo hi c : Z) : bool := ((lo <=? c) && (c <=? hi))%Z.

Fixpoint str_eqb (s t : str) : bool :=
  match s, t with
  | [], [] => true
  | a :: s', b :: t' => (a =? b)%Z && str_eqb s' t'
  | _, _ => false
  end.

(** [s.startsWith(p)] *)
Fixpoint startsWith (s p : str) : bool :=
  match p, s with
  | [], _ => true
  | a :: p', b :: s' => (a =? b)%Z && startsWith s' p'
  | _ :: _, [] => false
  end.

(** *** Character classes of ECMA-262 *)

(** LineTerminator: LF, CR, LS, PS. *)
Definition isLineTerminator (c : Z) : bool :=
  ((c =? 10) || (c =? 13) || (c =? 8232) || (c =? 8233))%Z.

(** WhiteSpace: TAB, VT, FF, SP, NBSP, ZWNBSP and the Unicode space
    separators. *)
Definition isWhiteSpace (c : Z) : bool :=
  ((c =? 9) || (c =? 11) || (c =? 12) || (c =? 32) || (c =? 160)
   || (c =? 5760) || inRange 8192 8202 c || (c =? 8239) || (c =? 8287)
   || (c =? 12288) || (c =? 65279))%Z.

(** The class [\s], which is also what [trim] strips. *)
Definition isSpace (c : Z) : bool := isWhiteSpace c || isLineTerminator c.

(** The class [\d]. *)
Definition isDigit (c : Z) : bool := inRange 48 57 c.

(** The class [\w] (without the [u] flag the [i] flag does not widen it). *)
Definition isWordChar (c : Z) : bool :=
  inRange 97 122 c || inRange 65 90 c || isDigit c || (c =? 95)%Z.

(** The atom [.] *)
Definition isDot (c : Z) : bool := negb (isLineTerminator c).

Definition oneOf (l : str) (c : Z) : bool := existsb (Z.eqb c) l.
Definition noneOf (l : str) (c : Z) : bool := negb (oneOf l c).

(** Canonicalize of ECMA-262 for a pattern without the [u] flag: the
    code unit is upper-cased, except that a code unit from 128 on never
    canonicalizes to one below 128.  Every literal character of the
    program's case-insensitive patterns is Basic Latin, so a code unit
    from 128 on (which canonicalizes to a code unit from 128 on) can
    never be equal to one of them; such code units are left in place. *)
Definition canonicalize (c : Z) : Z :=
  if inRange 97 122 c then (c - 32)%Z else c.

Definition asciiLower (c : Z) : Z :=
  if inRange 65 90 c then (c + 32)%Z else c.

(** Two strings with the same [fold] are equal up to the case of Basic
    Latin letters. *)
Definition fold (s : str) : str := map canonicalize s.

(** ** Regular expressions *)

Inductive regex : Type :=
| Empty
| Char (c : Z)
| CharSet (p : Z -> bool)
| Seq (r1 r2 : regex)
| Alt (r1 r2 : regex)
| Quant (min : nat) (max : option nat) (greedy : bool) (r : regex)
| Group (n : nat) (r : regex)
| AssertStart
| AssertEnd
| WordBoundary.

Record RegExp : Type := mkRegExp {
  pattern : regex;
  ignoreCase : bool;
  multiline : bool;
  global : bool
}.

(** Concrete syntax, as the patterns of the source are written. *)
Definition lit (s : str) : regex := fold_right (fun c r => Seq (Char c) r) Empty s.
Definition star (r : regex) : regex := Quant 0 None true r.
Definition plus (r : regex) : regex := Quant 1 None true r.
Definition opt (r : regex) : regex := Quant 0 (Some 1) true r.
Definition lazyStar (r : regex) : regex := Quant 0 None false r.
Definition lazyPlus (r : regex) : regex := Quant 1 None false r.
Definition seqs (l : list regex) : regex := fold_right Seq Empty l.
Fixpoint alts (l : list regex) : regex :=
  match l with
  | [] => Empty
  | [r] => r
  | r :: l' => Alt r (alts l')
  end.

(** *** The matcher

    A match state is a cursor in the input (the text before it, most
    recent code unit first, and the text after it) with the captures
    made so far.  A continuation receives the state reached and gives
    the final state or fails: this is the Matcher/Continuation scheme of
    the standard, with [None] for failure. *)

Record state : Type := mkState {
  before : str;
  after : str;
  captures : list (nat * str)
}.

Definition cont := state -> option state.

Definition capture (n : nat) (caps : list (nat * str)) : option str :=
  option_map snd (find (fun p => Nat.eqb (fst p) n) caps).

(** The text consumed between state [x] and a later state [y]. *)
Definition consumed (x y : state) : str :=
  firstn (length (after x) - length (after y)) (after x).

Definition charMatches (ic : bool) (c a : Z) : bool :=
  if ic then (canonicalize c =? canonicalize a)%Z else (c =? a)%Z.

(** With [i], a class matches when one of its members canonicalizes
    like the input code unit. *)
Definition setMatches (ic : bool) (p : Z -> bool) (a : Z) : bool :=
  if ic then p a || p (canonicalize a) || p (asciiLower a) else p a.

Definition atLineStart (ml : bool) (x : state) : bool :=
  match before x with
  | [] => true
  | a :: _ => ml && isLineTerminator a
  end.

Definition atLineEnd (ml : bool) (x : state) : bool :=
  match after x with
  | [] => true
  | a :: _ => ml && isLineTerminator a
  end.

Definition isWordAt (s : str) : bool :=
  match s with
  | [] => false
  | a :: _ => isWordChar a
  end.

Definition atWordBoundary (x : state) : bool :=
  negb (Bool.eqb (isWordAt (before x)) (isWordAt (after x))).

Definition isZero (max : option nat) : bool :=
  match max with
  | Some 0 => true
  | _ => false
  end.

(** RepeatMatcher of the standard.  An iteration that consumes nothing
    once the minimum is reached fails, so either [min] or the remaining
    input shrinks at each turn and [fuel], set to their sum plus one,
    never runs out.  (No pattern of the program has a group under a
    quantifier that can iterate twice, so captures need no reset.) *)
Fixpoint repeatMatcher (m : cont -> cont) (fuel min : nat) (max : option nat)
    (greedy : bool) (c : cont) (x : state) : option state :=
  match fuel with
  | 0 => None
  | S fuel' =>
      if isZero max then c x
      else
        let d := fun y =>
          if Nat.eqb min 0 && Nat.eqb (length (after y)) (length (after x))
          then None
          else repeatMatcher m fuel' (pred min) (option_map pred max) greedy c y in
        if negb (Nat.eqb min 0) then m d x
        else if greedy then
          match m d x with
          | Some z => Some z
          | None => c x
          end
        else
          match c x with
          | Some z => Some z
          | None => m d x
          end
  end.

Fixpoint matcher (ic ml : bool) (r : regex) (c : cont) (x : state)
    {struct r} : option state :=
  match r with
  | Empty => c x
  | Char ch =>
      match after x with
      | a :: t =>
          if charMatches ic ch a
          then c (mkState (a :: before x) t (captures x))
          else None
      | [] => None
      end
  | CharSet p =>
      match after x with
      | a :: t =>
          if setMatches ic p a
          then c (mkState (a :: before x) t (captures x))
          else None
      | [] => None
      end
  | Seq r1 r2 => matcher ic ml r1 (matcher ic ml r2 c) x
  | Alt r1 r2 =>
      match matcher ic ml r1 c x with
      | Some z => Some z
      | None => matcher ic ml r2 c x
      end
  | Quant min max greedy r' =>
      repeatMatcher (matcher ic ml r') (S (min + length (after x)))
        min max greedy c x
  | Group n r' =>
      matcher ic ml r'
        (fun y => c (mkState (before y) (after y)
                       ((n, consumed x y) :: captures y))) x
  | AssertStart => if atLineStart ml x then c x else None
  | AssertEnd => if atLineEnd ml x then c x else None
  | WordBoundary => if atWordBoundary x then c x else None
  end.

(** *** RegExpBuiltinExec

    A match result: the text before the match (reversed), the matched
    text, the text after it and the captures. *)

Record MatchResult : Type := mkMatch {
  m_before : str;
  m_text : str;
  m_after : str;
  m_captures : list (nat * str)
}.

Definition m_index (m : MatchResult) : nat := length (m_before m).

Definition group (n : nat) (m : MatchResult) : option str :=
  match n with
  | 0 => Some (m_text m)
  | _ => capture n (m_captures m)
  end.

(** A capture that did not take part in the match reads as the empty
    string in a replacement. *)
Definition groupText (n : nat) (m : MatchResult) : str :=
  match group n m with
  | Some s => s
  | None => []
  end.

(** Try the pattern at the cursor, then one code unit further on, up to
    the end of the input. *)
Fixpoint execFrom (R : RegExp) (b a : str) {struct a} : option MatchResult :=
  let x := mkState b a [] in
  match matcher (ignoreCase R) (multiline R) (pattern R) Some x with
  | Some y => Some (mkMatch b (consumed x y) (after y) (captures y))
  | None =>
      match a with
      | [] => None
      | c :: a' => execFrom R (c :: b) a'
      end
  end.

(** [exec] from the start of the string ([lastIndex] is 0). *)
Definition exec (R : RegExp) (s : str) : option MatchResult := execFrom R [] s.

Definition isSome {A : Type} (o : option A) : bool :=
  match o with
  | Some _ => true
  | None => false
  end.

(** [R.test(s)] with [lastIndex] at 0. *)
Definition test (R : RegExp) (s : str) : bool := isSome (exec R s).

(** The list of results that [String.prototype.replace] and
    [String.prototype.match] collect for a global pattern: after a match
    the search resumes at its end, one code unit further on when the
    match was empty. *)
Fixpoint matchAllFrom (R : RegExp) (fuel : nat) (b a : str) : list MatchResult :=
  match fuel with
  | 0 => []
  | S fuel' =>
      match execFrom R b a with
      | None => []
      | Some m =>
          m ::
          match m_text m, m_after m with
          | [], [] => []
          | [], c :: a' => matchAllFrom R fuel' (c :: m_before m) a'
          | _ :: _, a' => matchAllFrom R fuel' (rev (m_text m) ++ m_before m) a'
          end
      end
  end.

Definition matchAll (R : RegExp) (s : str) : list MatchResult :=
  matchAllFrom R (S (length s)) [] s.

(** ** String methods *)

Fixpoint dropWhile (p : Z -> bool) (s : str) : str :=
  match s with
  | [] => []
  | a :: s' => if p a then dropWhile p s' else s
  end.

Definition trimStart (s : str) : str := dropWhile isSpace s.
Definition trimEnd (s : str) : str := rev (dropWhile isSpace (rev s)).

(** [s.trim()] *)
Definition trim (s : str) : str := trimEnd (trimStart s).

(** [s.split(sep)] for a separator of one code unit. *)
Fixpoint split (sep : Z) (s : str) : list str :=
  match s with
  | [] => [[]]
  | a :: s' =>
      if (a =? sep)%Z then [] :: split sep s'
      else
        match split sep s' with
        | [] => [[a]]
        | l :: ls => (a :: l) :: ls
        end
  end.

(** [s.toLowerCase()].  The result is only ever compared with Basic
    Latin keywords, so what matters is which code units lower-case to
    text that begins with a Basic Latin letter: the capitals A to Z,
    U+212A KELVIN SIGN (to k) and U+0130 (to i followed by U+0307).
    Every other code unit lower-cases to text outside Basic Latin, or to
    itself, and is left in place. *)
Definition lowerUnit (c : Z) : str :=
  if inRange 65 90 c then [(c + 32)%Z]
  else if (c =? 8490)%Z then [107%Z]
  else if (c =? 304)%Z then [105%Z; 775%Z]
  else [c].

Definition toLowerCase (s : str) : str := flat_map lowerUnit s.

(** Decimal text of a number, as a template literal prints it. *)
Definition showNat (n : nat) : str :=
  u16 (NilEmpty.string_of_uint (Nat.to_uint n)).

(** Atoms that several patterns share: a one-character literal, [.],
    [[\s\S]], [\s] and the fence token. *)
Definition chr (s : string) : regex :=
  match u16 s with
  | [c] => Char c
  | l => lit l
  end.

Definition dot : regex := CharSet isDot.
Definition anyChar : regex := CharSet (fun c => isSpace c || negb (isSpace c)).
Definition space : regex := CharSet isSpace.
Definition fence : str := u16 "```".

(** ** contentDetector.ts *)

Module ContentDetector.

Inductive ContentType : Type := markdown | mermaid | mixed | empty.

Record DetectionResult : Type := mkDetection {
  type : ContentType;
  label : str;
  emoji : str;
  color : str;
  bgColor : str;
  borderColor : str;
  description : str;
  mermaidBlockCount : nat;
  wasAutoWrapped : bool;
  wasAutoFixed : bool;
  fixes : list str
}.

Definition MERMAID_KEYWORDS : list str :=
  map u16
    ["graph"; "flowchart"; "sequenceDiagram"; "classDiagram"; "stateDiagram";
     "stateDiagram-v2"; "erDiagram"; "journey"; "gantt"; "pie";
     "quadrantChart"; "requirementDiagram"; "gitGraph"; "mindmap";
     "timeline"; "zenuml"; "sankey-beta"; "xychart-beta"; "block-beta";
     "packet-beta"; "kanban"; "architecture-beta"]%string.

Definition MERMAID_KEYWORDS_LOWER : list str := map toLowerCase MERMAID_KEYWORDS.

Definition isEmptyStr (s : str) : bool :=
  match s with
  | [] => true
  | _ :: _ => false
  end.

Definition looksLikeMermaid (text : str) : bool :=
  let trimmed := trim text in
  if isEmptyStr trimmed then false
  else
    let firstLine := toLowerCase (trim (hd [] (split 10 trimmed))) in
    if existsb
         (fun keyword =>
            str_eqb firstLine keyword
            || startsWith firstLine (keyword ++ u16 " ")
            || startsWith firstLine (keyword ++ [9%Z]))
         MERMAID_KEYWORDS_LOWER
    then true
    else if str_eqb firstLine (u16 "gitgraph")
            || str_eqb firstLine (u16 "sequencediagram")
            || str_eqb firstLine (u16 "classdiagram")
            || str_eqb firstLine (u16 "statediagram")
            || str_eqb firstLine (u16 "erdiagram")
            || startsWith firstLine (u16 "graph ")
            || startsWith firstLine (u16 "flowchart ")
    then true
    else false.

(** [/```mermaid\s*\n/i] *)
Definition containsMermaidBlocksRegex : RegExp :=
  mkRegExp (seqs [lit (u16 "```mermaid"); star space; Char 10]) true false false.

Definition containsMermaidBlocks (text : str) : bool :=
  test containsMermaidBlocksRegex text.

(** [/```[\s\S]*?```/], the thirteenth of the Markdown patterns. *)
Definition codeBlockRegex : RegExp :=
  mkRegExp (seqs [lit fence; lazyStar anyChar; lit fence]) false false false.

Definition mdPatterns : list RegExp :=
  [ (* /^#{1,6}\s/m : headers *)
    mkRegExp (seqs [AssertStart; Quant 1 (Some 6) true (chr "#"); space])
      false true false;
    (* /^\s*[-*+]\s/m : unordered lists *)
    mkRegExp (seqs [AssertStart; star space; CharSet (oneOf (u16 "-*+")); space])
      false true false;
    (* /^\s*\d+\.\s/m : ordered lists *)
    mkRegExp (seqs [AssertStart; star space; plus (CharSet isDigit); chr "."; space])
      false true false;
    (* /\[.+?\]\(.+?\)/ : links *)
    mkRegExp (seqs [chr "["; lazyPlus dot; chr "]"; chr "("; lazyPlus dot; chr ")"])
      false false false;
    (* /!\[.*?\]\(.+?\)/ : images *)
    mkRegExp (seqs [chr "!"; chr "["; lazyStar dot; chr "]"; chr "(";
                    lazyPlus dot; chr ")"])
      false false false;
    (* /\*\*.+?\*\*/ : bold *)
    mkRegExp (seqs [chr "*"; chr "*"; lazyPlus dot; chr "*"; chr "*"])
      false false false;
    (* /\*.+?\*/ : italic *)
    mkRegExp (seqs [chr "*"; lazyPlus dot; chr "*"]) false false false;
    (* /~~.+?~~/ : strikethrough *)
    mkRegExp (seqs [chr "~"; chr "~"; lazyPlus dot; chr "~"; chr "~"])
      false false false;
    (* /^>\s/m : blockquotes *)
    mkRegExp (seqs [AssertStart; chr ">"; space]) false true false;
    (* /\|.+\|.+\|/ : tables *)
    mkRegExp (seqs [chr "|"; plus dot; chr "|"; plus dot; chr "|"])
      false false false;
    (* /^---+$/m : horizontal rules *)
    mkRegExp (seqs [AssertStart; chr "-"; chr "-"; plus (chr "-"); AssertEnd])
      false true false;
    (* /^===+$/m : alternative horizontal rules *)
    mkRegExp (seqs [AssertStart; chr "="; chr "="; plus (chr "="); AssertEnd])
      false true false;
    (* /```[\s\S]*?```/ : code blocks of any language *)
    codeBlockRegex;
    (* /`[^`]+`/ : inline code *)
    mkRegExp (seqs [chr "`"; plus (CharSet (noneOf (u16 "`"))); chr "`"])
      false false false;
    (* /^\s*- \[[ x]\]/m : task lists *)
    mkRegExp (seqs [AssertStart; star space; chr "-"; chr " "; chr "[";
                    CharSet (oneOf (u16 " x")); chr "]"])
      false true false ].

Definition hasMarkdownFeatures (text : str) : bool :=
  let matchCount :=
    fold_left (fun n pat => if test pat text then S n else n) mdPatterns 0 in
  1 <=? matchCount.

(** [/```mermaid/gi] *)
Definition countMermaidBlocksRegex : RegExp :=
  mkRegExp (lit (u16 "```mermaid")) true false true.

Definition countMermaidBlocks (text : str) : nat :=
  List.length (matchAll countMermaidBlocksRegex text).

(** [a || b] on numbers. *)
Definition orElse (a b : nat) : nat := if Nat.eqb a 0 then b else a.

Definition emDash : Z := 8212.
Definition puzzlePiece : str := [55358; 56809]%Z.
Definition pageFacingUp : str := [55357; 56516]%Z.

Definition detectContentType (text : str) : DetectionResult :=
  let trimmed := trim text in
  if isEmptyStr trimmed then
    mkDetection empty (u16 "Empty") [55357; 56557]%Z
      (u16 "text-slate-400") (u16 "bg-slate-500/20") (u16 "border-slate-500/30")
      (u16 "No content " ++ [emDash] ++ u16 " start typing!")
      0 false false []
  else
    let hasMD := hasMarkdownFeatures trimmed in
    let hasMermaidBlocks := containsMermaidBlocks trimmed in
    let isRawMermaid := looksLikeMermaid trimmed in
    let blockCount := countMermaidBlocks trimmed in
    if isRawMermaid && negb hasMD && negb hasMermaidBlocks then
      mkDetection mermaid (u16 "Raw Mermaid") puzzlePiece
        (u16 "text-purple-400") (u16 "bg-purple-500/20")
        (u16 "border-purple-500/30")
        (u16 "Raw Mermaid diagram detected " ++ [emDash]
           ++ u16 " auto-wrapped in ```mermaid fence")
        1 true false [u16 "Auto-wrapped in ```mermaid code fence"]
    else if hasMD && (hasMermaidBlocks || isRawMermaid) then
      mkDetection mixed (u16 "Markdown + Mermaid") (pageFacingUp ++ puzzlePiece)
        (u16 "text-cyan-400") (u16 "bg-cyan-500/20") (u16 "border-cyan-500/30")
        (u16 "Mixed content " ++ [emDash] ++ u16 " "
           ++ showNat (orElse blockCount (if isRawMermaid then 1 else 0))
           ++ u16 " Mermaid diagram"
           ++ (if 1 <? orElse blockCount 1 then u16 "s" else [])
           ++ u16 " detected")
        (orElse blockCount (if isRawMermaid then 1 else 0)) false false []
    else if hasMermaidBlocks && negb hasMD then
      mkDetection mixed (u16 "Fenced Mermaid") puzzlePiece
        (u16 "text-purple-400") (u16 "bg-purple-500/20")
        (u16 "border-purple-500/30")
        (showNat blockCount ++ u16 " fenced Mermaid diagram"
           ++ (if 1 <? blockCount then u16 "s" else []))
        blockCount false false []
    else if hasMD && negb hasMermaidBlocks && negb isRawMermaid then
      mkDetection markdown (u16 "Markdown") pageFacingUp
        (u16 "text-blue-400") (u16 "bg-blue-500/20") (u16 "border-blue-500/30")
        (u16 "Standard Markdown content")
        0 false false []
    else
      mkDetection markdown (u16 "Text") [55357; 56541]%Z
        (u16 "text-slate-400") (u16 "bg-slate-500/20") (u16 "border-slate-500/30")
        (u16 "Plain text content")
        0 false false [].

End ContentDetector.

(** ** String.prototype.replace *)

Fixpoint groupCount (r : regex) : nat :=
  match r with
  | Seq r1 r2 | Alt r1 r2 => groupCount r1 + groupCount r2
  | Quant _ _ _ r' => groupCount r'
  | Group _ r' => S (groupCount r')
  | _ => 0
  end.

Definition digitValue (c : Z) : option nat :=
  if isDigit c then Some (Z.to_nat (c - 48)) else None.

(** GetSubstitution: expand [$$], [$&], [$`], [$'], [$n] and [$nn] in a
    replacement template, for a pattern with [m] capture groups. *)
Fixpoint getSubstitution (m : nat) (r : MatchResult) (template : str) : str :=
  match template with
  | [] => []
  | 36%Z :: rest =>
      match rest with
      | 36%Z :: rest' => 36%Z :: getSubstitution m r rest'
      | 38%Z :: rest' => m_text r ++ getSubstitution m r rest'
      | 96%Z :: rest' => rev (m_before r) ++ getSubstitution m r rest'
      | 39%Z :: rest' => m_after r ++ getSubstitution m r rest'
      | d1 :: rest' =>
          match digitValue d1 with
          | None => 36%Z :: getSubstitution m r rest
          | Some n1 =>
              let two :=
                match rest' with
                | d2 :: rest'' =>
                    match digitValue d2 with
                    | Some n2 =>
                        let n := 10 * n1 + n2 in
                        if (1 <=? n) && (n <=? m)
                        then Some (groupText n r ++ getSubstitution m r rest'')
                        else None
                    | None => None
                    end
                | [] => None
                end in
              match two with
              | Some out => out
              | None =>
                  if (1 <=? n1) && (n1 <=? m)
                  then groupText n1 r ++ getSubstitution m r rest'
                  else 36%Z :: getSubstitution m r rest
              end
          end
      | [] => [36%Z]
      end
  | c :: rest => c :: getSubstitution m r rest
  end.

Definition substring (s : str) (i j : nat) : str := firstn (j - i) (skipn i s).

(** The replacer of [s.replace(R, replacer)], threaded through the state
    it updates (a counter, a list of messages). *)
Definition replacer (S : Type) : Type := MatchResult -> S -> str * S.

(** A replacement template as a replacer that leaves the state alone. *)
Definition template (R : RegExp) (t : str) : replacer unit :=
  fun r st => (getSubstitution (groupCount (pattern R)) r t, st).

(** The loop of [replace] over the collected results, with
    [nextSourcePosition] as in the standard. *)
Fixpoint replaceLoop (S : Type) (s : str) (f : replacer S)
    (results : list MatchResult) (nextSourcePosition : nat) (st : S)
    : str * S :=
  match results with
  | [] => (skipn nextSourcePosition s, st)
  | r :: rest =>
      let position := m_index r in
      let (replacement, st') := f r st in
      if nextSourcePosition <=? position then
        let (acc, st'') :=
          replaceLoop s f rest (position + List.length (m_text r)) st' in
        (substring s nextSourcePosition position ++ replacement ++ acc, st'')
      else replaceLoop s f rest nextSourcePosition st'
  end.

(** [s.replace(R, f)]: every match of a global pattern, the first match
    of any other. *)
Definition replaceWith (S : Type) (R : RegExp) (s : str) (f : replacer S)
    (st : S) : str * S :=
  let results :=
    if global R then matchAll R s
    else match exec R s with
         | Some r => [r]
         | None => []
         end in
  replaceLoop s f results 0 st.

(** [s.replace(R, t)] for a template [t]. *)
Definition replace (R : RegExp) (s t : str) : str :=
  fst (replaceWith R s (template R t) tt).

(** ** mermaidFixer.ts *)

Module MermaidFixer.

Record FixResult : Type := mkFix {
  output : str;
  fixes : list str;
  wasModified : bool
}.

(** [/^\uFEFF/] *)
Definition bomRegex : RegExp :=
  mkRegExp (seqs [AssertStart; Char 65279]) false false false.

(** [/[\u200B\u200C\u200D\uFEFF]/g] *)
Definition zeroWidthRegex : RegExp :=
  mkRegExp (CharSet (oneOf [8203; 8204; 8205; 65279]%Z)) false false true.

Definition keyword (names : list string) : regex := alts (map (fun n => lit (u16 n)) names).

(** [/^(\s* )(gitgraph|GitGraph|GITGRAPH|Gitgraph|GITGraph|gitgRAPH|GITgraph)\b/im] *)
Definition gitGraphRegex : RegExp :=
  mkRegExp
    (seqs [AssertStart; Group 1 (star space);
           Group 2 (keyword ["gitgraph"; "GitGraph"; "GITGRAPH"; "Gitgraph";
                             "GITGraph"; "gitgRAPH"; "GITgraph"]%string);
           WordBoundary])
    true true false.

(** [/^(\s* )(sequencediagram|SequenceDiagram|SEQUENCEDIAGRAM)\b/im] *)
Definition seqRegex : RegExp :=
  mkRegExp
    (seqs [AssertStart; Group 1 (star space);
           Group 2 (keyword ["sequencediagram"; "SequenceDiagram";
                             "SEQUENCEDIAGRAM"]%string);
           WordBoundary])
    true true false.

(** [/^(\s* )(classdiagram|ClassDiagram|CLASSDIAGRAM)\b/im] *)
Definition classRegex : RegExp :=
  mkRegExp
    (seqs [AssertStart; Group 1 (star space);
           Group 2 (keyword ["classdiagram"; "ClassDiagram";
                             "CLASSDIAGRAM"]%string);
           WordBoundary])
    true true false.

(** [/^(\s* )(statediagram|StateDiagram|STATEDIAGRAM)(-v2)?\b/im] *)
Definition stateRegex : RegExp :=
  mkRegExp
    (seqs [AssertStart; Group 1 (star space);
           Group 2 (keyword ["statediagram"; "StateDiagram";
                             "STATEDIAGRAM"]%string);
           opt (Group 3 (lit (u16 "-v2")));
           WordBoundary])
    true true false.

(** [/^(\s* )(erdiagram|ErDiagram|ERDIAGRAM)\b/im] *)
Definition erRegex : RegExp :=
  mkRegExp
    (seqs [AssertStart; Group 1 (star space);
           Group 2 (keyword ["erdiagram"; "ErDiagram"; "ERDIAGRAM"]%string);
           WordBoundary])
    true true false.

Definition blank : regex := CharSet (oneOf [32; 9]%Z).
Definition lineBreak : regex := CharSet (oneOf [13; 10]%Z).

(** [/^([ \t]*(?:commit|merge)[ \t]+.* )[\r\n]+([ \t]+tag:[ \t]+\x22[^\x22]*\x22)/gm],
    with \x22 for the double quote. *)
Definition tagFixRegex : RegExp :=
  mkRegExp
    (seqs [AssertStart;
           Group 1 (seqs [star blank; keyword ["commit"; "merge"]%string;
                          plus blank; star dot]);
           plus lineBreak;
           Group 2 (seqs [plus blank; lit (u16 "tag:"); plus blank;
                          Char dquote; star (CharSet (noneOf [dquote]));
                          Char dquote])])
    false true true.

(** [/^([ \t]*commit[ \t]+.* )[\r\n]+([ \t]+type:[ \t]+\w+)/gm] *)
Definition typeFixRegex : RegExp :=
  mkRegExp
    (seqs [AssertStart;
           Group 1 (seqs [star blank; lit (u16 "commit"); plus blank; star dot]);
           plus lineBreak;
           Group 2 (seqs [plus blank; lit (u16 "type:"); plus blank;
                          plus (CharSet isWordChar)])])
    false true true.

Definition rightArrow : Z := 8594.

(** One of the five capitalization fixes (Fix 1 to Fix 5), which differ
    in the pattern, the canonical keyword and the replacement template:
    the first match of the pattern is rewritten when its second group is
    not the canonical keyword already. *)
Definition fixCapitalization (R : RegExp) (canonical tmpl : str)
    (st : str * list str) : str * list str :=
  let (code, fixes) := st in
  if test R code then
    match exec R code with
    | Some r =>
        if negb (str_eqb (groupText 2 r) canonical) then
          (replace R code tmpl,
           fixes ++ [u16 "Fixed capitalization: " ++ [dquote] ++ groupText 2 r
                       ++ [dquote] ++ u16 " " ++ [rightArrow] ++ u16 " "
                       ++ [dquote] ++ canonical ++ [dquote]])
        else st
    | None => st
    end
  else st.

(** The replacer of Fix 6 and Fix 7: count the merge and join the two
    parts with one space. *)
Definition mergeReplacer : replacer nat :=
  fun r count => (groupText 1 r ++ u16 " " ++ trim (groupText 2 r), S count).

(** [while (R.test(code)) { R.lastIndex = 0; code = code.replace(R, ...) }]:
    [test] starts at [lastIndex] 0 each time, since the body resets it
    and a failed [test] and [replace] leave it at 0.  Each pass makes
    the text shorter, so [fuel], the length of the text plus one, is
    never used up. *)
Fixpoint mergeLoop (R : RegExp) (fuel : nat) (code : str) (count : nat)
    : str * nat :=
  match fuel with
  | 0 => (code, count)
  | S fuel' =>
      if test R code then
        let (code', count') := replaceWith R code mergeReplacer count in
        mergeLoop R fuel' code' count'
      else (code, count)
  end.

Definition mergeMessage (what : string) (count : nat) : str :=
  u16 "Moved " ++ [dquote] ++ u16 what ++ [dquote] ++ u16 " to same line as "
    ++ [dquote] ++ u16 "commit" ++ [dquote] ++ u16 " (" ++ showNat count
    ++ u16 " fix" ++ (if 1 <? count then u16 "es" else []) ++ u16 ")".

Definition removeInvisible (source : str) : str * list str :=
  let originalLength := List.length source in
  let code := replace bomRegex source [] in
  let code := replace zeroWidthRegex code [] in
  (code,
   if negb (List.length code =? originalLength)
   then [u16 "Removed invisible characters (BOM/zero-width)"]
   else []).

Definition fixTag (st : str * list str) : str * list str :=
  let (code, fixes) := st in
  let (code', tagFixCount) := mergeLoop tagFixRegex (S (List.length code)) code 0 in
  (code', if 0 <? tagFixCount then fixes ++ [mergeMessage "tag:" tagFixCount] else fixes).

Definition fixType (st : str * list str) : str * list str :=
  let (code, fixes) := st in
  let (code', typeFixCount) := mergeLoop typeFixRegex (S (List.length code)) code 0 in
  (code',
   if 0 <? typeFixCount then fixes ++ [mergeMessage "type:" typeFixCount] else fixes).

Definition fixMermaidCode (source : str) : FixResult :=
  let st := removeInvisible source in
  let st := fixCapitalization gitGraphRegex (u16 "gitGraph") (u16 "$1gitGraph") st in
  let st := fixCapitalization seqRegex (u16 "sequenceDiagram")
              (u16 "$1sequenceDiagram") st in
  let st := fixCapitalization classRegex (u16 "classDiagram")
              (u16 "$1classDiagram") st in
  let st := fixCapitalization stateRegex (u16 "stateDiagram")
              (u16 "$1stateDiagram$3") st in
  let st := fixCapitalization erRegex (u16 "erDiagram") (u16 "$1erDiagram") st in
  let st := fixTag st in
  let st := fixType st in
  mkFix (fst st) (snd st) (0 <? List.length (snd st)).

(** [/(```mermaid\s*\n)([\s\S]*?)(```)/gi] *)
Definition mermaidBlockRegex : RegExp :=
  mkRegExp
    (seqs [Group 1 (seqs [lit (u16 "```mermaid"); star space; Char 10]);
           Group 2 (lazyStar anyChar);
           Group 3 (lit fence)])
    true false true.

(** The replacer of [fixMermaidInDocument]: fix the body of the block,
    append its fixes to [allFixes], and give the block back as it was
    when nothing was fixed. *)
Definition blockReplacer : replacer (list str) :=
  fun r allFixes =>
    let res := fixMermaidCode (groupText 2 r) in
    (if 0 <? List.length (fixes res)
     then groupText 1 r ++ output res ++ groupText 3 r
     else groupText 0 r,
     allFixes ++ fixes res).

Definition fixMermaidInDocument (fullText : str) (isRawMermaid : bool)
    : FixResult :=
  if isRawMermaid then
    let res := fixMermaidCode fullText in
    mkFix (u16 "```mermaid" ++ [10%Z] ++ output res ++ [10%Z] ++ u16 "```")
      ([u16 "Auto-wrapped raw Mermaid in ```mermaid code fence"] ++ fixes res)
      true
  else
    let (result, allFixes) :=
      replaceWith mermaidBlockRegex fullText blockReplacer [] in
    mkFix result allFixes (0 <? List.length allFixes).

End MermaidFixer.

Import ContentDetector MermaidFixer.

(** ** What a match is

    [Match ic ml r x y]: the pattern [r] can take the matcher from state
    [x] to state [y].  The backtracking matcher explores exactly these
    moves, in its order of preference. *)

Inductive Match (ic ml : bool) : regex -> state -> state -> Prop :=
| MEmpty x : Match ic ml Empty x x
| MChar ch b a t caps :
    charMatches ic ch a = true ->
    Match ic ml (Char ch) (mkState b (a :: t) caps) (mkState (a :: b) t caps)
| MSet p b a t caps :
    setMatches ic p a = true ->
    Match ic ml (CharSet p) (mkState b (a :: t) caps) (mkState (a :: b) t caps)
| MSeq r1 r2 x y z :
    Match ic ml r1 x y -> Match ic ml r2 y z -> Match ic ml (Seq r1 r2) x z
| MAltL r1 r2 x y : Match ic ml r1 x y -> Match ic ml (Alt r1 r2) x y
| MAltR r1 r2 x y : Match ic ml r2 x y -> Match ic ml (Alt r1 r2) x y
| MStop min max g r x :
    min = 0 \/ isZero max = true -> Match ic ml (Quant min max g r) x x
| MStep min max g r x y z :
    isZero max = false ->
    Match ic ml r x y ->
    (min = 0 -> List.length (after y) <> List.length (after x)) ->
    Match ic ml (Quant (pred min) (option_map pred max) g r) y z ->
    Match ic ml (Quant min max g r) x z
| MGroup n r x y :
    Match ic ml r x y ->
    Match ic ml (Group n r) x
      (mkState (before y) (after y) ((n, consumed x y) :: captures y))
| MStart x : atLineStart ml x = true -> Match ic ml AssertStart x x
| MEnd x : atLineEnd ml x = true -> Match ic ml AssertEnd x x
| MWord x : atWordBoundary x = true -> Match ic ml WordBoundary x x.

#[local] Hint Constructors Match : core.

(** [m] is a match of [R] in the string it was found in. *)
Definition MatchAt (R : RegExp) (m : MatchResult) : Prop :=
  exists y,
    Match (ignoreCase R) (multiline R) (pattern R)
      (mkState (m_before m) (m_text m ++ m_after m) []) y
    /\ after y = m_after m /\ captures y = m_captures m.

(** [Spliced R f b a st out st']: scanning the text [a] that follows
    [b], the matches of [R] are replaced as [f] says and everything
    between them is copied, giving [out]; [f] takes the state from [st]
    to [st']. *)
Inductive Spliced (S : Type) (R : RegExp) (f : replacer S)
  : str -> str -> S -> str -> S -> Prop :=
| SplNone b a st : execFrom R b a = None -> Spliced R f b a st a st
| SplMatch b gap m st out st' :
    execFrom R b (gap ++ m_text m ++ m_after m) = Some m ->
    m_before m = rev gap ++ b ->
    m_text m <> [] ->
    MatchAt R m ->
    Spliced R f (rev (m_text m) ++ m_before m) (m_after m) (snd (f m st)) out st' ->
    Spliced R f b (gap ++ m_text m ++ m_after m) st (gap ++ fst (f m st) ++ out) st'.

Definition NonEmptyMatches (R : RegExp) : Prop :=
  forall m, MatchAt R m -> m_text m <> [].

(** The matcher moved from [x] to [y] over the text [w]. *)
Definition Moves (x : state) (w : str) (y : state) : Prop :=
  after x = w ++ after y /\ before y = rev w ++ before x.

Definition charsMatch (ic : bool) (s w : str) : Prop :=
  Forall2 (fun c a => charMatches ic c a = true) s w.

Definition allMatch (ic : bool) (p : Z -> bool) (w : str) : Prop :=
  Forall (fun a => setMatches ic p a = true) w.

(** ** Sample inputs and the specification's reading of a fence *)

Definition newline : str := [10%Z].

(** A commit whose [type:] and [tag:] clauses each sit on a line of
    their own, in that order. *)
Definition typeThenTag : str :=
  u16 "commit a" ++ newline ++ u16 " type: b" ++ newline
    ++ u16 " tag: " ++ [dquote] ++ u16 "c" ++ [dquote].

(** A flowchart whose second line begins with a miscapitalized diagram
    keyword. *)
Definition keywordOnSecondLine : str :=
  u16 "graph TD" ++ newline ++ u16 "gitgraph --> B".

(** A commit line followed by a [tag:] clause that is not indented. *)
Definition commitLine : str := u16 "commit id: a".
Definition tagClause : str := u16 "tag: " ++ [dquote] ++ u16 "v1" ++ [dquote].
Definition unindentedTag : str := commitLine ++ newline ++ tagClause.

(** A git graph whose bare [commit] line is followed by an indented
    [tag:] clause on a line of its own, and the text with the clause
    moved to the commit line. *)
Definition bareCommitTag : str :=
  u16 "gitGraph" ++ newline ++ u16 "    commit" ++ newline
    ++ u16 "    tag: " ++ [dquote] ++ u16 "v1.0" ++ [dquote].

Definition bareCommitTagMerged : str :=
  u16 "gitGraph" ++ newline
    ++ u16 "    commit tag: " ++ [dquote] ++ u16 "v1.0" ++ [dquote].

(** A bare diagram whose last line is a list marker followed by a
    space, and one whose last line is a rule followed by a space. *)
Definition markerBeforeTrim : str := u16 "graph TD" ++ newline ++ u16 "- ".
Definition ruleAfterTrim : str := u16 "graph TD" ++ newline ++ u16 "--- ".





(** ** Shapes of text the claims speak about *)

Definition allSpace (ws : str) : Prop := Forall (fun c => isSpace c = true) ws.

(** The text holds an opening fence: the fence token, the language tag
    in any case, optional white space and a newline. *)
Definition HasOpeningFence (text : str) : Prop :=
  exists pre tag ws post,
    fold tag = fold (u16 "mermaid") /\ allSpace ws
    /\ text = pre ++ fence ++ tag ++ ws ++ newline ++ post.

(** The text holds a complete delimited block: an opening fence, a
    body and a closing fence. *)
Definition HasCompleteBlock (text : str) : Prop :=
  exists pre tag ws body post,
    fold tag = fold (u16 "mermaid") /\ allSpace ws
    /\ text = pre ++ fence ++ tag ++ ws ++ newline ++ body ++ fence ++ post.

(** The number of places where the fence token is at once followed by
    the language tag, in any case. *)
Fixpoint fenceTagCount (s : str) : nat :=
  (if startsWith (fold s) (fold (u16 "```mermaid")) then 1 else 0)
  + match s with
    | [] => 0
    | _ :: s' => fenceTagCount s'
    end.

(** The number of backticks in a text. *)
Definition backticks (s : str) : nat := List.length (filter (Z.eqb 96) s).

(** All the code units of [w] are among those of [l]. *)
Definition allIn (l w : str) : Prop := Forall (fun a => oneOf l a = true) w.

(** The text before a position where a line starts: nothing, or text
    that ends with a line terminator. *)
Definition endsLine (b : str) : Prop :=
  match b with
  | [] => True
  | c :: _ => isLineTerminator c = true
  end.

(** The text before a keyword: nothing, or text that ends with white
    space (a line terminator is white space). *)
Definition endsSpace (pre : str) : Prop :=
  pre = [] \/ exists pre' c, pre = pre' ++ [c] /\ isSpace c = true.

(** [code'] is [code] with one miscapitalized spelling [kw] of the
    keyword [K] spelled as [K]. *)
Definition Respelled (K code code' : str) : Prop :=
  exists pre kw post,
    code = pre ++ kw ++ post /\ code' = pre ++ K ++ post
    /\ kw <> K /\ fold kw = fold K /\ endsSpace pre.

(** What the five capitalization patterns have in common: a match is
    white space from the start of a line, a spelling of the keyword [K]
    as second group and maybe a suffix, and the template puts [K] in
    the place of the spelling. *)
Definition CapShape (R : RegExp) (K tmpl : str) : Prop :=
  global R = false
  /\ forall m, MatchAt R m ->
       exists ws kw sfx,
         m_text m = ws ++ kw ++ sfx /\ groupText 2 m = kw /\ fold kw = fold K
         /\ allSpace ws /\ endsLine (m_before m)
         /\ getSubstitution (groupCount (pattern R)) m tmpl = ws ++ K ++ sfx.

Definition noSpace (k : str) : Prop := Forall (fun c => isSpace c = false) k.

(** [s] differs from [s0] inside a place where [s0] has, after nothing
    or white space, a spelling of one of the keywords [Ks]. *)
Definition DiffersAt (Ks : list str) (s0 s : str) : Prop :=
  exists K pre kw post pre' seg post',
    In K Ks /\ s0 = pre ++ kw ++ post /\ fold kw = fold K /\ endsSpace pre
    /\ s = pre' ++ seg ++ post'
    /\ List.length pre' = List.length pre /\ List.length seg = List.length kw
    /\ seg <> kw.

(** The canonical keywords of Fix 1 to Fix 5. *)
Definition canonicalKeywords : list str :=
  map u16 ["gitGraph"; "sequenceDiagram"; "classDiagram"; "stateDiagram";
           "erDiagram"]%string.

(** The state of the capitalization fixes, started from text [c0] and
    fixes [f0]: nothing has changed, or the text differs from [c0] at a
    keyword and fixes were added. *)
Definition CapInv (Ks : list str) (c0 : str) (f0 : list str)
    (st : str * list str) : Prop :=
  fold (fst st) = fold c0
  /\ ((fst st = c0 /\ snd st = f0)
      \/ (DiffersAt Ks c0 (fst st)
          /\ exists more, more <> [] /\ snd st = f0 ++ more)).

(** What Fix 6 and Fix 7 need of their pattern: a match is a first
    group, then line breaks, then a second group that begins with a
    blank. *)
Definition MergeShape (R : RegExp) : Prop :=
  global R = true
  /\ forall m, MatchAt R m ->
       exists c1 nls b c2,
         m_text m = c1 ++ nls ++ b :: c2
         /\ nls <> [] /\ allIn [13; 10]%Z nls /\ oneOf [32; 9]%Z b = true
         /\ groupText 1 m = c1 /\ groupText 2 m = b :: c2.

(** ** The pairs that the tag rule merges *)

Definition blanks (w : str) : Prop := allIn [32; 9]%Z w.
Definition lineBreaks (w : str) : Prop := allIn [13; 10]%Z w.

(** A line that the tag pattern takes for a commit: optional blanks,
    [commit] or [merge], at least one blank, and the rest of the line. *)
Definition CommitLine (line : str) : Prop :=
  exists ind kw sp rest,
    line = ind ++ kw ++ sp ++ rest
    /\ blanks ind /\ (kw = u16 "commit" \/ kw = u16 "merge")
    /\ sp <> [] /\ blanks sp /\ Forall (fun c => isDot c = true) rest.

(** A tag clause: [tag:], at least one blank, and a value between
    double quotes. *)
Definition TagClause (clause : str) : Prop :=
  exists sp value,
    clause = u16 "tag:" ++ sp ++ [dquote] ++ value ++ [dquote]
    /\ sp <> [] /\ blanks sp /\ Forall (fun c => noneOf [dquote] c = true) value.

(** A pair to merge, with the text before and after it: at the start of
    a line a commit line, then line breaks, then an indented tag
    clause. *)
Definition TagPair (pre line nls ind clause : str) : Prop :=
  endsLine (rev pre) /\ CommitLine line
  /\ nls <> [] /\ lineBreaks nls /\ ind <> [] /\ blanks ind /\ TagClause clause.

Definition HasTagPair (s : str) : Prop :=
  exists pre line nls ind clause post,
    TagPair pre line nls ind clause
    /\ s = pre ++ line ++ nls ++ ind ++ clause ++ post.

(** One merge: the clause goes to the end of the commit line, after a
    single space; nothing else changes. *)
Inductive TagMerge : str -> str -> Prop :=
| tagMerge pre line nls ind clause post :
    TagPair pre line nls ind clause ->
    TagMerge (pre ++ line ++ nls ++ ind ++ clause ++ post)
      (pre ++ line ++ u16 " " ++ clause ++ post).

(** [n] merges, one after the other. *)
Inductive TagMerges : nat -> str -> str -> Prop :=
| tagMerges0 s : TagMerges 0 s s
| tagMergesS n s t u : TagMerge s t -> TagMerges n t u -> TagMerges (S n) s u.

(** The state of [fixMermaidCode] when Fix 6 begins: Fix 0 to Fix 5 have
    run. *)
Definition beforeFixTag (source : str) : str * list str :=
  fixCapitalization erRegex (u16 "erDiagram") (u16 "$1erDiagram")
    (fixCapitalization stateRegex (u16 "stateDiagram") (u16 "$1stateDiagram$3")
       (fixCapitalization classRegex (u16 "classDiagram") (u16 "$1classDiagram")
          (fixCapitalization seqRegex (u16 "sequenceDiagram")
             (u16 "$1sequenceDiagram")
             (fixCapitalization gitGraphRegex (u16 "gitGraph") (u16 "$1gitGraph")
                (removeInvisible source))))).

(** The summary entry of the tag rule for [n] merges: none when nothing
    was merged. *)
Definition tagSummary (n : nat) : list str :=
  if 0 <? n then [mergeMessage "tag:" n] else [].

Definition isTagSummary (msg : str) : Prop := exists k, msg = mergeMessage "tag:" k.

(** The two groups of the tag pattern: the commit line, and the tag
    clause without its indentation. *)
Definition tagLine : regex :=
  seqs [star blank; keyword ["commit"; "merge"]%string; plus blank; star dot].

Definition tagPart : regex :=
  seqs [lit (u16 "tag:"); plus blank; Char dquote;
        star (CharSet (noneOf [dquote])); Char dquote].

(** [Consumes r w caps]: wherever the text [w] stands, the pattern [r]
    (free of groups, without [i], with [m]) can move over it, with the
    captures [caps] in hand. *)
Definition Consumes (r : regex) (w : str) (caps : list (nat * str)) : Prop :=
  forall b a,
    Match false true r (mkState b (w ++ a) caps) (mkState (rev w ++ b) a caps).

(** ** The line that [looksLikeMermaid] reads *)

(** The first line of the trimmed text, trimmed and in lower case. *)
Definition firstLineOf (text : str) : str :=
  toLowerCase (trim (hd [] (split 10 (trim text)))).

(** The loop over [MERMAID_KEYWORDS_LOWER]: the line is a keyword, or
    begins with a keyword and a space or a tab. *)
Definition keywordLine (firstLine : str) : bool :=
  existsb
    (fun keyword =>
       str_eqb firstLine keyword
       || startsWith firstLine (keyword ++ u16 " ")
       || startsWith firstLine (keyword ++ [9%Z]))
    MERMAID_KEYWORDS_LOWER.

Definition noNewline (l : str) : Prop := Forall (fun c => c <> 10%Z) l.

(** [line] is the first line of [text] that is not blank, with or
    without the white space it begins with: only white space stands
    before it, and it runs to the next newline or to the end of the
    text. *)
Definition FirstLine (text line : str) : Prop :=
  exists ws rest,
    text = ws ++ line ++ rest /\ allSpace ws /\ noNewline line
    /\ ~ allSpace line /\ (rest = [] \/ exists r, rest = newline ++ r).

(** The line is one of the keywords in lower case, or begins with one
    of them followed by a space or a tab. *)
Definition StartsWithKeyword (line : str) : Prop :=
  exists keyword,
    In keyword MERMAID_KEYWORDS_LOWER
    /\ (line = keyword
        \/ exists b rest, (b = 32%Z \/ b = 9%Z) /\ line = keyword ++ b :: rest).

(** ** Text without Markdown punctuation *)

(** Every Markdown pattern but the one for ordered lists needs one of
    these characters. *)
Definition markdownMarks : str := u16 "#-*+[~>|=`".

(** Plain text: none of the marks, and no digit at once followed by a
    full stop (which the pattern for ordered lists needs). *)
Definition plainText (text : str) : Prop :=
  Forall (fun c => oneOf markdownMarks c = false) text
  /\ forall pre d post, text = pre ++ d :: 46%Z :: post -> isDigit d = false.

(** [Needs P r]: every match of the pattern [r] (without the [i] flag)
    runs over a code unit that satisfies [P]. *)
Inductive Needs (P : Z -> bool) : regex -> Prop :=
| NeedsChar c : P c = true -> Needs P (Char c)
| NeedsSet p : (forall a, p a = true -> P a = true) -> Needs P (CharSet p)
| NeedsSeqL r1 r2 : Needs P r1 -> Needs P (Seq r1 r2)
| NeedsSeqR r1 r2 : Needs P r2 -> Needs P (Seq r1 r2)
| NeedsAlt r1 r2 : Needs P r1 -> Needs P r2 -> Needs P (Alt r1 r2)
| NeedsQuant min max g r :
    1 <= min -> isZero max = false -> Needs P r -> Needs P (Quant min max g r)
| NeedsGroup n r : Needs P r -> Needs P (Group n r).

(** ** What the fixer leaves of a text *)

(** The four code units that Fix 0 takes away: the zero-width space,
    non-joiner and joiner, and the byte order mark. *)
Definition invisible (c : Z) : bool := oneOf [8203; 8204; 8205; 65279]%Z c.

Definition visibleText (s : str) : str := filter (fun c => negb (invisible c)) s.

Definition removedMessage : str :=
  u16 "Removed invisible characters (BOM/zero-width)".

(** A text with white space, invisible code units and the case of Basic
    Latin letters set aside. *)
Definition essence (s : str) : str :=
  filter (fun c => negb (isSpace c || invisible c)) (fold s).

(** ** The pairs that the type rule merges *)

(** A line that the type pattern takes for a commit: optional blanks,
    [commit], at least one blank, and the rest of the line.  A [merge]
    line is not taken. *)
Definition TypeCommitLine (line : str) : Prop :=
  exists ind sp rest,
    line = ind ++ u16 "commit" ++ sp ++ rest
    /\ blanks ind /\ sp <> [] /\ blanks sp
    /\ Forall (fun c => isDot c = true) rest.

(** A type clause: [type:], at least one blank, and a value of one or
    more word characters. *)
Definition TypeClause (clause : str) : Prop :=
  exists sp value,
    clause = u16 "type:" ++ sp ++ value
    /\ sp <> [] /\ blanks sp
    /\ value <> [] /\ Forall (fun c => isWordChar c = true) value.

Definition TypePair (pre line nls ind clause : str) : Prop :=
  endsLine (rev pre) /\ TypeCommitLine line
  /\ nls <> [] /\ lineBreaks nls /\ ind <> [] /\ blanks ind /\ TypeClause clause.

Definition HasTypePair (s : str) : Prop :=
  exists pre line nls ind clause post,
    TypePair pre line nls ind clause
    /\ s = pre ++ line ++ nls ++ ind ++ clause ++ post.

Inductive TypeMerge : str -> str -> Prop :=
| typeMerge pre line nls ind clause post :
    TypePair pre line nls ind clause ->
    TypeMerge (pre ++ line ++ nls ++ ind ++ clause ++ post)
      (pre ++ line ++ u16 " " ++ clause ++ post).

Inductive TypeMerges : nat -> str -> str -> Prop :=
| typeMerges0 s : TypeMerges 0 s s
| typeMergesS n s t u : TypeMerge s t -> TypeMerges n t u -> TypeMerges (S n) s u.

Definition typeSummary (n : nat) : list str :=
  if 0 <? n then [mergeMessage "type:" n] else [].

(** The two groups of the type pattern: the commit line, and the type
    clause without its indentation. *)
Definition typeLine : regex :=
  seqs [star blank; lit (u16 "commit"); plus blank; star dot].

Definition typePart : regex :=
  seqs [lit (u16 "type:"); plus blank; plus (CharSet isWordChar)].

(** The body of a block does not begin with a blank line. *)
Definition firstLineNotBlank (body : str) : Prop :=
  forall w r, body = w ++ newline ++ r -> ~ allSpace w.

(** ** Documents, block by block *)

(** [text] begins with a delimited block: the fence token, the language
    tag in any case, white space, a newline, a body and a closing
    fence. *)
Definition BeginsBlock (text : str) : Prop :=
  exists tag ws body post,
    fold tag = fold (u16 "mermaid") /\ allSpace ws
    /\ text = fence ++ tag ++ ws ++ newline ++ body ++ fence ++ post.

(** The first block of a text, as the block pattern reads it: no block
    begins in the [gap] before it; the white space after the tag runs
    to the last newline it can, so the body does not begin with a blank
    line; and the body ends at the first fence token that follows,
    so no fence token begins inside it. *)
Definition FirstBlock (gap tag ws body rest : str) : Prop :=
  fold tag = fold (u16 "mermaid") /\ allSpace ws
  /\ (forall g1 g2,
        gap = g1 ++ g2 -> g2 <> [] ->
        ~ BeginsBlock
            (g2 ++ fence ++ tag ++ ws ++ newline ++ body ++ fence ++ rest))
  /\ firstLineNotBlank body
  /\ (forall b1 b2 r,
        body = b1 ++ b2 -> b2 <> [] -> b2 ++ fence ++ rest <> fence ++ r).

(** [Blocks doc doc' fx]: [doc] read block after block, each time the
    first block of what is left, down to a rest that holds no block;
    [doc'] is [doc] with the body of each block replaced by what
    [fixMermaidCode] makes of it, everything else copied, and [fx] is
    the fix lists of the bodies, one after the other. *)
Inductive Blocks : str -> str -> list str -> Prop :=
| BlocksDone text : ~ HasCompleteBlock text -> Blocks text text []
| BlocksNext gap tag ws body rest rest' fx :
    FirstBlock gap tag ws body rest ->
    Blocks rest rest' fx ->
    Blocks (gap ++ fence ++ tag ++ ws ++ newline ++ body ++ fence ++ rest)
      (gap ++ fence ++ tag ++ ws ++ newline ++ output (fixMermaidCode body)
         ++ fence ++ rest')
      (MermaidFixer.fixes (fixMermaidCode body) ++ fx).

(** ** [String.prototype.split] with a pattern

    [s.split(R)] without a limit, for a pattern without a group (a
    group would add its capture to the list after each piece).  The
    pattern is tried at [q] only; [piece] is the text from [p] to [q],
    [b] the text before [q], most recent code unit first, and [a] the
    text from [q] on.  A match that ends at [p] is passed over.  Each
    turn either moves [q] forward or empties [piece], so [fuel], set to
    twice the length of the string plus two, never runs out. *)
Fixpoint splitLoop (R : RegExp) (fuel : nat) (piece b a : str) : list str :=
  match fuel with
  | 0 => [piece ++ a]
  | S fuel' =>
      match a with
      | [] => [piece]
      | c :: a' =>
          let x := mkState b a [] in
          match matcher (ignoreCase R) (multiline R) (pattern R) Some x with
          | None => splitLoop R fuel' (piece ++ [c]) (c :: b) a'
          | Some y =>
              match piece, consumed x y with
              | [], [] => splitLoop R fuel' (piece ++ [c]) (c :: b) a'
              | _, _ =>
                  piece
                    :: splitLoop R fuel' [] (rev (consumed x y) ++ b) (after y)
              end
          end
      end
  end.

(** The empty string gives no piece when the pattern matches it, and
    itself otherwise. *)
Definition splitBy (R : RegExp) (s : str) : list str :=
  match s with
  | [] =>
      match matcher (ignoreCase R) (multiline R) (pattern R) Some
              (mkState [] [] []) with
      | Some _ => []
      | None => [[]]
      end
  | _ :: _ => splitLoop R (2 * List.length s + 2) [] [] s
  end.

(** ** A diagram keyword at the start of the text *)

(** What follows the keyword: nothing, or text that begins with a code
    unit that is not a word character. *)
Definition startsNonWord (rest : str) : Prop :=
  match rest with
  | [] => True
  | c :: _ => isWordChar c = false
  end.

(** The message of a capitalization fix. *)
Definition capMessage (kw K : str) : str :=
  u16 "Fixed capitalization: " ++ [dquote] ++ kw ++ [dquote] ++ u16 " "
    ++ [rightArrow] ++ u16 " " ++ [dquote] ++ K ++ [dquote].

(** The pattern [R] matches at the start of a text that begins, after
    white space, with a spelling of the keyword [K] followed by a word
    boundary. *)
Definition CapStarts (R : RegExp) (K : str) : Prop :=
  forall ws kw rest,
    allSpace ws -> fold kw = fold K -> startsNonWord rest ->
    exists y,
      Match (ignoreCase R) (multiline R) (pattern R)
        (mkState [] (ws ++ kw ++ rest) []) y.

(** ** App.tsx: what the component computes from the text *)

Module App.

(** [const isRawMermaid = detection.type === "mermaid"] *)
Definition isMermaidType (t : ContentType) : bool :=
  match t with
  | mermaid => true
  | _ => false
  end.

(** The two memoized values [detection] and [fixResult], and what the
    component reads off them. *)
Definition detection (markdownText : str) : DetectionResult :=
  detectContentType markdownText.

Definition fixResult (markdownText : str) : FixResult :=
  let isRawMermaid := isMermaidType (type (detection markdownText)) in
  fixMermaidInDocument markdownText isRawMermaid.

Definition processedText (markdownText : str) : str :=
  output (fixResult markdownText).

Definition appliedFixes (markdownText : str) : list str :=
  MermaidFixer.fixes (fixResult markdownText).

Definition hasAutoFixes (markdownText : str) : bool :=
  0 <? List.length (appliedFixes markdownText).

(** [markdownText.split("\n").length] and [markdownText.length] *)
Definition lines (markdownText : str) : nat :=
  List.length (split 10 markdownText).

Definition chars (markdownText : str) : nat := List.length markdownText.

(** [markdownText.trim() ? markdownText.trim().split(/\s+/).length : 0] *)
Definition words (markdownText : str) : nat :=
  match trim markdownText with
  | [] => 0
  | _ :: _ =>
      List.length
        (splitBy (mkRegExp (plus space) false false false) (trim markdownText))
  end.

(** [/&/g], [/</g] and [/>/g] *)
Definition ampRegex : RegExp := mkRegExp (Char 38) false false true.
Definition ltRegex : RegExp := mkRegExp (Char 60) false false true.
Definition gtRegex : RegExp := mkRegExp (Char 62) false false true.

(** [errMsg.replace(/&/g, "&amp;").replace(/</g, "&lt;").replace(/>/g, "&gt;")],
    which is also what the renderer does with the text of a code block
    when the highlighter fails. *)
Definition safeMsg (errMsg : str) : str :=
  replace gtRegex
    (replace ltRegex (replace ampRegex errMsg (u16 "&amp;")) (u16 "&lt;"))
    (u16 "&gt;").

(** [String(n)] for an integer [n] of size below 10^21: its decimal
    digits, after a minus sign when it is negative. *)
Definition showN (n : N) : str := u16 (NilEmpty.string_of_uint (N.to_uint n)).

Definition showZ (z : Z) : str :=
  (if (z <? 0)%Z then u16 "-" else []) ++ showN (Z.abs_N z).

(** [mermaidIdCounter += 1] on a Number that holds a natural number:
    exact below 2^53, where adding 1 rounds back to 2^53. *)
Definition increment (n : Z) : Z :=
  if (n <? 2 ^ 53)%Z then (n + 1)%Z else n.

(** [nextMermaidId] with the value of [Date.now()] and of the counter
    when it is called; it gives the id and the new counter. *)
Definition nextMermaidId (now mermaidIdCounter : Z) : str * Z :=
  let mermaidIdCounter := increment mermaidIdCounter in
  (u16 "mmd-" ++ showZ now ++ u16 "-" ++ showZ mermaidIdCounter, mermaidIdCounter).

(** The ids of successive calls, made at the given times. *)
Fixpoint mermaidIds (times : list Z) (mermaidIdCounter : Z) : list str :=
  match times with
  | [] => []
  | now :: rest =>
      let (id, counter) := nextMermaidId now mermaidIdCounter in
      id :: mermaidIds rest counter
  end.

End App.

Import App.

(** One code unit, escaped for HTML text. *)
Definition escapeUnit (c : Z) : str :=
  if (c =? 38)%Z then u16 "&amp;"
  else if (c =? 60)%Z then u16 "&lt;"
  else if (c =? 62)%Z then u16 "&gt;"
  else [c].

(** Every ampersand of the text begins one of the three entities. *)
Definition ampersandsEscaped (out : str) : Prop :=
  forall pre post, out = pre ++ 38%Z :: post ->
    startsWith post (u16 "amp;") = true
    \/ startsWith post (u16 "lt;") = true
    \/ startsWith post (u16 "gt;") = true.

(** ** The wording of the Mixed results *)

(** The plural ending for [n] diagrams. *)
Definition plural (n : nat) : str := if 1 <? n then u16 "s" else [].

(** ** The diagram source in the placeholder: [encodeURIComponent],
    [btoa], [atob] and [decodeURIComponent]

    The renderer stores the source of a diagram in an attribute of its
    placeholder as [btoa(encodeURIComponent(text))]; the effect that
    draws the diagrams and the export read it back with
    [decodeURIComponent(atob(encoded))].  The four functions follow
    ECMA-262 (Encode and Decode of the URI handling functions) and the
    HTML standard (forgiving-base64 encode and decode); a thrown
    [URIError] or [InvalidCharacterError] is [None]. *)

Module Codec.

Definition isLeadingSurrogate (c : Z) : bool := inRange 55296 56319 c.
Definition isTrailingSurrogate (c : Z) : bool := inRange 56320 57343 c.

(** UTF16SurrogatePairToCodePoint *)
Definition surrogatePairToCodePoint (lead trail : Z) : Z :=
  ((lead - 55296) * 1024 + (trail - 56320) + 65536)%Z.

(** The UTF-8 encoding of a code point. *)
Definition utf8Encode (cp : Z) : list Z :=
  if (cp <=? 127)%Z then [cp]
  else if (cp <=? 2047)%Z then [192 + cp / 64; 128 + cp mod 64]%Z
  else if (cp <=? 65535)%Z then
    [224 + cp / 4096; 128 + (cp / 64) mod 64; 128 + cp mod 64]%Z
  else
    [240 + cp / 262144; 128 + (cp / 4096) mod 64; 128 + (cp / 64) mod 64;
     128 + cp mod 64]%Z.

(** An upper-case hexadecimal digit, and an octet as [%XX]. *)
Definition hexDigit (n : Z) : Z := if (n <? 10)%Z then (48 + n)%Z else (55 + n)%Z.

Definition percentEncode (octet : Z) : str :=
  [37%Z; hexDigit (octet / 16); hexDigit (octet mod 16)].

(** The code units that [encodeURIComponent] leaves alone: the ASCII
    word characters and [-.!~*'()]. *)
Definition uriUnescaped (c : Z) : bool := isWordChar c || oneOf (u16 "-.!~*'()") c.

(** Encode, with CodePointAt written out: a code unit that is not
    left alone is read as a code point, together with the next code
    unit when the two make a surrogate pair; a surrogate without its
    partner throws. *)
Fixpoint encodeURIComponent (s : str) : option str :=
  match s with
  | [] => Some []
  | c :: rest =>
      if uriUnescaped c then option_map (cons c) (encodeURIComponent rest)
      else if isLeadingSurrogate c then
        match rest with
        | d :: rest' =>
            if isTrailingSurrogate d then
              option_map
                (app (flat_map percentEncode
                        (utf8Encode (surrogatePairToCodePoint c d))))
                (encodeURIComponent rest')
            else None
        | [] => None
        end
      else if isTrailingSurrogate c then None
      else
        option_map (app (flat_map percentEncode (utf8Encode c)))
          (encodeURIComponent rest)
  end.

(** The base64 alphabet. *)
Definition base64Char (n : Z) : Z :=
  if (n <? 26)%Z then (65 + n)%Z
  else if (n <? 52)%Z then (71 + n)%Z
  else if (n <? 62)%Z then (n - 4)%Z
  else if (n =? 62)%Z then 43%Z
  else 47%Z.

Definition base64Value (c : Z) : option Z :=
  if inRange 65 90 c then Some (c - 65)%Z
  else if inRange 97 122 c then Some (c - 71)%Z
  else if inRange 48 57 c then Some (c + 4)%Z
  else if (c =? 43)%Z then Some 62%Z
  else if (c =? 47)%Z then Some 63%Z
  else None.

(** Base64 with padding, three octets at a time. *)
Fixpoint base64Encode (bytes : list Z) : str :=
  match bytes with
  | a :: b :: c :: rest =>
      [base64Char (a / 4); base64Char ((a mod 4) * 16 + b / 16);
       base64Char ((b mod 16) * 4 + c / 64); base64Char (c mod 64)]
        ++ base64Encode rest
  | [a; b] =>
      [base64Char (a / 4); base64Char ((a mod 4) * 16 + b / 16);
       base64Char ((b mod 16) * 4); 61%Z]
  | [a] => [base64Char (a / 4); base64Char ((a mod 4) * 16); 61%Z; 61%Z]
  | [] => []
  end.

(** [btoa]: a code unit above U+00FF throws. *)
Definition btoa (data : str) : option str :=
  if forallb (fun c => (c <=? 255)%Z) data then Some (base64Encode data) else None.

Definition isAsciiWhitespace (c : Z) : bool := oneOf [9; 10; 12; 13; 32]%Z c.

(** Take away one or two [=] at the end. *)
Definition stripPadding (data : str) : str :=
  match rev data with
  | 61%Z :: 61%Z :: r => rev r
  | 61%Z :: r => rev r
  | _ => data
  end.

Fixpoint sextets (data : str) : option (list Z) :=
  match data with
  | [] => Some []
  | c :: rest =>
      match base64Value c, sextets rest with
      | Some v, Some vs => Some (v :: vs)
      | _, _ => None
      end
  end.

(** The octets of a run of 6-bit values; at the end, 12 bits give one
    octet and 18 bits give two, the bits left over being dropped. *)
Fixpoint octetsOf (values : list Z) : list Z :=
  match values with
  | s1 :: s2 :: s3 :: s4 :: rest =>
      [s1 * 4 + s2 / 16; (s2 mod 16) * 16 + s3 / 4; (s3 mod 4) * 64 + s4]%Z
        ++ octetsOf rest
  | [s1; s2; s3] => [s1 * 4 + s2 / 16; (s2 mod 16) * 16 + s3 / 4]%Z
  | [s1; s2] => [s1 * 4 + s2 / 16]%Z
  | _ => []
  end.

(** [atob], the forgiving-base64 decode. *)
Definition atob (data : str) : option str :=
  let data := filter (fun c => negb (isAsciiWhitespace c)) data in
  let data :=
    if Nat.eqb (List.length data mod 4) 0 then stripPadding data else data in
  if Nat.eqb (List.length data mod 4) 1 then None
  else option_map octetsOf (sextets data).

Definition hexValue (c : Z) : option Z :=
  if isDigit c then Some (c - 48)%Z
  else if inRange 65 70 c then Some (c - 55)%Z
  else if inRange 97 102 c then Some (c - 87)%Z
  else None.

(** ParseHexOctet *)
Definition parseHexOctet (h l : Z) : option Z :=
  match hexValue h, hexValue l with
  | Some a, Some b => Some (16 * a + b)%Z
  | _, _ => None
  end.

(** The number of leading 1 bits of an octet. *)
Definition leadingOnes (B : Z) : nat :=
  if (B <? 128)%Z then 0
  else if (B <? 192)%Z then 1
  else if (B <? 224)%Z then 2
  else if (B <? 240)%Z then 3
  else if (B <? 248)%Z then 4
  else 5.

(** The [n] continuation octets that follow, each written [%XX]. *)
Fixpoint continuationBytes (n : nat) (s : str) : option (list Z * str) :=
  match n with
  | 0 => Some ([], s)
  | S n' =>
      match s with
      | 37%Z :: h :: l :: rest =>
          match parseHexOctet h l with
          | Some B =>
              match continuationBytes n' rest with
              | Some (bs, r) => Some (B :: bs, r)
              | None => None
              end
          | None => None
          end
      | _ => None
      end
  end.

Definition isContinuation (b : Z) : bool := inRange 128 191 b.

(** The code point of a well-formed UTF-8 sequence of two to four
    octets: the shortest form only, no surrogate, nothing above
    U+10FFFF. *)
Definition utf8Decode (octets : list Z) : option Z :=
  match octets with
  | [b0; b1] =>
      if inRange 194 223 b0 && isContinuation b1
      then Some ((b0 - 192) * 64 + (b1 - 128))%Z
      else None
  | [b0; b1; b2] =>
      let cp := ((b0 - 224) * 4096 + (b1 - 128) * 64 + (b2 - 128))%Z in
      if inRange 224 239 b0 && isContinuation b1 && isContinuation b2
         && (2048 <=? cp)%Z && negb (inRange 55296 57343 cp)
      then Some cp
      else None
  | [b0; b1; b2; b3] =>
      let cp :=
        ((b0 - 240) * 262144 + (b1 - 128) * 4096 + (b2 - 128) * 64
         + (b3 - 128))%Z in
      if inRange 240 244 b0 && isContinuation b1 && isContinuation b2
         && isContinuation b3 && (65536 <=? cp)%Z && (cp <=? 1114111)%Z
      then Some cp
      else None
  | _ => None
  end.

(** UTF16EncodeCodePoint *)
Definition utf16Encode (cp : Z) : str :=
  if (cp <=? 65535)%Z then [cp]
  else [55296 + (cp - 65536) / 1024; 56320 + (cp - 65536) mod 1024]%Z.

(** Decode.  Each turn takes at least one code unit, so [fuel], the
    length of the text, is never used up. *)
Fixpoint decodeLoop (fuel : nat) (s : str) : option str :=
  match fuel with
  | 0 => match s with [] => Some [] | _ :: _ => None end
  | S fuel' =>
      match s with
      | [] => Some []
      | 37%Z :: rest =>
          match rest with
          | h :: l :: rest' =>
              match parseHexOctet h l with
              | None => None
              | Some B =>
                  let n := leadingOnes B in
                  if Nat.eqb n 0 then option_map (cons B) (decodeLoop fuel' rest')
                  else if Nat.eqb n 1 || (4 <? n) then None
                  else
                    match continuationBytes (n - 1) rest' with
                    | None => None
                    | Some (bs, rest'') =>
                        match utf8Decode (B :: bs) with
                        | None => None
                        | Some V =>
                            option_map (app (utf16Encode V))
                              (decodeLoop fuel' rest'')
                        end
                    end
              end
          | _ => None
          end
      | c :: rest => option_map (cons c) (decodeLoop fuel' rest)
      end
  end.

Definition decodeURIComponent (s : str) : option str :=
  decodeLoop (List.length s) s.

End Codec.

Import Codec.

(** [btoa(encodeURIComponent(text))] and
    [decodeURIComponent(atob(encoded))] as [App.tsx] writes them. *)
Definition encodeSource (text : str) : option str :=
  match encodeURIComponent text with
  | Some escaped => btoa escaped
  | None => None
  end.

Definition decodeSource (encoded : str) : option str :=
  match atob encoded with
  | Some escaped => decodeURIComponent escaped
  | None => None
  end.

(** No surrogate code unit stands without its partner. *)
Fixpoint wellFormed (s : str) : bool :=
  match s with
  | [] => true
  | c :: rest =>
      if isLeadingSurrogate c then
        match rest with
        | d :: rest' => isTrailingSurrogate d && wellFormed rest'
        | [] => false
        end
      else negb (isTrailingSurrogate c) && wellFormed rest
  end.

(** A code unit of a JavaScript string, and an octet. *)
Definition codeUnit (c : Z) : Prop := (0 <= c <= 65535)%Z.
Definition octet (b : Z) : Prop := (0 <= b <= 255)%Z.

(** A Unicode scalar value. *)
Definition scalar (cp : Z) : Prop :=
  (0 <= cp <= 1114111)%Z /\ ~ (55296 <= cp <= 57343)%Z.

Definition isBase64 (c : Z) : bool :=
  inRange 65 90 c || inRange 97 122 c || inRange 48 57 c
  || (c =? 43)%Z || (c =? 47)%Z || (c =? 61)%Z.

(** What [renderDiagrams] does with one placeholder, up to its call of
    [mermaid.render]: a placeholder without the attribute, or with an
    empty one, is passed over; a value that cannot be decoded goes to
    the error message. *)
Inductive Rendering : Type :=
| passedOver
| rendered (source : str)
| decodeFailed.

Definition renderDiagram (encoded : option str) : Rendering :=
  match encoded with
  | None => passedOver
  | Some [] => passedOver
  | Some ((_ :: _) as e) =>
      match decodeSource e with
      | Some source => rendered source
      | None => decodeFailed
      end
  end.

(** What [handleExport] puts in the place of a placeholder whose
    attribute value is [enc]. *)
Definition exportDiagram (enc : str) : str :=
  match decodeSource enc with
  | Some src =>
      u16 "<div class=" ++ [dquote] ++ u16 "mermaid" ++ [dquote] ++ u16 ">"
        ++ newline ++ src ++ newline ++ u16 "</div>"
  | None => u16 "<div>Error decoding diagram</div>"
  end.

(** ** Words

    The number of places of a text where a word starts: a code unit
    that is not white space, at the head of the text when
    [afterSpace] holds or right after white space.  It is the number
    of maximal runs of code units that are not white space. *)
Fixpoint wordStarts (afterSpace : bool) (s : str) : nat :=
  match s with
  | [] => 0
  | c :: s' =>
      if isSpace c then wordStarts true s'
      else (if afterSpace then 1 else 0) + wordStarts false s'
  end.

(** The same for the runs of white space. *)
Fixpoint spaceRuns (afterSpace : bool) (s : str) : nat :=
  match s with
  | [] => 0
  | c :: s' =>
      if isSpace c then (if afterSpace then 0 else 1) + spaceRuns true s'
      else spaceRuns false s'
  end.

(** The Markdown patterns without the sixth (bold) and the fifteenth
    (task lists). *)
Definition decidingPatterns : list RegExp :=
  firstn 5 mdPatterns ++ firstn 8 (skipn 6 mdPatterns).

(** * Properties of the matcher *)

Section MatcherTheory.

Variables ic ml : bool.

(** A match only moves the cursor forward. *)
Lemma Match_consumes r x y :
  Match ic ml r x y ->
  exists w, after x = w ++ after y /\ before y = rev w ++ before x.
Proof.
  assert (T : forall x y z w1 w2,
             after x = w1 ++ after y /\ before y = rev w1 ++ before x ->
             after y = w2 ++ after z /\ before z = rev w2 ++ before y ->
             after x = (w1 ++ w2) ++ after z
             /\ before z = rev (w1 ++ w2) ++ before x).
  { intros x0 y0 z0 w1 w2 [A1 B1] [A2 B2].
    rewrite A1, A2, B2, B1, rev_app_distr, !app_assoc. split; reflexivity. }
  induction 1; simpl.
  - exists []. split; reflexivity.
  - exists [a]. split; reflexivity.
  - exists [a]. split; reflexivity.
  - destruct IHMatch1 as (w1 & H1), IHMatch2 as (w2 & H2).
    exists (w1 ++ w2). eapply T; eauto.
  - assumption.
  - assumption.
  - exists []. split; reflexivity.
  - destruct IHMatch1 as (w1 & H1'), IHMatch2 as (w2 & H2').
    exists (w1 ++ w2). eapply T; eauto.
  - assumption.
  - exists []. split; reflexivity.
  - exists []. split; reflexivity.
  - exists []. split; reflexivity.
Qed.

Lemma Match_after_le r x y :
  Match ic ml r x y -> List.length (after y) <= List.length (after x).
Proof.
  intros H. destruct (Match_consumes H) as (w & A & _).
  rewrite A, length_app. lia.
Qed.

Lemma consumed_app b w caps y :
  consumed (mkState b (w ++ after y) caps) y = w.
Proof.
  unfold consumed. simpl. rewrite length_app.
  replace (List.length w + List.length (after y) - List.length (after y))
    with (List.length w) by lia.
  rewrite firstn_app, firstn_all, Nat.sub_diag. simpl. apply app_nil_r.
Qed.

Lemma Match_consumed r x y :
  Match ic ml r x y ->
  after x = consumed x y ++ after y /\ before y = rev (consumed x y) ++ before x.
Proof.
  intros H. destruct (Match_consumes H) as (w & A & B).
  assert (consumed x y = w) as ->; [| split; assumption].
  destruct x as [b a caps]. simpl in *. subst a. apply consumed_app.
Qed.

(** *** The matcher finds only matches *)

Lemma repeatMatcher_sound r g (m : cont -> cont) :
  (forall c x z, m c x = Some z -> exists y, Match ic ml r x y /\ c y = Some z) ->
  forall fuel min max c x z,
    repeatMatcher m fuel min max g c x = Some z ->
    exists y, Match ic ml (Quant min max g r) x y /\ c y = Some z.
Proof.
  intros Hm. induction fuel as [| fuel IH]; intros min max c x z H; [discriminate |].
  simpl in H. destruct (isZero max) eqn:Ez.
  { exists x. split; [apply MStop; now right | assumption]. }
  set (d := fun y : state =>
              if Nat.eqb min 0 && Nat.eqb (List.length (after y)) (List.length (after x))
              then None
              else repeatMatcher m fuel (pred min) (option_map pred max) g c y) in H.
  assert (Hd : forall z', m d x = Some z' ->
               exists y, Match ic ml (Quant min max g r) x y /\ c y = Some z').
  { intros z' Hz. apply Hm in Hz. destruct Hz as (y & My & Dy). unfold d in Dy.
    destruct (Nat.eqb min 0 && Nat.eqb (List.length (after y)) (List.length (after x)))
      eqn:E; [discriminate |].
    apply IH in Dy. destruct Dy as (y' & My' & Cy'). exists y'. split; [| assumption].
    eapply MStep; eauto. intros ->. simpl in E.
    apply Nat.eqb_neq in E. assumption. }
  destruct (Nat.eqb min 0) eqn:Em; simpl in H.
  - apply Nat.eqb_eq in Em.
    assert (Hc : c x = Some z ->
                 exists y, Match ic ml (Quant min max g r) x y /\ c y = Some z).
    { intros Hx. exists x. split; [apply MStop; now left | assumption]. }
    destruct g.
    + destruct (m d x) eqn:E; [injection H as <-; now apply Hd | now apply Hc].
    + destruct (c x) eqn:E; [injection H as <-; now apply Hc | now apply Hd].
  - now apply Hd.
Qed.

Theorem matcher_sound r :
  forall c x z,
    matcher ic ml r c x = Some z ->
    exists y, Match ic ml r x y /\ c y = Some z.
Proof.
  induction r as [| ch | p | r1 IH1 r2 IH2 | r1 IH1 r2 IH2 | min max g r IH
                  | n r IH | | |]; intros c x z H; cbn [matcher] in H.
  - eauto.
  - destruct x as [b [| a t] caps]; simpl in H; [discriminate |].
    destruct (charMatches ic ch a) eqn:E; [| discriminate]. eauto.
  - destruct x as [b [| a t] caps]; simpl in H; [discriminate |].
    destruct (setMatches ic p a) eqn:E; [| discriminate]. eauto.
  - apply IH1 in H. destruct H as (y & M1 & H). apply IH2 in H.
    destruct H as (y' & M2 & H). eauto.
  - destruct (matcher ic ml r1 c x) eqn:E.
    + injection H as <-. apply IH1 in E. destruct E as (y & M & E). eauto.
    + apply IH2 in H. destruct H as (y & M & E'). eauto.
  - eapply repeatMatcher_sound; eauto.
  - apply IH in H. destruct H as (y & M & H). eauto.
  - destruct (atLineStart ml x) eqn:E; [eauto | discriminate].
  - destruct (atLineEnd ml x) eqn:E; [eauto | discriminate].
  - destruct (atWordBoundary x) eqn:E; [eauto | discriminate].
Qed.

(** *** The matcher finds a match whenever there is one *)

Lemma repeatMatcher_complete r g (m : cont -> cont) :
  (forall x y, Match ic ml r x y -> forall c, c y <> None -> m c x <> None) ->
  forall q x z,
    Match ic ml q x z ->
    forall min max, q = Quant min max g r ->
    forall fuel c,
      min + List.length (after x) < fuel -> c z <> None ->
      repeatMatcher m fuel min max g c x <> None.
Proof.
  intros Hm q x z H.
  induction H; intros min' max' Eq fuel c Hf Hc; try discriminate.
  - injection Eq as -> -> -> ->.
    destruct fuel as [| fuel]; [lia |]. simpl.
    destruct (isZero max') eqn:Ez; [assumption |].
    destruct H as [-> | H]; [| congruence]. simpl.
    destruct g.
    + destruct (m _ x); [discriminate | assumption].
    + destruct (c x); [discriminate | congruence].
  - injection Eq as -> -> -> ->.
    destruct fuel as [| fuel]; [lia |]. simpl. rewrite H.
    pose proof (Match_after_le H0) as Hle.
    set (d := fun y : state =>
                if Nat.eqb min' 0 && Nat.eqb (List.length (after y)) (List.length (after x))
                then None
                else repeatMatcher m fuel (pred min') (option_map pred max') g c y).
    assert (Hd : m d x <> None).
    { apply Hm with (y := y); [assumption |]. unfold d.
      destruct (Nat.eqb min' 0) eqn:Em; simpl.
      - apply Nat.eqb_eq in Em. specialize (H1 Em).
        apply Nat.eqb_neq in H1. rewrite H1.
        apply IHMatch2; [reflexivity | | assumption].
        apply Nat.eqb_neq in H1. lia.
      - apply Nat.eqb_neq in Em.
        apply IHMatch2; [reflexivity | | assumption]. lia. }
    destruct (Nat.eqb min' 0); simpl; [| assumption].
    destruct g.
    + destruct (m d x); [discriminate | congruence].
    + destruct (c x); [discriminate | assumption].
Qed.

Theorem matcher_complete r :
  forall x y, Match ic ml r x y ->
  forall c, c y <> None -> matcher ic ml r c x <> None.
Proof.
  induction r as [| ch | p | r1 IH1 r2 IH2 | r1 IH1 r2 IH2 | min max g r IH
                  | n r IH | | |]; intros x y H c Hc.
  - inversion H; subst. assumption.
  - inversion H; subst. simpl. rewrite H1. assumption.
  - inversion H; subst. simpl. rewrite H1. assumption.
  - inversion H; subst. simpl. eapply IH1; eauto.
  - simpl. inversion H; subst.
    + destruct (matcher ic ml r1 c x) eqn:E; [discriminate |].
      exfalso. eapply IH1; eauto.
    + destruct (matcher ic ml r1 c x) eqn:E; [discriminate |]. eapply IH2; eauto.
  - cbn [matcher]. eapply repeatMatcher_complete; eauto.
  - inversion H; subst. simpl. eapply IH; eauto.
  - inversion H; subst. simpl. rewrite H0. assumption.
  - inversion H; subst. simpl. rewrite H0. assumption.
  - inversion H; subst. simpl. rewrite H0. assumption.
Qed.

End MatcherTheory.

(** ** [exec], [test] and [replace] *)

Lemma execFrom_eq R b a :
  execFrom R b a =
  match matcher (ignoreCase R) (multiline R) (pattern R) Some (mkState b a []) with
  | Some y => Some (mkMatch b (consumed (mkState b a []) y) (after y) (captures y))
  | None =>
      match a with
      | [] => None
      | c :: a' => execFrom R (c :: b) a'
      end
  end.
Proof. destruct a; reflexivity. Qed.

Lemma execFrom_sound R : forall a b m,
  execFrom R b a = Some m ->
  MatchAt R m
  /\ exists gap, a = gap ++ m_text m ++ m_after m /\ m_before m = rev gap ++ b.
Proof.
  induction a as [| c a IH]; intros b m H; rewrite execFrom_eq in H;
    destruct (matcher _ _ _ Some _) as [y |] eqn:E; try discriminate.
  1, 2: injection H as <-; apply matcher_sound in E;
    destruct E as (y' & M & E); injection E as ->;
    destruct (Match_consumed M) as [A _]; simpl in A;
    (split; [exists y; simpl; rewrite <- A; auto | exists []; simpl; auto]).
  apply IH in H. destruct H as (HM & gap & A & B). split; [assumption |].
  exists (c :: gap). simpl. rewrite A, B, <- app_assoc. auto.
Qed.

Lemma execFrom_complete R : forall gap b a y,
  Match (ignoreCase R) (multiline R) (pattern R) (mkState (rev gap ++ b) a []) y ->
  execFrom R b (gap ++ a) <> None.
Proof.
  induction gap as [| c gap IH]; intros b a y M; rewrite execFrom_eq;
    destruct (matcher _ _ _ Some _) as [y' |] eqn:E; try discriminate.
  - simpl in M. eapply matcher_complete in M; [now apply M in E | discriminate].
  - simpl. apply IH with (y := y). simpl in M. now rewrite <- app_assoc in M.
Qed.

(** [test] succeeds exactly when the pattern matches somewhere. *)
Theorem test_true_iff R s :
  test R s = true <->
  exists gap a y,
    s = gap ++ a
    /\ Match (ignoreCase R) (multiline R) (pattern R) (mkState (rev gap) a []) y.
Proof.
  unfold test, exec. split.
  - destruct (execFrom R [] s) as [m |] eqn:E; [intros _ | discriminate].
    apply execFrom_sound in E. destruct E as ((y & M & _) & gap & A & B).
    exists gap, (m_text m ++ m_after m), y. rewrite app_nil_r in B.
    rewrite <- B. auto.
  - intros (gap & a & y & -> & M).
    destruct (execFrom R [] (gap ++ a)) eqn:E; [reflexivity |].
    exfalso. eapply execFrom_complete; [| exact E]. rewrite app_nil_r. exact M.
Qed.

(** *** Replacing

    [Spliced R f b a st out st']: scanning the text [a] that follows
    [b], the matches of [R] are replaced as [f] says and everything
    between them is copied, giving [out]; [f] takes the state from [st]
    to [st']. *)

Lemma skipn_rev_app (b a : str) : skipn (List.length b) (rev b ++ a) = a.
Proof.
  rewrite <- (length_rev b), skipn_app, skipn_all, Nat.sub_diag. reflexivity.
Qed.

Lemma substring_gap (b gap rest : str) :
  substring (rev b ++ gap ++ rest) (List.length b) (List.length (rev gap ++ b)) = gap.
Proof.
  unfold substring. rewrite skipn_rev_app, length_app, length_rev.
  replace (List.length gap + List.length b - List.length b) with (List.length gap) by lia.
  rewrite firstn_app, firstn_all, Nat.sub_diag. simpl. apply app_nil_r.
Qed.

Lemma replaceLoop_spliced (S : Type) R (f : replacer S) :
  NonEmptyMatches R ->
  forall fuel a b st,
    List.length a < fuel ->
    Spliced R f b a st
      (fst (replaceLoop (rev b ++ a) f (matchAllFrom R fuel b a) (List.length b) st))
      (snd (replaceLoop (rev b ++ a) f (matchAllFrom R fuel b a) (List.length b) st)).
Proof.
  intros HR. induction fuel as [| fuel IH]; intros a b st Hf; [lia |].
  cbn [matchAllFrom]. destruct (execFrom R b a) as [m |] eqn:E.
  - pose proof (execFrom_sound _ _ _ E) as (HM & gap & A & B).
    pose proof (HR m HM) as Hne.
    cbn [replaceLoop]. destruct (f m st) as [rep st1] eqn:Ef.
    unfold m_index. rewrite B.
    replace (List.length b <=? List.length (rev gap ++ b)) with true
      by (symmetry; apply Nat.leb_le; rewrite length_app; lia).
    assert (Hnext : matchAllFrom R fuel (rev (m_text m) ++ rev gap ++ b) (m_after m)
                    = match m_text m, m_after m with
                      | [], [] => []
                      | [], c :: a' => matchAllFrom R fuel (c :: rev gap ++ b) a'
                      | _ :: _, a' => matchAllFrom R fuel (rev (m_text m) ++ rev gap ++ b) a'
                      end).
    { destruct (m_text m); [contradiction | reflexivity]. }
    rewrite <- Hnext. clear Hnext.
    assert (Hs : rev b ++ a = rev (rev (m_text m) ++ rev gap ++ b) ++ m_after m).
    { rewrite A, !rev_app_distr, !rev_involutive, <- !app_assoc. reflexivity. }
    assert (Hp : List.length (rev gap ++ b) + List.length (m_text m)
                 = List.length (rev (m_text m) ++ rev gap ++ b)).
    { rewrite !length_app, !length_rev. lia. }
    assert (Hlen : List.length (m_after m) < fuel).
    { rewrite A, !length_app in Hf. destruct (m_text m); [contradiction | simpl in Hf; lia]. }
    specialize (IH (m_after m) (rev (m_text m) ++ rev gap ++ b) st1 Hlen).
    rewrite <- Hs in IH. rewrite Hp.
    destruct (replaceLoop _ f _ _ st1) as [acc st2]. simpl in IH. simpl.
    rewrite A. rewrite substring_gap.
    replace rep with (fst (f m st)) by now rewrite Ef.
    apply SplMatch; try assumption.
    + now rewrite <- A.
    + rewrite Ef. simpl. now rewrite B.
  - simpl. rewrite skipn_rev_app. now apply SplNone.
Qed.

(** [replace] with a global pattern whose matches are never empty. *)
Theorem replaceWith_global (S : Type) R (f : replacer S) s st :
  global R = true ->
  NonEmptyMatches R ->
  Spliced R f [] s st (fst (replaceWith R s f st)) (snd (replaceWith R s f st)).
Proof.
  intros G HR. unfold replaceWith, matchAll. rewrite G.
  apply (replaceLoop_spliced f HR (fuel := Datatypes.S (List.length s)) s [] st).
  lia.
Qed.

(** [replace] with a pattern that is not global: the first match only. *)
Theorem replaceWith_first (S : Type) R (f : replacer S) s st :
  global R = false ->
  replaceWith R s f st =
  match exec R s with
  | Some m => (rev (m_before m) ++ fst (f m st) ++ m_after m, snd (f m st))
  | None => (s, st)
  end.
Proof.
  intros G. unfold replaceWith. rewrite G. unfold exec.
  destruct (execFrom R [] s) as [m |] eqn:E; [| reflexivity].
  apply execFrom_sound in E. destruct E as (_ & gap & A & B).
  rewrite app_nil_r in B. cbn [replaceLoop]. destruct (f m st) as [rep st1].
  simpl. unfold m_index, substring. rewrite B, length_rev, rev_involutive.
  subst s. f_equal. rewrite Nat.sub_0_r. simpl.
  rewrite firstn_app, firstn_all, Nat.sub_diag. simpl. rewrite app_nil_r.
  f_equal. f_equal.
  rewrite app_assoc, skipn_app, <- length_app, skipn_all, Nat.sub_diag.
  reflexivity.
Qed.

(** ** Reading matches of the pattern forms the program uses *)

Lemma consumed_eq x w y : after x = w ++ after y -> consumed x y = w.
Proof.
  intros A. destruct x as [b a caps]. simpl in A. subst a. apply consumed_app.
Qed.

Lemma Moves_nil x : Moves x [] x.
Proof. split; reflexivity. Qed.

Lemma Moves_app x w1 y w2 z : Moves x w1 y -> Moves y w2 z -> Moves x (w1 ++ w2) z.
Proof.
  intros [A1 B1] [A2 B2]. split.
  - rewrite A1, A2, app_assoc. reflexivity.
  - rewrite B2, B1, rev_app_distr, app_assoc. reflexivity.
Qed.

Lemma Moves_consumed x w y : Moves x w y -> consumed x y = w.
Proof. intros [A _]. now apply consumed_eq. Qed.

Lemma Moves_inj x w1 w2 y : Moves x w1 y -> Moves x w2 y -> w1 = w2.
Proof.
  intros H1 H2. apply Moves_consumed in H1, H2. congruence.
Qed.

Section Inversions.

Variables ic ml : bool.

Lemma Match_Empty_inv x y : Match ic ml Empty x y -> y = x.
Proof. inversion 1; reflexivity. Qed.

Lemma Match_Char_inv c x y :
  Match ic ml (Char c) x y ->
  exists a, Moves x [a] y /\ captures y = captures x /\ charMatches ic c a = true.
Proof. inversion 1; subst. exists a. repeat split; assumption. Qed.

Lemma Match_Set_inv p x y :
  Match ic ml (CharSet p) x y ->
  exists a, Moves x [a] y /\ captures y = captures x /\ setMatches ic p a = true.
Proof. inversion 1; subst. exists a. repeat split; assumption. Qed.

Lemma Match_Seq_inv r1 r2 x z :
  Match ic ml (Seq r1 r2) x z ->
  exists y, Match ic ml r1 x y /\ Match ic ml r2 y z.
Proof. inversion 1; subst. eauto. Qed.

Lemma Match_Alt_inv r1 r2 x y :
  Match ic ml (Alt r1 r2) x y -> Match ic ml r1 x y \/ Match ic ml r2 x y.
Proof. inversion 1; subst; auto. Qed.

Lemma Match_Group_inv n r x z :
  Match ic ml (Group n r) x z ->
  exists y, Match ic ml r x y
            /\ z = mkState (before y) (after y) ((n, consumed x y) :: captures y).
Proof. inversion 1; subst. eauto. Qed.

Lemma Match_Start_inv x y :
  Match ic ml AssertStart x y -> y = x /\ atLineStart ml x = true.
Proof. inversion 1; subst. auto. Qed.

Lemma Match_End_inv x y :
  Match ic ml AssertEnd x y -> y = x /\ atLineEnd ml x = true.
Proof. inversion 1; subst. auto. Qed.

Lemma Match_Word_inv x y :
  Match ic ml WordBoundary x y -> y = x /\ atWordBoundary x = true.
Proof. inversion 1; subst. auto. Qed.

Lemma Moves_cons x a y w z : Moves x [a] y -> Moves y w z -> Moves x (a :: w) z.
Proof. intros H1 H2. apply (Moves_app H1 H2). Qed.

Lemma Match_lit_inv s : forall x y,
  Match ic ml (lit s) x y ->
  exists w, Moves x w y /\ captures y = captures x /\ charsMatch ic s w.
Proof.
  induction s as [| c s IH]; intros x y H; simpl in H.
  - apply Match_Empty_inv in H. subst. exists []. repeat split; constructor.
  - apply Match_Seq_inv in H. destruct H as (y1 & H1 & H2).
    apply Match_Char_inv in H1. destruct H1 as (a & M1 & C1 & E1).
    apply IH in H2. destruct H2 as (w & M & C & F).
    exists (a :: w). split; [| split].
    + eapply Moves_cons; eauto.
    + congruence.
    + now constructor.
Qed.

Lemma Match_lit_intro s : forall w b a caps,
  charsMatch ic s w ->
  Match ic ml (lit s) (mkState b (w ++ a) caps) (mkState (rev w ++ b) a caps).
Proof.
  induction s as [| c s IH]; intros w b a caps F; inversion F; subst; simpl.
  - constructor.
  - eapply MSeq; [constructor; eassumption |].
    rewrite <- app_assoc. simpl. now apply IH.
Qed.

Lemma Match_quant_set_inv p g : forall q x y,
  Match ic ml q x y ->
  forall min max, q = Quant min max g (CharSet p) ->
  exists w, Moves x w y /\ captures y = captures x /\ allMatch ic p w
            /\ (max = None -> min <= List.length w).
Proof.
  intros q x y H. induction H; intros min' max' Eq; try discriminate.
  - injection Eq as -> -> -> ->. exists []. repeat split; try constructor.
    intros ->. destruct H; [simpl; lia | discriminate].
  - injection Eq as -> -> -> ->.
    apply Match_Set_inv in H0. destruct H0 as (a & M1 & C1 & E1).
    destruct (IHMatch2 _ _ eq_refl) as (w & M & C & F & L).
    exists (a :: w). split; [| split; [| split]].
    + eapply Moves_cons; eauto.
    + congruence.
    + now constructor.
    + intros ->. specialize (L eq_refl). simpl. lia.
Qed.

Lemma Match_star_inv p g min x y :
  Match ic ml (Quant min None g (CharSet p)) x y ->
  exists w, Moves x w y /\ captures y = captures x /\ allMatch ic p w
            /\ min <= List.length w.
Proof.
  intros H. destruct (Match_quant_set_inv H eq_refl) as (w & M & C & F & L).
  exists w. auto.
Qed.

Lemma Match_star_intro p g : forall w min b a caps,
  allMatch ic p w -> min <= List.length w ->
  Match ic ml (Quant min None g (CharSet p))
    (mkState b (w ++ a) caps) (mkState (rev w ++ b) a caps).
Proof.
  induction w as [| c w IH]; intros min b a caps F L.
  - simpl in *. apply MStop. left. lia.
  - inversion F; subst. simpl. eapply MStep.
    + reflexivity.
    + constructor. eassumption.
    + simpl. intros _. rewrite length_app. lia.
    + simpl. rewrite <- app_assoc. simpl. apply IH; [assumption |].
      simpl in L. lia.
Qed.

Lemma Match_alts_inv l : forall x y,
  Match ic ml (alts l) x y -> l <> [] -> exists r, In r l /\ Match ic ml r x y.
Proof.
  induction l as [| r [| r' l] IH]; intros x y H Hl; [contradiction | |].
  - exists r. simpl in *. auto.
  - change (alts (r :: r' :: l)) with (Alt r (alts (r' :: l))) in H.
    apply Match_Alt_inv in H. destruct H as [H | H].
    + exists r. split; [now left | assumption].
    + destruct (IH _ _ H) as (r0 & I & M); [discriminate |].
      exists r0. split; [now right | assumption].
Qed.

Lemma Match_alts_intro l r x y :
  In r l -> Match ic ml r x y -> Match ic ml (alts l) x y.
Proof.
  induction l as [| r0 [| r' l] IH]; intros I M; [contradiction | |].
  - destruct I as [-> | []]. assumption.
  - change (alts (r0 :: r' :: l)) with (Alt r0 (alts (r' :: l))).
    destruct I as [-> | I]; [now apply MAltL | apply MAltR; now apply IH].
Qed.

End Inversions.

Lemma charsMatch_ci s w : charsMatch true s w <-> fold s = fold w.
Proof.
  split.
  - induction 1; simpl; [reflexivity |]. unfold charMatches in H.
    apply Z.eqb_eq in H. now rewrite H, IHForall2.
  - revert w. induction s as [| c s IH]; intros [| a w] E; simpl in E;
      try discriminate; [constructor |].
    injection E as E1 E2. constructor; [| now apply IH].
    unfold charMatches. now apply Z.eqb_eq.
Qed.

Lemma charsMatch_cs s w : charsMatch false s w <-> s = w.
Proof.
  split.
  - induction 1; [reflexivity |]. unfold charMatches in H.
    apply Z.eqb_eq in H. congruence.
  - intros <-. induction s; constructor; [| assumption].
    unfold charMatches. apply Z.eqb_refl.
Qed.

(** * The classifier *)

(** C9, as the claim has it, fails: bare Mermaid code is classified
    [mermaid] with a block count that is not 0. *)
Lemma diagram_count_not_zero :
  type (detectContentType (u16 "gitgraph")) = mermaid
  /\ mermaidBlockCount (detectContentType (u16 "gitgraph")) <> 0.
Proof. vm_compute. split; [reflexivity | discriminate]. Qed.

(** C9, amended.  Whenever the classifier answers [mermaid], the block
    count it reports is 1: the bare diagram counts as one block. *)
Theorem diagram_count_one (text : str) :
  type (detectContentType text) = mermaid ->
  mermaidBlockCount (detectContentType text) = 1.
Proof.
  unfold detectContentType.
  destruct (isEmptyStr (trim text)); [discriminate |].
  destruct (looksLikeMermaid (trim text)), (hasMarkdownFeatures (trim text)),
    (containsMermaidBlocks (trim text)); cbn; intros H;
    try discriminate H; reflexivity.
Qed.

Lemma diagram_count_one_witness :
  mermaidBlockCount (detectContentType (u16 "gitgraph")) = 1.
Proof.
  apply (diagram_count_one (u16 "gitgraph")). vm_compute. reflexivity.
Defined.

(** * The fixer *)

(** C4. On bare Mermaid code, [fixMermaidInDocument] answers the fixed
    text between the fence-open line and the closing fence, the wrap
    notice followed by exactly the fixes of [fixMermaidCode], and
    [wasModified] set, also when [fixMermaidCode] fixed nothing. *)
Theorem wrap_raw_mermaid (text : str) :
  let inner := fixMermaidCode text in
  let res := fixMermaidInDocument text true in
  output res = u16 "```mermaid" ++ newline ++ output inner ++ newline ++ u16 "```"
  /\ MermaidFixer.fixes res
     = u16 "Auto-wrapped raw Mermaid in ```mermaid code fence"
         :: MermaidFixer.fixes inner
  /\ wasModified res = true
  /\ (MermaidFixer.fixes inner = [] -> wasModified inner = false).
Proof.
  cbn. repeat split. intros H. unfold fixMermaidCode. cbn [wasModified].
  unfold fixMermaidCode in H. cbn [MermaidFixer.fixes] in H. now rewrite H.
Qed.

(** C2.  Running the fixer on its own output can change it again: the
    first run merges the [type:] line, and only then does the [tag:]
    line follow a commit line, which the second run merges. *)
Theorem fix_twice_differs :
  output (fixMermaidCode typeThenTag)
  = u16 "commit a type: b" ++ newline ++ u16 " tag: " ++ [dquote] ++ u16 "c" ++ [dquote]
  /\ output (fixMermaidCode (output (fixMermaidCode typeThenTag)))
     = u16 "commit a type: b tag: " ++ [dquote] ++ u16 "c" ++ [dquote]
  /\ output (fixMermaidCode (output (fixMermaidCode typeThenTag)))
     <> output (fixMermaidCode typeThenTag).
Proof. vm_compute. repeat split. discriminate. Qed.

(** C6.  The capitalization rule rewrites a keyword on the second line:
    with the [m] flag the pattern is tried at the start of every
    line. *)
Theorem keyword_rewritten_on_second_line :
  output (fixMermaidCode keywordOnSecondLine)
  = u16 "graph TD" ++ newline ++ u16 "gitGraph --> B"
  /\ output (fixMermaidCode keywordOnSecondLine) <> keywordOnSecondLine.
Proof. vm_compute. split; [reflexivity | discriminate]. Qed.

(** C5.  A [tag:] clause on the line after a bare [commit] is not
    moved to the commit line: the pattern of the tag rule asks for a
    blank after [commit], and the line ends there.  The text comes back
    as it was, with no fix, though the rule is there to merge such a
    clause with the commit line before it. *)
Theorem bare_commit_tag_not_merged :
  fixMermaidCode bareCommitTag = mkFix bareCommitTag [] false
  /\ output (fixMermaidCode bareCommitTag) <> bareCommitTagMerged.
Proof. vm_compute. split; [reflexivity | discriminate]. Qed.

(** A [tag:] clause that is not indented stays where it is as well. *)
Lemma unindented_tag_not_merged :
  output (fixMermaidCode unindentedTag) <> commitLine ++ u16 " " ++ tagClause
  /\ output (fixMermaidCode unindentedTag) = unindentedTag
  /\ MermaidFixer.fixes (fixMermaidCode unindentedTag) = [].
Proof. vm_compute. repeat split. discriminate. Qed.


(** ** [trim] *)

Lemma dropWhile_app_stop p pre c r :
  p c = false -> dropWhile p (pre ++ c :: r) = dropWhile p pre ++ c :: r.
Proof.
  intros Hc. induction pre as [| a pre IH]; simpl.
  - now rewrite Hc.
  - destruct (p a); [assumption | reflexivity].
Qed.

Lemma trimEnd_app_stop l c post :
  isSpace c = false -> trimEnd (l ++ c :: post) = l ++ c :: trimEnd post.
Proof.
  intros Hc. unfold trimEnd. rewrite rev_app_distr. simpl. rewrite <- app_assoc.
  simpl. rewrite dropWhile_app_stop by assumption.
  rewrite rev_app_distr. simpl. rewrite rev_involutive, <- app_assoc. reflexivity.
Qed.

(** Text between two code units that are not white space survives
    [trim] whole. *)
Lemma trim_core pre c1 mid c2 post :
  isSpace c1 = false -> isSpace c2 = false ->
  trim (pre ++ c1 :: mid ++ c2 :: post)
  = trimStart pre ++ c1 :: mid ++ c2 :: trimEnd post.
Proof.
  intros H1 H2. unfold trim, trimStart. rewrite dropWhile_app_stop by assumption.
  change (dropWhile isSpace pre ++ c1 :: mid ++ c2 :: post)
    with (dropWhile isSpace pre ++ (c1 :: mid) ++ c2 :: post).
  rewrite app_assoc, trimEnd_app_stop by assumption.
  rewrite <- app_assoc. reflexivity.
Qed.

(** ** The Markdown feature test is a disjunction *)

Lemma count_tests text l : forall n,
  fold_left (fun n pat => if test pat text then S n else n) l n
  = n + List.length (filter (fun pat => test pat text) l).
Proof.
  induction l as [| pat l IH]; intros n; simpl; [lia |].
  rewrite IH. destruct (test pat text); simpl; lia.
Qed.

Lemma some_test_iff text l :
  (1 <=? fold_left (fun n pat => if test pat text then S n else n) l 0) = true <->
  exists pat, In pat l /\ test pat text = true.
Proof.
  rewrite count_tests, Nat.add_0_l. split.
  - intros H. apply Nat.leb_le in H.
    destruct (filter (fun pat => test pat text) l) as [| pat l'] eqn:E;
      [simpl in H; lia |].
    exists pat. apply (filter_In (fun pat => test pat text)). rewrite E. now left.
  - intros (pat & I & T). apply Nat.leb_le.
    assert (In pat (filter (fun pat => test pat text) l))
      by (apply filter_In; auto).
    destruct (filter _ l); [contradiction | simpl; lia].
Qed.

Lemma hasMarkdownFeatures_true_iff text :
  hasMarkdownFeatures text = true <->
  exists pat, In pat mdPatterns /\ test pat text = true.
Proof. apply some_test_iff. Qed.

Lemma allMatch_anyChar ic w : allMatch ic (fun c => isSpace c || negb (isSpace c)) w.
Proof.
  induction w; constructor; [| assumption].
  unfold setMatches. destruct ic; destruct (isSpace a); reflexivity.
Qed.

Lemma allMatch_space w : allSpace w -> allMatch true isSpace w.
Proof.
  induction 1; constructor; [| assumption].
  unfold setMatches. now rewrite H.
Qed.

Lemma charsMatch_refl ic s : charsMatch ic s s.
Proof.
  induction s; constructor; [| assumption].
  unfold charMatches. destruct ic; apply Z.eqb_refl.
Qed.

(** A pair of fence tokens is a code block for the Markdown test. *)
Lemma codeBlock_found pre mid post :
  test codeBlockRegex (pre ++ fence ++ mid ++ fence ++ post) = true.
Proof.
  apply test_true_iff.
  exists pre, (fence ++ mid ++ fence ++ post),
    (mkState (rev fence ++ rev mid ++ rev fence ++ rev pre) post []).
  split; [reflexivity |]. cbn [codeBlockRegex pattern ignoreCase multiline seqs fold_right].
  eapply MSeq; [apply Match_lit_intro, charsMatch_refl |].
  eapply MSeq; [apply Match_star_intro; [apply allMatch_anyChar | apply Nat.le_0_l] |].
  eapply MSeq; [apply Match_lit_intro, charsMatch_refl | apply MEmpty].
Qed.

(** An opening fence is found by the fenced-block test. *)
Lemma openingFence_found text :
  HasOpeningFence text -> containsMermaidBlocks text = true.
Proof.
  intros (pre & tag & ws & post & Ht & Hws & ->).
  apply test_true_iff.
  exists pre, ((fence ++ tag) ++ ws ++ newline ++ post),
    (mkState (10%Z :: rev ws ++ rev (fence ++ tag) ++ rev pre) post []).
  split; [now rewrite <- !app_assoc |].
  cbn [containsMermaidBlocksRegex pattern ignoreCase multiline seqs fold_right].
  eapply MSeq.
  { apply Match_lit_intro. apply charsMatch_ci.
    change (u16 "```mermaid") with (fence ++ u16 "mermaid").
    unfold fold in *. rewrite !map_app. now rewrite Ht. }
  eapply MSeq; [apply Match_star_intro; [now apply allMatch_space | apply Nat.le_0_l] |].
  eapply MSeq; [| apply MEmpty].
  apply MChar. reflexivity.
Qed.

(** ** Facts on code units *)

(** Decide the comparisons of the goal that the hypotheses settle. *)
Ltac z_cases :=
  repeat match goal with
         | |- context [(?x =? ?y)%Z] =>
             first [ replace (x =? y)%Z with false
                       by (symmetry; apply Z.eqb_neq; lia)
                   | replace (x =? y)%Z with true
                       by (symmetry; apply Z.eqb_eq; lia) ]
         | |- context [(?x <=? ?y)%Z] =>
             first [ replace (x <=? y)%Z with false
                       by (symmetry; apply Z.leb_gt; lia)
                   | replace (x <=? y)%Z with true
                       by (symmetry; apply Z.leb_le; lia) ]
         end;
  simpl; try reflexivity.

Lemma isSpace_canonicalize a : isSpace (canonicalize a) = isSpace a.
Proof.
  unfold canonicalize, inRange.
  destruct (97 <=? a)%Z eqn:E1; [| reflexivity].
  destruct (a <=? 122)%Z eqn:E2; [| reflexivity]. simpl.
  apply Z.leb_le in E1, E2.
  unfold isSpace, isWhiteSpace, isLineTerminator, inRange. z_cases.
Qed.

Lemma isSpace_asciiLower a : isSpace (asciiLower a) = isSpace a.
Proof.
  unfold asciiLower, inRange.
  destruct (65 <=? a)%Z eqn:E1; [| reflexivity].
  destruct (a <=? 90)%Z eqn:E2; [| reflexivity]. simpl.
  apply Z.leb_le in E1, E2.
  unfold isSpace, isWhiteSpace, isLineTerminator, inRange. z_cases.
Qed.

Lemma setMatches_space ic a : setMatches ic isSpace a = isSpace a.
Proof.
  unfold setMatches. destruct ic; [| reflexivity].
  rewrite isSpace_canonicalize, isSpace_asciiLower.
  destruct (isSpace a); reflexivity.
Qed.

Lemma allMatch_space_inv ic w : allMatch ic isSpace w -> allSpace w.
Proof.
  induction 1; constructor; [| assumption]. now rewrite setMatches_space in H.
Qed.

(** A code unit that is not a Basic Latin letter only matches itself. *)
Lemma canonicalize_fixed c a :
  canonicalize a = c -> inRange 65 90 c = false -> a = c.
Proof.
  unfold canonicalize, inRange. intros H Hc.
  destruct (97 <=? a)%Z eqn:E1; [| assumption].
  destruct (a <=? 122)%Z eqn:E2; [| assumption]. simpl in H.
  apply Z.leb_le in E1, E2. subst c.
  apply andb_false_iff in Hc. destruct Hc as [Hc | Hc]; apply Z.leb_gt in Hc; lia.
Qed.

Lemma charMatches_fixed ic c a :
  charMatches ic c a = true ->
  inRange 65 90 c = false -> inRange 97 122 c = false -> a = c.
Proof.
  unfold charMatches. destruct ic; intros H H1 H2.
  - apply Z.eqb_eq in H. unfold canonicalize in H at 1. rewrite H2 in H.
    symmetry in H. now apply canonicalize_fixed.
  - apply Z.eqb_eq in H. congruence.
Qed.

(** ** The fenced-block test *)

Lemma fold_fence_tag w :
  fold w = fold (u16 "```mermaid") ->
  exists tag, w = fence ++ tag /\ fold tag = fold (u16 "mermaid").
Proof.
  intros H. destruct w as [| c1 [| c2 [| c3 tag]]]; try discriminate H.
  injection H as H1 H2 H3 H.
  apply canonicalize_fixed in H1, H2, H3; try reflexivity. subst.
  exists tag. split; [reflexivity | assumption].
Qed.

Lemma openingFence_sound text :
  containsMermaidBlocks text = true -> HasOpeningFence text.
Proof.
  intros H. apply test_true_iff in H. destruct H as (gap & a & y & -> & M).
  cbn [containsMermaidBlocksRegex pattern ignoreCase multiline seqs fold_right] in M.
  apply Match_Seq_inv in M. destruct M as (y1 & M1 & M).
  apply Match_Seq_inv in M. destruct M as (y2 & M2 & M).
  apply Match_Seq_inv in M. destruct M as (y3 & M3 & M).
  apply Match_Empty_inv in M. subst y.
  apply Match_lit_inv in M1. destruct M1 as (w1 & V1 & _ & F1).
  apply Match_star_inv in M2. destruct M2 as (w2 & V2 & _ & F2 & _).
  apply Match_Char_inv in M3. destruct M3 as (c & V3 & _ & E3).
  apply charMatches_fixed in E3; try reflexivity. subst c.
  apply charsMatch_ci in F1. symmetry in F1. apply fold_fence_tag in F1.
  destruct F1 as (tag & -> & Ht).
  pose proof (Moves_app (Moves_app V1 V2) V3) as [A _]. simpl in A.
  exists gap, tag, w2, (after y3). split; [assumption |].
  split; [now apply allMatch_space_inv in F2 |].
  rewrite A, <- !app_assoc. reflexivity.
Qed.

(** The flag is set exactly when the text holds an opening fence,
    wherever it stands in its line. *)
Lemma containsMermaidBlocks_iff text :
  containsMermaidBlocks text = true <-> HasOpeningFence text.
Proof. split; [apply openingFence_sound | apply openingFence_found]. Qed.

(** ** Counting fence tokens *)

Lemma startsWith_true_iff p : forall s,
  startsWith s p = true <-> exists r, s = p ++ r.
Proof.
  induction p as [| a p IH]; intros s.
  - split; [intros _; now exists s | intros _; destruct s; reflexivity].
  - destruct s as [| b s]; simpl.
    + split; [discriminate | intros (r & E); discriminate E].
    + rewrite andb_true_iff, Z.eqb_eq, IH. split.
      * intros (-> & r & ->). now exists r.
      * intros (r & E). injection E as -> ->. split; [reflexivity | now exists r].
Qed.

Lemma fold_app s t : fold (s ++ t) = fold s ++ fold t.
Proof. apply map_app. Qed.

Lemma startsWith_fold_iff p s :
  startsWith (fold s) (fold p) = true <->
  exists w rest, s = w ++ rest /\ fold w = fold p.
Proof.
  rewrite startsWith_true_iff. split.
  - intros (r & E). unfold fold in E.
    apply map_eq_app in E. destruct E as (w & rest & -> & E1 & _).
    now exists w, rest.
  - intros (w & rest & -> & E). exists (fold rest). now rewrite fold_app, E.
Qed.

(** Before the match that [exec] returns the pattern matches nowhere. *)
Lemma execFrom_leftmost R : forall a b m,
  execFrom R b a = Some m ->
  forall g1 g2 y,
    a = g1 ++ g2 -> List.length g1 + List.length b < m_index m ->
    ~ Match (ignoreCase R) (multiline R) (pattern R) (mkState (rev g1 ++ b) g2 []) y.
Proof.
  induction a as [| c a IH]; intros b m H g1 g2 y E L; rewrite execFrom_eq in H;
    destruct (matcher _ _ _ Some (mkState b _ [])) as [y' |] eqn:Em;
    try discriminate;
    try (injection H as <-; unfold m_index in L; simpl in L; lia).
  destruct g1 as [| c' g1].
  - simpl in *. subst g2. intros M.
    eapply matcher_complete in M; [now apply M in Em | discriminate].
  - simpl in E. injection E as -> E. simpl.
    rewrite <- app_assoc. simpl. apply (IH _ _ H g1 g2 y E).
    simpl in *. lia.
Qed.

Lemma execFrom_None R : forall a b,
  execFrom R b a = None ->
  forall g1 g2 y,
    a = g1 ++ g2 ->
    ~ Match (ignoreCase R) (multiline R) (pattern R) (mkState (rev g1 ++ b) g2 []) y.
Proof.
  intros a b H g1 g2 y -> M. now apply execFrom_complete in M.
Qed.

Lemma fenceTag_match b w rest :
  fold w = fold (u16 "```mermaid") ->
  Match true false (pattern countMermaidBlocksRegex)
    (mkState b (w ++ rest) []) (mkState (rev w ++ b) rest []).
Proof.
  intros E. apply Match_lit_intro. apply charsMatch_ci. now symmetry.
Qed.

Lemma fenceTagCount_none : forall g b rest,
  (forall g1 g2 y, g ++ rest = g1 ++ g2 -> List.length g1 < List.length g ->
     ~ Match true false (pattern countMermaidBlocksRegex)
         (mkState (rev g1 ++ b) g2 []) y) ->
  fenceTagCount (g ++ rest) = fenceTagCount rest.
Proof.
  induction g as [| c g IH]; intros b rest H; [reflexivity |].
  change (fenceTagCount ((c :: g) ++ rest))
    with ((if startsWith (fold ((c :: g) ++ rest)) (fold (u16 "```mermaid"))
           then 1 else 0) + fenceTagCount (g ++ rest)).
  destruct (startsWith _ _) eqn:E.
  - exfalso. apply startsWith_fold_iff in E. destruct E as (w & r & E & Ew).
    apply (H [] ((c :: g) ++ rest) (mkState (rev w ++ b) r [])).
    + reflexivity.
    + simpl. lia.
    + rewrite E. now apply fenceTag_match.
  - simpl. apply (IH (c :: b)). intros g1 g2 y E' L.
    specialize (H (c :: g1) g2 y). simpl in H. rewrite <- app_assoc in H.
    apply H; [now rewrite E' | lia].
Qed.

(** The token cannot overlap itself, so a place where it stands counts
    once and the count goes on after it. *)
Lemma fenceTagCount_token w rest :
  fold w = fold (u16 "```mermaid") ->
  fenceTagCount (w ++ rest) = S (fenceTagCount rest).
Proof.
  intros E.
  change (fold (u16 "```mermaid")) with [96; 96; 96; 77; 69; 82; 77; 65; 73; 68]%Z in E.
  do 10 (destruct w as [| ? w]; [discriminate E |]).
  destruct w; [| discriminate E].
  injection E as E1 E2 E3 E4 E5 E6 E7 E8 E9 E10.
  cbn [app fenceTagCount fold map].
  change (map canonicalize (u16 "```mermaid"))
    with [96; 96; 96; 77; 69; 82; 77; 65; 73; 68]%Z.
  rewrite E1, E2, E3, E4, E5, E6, E7, E8, E9, E10. cbn [startsWith].
  repeat rewrite Z.eqb_refl. cbn.
  destruct (map canonicalize rest); reflexivity.
Qed.

Lemma matchAllFrom_count : forall fuel a b,
  List.length a < fuel ->
  List.length (matchAllFrom countMermaidBlocksRegex fuel b a) = fenceTagCount a.
Proof.
  induction fuel as [| fuel IH]; intros a b Hf; [lia |].
  cbn [matchAllFrom]. destruct (execFrom countMermaidBlocksRegex b a) as [m |] eqn:E.
  - pose proof (execFrom_leftmost _ _ E) as Hleft.
    apply execFrom_sound in E. destruct E as ((y & M & Ay & _) & gap & A & B).
    apply Match_lit_inv in M. destruct M as (w & V & _ & F).
    apply charsMatch_ci in F. symmetry in F.
    assert (Hw : m_text m = w).
    { destruct V as [V _]. simpl in V. rewrite Ay in V. now apply app_inv_tail in V. }
    rewrite Hw in *. clear Hw.
    assert (Hn : fenceTagCount a = S (fenceTagCount (m_after m))).
    { rewrite A, (@fenceTagCount_none gap b), fenceTagCount_token by
        first [ assumption
              | intros g1 g2 y' E' L; apply Hleft; [now rewrite A |];
                unfold m_index; rewrite B, length_app, length_rev; lia ].
      reflexivity. }
    rewrite Hn. cbn [List.length]. f_equal.
    destruct w as [| c w]; [discriminate F |].
    apply IH. rewrite A, !length_app in Hf. simpl in Hf. lia.
  - symmetry. rewrite <- (app_nil_r a). rewrite (@fenceTagCount_none a b []).
    + reflexivity.
    + intros g1 g2 y E' _. rewrite app_nil_r in E'.
      now apply (execFrom_None _ _ E).
Qed.

(** [countMermaidBlocks] counts the places where the fence token is
    followed by the tag, whatever comes before or after. *)
Lemma countMermaidBlocks_spec text : countMermaidBlocks text = fenceTagCount text.
Proof. unfold countMermaidBlocks, matchAll. apply matchAllFrom_count. lia. Qed.

Lemma fenceTagCount_app pre s : fenceTagCount s <= fenceTagCount (pre ++ s).
Proof.
  induction pre as [| c pre IH]; [apply Nat.le_refl |].
  change (fenceTagCount ((c :: pre) ++ s))
    with ((if startsWith (fold ((c :: pre) ++ s)) (fold (u16 "```mermaid"))
           then 1 else 0) + fenceTagCount (pre ++ s)).
  lia.
Qed.

Lemma openingFence_counted text : HasOpeningFence text -> 1 <= fenceTagCount text.
Proof.
  intros (pre & tag & ws & post & Ht & _ & ->).
  eapply Nat.le_trans; [| apply fenceTagCount_app].
  rewrite app_assoc, fenceTagCount_token; [lia |].
  change (u16 "```mermaid") with (fence ++ u16 "mermaid").
  now rewrite !fold_app, Ht.
Qed.

Lemma trim_completeBlock text : HasCompleteBlock text -> HasCompleteBlock (trim text).
Proof.
  intros (pre & tag & ws & body & post & Ht & Hws & ->).
  exists (trimStart pre), tag, ws, body, (trimEnd post). repeat split; try assumption.
  change fence with [96; 96; 96]%Z.
  change (pre ++ [96; 96; 96]%Z ++ tag ++ ws ++ newline ++ body ++ [96; 96; 96]%Z ++ post)
    with (pre ++ 96%Z :: ([96; 96]%Z ++ tag ++ ws ++ newline ++ body ++ [96; 96]%Z ++ 96%Z :: post)).
  replace ([96; 96]%Z ++ tag ++ ws ++ newline ++ body ++ [96; 96]%Z ++ 96%Z :: post)
    with (([96; 96]%Z ++ tag ++ ws ++ newline ++ body ++ [96; 96]%Z) ++ 96%Z :: post)
    by (now rewrite <- !app_assoc).
  rewrite trim_core by reflexivity. f_equal. simpl. do 3 f_equal.
  rewrite <- !app_assoc. simpl. rewrite <- !app_assoc. reflexivity.
Qed.

Lemma completeBlock_tests text :
  HasCompleteBlock text ->
  test codeBlockRegex text = true /\ containsMermaidBlocks text = true.
Proof.
  intros (pre & tag & ws & body & post & Ht & Hws & ->). split.
  - pose proof (codeBlock_found pre (tag ++ ws ++ newline ++ body) post) as H.
    now rewrite <- !app_assoc in H.
  - apply openingFence_found. now exists pre, tag, ws, (body ++ fence ++ post).
Qed.

Lemma codeBlockRegex_listed : In codeBlockRegex mdPatterns.
Proof. unfold mdPatterns. simpl. tauto. Qed.



(** C10.  A text that holds a complete delimited block (opening fence,
    body, closing fence) passes the Markdown feature test through the
    code-block pattern alone, so the classifier answers the
    Markdown-plus-Mermaid result; the result labelled "Fenced Mermaid"
    is given only to text with an opening fence and no complete block,
    and such text exists. *)
Theorem complete_block_is_markdown_plus_mermaid :
  (forall text, HasCompleteBlock text ->
     test codeBlockRegex (trim text) = true
     /\ hasMarkdownFeatures (trim text) = true
     /\ type (detectContentType text) = mixed
     /\ label (detectContentType text) = u16 "Markdown + Mermaid")
  /\ (forall text, label (detectContentType text) = u16 "Fenced Mermaid" ->
        HasOpeningFence (trim text)
        /\ test codeBlockRegex (trim text) = false
        /\ ~ HasCompleteBlock text)
  /\ label (detectContentType (u16 "```mermaid" ++ newline ++ u16 "graph TD"))
     = u16 "Fenced Mermaid".
Proof.
  assert (P1 : forall text, HasCompleteBlock text ->
     test codeBlockRegex (trim text) = true
     /\ hasMarkdownFeatures (trim text) = true
     /\ type (detectContentType text) = mixed
     /\ label (detectContentType text) = u16 "Markdown + Mermaid").
  { intros text H. pose proof (trim_completeBlock H) as Ht.
    destruct (completeBlock_tests Ht) as [Hc Hb].
    assert (Hmd : hasMarkdownFeatures (trim text) = true).
    { apply hasMarkdownFeatures_true_iff. exists codeBlockRegex.
      split; [apply codeBlockRegex_listed | assumption]. }
    split; [assumption |]. split; [assumption |].
    unfold detectContentType. rewrite Hmd, Hb.
    destruct Ht as (pre & tag & ws & body & post & _ & _ & E).
    destruct (trim text) as [| c t]; [destruct pre; discriminate E |].
    cbn [isEmptyStr]. destruct (looksLikeMermaid (c :: t)); cbn; auto. }
  split; [exact P1 |]. split; [| vm_compute; reflexivity].
  intros text H.
  assert (Hb : containsMermaidBlocks (trim text) = true
               /\ hasMarkdownFeatures (trim text) = false).
  { unfold detectContentType in H.
    destruct (isEmptyStr (trim text)); [vm_compute in H; discriminate H |].
    destruct (looksLikeMermaid (trim text)), (hasMarkdownFeatures (trim text)),
      (containsMermaidBlocks (trim text)); cbn [andb orb negb label] in H;
      try (vm_compute in H; discriminate H); auto. }
  destruct Hb as [Hb Hmd]. split; [now apply containsMermaidBlocks_iff |].
  assert (Hc : test codeBlockRegex (trim text) = false).
  { destruct (test codeBlockRegex (trim text)) eqn:E; [| reflexivity].
    assert (hasMarkdownFeatures (trim text) = true); [| congruence].
    apply hasMarkdownFeatures_true_iff. exists codeBlockRegex.
    split; [apply codeBlockRegex_listed | assumption]. }
  split; [assumption |].
  intros Hblock. apply P1 in Hblock. destruct Hblock as (Hc' & _). congruence.
Qed.

Lemma complete_block_is_markdown_plus_mermaid_witness :
  label (detectContentType
           (u16 "# T" ++ newline ++ u16 "```mermaid" ++ newline ++ u16 "graph TD"
              ++ newline ++ u16 "```"))
  = u16 "Markdown + Mermaid".
Proof.
  apply (proj1 complete_block_is_markdown_plus_mermaid).
  exists (u16 "# T" ++ newline), (u16 "mermaid"), [], (u16 "graph TD" ++ newline), [].
  repeat split. constructor.
Defined.

(** * The fixer: what each replacement does *)

Lemma MatchAt_elim R m :
  MatchAt R m ->
  exists y,
    Match (ignoreCase R) (multiline R) (pattern R)
      (mkState (m_before m) (m_text m ++ m_after m) []) y
    /\ Moves (mkState (m_before m) (m_text m ++ m_after m) []) (m_text m) y
    /\ captures y = m_captures m.
Proof.
  intros (y & M & A & C). exists y. split; [assumption |]. split; [| assumption].
  destruct (Match_consumed M) as [A' B']. simpl in A', B'.
  rewrite A in A'. apply app_inv_tail in A'. rewrite <- A' in B'.
  split; simpl; [now rewrite A | assumption].
Qed.

(** A pattern without groups leaves the captures alone. *)
Lemma Match_nogroup ic ml r x y :
  Match ic ml r x y -> groupCount r = 0 -> captures y = captures x.
Proof.
  induction 1; simpl; intros G; try reflexivity; try lia.
  - rewrite IHMatch2, IHMatch1; [reflexivity | lia | lia].
  - apply IHMatch. lia.
  - apply IHMatch. lia.
  - rewrite IHMatch2, IHMatch1; [reflexivity | assumption | assumption].
Qed.

Section SplicedFacts.

Variables (S : Type) (R : RegExp) (f : replacer S).

Lemma Spliced_same b a st out st' :
  Spliced R f b a st out st' -> execFrom R b a = None -> out = a /\ st' = st.
Proof.
  intros H E. inversion H; subst; [auto | congruence].
Qed.

(** A measure that adds up over concatenation: a length, a count. *)
Variable mu : str -> nat.
Hypothesis mu_app : forall s t, mu (s ++ t) = mu s + mu t.

Lemma Spliced_le :
  (forall m st, MatchAt R m -> mu (fst (f m st)) <= mu (m_text m)) ->
  forall b a st out st', Spliced R f b a st out st' -> mu out <= mu a.
Proof.
  intros Hf b a st out st' H. induction H; [apply Nat.le_refl |].
  rewrite !mu_app. specialize (Hf m st H2). lia.
Qed.

Lemma Spliced_eq :
  (forall m st, MatchAt R m -> mu (fst (f m st)) = mu (m_text m)) ->
  forall b a st out st', Spliced R f b a st out st' -> mu out = mu a.
Proof.
  intros Hf b a st out st' H. induction H; [reflexivity |].
  rewrite !mu_app. specialize (Hf m st H2). lia.
Qed.

Lemma Spliced_lt :
  (forall m st, MatchAt R m -> mu (fst (f m st)) < mu (m_text m)) ->
  forall b a st out st',
    Spliced R f b a st out st' -> execFrom R b a <> None -> mu out < mu a.
Proof.
  intros Hf b a st out st' H E. destruct H; [contradiction |].
  assert (Hle : mu out <= mu (m_after m)).
  { eapply Spliced_le; [| eassumption]. intros m0 st0 Hm0.
    apply Nat.lt_le_incl. now apply Hf. }
  rewrite !mu_app. specialize (Hf m st H2). lia.
Qed.

End SplicedFacts.

Lemma length_add (s t : str) : List.length (s ++ t) = List.length s + List.length t.
Proof. apply length_app. Qed.

Lemma backticks_app s t : backticks (s ++ t) = backticks s + backticks t.
Proof. unfold backticks. now rewrite filter_app, length_app. Qed.

(** ** [trim] takes away white space only *)

Lemma dropWhile_length p s : List.length (dropWhile p s) <= List.length s.
Proof.
  induction s as [| a s IH]; simpl; [lia |]. destruct (p a); simpl; lia.
Qed.

Lemma trim_length s : List.length (trim s) <= List.length s.
Proof.
  unfold trim, trimEnd, trimStart. rewrite length_rev.
  eapply Nat.le_trans; [apply dropWhile_length |]. rewrite length_rev.
  apply dropWhile_length.
Qed.

Lemma trim_length_space c s :
  isSpace c = true -> List.length (trim (c :: s)) <= List.length s.
Proof.
  intros H. unfold trim, trimEnd, trimStart. simpl. rewrite H, length_rev.
  eapply Nat.le_trans; [apply dropWhile_length |]. rewrite length_rev.
  apply dropWhile_length.
Qed.

Lemma backticks_cons a s :
  backticks (a :: s) = (if (96 =? a)%Z then 1 else 0) + backticks s.
Proof.
  unfold backticks. cbn [filter]. destruct (96 =? a)%Z; reflexivity.
Qed.

Lemma backticks_rev s : backticks (rev s) = backticks s.
Proof.
  induction s as [| a s IH]; [reflexivity |]. cbn [rev].
  rewrite backticks_app, IH, !backticks_cons. unfold backticks at 2.
  cbn [filter List.length]. lia.
Qed.

Lemma backticks_dropWhile s : backticks (dropWhile isSpace s) = backticks s.
Proof.
  induction s as [| a s IH]; [reflexivity |]. cbn [dropWhile].
  destruct (isSpace a) eqn:E; [| reflexivity]. rewrite IH, backticks_cons.
  destruct (Z.eqb_spec 96 a); [| reflexivity].
  subst a. discriminate E.
Qed.

Lemma backticks_trim s : backticks (trim s) = backticks s.
Proof.
  unfold trim, trimEnd, trimStart.
  now rewrite backticks_rev, backticks_dropWhile, backticks_rev, backticks_dropWhile.
Qed.

Lemma backticks_allIn l w : oneOf l 96 = false -> allIn l w -> backticks w = 0.
Proof.
  intros Hl. induction 1 as [| a w Ha _ IH]; [reflexivity |].
  rewrite backticks_cons, IH. destruct (Z.eqb_spec 96 a); [| reflexivity].
  subst a. congruence.
Qed.

Lemma backticks_space w : allSpace w -> backticks w = 0.
Proof.
  induction 1 as [| a w Ha _ IH]; [reflexivity |].
  rewrite backticks_cons, IH. destruct (Z.eqb_spec 96 a); [| reflexivity].
  subst a. discriminate Ha.
Qed.

Lemma exec_sound R s m :
  exec R s = Some m ->
  MatchAt R m /\ s = rev (m_before m) ++ m_text m ++ m_after m.
Proof.
  intros H. apply execFrom_sound in H. destruct H as (HM & gap & A & B).
  split; [assumption |]. rewrite app_nil_r in B.
  now rewrite B, rev_involutive.
Qed.

(** ** Fix 0: invisible characters *)

Lemma bomRegex_match m : MatchAt bomRegex m -> m_text m = [65279%Z].
Proof.
  intros H. apply MatchAt_elim in H. destruct H as (y & M & V & _).
  cbn [bomRegex pattern ignoreCase multiline seqs fold_right] in M.
  apply Match_Seq_inv in M. destruct M as (y1 & M1 & M).
  apply Match_Start_inv in M1. destruct M1 as [-> _].
  apply Match_Seq_inv in M. destruct M as (y2 & M2 & M).
  apply Match_Empty_inv in M. subst y2.
  apply Match_Char_inv in M2. destruct M2 as (a & V2 & _ & E).
  apply Z.eqb_eq in E. subst a. apply (Moves_inj V V2).
Qed.

Lemma zeroWidthRegex_match m :
  MatchAt zeroWidthRegex m ->
  exists c, m_text m = [c] /\ oneOf [8203; 8204; 8205; 65279]%Z c = true.
Proof.
  intros H. apply MatchAt_elim in H. destruct H as (y & M & V & _).
  cbn [zeroWidthRegex pattern ignoreCase multiline] in M.
  apply Match_Set_inv in M. destruct M as (a & V2 & _ & E).
  exists a. split; [apply (Moves_inj V V2) | assumption].
Qed.

Lemma zeroWidth_no_backtick c :
  oneOf [8203; 8204; 8205; 65279]%Z c = true -> backticks [c] = 0.
Proof.
  intros H. rewrite backticks_cons. destruct (Z.eqb_spec 96 c); [| reflexivity].
  subst c. discriminate H.
Qed.

Lemma removeInvisible_spec source :
  List.length (fst (removeInvisible source)) <= List.length source
  /\ backticks (fst (removeInvisible source)) = backticks source
  /\ (snd (removeInvisible source) = [] -> fst (removeInvisible source) = source)
  /\ (snd (removeInvisible source) <> [] ->
      List.length (fst (removeInvisible source)) < List.length source).
Proof.
  unfold removeInvisible. cbn [fst snd].
  set (code1 := replace bomRegex source []).
  set (code2 := replace zeroWidthRegex code1 []).
  assert (H1 : (code1 = source)
               \/ (S (List.length code1) = List.length source
                   /\ backticks code1 = backticks source)).
  { unfold code1, replace. rewrite replaceWith_first by reflexivity.
    destruct (exec bomRegex source) as [m |] eqn:E; [| now left].
    right. apply exec_sound in E. destruct E as (HM & E).
    apply bomRegex_match in HM. cbn [fst template getSubstitution app].
    rewrite E at 1 2. rewrite HM, !length_app, !backticks_app. cbn. lia. }
  assert (NE : NonEmptyMatches zeroWidthRegex).
  { intros m HM. apply zeroWidthRegex_match in HM. destruct HM as (c & -> & _).
    discriminate. }
  pose proof (@replaceWith_global unit zeroWidthRegex (template zeroWidthRegex [])
                code1 tt eq_refl NE) as Sp.
  fold (replace zeroWidthRegex code1 []) in Sp. fold code2 in Sp.
  assert (H2 : (code2 = code1)
               \/ List.length code2 < List.length code1).
  { destruct (execFrom zeroWidthRegex [] code1) as [m0 |] eqn:E.
    - right. eapply (@Spliced_lt _ _ _ (@List.length Z) length_add);
        [| exact Sp | congruence].
      intros m st HM. apply zeroWidthRegex_match in HM. destruct HM as (c & -> & _).
      cbn. lia.
    - left. now destruct (Spliced_same Sp E). }
  assert (H3 : backticks code2 = backticks code1).
  { eapply (@Spliced_eq _ _ _ backticks backticks_app); [| exact Sp].
    intros m st HM. apply zeroWidthRegex_match in HM. destruct HM as (c & -> & Hc).
    cbn [fst template getSubstitution]. now rewrite zeroWidth_no_backtick. }
  assert (Hle : List.length code2 <= List.length code1 <= List.length source).
  { destruct H1 as [-> | [H1 _]], H2 as [-> | H2]; lia. }
  split; [lia |]. split.
  { rewrite H3. destruct H1 as [-> | [_ H1]]; [reflexivity | assumption]. }
  destruct (Nat.eqb_spec (List.length code2) (List.length source)) as [El | El];
    cbn [negb]; split; intros H; try congruence; try lia.
  destruct H1 as [-> | [H1 _]], H2 as [-> | H2]; try reflexivity; lia.
Qed.

(** ** Fix 1 to Fix 5: capitalization *)

Lemma Match_Quant_inv ic ml min max g r x z :
  Match ic ml (Quant min max g r) x z ->
  ((min = 0 \/ isZero max = true) /\ z = x)
  \/ (isZero max = false
      /\ exists y, Match ic ml r x y
                   /\ Match ic ml (Quant (pred min) (option_map pred max) g r) y z).
Proof. inversion 1; subst; [left | right]; eauto. Qed.

Lemma atLineStart_endsLine ml x : atLineStart ml x = true -> endsLine (before x).
Proof.
  unfold atLineStart, endsLine. destruct (before x); [trivial |].
  intros H. apply andb_true_iff in H. tauto.
Qed.

Lemma Moves_fields x w y y' :
  Moves x w y -> before y' = before y -> after y' = after y -> Moves x w y'.
Proof. unfold Moves. intros [A B] -> ->. auto. Qed.

Lemma Moves_from x x' w y :
  Moves x w y -> before x' = before x -> after x' = after x -> Moves x' w y.
Proof. unfold Moves. intros [A B] -> ->. auto. Qed.

(** The head of a capitalization pattern: [^(\s* )(keyword)]. *)
Lemma capHead_inv names rest x z :
  captures x = [] -> names <> [] ->
  Match true true
    (Seq AssertStart (Seq (Group 1 (star space)) (Seq (Group 2 (keyword names)) rest)))
    x z ->
  exists ws kw y,
    endsLine (before x) /\ allSpace ws
    /\ (exists n, In n names /\ fold kw = fold (u16 n))
    /\ Moves x (ws ++ kw) y /\ captures y = [(2, kw); (1, ws)]
    /\ Match true true rest y z.
Proof.
  intros Cx Hn M.
  apply Match_Seq_inv in M. destruct M as (y1 & M1 & M).
  apply Match_Start_inv in M1. destruct M1 as [-> L].
  apply Match_Seq_inv in M. destruct M as (y2 & M2 & M).
  apply Match_Group_inv in M2. destruct M2 as (y2' & M2 & ->).
  apply Match_star_inv in M2. destruct M2 as (ws & V2 & C2 & F2 & _).
  rewrite (Moves_consumed V2), C2, Cx in M.
  apply Match_Seq_inv in M. destruct M as (y3 & M3 & M).
  apply Match_Group_inv in M3. destruct M3 as (y3' & M3 & ->).
  apply Match_alts_inv in M3; [| destruct names; [contradiction | discriminate]].
  destruct M3 as (r & I & M3). apply in_map_iff in I. destruct I as (n & <- & I).
  apply Match_lit_inv in M3. destruct M3 as (kw & V3 & C3 & F3).
  rewrite (Moves_consumed V3), C3 in M. cbn [captures] in M.
  apply charsMatch_ci in F3.
  exists ws, kw, (mkState (before y3') (after y3') [(2, kw); (1, ws)]).
  split; [now apply atLineStart_endsLine in L |].
  split; [now apply allMatch_space_inv in F2 |].
  split; [exists n; auto |].
  split; [| split; [reflexivity | assumption]].
  eapply Moves_fields; [| reflexivity | reflexivity].
  eapply Moves_app; [exact V2 |].
  eapply Moves_from; [exact V3 | reflexivity | reflexivity].
Qed.

Lemma capTail_inv y z :
  Match true true (Seq WordBoundary Empty) y z -> z = y.
Proof.
  intros M. apply Match_Seq_inv in M. destruct M as (y1 & M1 & M).
  apply Match_Word_inv in M1. destruct M1 as [-> _].
  now apply Match_Empty_inv in M.
Qed.

Lemma capShape_simple names K tmpl :
  names <> [] ->
  Forall (fun n => fold (u16 n) = fold K) names ->
  (forall r, getSubstitution 2 r tmpl = groupText 1 r ++ K) ->
  CapShape
    (mkRegExp (seqs [AssertStart; Group 1 (star space); Group 2 (keyword names);
                     WordBoundary]) true true false)
    K tmpl.
Proof.
  intros Hn Hf Ht. split; [reflexivity |]. intros m HM.
  apply MatchAt_elim in HM. destruct HM as (y & M & V & C).
  cbn [pattern ignoreCase multiline seqs fold_right] in M.
  apply capHead_inv in M; [| reflexivity | assumption].
  destruct M as (ws & kw & y' & L & Hws & (n & I & Hkw) & V' & C' & M).
  apply capTail_inv in M. subst y'.
  exists ws, kw, []. rewrite app_nil_r.
  assert (G1 : groupText 1 m = ws) by (unfold groupText, group; now rewrite <- C, C').
  assert (G2 : groupText 2 m = kw) by (unfold groupText, group; now rewrite <- C, C').
  split; [apply (Moves_inj V V') |]. split; [assumption |].
  split; [rewrite Hkw; now apply (proj1 (Forall_forall _ _) Hf) |].
  split; [assumption |]. split; [assumption |].
  cbn [pattern groupCount seqs fold_right Nat.add].
  assert (Gk : groupCount (keyword names) = 0).
  { unfold keyword. clear. induction names as [| n [| n' l] IH]; try reflexivity.
    - simpl. induction (u16 n); simpl; auto.
    - change (groupCount (Alt (lit (u16 n)) (alts (map (fun n => lit (u16 n)) (n' :: l)))) = 0).
      cbn [groupCount]. rewrite IH.
      assert (E : groupCount (lit (u16 n)) = 0) by (induction (u16 n); simpl; auto).
      now rewrite E. }
  replace (S (groupCount (star space) + S (groupCount (keyword names) + 0)))
    with 2 by (rewrite Gk; reflexivity).
  now rewrite Ht, G1, app_nil_r.
Qed.

Lemma gitGraphRegex_shape : CapShape gitGraphRegex (u16 "gitGraph") (u16 "$1gitGraph").
Proof.
  apply capShape_simple; [discriminate | repeat constructor | reflexivity].
Qed.

Lemma seqRegex_shape :
  CapShape seqRegex (u16 "sequenceDiagram") (u16 "$1sequenceDiagram").
Proof.
  apply capShape_simple; [discriminate | repeat constructor | reflexivity].
Qed.

Lemma classRegex_shape : CapShape classRegex (u16 "classDiagram") (u16 "$1classDiagram").
Proof.
  apply capShape_simple; [discriminate | repeat constructor | reflexivity].
Qed.

Lemma erRegex_shape : CapShape erRegex (u16 "erDiagram") (u16 "$1erDiagram").
Proof.
  apply capShape_simple; [discriminate | repeat constructor | reflexivity].
Qed.

Lemma stateRegex_shape :
  CapShape stateRegex (u16 "stateDiagram") (u16 "$1stateDiagram$3").
Proof.
  split; [reflexivity |]. intros m HM.
  apply MatchAt_elim in HM. destruct HM as (y & M & V & C).
  cbn [stateRegex pattern ignoreCase multiline seqs fold_right] in M.
  apply capHead_inv in M; [| reflexivity | discriminate].
  destruct M as (ws & kw & y' & L & Hws & (n & I & Hkw) & V' & C' & M).
  assert (Hk : fold kw = fold (u16 "stateDiagram")).
  { rewrite Hkw. destruct I as [<- | [<- | [<- | []]]]; reflexivity. }
  apply Match_Seq_inv in M. destruct M as (y1 & M1 & M).
  apply capTail_inv in M. subst y1.
  assert (T : forall r, getSubstitution (groupCount (pattern stateRegex)) r
                          (u16 "$1stateDiagram$3")
                        = groupText 1 r ++ u16 "stateDiagram" ++ groupText 3 r).
  { intros r. rewrite <- (app_nil_r (groupText 3 r)). reflexivity. }
  apply Match_Quant_inv in M1. destruct M1 as [[_ ->] | [_ (y2 & M2 & M3)]].
  - exists ws, kw, []. rewrite app_nil_r.
    split; [apply (Moves_inj V V') |].
    unfold groupText, group. rewrite T. unfold groupText, group.
    rewrite <- C, C'. cbn [capture find fst snd option_map Nat.eqb]. auto.
  - apply Match_Quant_inv in M3. destruct M3 as [[_ ->] | [Z _]]; [| discriminate Z].
    apply Match_Group_inv in M2. destruct M2 as (y2' & M2 & ->).
    apply Match_lit_inv in M2. destruct M2 as (sfx & V2 & C2 & _).
    rewrite (Moves_consumed V2), C2, C' in *. cbn [captures] in C.
    exists ws, kw, sfx.
    split.
    { rewrite app_assoc. apply (Moves_inj V).
      eapply Moves_fields; [| reflexivity | reflexivity].
      apply (Moves_app V' V2). }
    unfold groupText, group. rewrite T. unfold groupText, group.
    rewrite <- C. cbn [capture find fst snd option_map Nat.eqb]. auto.
Qed.

Lemma str_eqb_refl s : str_eqb s s = true.
Proof. induction s; simpl; [reflexivity |]. now rewrite Z.eqb_refl. Qed.

Lemma endsLine_endsSpace b ws :
  endsLine b -> allSpace ws -> endsSpace (rev b ++ ws).
Proof.
  intros Hb Hws. destruct (rev ws) as [| c w'] eqn:E.
  - apply (f_equal (@rev Z)) in E. rewrite rev_involutive in E. subst ws.
    rewrite app_nil_r. destruct b as [| c b]; [now left |].
    right. exists (rev b), c. split; [reflexivity |].
    unfold isSpace. simpl in Hb. rewrite Hb. apply orb_true_r.
  - apply (f_equal (@rev Z)) in E. rewrite rev_involutive in E. simpl in E.
    subst ws. right. exists (rev b ++ rev w'), c. split; [now rewrite app_assoc |].
    apply Forall_app in Hws. destruct Hws as [_ Hc]. now inversion Hc.
Qed.

(** One capitalization fix either leaves the text and the fixes alone,
    or spells one miscapitalized keyword right and reports it. *)
Lemma fixCapitalization_spec R K tmpl code fx :
  CapShape R K tmpl ->
  fixCapitalization R K tmpl (code, fx) = (code, fx)
  \/ (Respelled K code (fst (fixCapitalization R K tmpl (code, fx)))
      /\ exists msg, snd (fixCapitalization R K tmpl (code, fx)) = fx ++ [msg]).
Proof.
  intros [G Sh]. unfold fixCapitalization.
  destruct (test R code); [| now left].
  destruct (exec R code) as [m |] eqn:E; [| now left].
  destruct (str_eqb (groupText 2 m) K) eqn:Ek; [now left |]. right.
  cbn [negb fst snd]. split; [| eauto].
  unfold replace. rewrite replaceWith_first, E by assumption. cbn [fst template].
  apply exec_sound in E. destruct E as (HM & E).
  destruct (Sh m HM) as (ws & kw & sfx & Ht & G2 & Hk & Hws & L & Hsub).
  rewrite Hsub. exists (rev (m_before m) ++ ws), kw, (sfx ++ m_after m).
  split; [rewrite E, Ht, <- !app_assoc; reflexivity |].
  split; [now rewrite <- !app_assoc |].
  split; [| split; [assumption | now apply endsLine_endsSpace]].
  intros ->. rewrite G2, str_eqb_refl in Ek. discriminate.
Qed.

(** *** The five fixes do not undo one another *)

Lemma split_app (a b c d : str) :
  a ++ b = c ++ d -> List.length a <= List.length c ->
  exists m, c = a ++ m /\ b = m ++ d.
Proof.
  revert c. induction a as [| x a IH]; intros c E L; simpl in *.
  - exists c. auto.
  - destruct c as [| y c]; [simpl in L; lia |]. simpl in *.
    injection E as -> E. destruct (IH c E) as (m & -> & ->); [lia |].
    exists m. auto.
Qed.

Lemma fold_length s : List.length (fold s) = List.length s.
Proof. apply length_map. Qed.

Lemma fold_eq_length s t : fold s = fold t -> List.length s = List.length t.
Proof. intros H. now rewrite <- (fold_length s), H, fold_length. Qed.

Lemma endsSpace_fold pre : endsSpace pre -> endsSpace (fold pre).
Proof.
  intros [-> | (pre' & c & -> & Hc)]; [now left |].
  right. exists (fold pre'), (canonicalize c).
  split; [apply fold_app | now rewrite isSpace_canonicalize].
Qed.

(** Two places where text after white space spells two keywords, of
    which neither begins like the other, cannot overlap. *)
Lemma regions_disjoint t P k Q P' k' Q' :
  t = P ++ k ++ Q -> t = P' ++ k' ++ Q' ->
  endsSpace P -> endsSpace P' -> noSpace k -> noSpace k' ->
  (forall R R', k ++ R <> k' ++ R') ->
  List.length P + List.length k <= List.length P'
  \/ List.length P' + List.length k' <= List.length P.
Proof.
  assert (Half : forall P k Q P' k' Q',
             P ++ k ++ Q = P' ++ k' ++ Q' -> endsSpace P' -> noSpace k ->
             List.length P < List.length P' ->
             List.length P + List.length k <= List.length P').
  { clear. intros P k Q P' k' Q' E HP' Hk L.
    destruct (le_lt_dec (List.length P + List.length k) (List.length P')) as [| O];
      [assumption | exfalso].
    destruct (split_app _ _ _ _ E) as (m & -> & E'); [lia |].
    rewrite length_app in L, O.
    destruct (split_app m (k' ++ Q') k Q (eq_sym E')) as (r & -> & _); [lia |].
    destruct HP' as [HP' | (p & c & HP' & Hc)].
    { destruct P, m; simpl in *; try discriminate; lia. }
    destruct (rev m) as [| c' m'] eqn:Em.
    { apply (f_equal (@rev Z)) in Em. rewrite rev_involutive in Em. subst m.
      simpl in L. lia. }
    apply (f_equal (@rev Z)) in Em. rewrite rev_involutive in Em. simpl in Em.
    subst m. rewrite app_assoc in HP'. apply app_inj_tail in HP'.
    destruct HP' as [_ <-].
    apply Forall_app in Hk. destruct Hk as [Hk _].
    apply Forall_app in Hk. destruct Hk as [_ Hk]. inversion Hk; subst. congruence. }
  intros -> E HP HP' Hk Hk' Inc.
  destruct (lt_eq_lt_dec (List.length P) (List.length P')) as [[L | L] | L].
  - left. eapply Half; eauto.
  - exfalso. destruct (split_app _ _ _ _ E) as (m & Em & E'); [lia |].
    assert (m = []).
    { apply (f_equal (@List.length Z)) in Em. rewrite length_app in Em.
      destruct m; [reflexivity | simpl in Em; lia]. }
    subst m. simpl in E'. now apply Inc in E'.
  - right. eapply Half; eauto.
Qed.

Lemma canonical_noSpace K : In K canonicalKeywords -> noSpace (fold K).
Proof.
  intros H. repeat (destruct H as [<- | H]; [repeat constructor |]). destruct H.
Qed.

Lemma canonical_distinct K K' :
  In K canonicalKeywords -> In K' canonicalKeywords -> K <> K' ->
  forall R R', fold K ++ R <> fold K' ++ R'.
Proof.
  intros H H' N R R'.
  destruct H as [<- | [<- | [<- | [<- | [<- | []]]]]];
    destruct H' as [<- | [<- | [<- | [<- | [<- | []]]]]];
    try (now elim N); intros E; vm_compute in E; discriminate E.
Qed.

Lemma app_inv_length (a b c d : str) :
  a ++ b = c ++ d -> List.length a = List.length c -> a = c /\ b = d.
Proof.
  intros E L. destruct (split_app _ _ _ _ E) as (m & Em & E'); [lia |].
  assert (m = []).
  { apply (f_equal (@List.length Z)) in Em. rewrite length_app in Em.
    destruct m; [reflexivity | simpl in Em; lia]. }
  subst m. rewrite app_nil_r in Em. auto.
Qed.

Lemma DiffersAt_differs Ks s0 s : DiffersAt Ks s0 s -> s <> s0.
Proof.
  intros (K & pre & kw & post & pre' & seg & post' & _ & -> & _ & _ & -> & L1 & L2 & N) E.
  apply app_inv_length in E; [| assumption]. destruct E as [_ E].
  apply app_inv_length in E; [| assumption]. now destruct E.
Qed.

Lemma Respelled_fold K s s' : Respelled K s s' -> fold s' = fold s.
Proof.
  intros (pre & kw & post & -> & -> & _ & E & _). now rewrite !fold_app, E.
Qed.

(** One more capitalization fix keeps the state of the fixes. *)
Lemma CapInv_step Ks c0 f0 R K tmpl st :
  CapInv Ks c0 f0 st ->
  CapShape R K tmpl ->
  In K canonicalKeywords ->
  (forall K0, In K0 Ks -> In K0 canonicalKeywords /\ K0 <> K) ->
  CapInv (K :: Ks) c0 f0 (fixCapitalization R K tmpl st).
Proof.
  intros [Hfold Hst] Sh HK HKs. destruct st as [s fx]. cbn [fst snd] in *.
  destruct (@fixCapitalization_spec R K tmpl s fx Sh) as [-> | [Hr (msg & Hm)]].
  { split; [assumption |]. cbn [fst snd].
    destruct Hst as [? | [(K0 & D) ?]]; [now left | right].
    split; [| assumption]. exists K0.
    destruct D as (pre & kw & post & pre' & seg & post' & I & D).
    exists pre, kw, post, pre', seg, post'. split; [now right | assumption]. }
  pose proof (Respelled_fold Hr) as Hf'.
  split; [congruence |]. right.
  destruct Hr as (p1 & kw1 & q1 & Es & Es' & N1 & F1 & S1).
  rewrite Hm, Es'.
  destruct Hst as [[-> ->] | [D (more & Hmore & ->)]].
  { split; [| exists [msg]; split; [discriminate | reflexivity]].
    exists K, p1, kw1, q1, p1, K, q1. repeat split; auto.
    - now left.
    - symmetry. now apply fold_eq_length. }
  split; [| exists (more ++ [msg]); split;
              [destruct more; discriminate | now rewrite app_assoc]].
  destruct D as (K0 & pre & kw & post & pre' & seg & post' & I & E0 & F0 & S0 & E & L1 & L2 & N).
  destruct (HKs K0 I) as [I0 N0].
  assert (Hd : List.length pre + List.length kw <= List.length p1
               \/ List.length p1 + List.length kw1 <= List.length pre).
  { pose proof (@regions_disjoint (fold c0) (fold pre) (fold K0) (fold post)
                  (fold p1) (fold K) (fold q1)) as Hd.
    rewrite !fold_length, <- (fold_length kw), <- (fold_length kw1), F0, F1,
      !fold_length in *.
    apply Hd.
    - now rewrite E0, !fold_app, F0.
    - now rewrite <- Hfold, Es, !fold_app, F1.
    - now apply endsSpace_fold.
    - now apply endsSpace_fold.
    - now apply canonical_noSpace.
    - now apply canonical_noSpace.
    - now apply canonical_distinct. }
  assert (Lk : List.length K = List.length kw1) by (symmetry; now apply fold_eq_length).
  rewrite E in Es. destruct Hd as [Hd | Hd].
  - assert (Es2 : (pre' ++ seg) ++ post' = p1 ++ kw1 ++ q1) by now rewrite <- app_assoc.
    destruct (split_app _ _ _ _ Es2) as (m & -> & ->);
      [rewrite length_app; lia |].
    exists K0, pre, kw, post, pre', seg, (m ++ K ++ q1).
    repeat split; auto; [now right | now rewrite <- !app_assoc].
  - assert (Es2 : (p1 ++ kw1) ++ q1 = pre' ++ seg ++ post') by now rewrite <- app_assoc, Es.
    destruct (split_app _ _ _ _ Es2) as (m & Ep & ->);
      [rewrite length_app; lia |].
    exists K0, pre, kw, post, (p1 ++ K ++ m), seg, post'.
    repeat split; auto; [now right | now rewrite <- !app_assoc |].
    rewrite <- L1, Ep, !length_app. lia.
Qed.

(** ** Fix 6 and Fix 7: merging a clause into the line before *)

(** A merge pattern: [^(g1)[\r\n]+([ \t]+g2)] with [g1] and [g2] free
    of groups. *)
Lemma mergePattern_inv g1 g2 x z :
  captures x = [] -> groupCount g1 = 0 -> groupCount g2 = 0 ->
  Match false true
    (Seq AssertStart
       (Seq (Group 1 g1)
          (Seq (plus lineBreak) (Seq (Group 2 (Seq (plus blank) g2)) Empty))))
    x z ->
  exists c1 nls bl c2 y1 y2 y3 y4,
    endsLine (before x)
    /\ Match false true g1 x y1 /\ Moves x c1 y1
    /\ Moves y1 nls y2 /\ nls <> [] /\ allIn [13; 10]%Z nls
    /\ Moves y2 bl y3 /\ bl <> [] /\ allIn [32; 9]%Z bl
    /\ Match false true g2 y3 y4 /\ Moves y3 c2 y4
    /\ Moves x (c1 ++ nls ++ bl ++ c2) z
    /\ captures z = [(2, bl ++ c2); (1, c1)].
Proof.
  intros Cx G1 G2 M.
  apply Match_Seq_inv in M. destruct M as (x' & M0 & M).
  apply Match_Start_inv in M0. destruct M0 as [-> L].
  apply Match_Seq_inv in M. destruct M as (y1' & M1 & M).
  apply Match_Group_inv in M1. destruct M1 as (y1 & M1 & ->).
  pose proof (Match_nogroup M1 G1) as C1. rewrite Cx in C1.
  destruct (Match_consumed M1) as [A1 B1].
  assert (V1 : Moves x (consumed x y1) y1) by (split; assumption).
  set (c1 := consumed x y1) in *. rewrite C1 in M.
  apply Match_Seq_inv in M. destruct M as (y2 & M2 & M).
  apply Match_star_inv in M2. destruct M2 as (nls & V2 & C2 & F2 & L2).
  apply Match_Seq_inv in M. destruct M as (z' & M3 & M).
  apply Match_Empty_inv in M. subst z'.
  apply Match_Group_inv in M3. destruct M3 as (y4 & M3 & ->).
  apply Match_Seq_inv in M3. destruct M3 as (y3 & M3 & M4).
  apply Match_star_inv in M3. destruct M3 as (bl & V3 & C3 & F3 & L3).
  pose proof (Match_nogroup M4 G2) as C4.
  destruct (Match_consumed M4) as [A4 B4].
  assert (V4 : Moves y3 (consumed y3 y4) y4) by (split; assumption).
  set (c2 := consumed y3 y4) in *.
  assert (V34 : Moves y2 (bl ++ c2) y4) by apply (Moves_app V3 V4).
  rewrite (Moves_consumed V34).
  exists c1, nls, bl, c2, y1, y2, y3, y4.
  split; [now apply atLineStart_endsLine in L |].
  split; [assumption |]. split; [assumption |].
  split; [eapply Moves_from; [exact V2 | reflexivity | reflexivity] |].
  split; [destruct nls; [simpl in L2; lia | discriminate] |].
  split; [exact F2 |]. split; [assumption |].
  split; [destruct bl; [simpl in L3; lia | discriminate] |].
  split; [exact F3 |]. split; [assumption |]. split; [assumption |].
  split.
  - eapply Moves_fields; [| reflexivity | reflexivity].
    apply (Moves_app V1).
    eapply Moves_from; [apply (Moves_app V2 V34) | reflexivity | reflexivity].
  - cbn [captures]. rewrite C4, C3, C2. reflexivity.
Qed.

Lemma groupCount_lit s : groupCount (lit s) = 0.
Proof. induction s; simpl; auto. Qed.

Lemma mergeShape_of g1 g2 :
  groupCount g1 = 0 -> groupCount g2 = 0 ->
  MergeShape
    (mkRegExp
       (Seq AssertStart
          (Seq (Group 1 g1)
             (Seq (plus lineBreak) (Seq (Group 2 (Seq (plus blank) g2)) Empty))))
       false true true).
Proof.
  intros G1 G2. split; [reflexivity |]. intros m HM.
  apply MatchAt_elim in HM. destruct HM as (y & M & V & C).
  cbn [pattern ignoreCase multiline] in M.
  apply mergePattern_inv in M; try assumption; try reflexivity.
  destruct M as (c1 & nls & bl & c2 & y1 & y2 & y3 & y4 & _ & _ & _ & _ & Hn & Fn
                   & _ & Hb & Fb & _ & _ & V' & C').
  destruct bl as [| b bl]; [contradiction |].
  exists c1, nls, b, (bl ++ c2).
  split; [apply (Moves_inj V V') |]. split; [assumption |]. split; [assumption |].
  split; [now inversion Fb |].
  unfold groupText, group. rewrite <- C, C'. split; reflexivity.
Qed.

Lemma tagFixRegex_shape : MergeShape tagFixRegex.
Proof. apply mergeShape_of; reflexivity. Qed.

Lemma typeFixRegex_shape : MergeShape typeFixRegex.
Proof. apply mergeShape_of; reflexivity. Qed.

Lemma blank_isSpace b : oneOf [32; 9]%Z b = true -> isSpace b = true.
Proof.
  unfold oneOf. simpl. rewrite !orb_true_iff, !Z.eqb_eq.
  intros [-> | [-> | H]]; [reflexivity | reflexivity | discriminate].
Qed.

Section MergeFacts.

Variable R : RegExp.
Hypothesis shape : MergeShape R.

Lemma merge_nonEmpty : NonEmptyMatches R.
Proof.
  intros m HM. destruct shape as [_ Sh].
  destruct (Sh m HM) as (c1 & nls & b & c2 & -> & _). destruct c1, nls; discriminate.
Qed.

Lemma merge_shorter m (st : nat) :
  MatchAt R m -> List.length (fst (mergeReplacer m st)) < List.length (m_text m).
Proof.
  intros HM. destruct shape as [_ Sh].
  destruct (Sh m HM) as (c1 & nls & b & c2 & Et & Hn & _ & Hb & E1 & E2).
  unfold mergeReplacer. cbn [fst]. rewrite Et, E1, E2, !length_app.
  pose proof (@trim_length_space b c2 (blank_isSpace _ Hb)).
  destruct nls; [contradiction |]. simpl. lia.
Qed.

Lemma merge_backticks m (st : nat) :
  MatchAt R m -> backticks (fst (mergeReplacer m st)) = backticks (m_text m).
Proof.
  intros HM. destruct shape as [_ Sh].
  destruct (Sh m HM) as (c1 & nls & b & c2 & Et & _ & Fn & _ & E1 & E2).
  unfold mergeReplacer. cbn [fst]. rewrite Et, E1, E2, !backticks_app, backticks_trim.
  rewrite (@backticks_allIn [13; 10]%Z nls eq_refl Fn). reflexivity.
Qed.

Lemma Spliced_merge_count b a st out st' :
  Spliced R mergeReplacer b a st out st' ->
  st <= st' /\ (execFrom R b a <> None -> st < st').
Proof.
  induction 1 as [| b gap m st out st' E B N HM Sp IH].
  - split; [lia | contradiction].
  - cbn [snd mergeReplacer] in IH. destruct IH as [IH _]. split; lia.
Qed.

(** One pass of the loop body, entered because the pattern matches. *)
Lemma mergePass code count :
  test R code = true ->
  List.length (fst (replaceWith R code mergeReplacer count)) < List.length code
  /\ backticks (fst (replaceWith R code mergeReplacer count)) = backticks code
  /\ count < snd (replaceWith R code mergeReplacer count).
Proof.
  intros T. destruct shape as [G _].
  pose proof (replaceWith_global mergeReplacer code count G merge_nonEmpty) as Sp.
  assert (E : execFrom R [] code <> None).
  { unfold test, exec in T. destruct (execFrom R [] code); [discriminate | discriminate T]. }
  split; [| split].
  - eapply (@Spliced_lt _ _ _ (@List.length Z) length_add); [| exact Sp | exact E].
    intros m st. apply merge_shorter.
  - eapply (@Spliced_eq _ _ _ backticks backticks_app); [| exact Sp].
    intros m st. apply merge_backticks.
  - now apply (Spliced_merge_count Sp).
Qed.

(** The loop: the text never grows, keeps its backticks, and changes
    exactly when a merge was counted; with enough fuel it stops only
    when the pattern matches no more. *)
Lemma mergeLoop_spec : forall fuel code count,
  let res := mergeLoop R fuel code count in
  count <= snd res
  /\ List.length (fst res) <= List.length code
  /\ backticks (fst res) = backticks code
  /\ (snd res = count -> fst res = code)
  /\ (count < snd res -> List.length (fst res) < List.length code)
  /\ (List.length code < fuel -> test R (fst res) = false).
Proof.
  induction fuel as [| fuel IH]; intros code count; cbn [mergeLoop].
  - cbn. repeat split; auto; lia.
  - destruct (test R code) eqn:T.
    + destruct (mergePass code count T) as (L & B & C).
      destruct (replaceWith R code mergeReplacer count) as [code' count'].
      cbn [fst snd] in L, B, C.
      destruct (IH code' count') as (I1 & I2 & I3 & I4 & I5 & I6).
      cbn zeta. split; [lia |]. split; [lia |]. split; [congruence |].
      split; [intros H; lia |]. split; [intros _; lia |].
      intros H. apply I6. lia.
    + cbn. repeat split; auto; lia.
Qed.

End MergeFacts.

(** ** [fixMermaidCode] as a whole *)

Lemma backticks_fold s : backticks (fold s) = backticks s.
Proof.
  induction s as [| a s IH]; [reflexivity |].
  cbn [fold map]. fold (fold s). rewrite !backticks_cons, IH. f_equal.
  destruct (Z.eqb_spec 96 (canonicalize a)) as [E | E].
  - symmetry in E. apply canonicalize_fixed in E; [| reflexivity].
    subst a. reflexivity.
  - destruct (Z.eqb_spec 96 a) as [<- | _]; [now elim E | reflexivity].
Qed.

Lemma capitalization_stages c0 f0 :
  CapInv canonicalKeywords c0 f0
    (fixCapitalization erRegex (u16 "erDiagram") (u16 "$1erDiagram")
       (fixCapitalization stateRegex (u16 "stateDiagram") (u16 "$1stateDiagram$3")
          (fixCapitalization classRegex (u16 "classDiagram") (u16 "$1classDiagram")
             (fixCapitalization seqRegex (u16 "sequenceDiagram")
                (u16 "$1sequenceDiagram")
                (fixCapitalization gitGraphRegex (u16 "gitGraph")
                   (u16 "$1gitGraph") (c0, f0)))))).
Proof.
  assert (H0 : CapInv [] c0 f0 (c0, f0)) by (split; [reflexivity | now left]).
  assert (Weaken : forall Ks st,
             CapInv Ks c0 f0 st -> (forall K, In K Ks -> In K canonicalKeywords) ->
             CapInv canonicalKeywords c0 f0 st).
  { intros Ks st [Hf Hs] Hin. split; [assumption |].
    destruct Hs as [? | [(K & D) ?]]; [now left | right]. split; [| assumption].
    destruct D as (pre & kw & post & pre' & seg & post' & I & D).
    exists K, pre, kw, post, pre', seg, post'. split; [now apply Hin | assumption]. }
  pose proof (CapInv_step H0 gitGraphRegex_shape) as H1.
  specialize (H1 ltac:(simpl; tauto) ltac:(intros ? [])).
  pose proof (CapInv_step H1 seqRegex_shape) as H2.
  specialize (H2 ltac:(simpl; tauto)).
  specialize (H2 ltac:(intros K0 [<- | []]; split;
                       [simpl; tauto | intros E; vm_compute in E; discriminate E])).
  pose proof (CapInv_step H2 classRegex_shape) as H3.
  specialize (H3 ltac:(simpl; tauto)
                 ltac:(intros K0 [<- | [<- | []]]; split;
                       solve [simpl; tauto | intros E; vm_compute in E; discriminate E])).
  pose proof (CapInv_step H3 stateRegex_shape) as H4.
  specialize (H4 ltac:(simpl; tauto)
                 ltac:(intros K0 [<- | [<- | [<- | []]]]; split;
                       solve [simpl; tauto | intros E; vm_compute in E; discriminate E])).
  pose proof (CapInv_step H4 erRegex_shape) as H5.
  specialize (H5 ltac:(simpl; tauto)
                 ltac:(intros K0 [<- | [<- | [<- | [<- | []]]]]; split;
                       solve [simpl; tauto | intros E; vm_compute in E; discriminate E])).
  apply (Weaken _ _ H5). simpl. tauto.
Qed.

(** What a merge stage ([fixTag], [fixType]) does to the state. *)
Lemma mergeStage_spec R (msg : nat -> str) code fx :
  MergeShape R ->
  let res := mergeLoop R (S (List.length code)) code 0 in
  let st := (fst res, if 0 <? snd res then fx ++ [msg (snd res)] else fx) in
  List.length (fst st) <= List.length code
  /\ backticks (fst st) = backticks code
  /\ ((fst st = code /\ snd st = fx)
      \/ (List.length (fst st) < List.length code
          /\ snd st = fx ++ [msg (snd res)])).
Proof.
  intros Sh res st.
  destruct (mergeLoop_spec Sh (S (List.length code)) code 0) as (_ & L & B & E & Lt & _).
  fold res in L, B, E, Lt. subst st. cbn [fst snd].
  split; [assumption |]. split; [assumption |].
  destruct (snd res) as [| n]; cbn [Nat.ltb Nat.leb].
  - left. split; [now apply E | reflexivity].
  - right. split; [apply Lt; lia | reflexivity].
Qed.

Lemma fixTag_spec code fx :
  List.length (fst (fixTag (code, fx))) <= List.length code
  /\ backticks (fst (fixTag (code, fx))) = backticks code
  /\ ((fst (fixTag (code, fx)) = code /\ snd (fixTag (code, fx)) = fx)
      \/ (List.length (fst (fixTag (code, fx))) < List.length code
          /\ exists msg, snd (fixTag (code, fx)) = fx ++ [msg])).
Proof.
  pose proof (mergeStage_spec (mergeMessage "tag:") code fx tagFixRegex_shape) as H.
  cbn zeta in H. unfold fixTag.
  destruct (mergeLoop tagFixRegex (S (List.length code)) code 0) as [code' n].
  cbn [fst snd] in *. destruct H as (H1 & H2 & [H3 | [H3 H4]]); eauto 6.
Qed.

Lemma fixType_spec code fx :
  List.length (fst (fixType (code, fx))) <= List.length code
  /\ backticks (fst (fixType (code, fx))) = backticks code
  /\ ((fst (fixType (code, fx)) = code /\ snd (fixType (code, fx)) = fx)
      \/ (List.length (fst (fixType (code, fx))) < List.length code
          /\ exists msg, snd (fixType (code, fx)) = fx ++ [msg])).
Proof.
  pose proof (mergeStage_spec (mergeMessage "type:") code fx typeFixRegex_shape) as H.
  cbn zeta in H. unfold fixType.
  destruct (mergeLoop typeFixRegex (S (List.length code)) code 0) as [code' n].
  cbn [fst snd] in *. destruct H as (H1 & H2 & [H3 | [H3 H4]]); eauto 6.
Qed.

Lemma app_not_nil (A : Type) (l : list A) x : l ++ [x] <> [].
Proof. destruct l; discriminate. Qed.

(** The fixer never makes the text longer, keeps its backticks, and
    changes it exactly when it reports a fix. *)
Theorem fixMermaidCode_facts source :
  List.length (output (fixMermaidCode source)) <= List.length source
  /\ backticks (output (fixMermaidCode source)) = backticks source
  /\ (MermaidFixer.fixes (fixMermaidCode source) = [] ->
      output (fixMermaidCode source) = source)
  /\ (MermaidFixer.fixes (fixMermaidCode source) <> [] ->
      output (fixMermaidCode source) <> source).
Proof.
  unfold fixMermaidCode. cbn [output MermaidFixer.fixes].
  destruct (removeInvisible_spec source) as (L0 & B0 & E0 & N0).
  destruct (removeInvisible source) as [c0 f0]. cbn [fst snd] in *.
  pose proof (capitalization_stages c0 f0) as [F5 H5].
  match type of F5 with fold (fst ?st) = _ => set (st5 := st) in * end.
  pose proof (fold_eq_length _ _ F5) as L5.
  assert (B5 : backticks (fst st5) = backticks c0)
    by now rewrite <- backticks_fold, F5, backticks_fold.
  destruct st5 as [c5 f5]. cbn [fst snd] in *.
  destruct (fixTag_spec c5 f5) as (L6 & B6 & H6).
  destruct (fixTag (c5, f5)) as [c6 f6]. cbn [fst snd] in *.
  destruct (fixType_spec c6 f6) as (L7 & B7 & H7).
  destruct (fixType (c6, f6)) as [c7 f7]. cbn [fst snd] in *.
  split; [lia |]. split; [congruence |].
  split.
  - intros Hf.
    destruct H7 as [[Ec7 Ef7] | [_ (msg & E)]];
      [| rewrite Hf in E; destruct f6; discriminate E].
    rewrite Hf in Ef7. symmetry in Ef7.
    destruct H6 as [[Ec6 Ef6] | [_ (msg & E)]];
      [| rewrite Ef7 in E; destruct f5; discriminate E].
    rewrite Ef7 in Ef6. symmetry in Ef6.
    destruct H5 as [[Ec5 Ef5] | [_ (more & Hm & E)]];
      [| rewrite Ef6 in E; destruct f0, more; try discriminate E; now elim Hm].
    rewrite Ef6 in Ef5. symmetry in Ef5.
    subst. now apply E0.
  - intros Hf E. subst c7.
    assert (Hlen : List.length c0 = List.length source) by lia.
    assert (f0 = []) by (destruct f0; [reflexivity | specialize (N0 ltac:(discriminate)); lia]).
    subst f0. specialize (E0 eq_refl). subst c0.
    assert (H7' : source = c6 /\ f7 = f6) by (destruct H7 as [? | [? _]]; [assumption | lia]).
    destruct H7' as [-> ->].
    assert (H6' : c6 = c5 /\ f6 = f5) by (destruct H6 as [? | [? _]]; [assumption | lia]).
    destruct H6' as [-> ->].
    destruct H5 as [[_ ->] | [D _]]; [now elim Hf |].
    now apply DiffersAt_differs in D.
Qed.

(** * [fixMermaidInDocument] *)

Lemma fold_fence w : fold w = fold fence -> w = fence.
Proof.
  intros H. destruct w as [| c1 [| c2 [| c3 [| ? ?]]]]; try discriminate H.
  injection H as H1 H2 H3.
  apply canonicalize_fixed in H1, H2, H3; try reflexivity. now subst.
Qed.

(** A match of the block pattern: an opening fence, a body and the
    closing fence, held by the three groups. *)
Lemma mermaidBlockRegex_match m :
  MatchAt mermaidBlockRegex m ->
  exists tag ws body,
    fold tag = fold (u16 "mermaid") /\ allSpace ws
    /\ groupText 1 m = fence ++ tag ++ ws ++ newline
    /\ groupText 2 m = body
    /\ groupText 3 m = fence
    /\ m_text m = (fence ++ tag ++ ws ++ newline) ++ body ++ fence.
Proof.
  intros HM. apply MatchAt_elim in HM. destruct HM as (y & M & V & C).
  cbn [mermaidBlockRegex pattern ignoreCase multiline seqs fold_right] in M.
  apply Match_Seq_inv in M. destruct M as (y1' & M1 & M).
  apply Match_Group_inv in M1. destruct M1 as (y1 & M1 & ->).
  apply Match_Seq_inv in M1. destruct M1 as (ya & Ma & M1).
  apply Match_Seq_inv in M1. destruct M1 as (yb & Mb & M1).
  apply Match_Seq_inv in M1. destruct M1 as (yc & Mc & M1).
  apply Match_Empty_inv in M1. subst yc.
  apply Match_lit_inv in Ma. destruct Ma as (w1 & Va & Ca & Fa).
  apply Match_star_inv in Mb. destruct Mb as (ws & Vb & Cb & Fb & _).
  apply Match_Char_inv in Mc. destruct Mc as (c & Vc & Cc & Ec).
  apply charMatches_fixed in Ec; try reflexivity. subst c.
  apply charsMatch_ci in Fa. symmetry in Fa. apply fold_fence_tag in Fa.
  destruct Fa as (tag & -> & Ht).
  pose proof (Moves_app (Moves_app Va Vb) Vc) as V1.
  rewrite (Moves_consumed V1), Cc, Cb, Ca in M. cbn [captures] in M.
  apply Match_Seq_inv in M. destruct M as (y2' & M2 & M).
  apply Match_Group_inv in M2. destruct M2 as (y2 & M2 & ->).
  apply Match_star_inv in M2. destruct M2 as (body & V2 & C2 & _ & _).
  rewrite (Moves_consumed V2), C2 in M. cbn [captures] in M.
  apply Match_Seq_inv in M. destruct M as (y3' & M3 & M).
  apply Match_Empty_inv in M. subst y3'.
  apply Match_Group_inv in M3. destruct M3 as (y3 & M3 & ->).
  apply Match_lit_inv in M3. destruct M3 as (w3 & V3 & C3 & F3).
  apply charsMatch_ci in F3. symmetry in F3. apply fold_fence in F3. subst w3.
  rewrite (Moves_consumed V3), C3 in C, V. cbn [captures] in C.
  exists tag, ws, body.
  split; [assumption |]. split; [now apply allMatch_space_inv in Fb |].
  assert (Hw : m_text m = (((fence ++ tag) ++ ws) ++ [10%Z]) ++ body ++ fence).
  { apply (Moves_inj V).
    eapply Moves_fields; [| reflexivity | reflexivity].
    eapply Moves_app; [exact V1 |].
    eapply Moves_from; [| reflexivity | reflexivity].
    eapply Moves_app; [exact V2 |].
    eapply Moves_from; [exact V3 | reflexivity | reflexivity]. }
  unfold groupText, group. rewrite <- C, Hw.
  cbn [capture find fst snd option_map Nat.eqb].
  repeat split; now rewrite <- !app_assoc.
Qed.

Lemma mermaidBlockRegex_nonEmpty : NonEmptyMatches mermaidBlockRegex.
Proof.
  intros m HM. apply mermaidBlockRegex_match in HM.
  destruct HM as (tag & ws & body & _ & _ & _ & _ & _ & ->). discriminate.
Qed.

(** What the replacer puts in the place of a block. *)
Lemma blockReplacer_spec m allFixes :
  MatchAt mermaidBlockRegex m ->
  exists tag ws body,
    fold tag = fold (u16 "mermaid") /\ allSpace ws
    /\ m_text m = (fence ++ tag ++ ws ++ newline) ++ body ++ fence
    /\ fst (blockReplacer m allFixes)
       = (fence ++ tag ++ ws ++ newline) ++ output (fixMermaidCode body) ++ fence
    /\ snd (blockReplacer m allFixes)
       = allFixes ++ MermaidFixer.fixes (fixMermaidCode body).
Proof.
  intros HM. apply mermaidBlockRegex_match in HM.
  destruct HM as (tag & ws & body & Ht & Hws & G1 & G2 & G3 & Et).
  exists tag, ws, body. split; [assumption |]. split; [assumption |].
  split; [assumption |]. unfold blockReplacer. cbn [fst snd].
  rewrite G1, G2, G3. split; [| reflexivity].
  destruct (MermaidFixer.fixes (fixMermaidCode body)) eqn:Ef; cbn [List.length Nat.ltb Nat.leb].
  - destruct (fixMermaidCode_facts body) as (_ & _ & E & _).
    rewrite (E Ef). exact Et.
  - reflexivity.
Qed.

Lemma Spliced_blocks b a st out st' :
  Spliced mermaidBlockRegex blockReplacer b a st out st' ->
  List.length out <= List.length a
  /\ exists more, st' = st ++ more /\ (more = [] <-> out = a).
Proof.
  induction 1 as [b a st E | b gap m st out st' E B N HM Sp IH].
  - split; [lia |]. exists []. rewrite app_nil_r. tauto.
  - destruct (blockReplacer_spec st HM) as (tag & ws & body & Ht & Hws & Et & Er & Es).
    rewrite Es in IH. destruct IH as (L & more & -> & Hm).
    rewrite Er, Et, <- !app_assoc.
    destruct (fixMermaidCode_facts body) as (Lb & _ & Eb & Nb).
    split.
    + rewrite !length_app in *. lia.
    + exists (MermaidFixer.fixes (fixMermaidCode body) ++ more).
      split; [reflexivity |]. split.
      * intros H. apply app_eq_nil in H. destruct H as [H1 H2].
        rewrite (Eb H1), (proj1 Hm H2). reflexivity.
      * intros H. apply app_inv_head in H.
        rewrite !app_assoc in H. apply app_inv_length in H.
        2:{ apply (f_equal (@List.length Z)) in H. rewrite !length_app in *. lia. }
        destruct H as [H1 H2]. apply (proj2 Hm) in H2. subst more.
        rewrite app_nil_r.
        apply app_inv_tail in H1. apply app_inv_head in H1.
        destruct (MermaidFixer.fixes (fixMermaidCode body)); [reflexivity |].
        exfalso. apply Nb; [discriminate | assumption].
Qed.

Lemma fixMermaidInDocument_blocks doc :
  (MermaidFixer.fixes (fixMermaidInDocument doc false) = []
   <-> output (fixMermaidInDocument doc false) = doc)
  /\ wasModified (fixMermaidInDocument doc false)
     = (0 <? List.length (MermaidFixer.fixes (fixMermaidInDocument doc false))).
Proof.
  unfold fixMermaidInDocument.
  pose proof (replaceWith_global blockReplacer doc [] (R := mermaidBlockRegex)
                eq_refl mermaidBlockRegex_nonEmpty) as Sp.
  apply Spliced_blocks in Sp. destruct Sp as (_ & more & Es & Hm).
  destruct (replaceWith mermaidBlockRegex doc blockReplacer []) as [result allFixes].
  cbn [fst snd output MermaidFixer.fixes wasModified] in *. subst allFixes.
  auto.
Qed.

Lemma nonempty_ltb (A : Type) (l : list A) : (0 <? List.length l) = true <-> l <> [].
Proof.
  destruct l; cbn; split; intros H; try discriminate; try reflexivity.
  now elim H.
Qed.

(** C3.  For [fixMermaidCode] and for [fixMermaidInDocument] alike,
    [wasModified] is set exactly when the text that comes out differs
    from the text that went in, and that is exactly when the list of
    fixes is not empty. *)
Theorem modified_iff_changed_iff_fixed :
  (forall source,
     let r := fixMermaidCode source in
     (wasModified r = true <-> output r <> source)
     /\ (output r <> source <-> MermaidFixer.fixes r <> []))
  /\ (forall text isRawMermaid,
        let r := fixMermaidInDocument text isRawMermaid in
        (wasModified r = true <-> output r <> text)
        /\ (output r <> text <-> MermaidFixer.fixes r <> [])).
Proof.
  assert (One : forall source,
             output (fixMermaidCode source) <> source
             <-> MermaidFixer.fixes (fixMermaidCode source) <> []).
  { intros source. destruct (fixMermaidCode_facts source) as (_ & _ & E & N).
    split; [| assumption]. intros H Hf. now apply H, E. }
  split.
  - intros source r. split; [| apply One].
    unfold r. rewrite One. unfold fixMermaidCode.
    cbn [wasModified MermaidFixer.fixes]. apply nonempty_ltb.
  - intros text [|] r.
    + assert (Hne : output r <> text).
      { intros E. apply (f_equal backticks) in E. unfold r, fixMermaidInDocument in E.
        cbn [output] in E. rewrite !backticks_app in E.
        destruct (fixMermaidCode_facts text) as (_ & B & _).
        rewrite B in E. vm_compute (backticks (u16 "```mermaid")) in E.
        vm_compute (backticks (u16 "```")) in E. lia. }
      unfold r, fixMermaidInDocument in *. cbn [output wasModified MermaidFixer.fixes] in *.
      repeat split; try discriminate; auto.
    + destruct (fixMermaidInDocument_blocks text) as (E & W).
      fold r in E, W. rewrite W, nonempty_ltb. split.
      * split; intros H Hc; apply H; now apply E.
      * split; intros H Hc; apply H; now apply E.
Qed.

(** * The tag rule, pair by pair *)

Lemma tagFixRegex_pattern :
  pattern tagFixRegex
  = Seq AssertStart
      (Seq (Group 1 tagLine)
         (Seq (plus lineBreak) (Seq (Group 2 (Seq (plus blank) tagPart)) Empty))).
Proof. reflexivity. Qed.

Lemma tagLine_inv x y line :
  Match false true tagLine x y -> Moves x line y -> CommitLine line.
Proof.
  intros M V. unfold tagLine in M. cbn [seqs fold_right] in M.
  apply Match_Seq_inv in M. destruct M as (y1 & M1 & M).
  apply Match_Seq_inv in M. destruct M as (y2 & M2 & M).
  apply Match_Seq_inv in M. destruct M as (y3 & M3 & M).
  apply Match_Seq_inv in M. destruct M as (y4 & M4 & M).
  apply Match_Empty_inv in M. subst y4.
  apply Match_star_inv in M1. destruct M1 as (ind & V1 & _ & F1 & _).
  apply Match_alts_inv in M2; [| discriminate].
  destruct M2 as (r & I & M2). apply in_map_iff in I. destruct I as (n & <- & I).
  apply Match_lit_inv in M2. destruct M2 as (kw & V2 & _ & F2).
  apply charsMatch_cs in F2. subst kw.
  apply Match_star_inv in M3. destruct M3 as (sp & V3 & _ & F3 & L3).
  apply Match_star_inv in M4. destruct M4 as (rest & V4 & _ & F4 & _).
  pose proof (Moves_app V1 (Moves_app V2 (Moves_app V3 V4))) as V'.
  rewrite (Moves_inj V V').
  exists ind, (u16 n), sp, rest. split; [reflexivity |].
  split; [exact F1 |].
  split; [destruct I as [<- | [<- | []]]; auto |].
  split; [destruct sp; [simpl in L3; lia | discriminate] |].
  split; [exact F3 | exact F4].
Qed.

Lemma tagPart_inv x y clause :
  Match false true tagPart x y -> Moves x clause y -> TagClause clause.
Proof.
  intros M V. unfold tagPart in M. cbn [seqs fold_right] in M.
  apply Match_Seq_inv in M. destruct M as (y1 & M1 & M).
  apply Match_Seq_inv in M. destruct M as (y2 & M2 & M).
  apply Match_Seq_inv in M. destruct M as (y3 & M3 & M).
  apply Match_Seq_inv in M. destruct M as (y4 & M4 & M).
  apply Match_Seq_inv in M. destruct M as (y5 & M5 & M).
  apply Match_Empty_inv in M. subst y5.
  apply Match_lit_inv in M1. destruct M1 as (w & V1 & _ & F1).
  apply charsMatch_cs in F1. subst w.
  apply Match_star_inv in M2. destruct M2 as (sp & V2 & _ & F2 & L2).
  apply Match_Char_inv in M3. destruct M3 as (q1 & V3 & _ & E3).
  apply Z.eqb_eq in E3. subst q1.
  apply Match_star_inv in M4. destruct M4 as (value & V4 & _ & F4 & _).
  apply Match_Char_inv in M5. destruct M5 as (q2 & V5 & _ & E5).
  apply Z.eqb_eq in E5. subst q2.
  pose proof (Moves_app V1 (Moves_app V2 (Moves_app V3 (Moves_app V4 V5)))) as V'.
  rewrite (Moves_inj V V').
  exists sp, value. split; [reflexivity |].
  split; [destruct sp; [simpl in L2; lia | discriminate] |].
  split; [exact F2 | exact F4].
Qed.

(** A match of the tag pattern is a pair to merge. *)
Lemma tagFixRegex_match m :
  MatchAt tagFixRegex m ->
  exists line nls ind clause,
    TagPair (rev (m_before m)) line nls ind clause
    /\ m_text m = line ++ nls ++ ind ++ clause
    /\ groupText 1 m = line /\ groupText 2 m = ind ++ clause.
Proof.
  intros HM. apply MatchAt_elim in HM. destruct HM as (y & M & V & C).
  rewrite tagFixRegex_pattern in M. cbn [ignoreCase multiline tagFixRegex] in M.
  apply mergePattern_inv in M; try reflexivity.
  destruct M as (line & nls & ind & clause & y1 & y2 & y3 & y4 & L & M1 & V1 & _
                   & Hn & Fn & _ & Hi & Fi & M4 & V4 & V' & C').
  exists line, nls, ind, clause.
  split; [| split; [apply (Moves_inj V V') |]].
  - unfold TagPair. rewrite rev_involutive.
    split; [exact L |]. split; [apply (tagLine_inv M1 V1) |].
    split; [assumption |]. split; [exact Fn |]. split; [assumption |].
    split; [exact Fi | apply (tagPart_inv M4 V4)].
  - unfold groupText, group. rewrite <- C, C'. split; reflexivity.
Qed.

Lemma dropWhile_all p w : Forall (fun c => p c = true) w -> dropWhile p w = [].
Proof. induction 1 as [| c w Hc _ IH]; simpl; [reflexivity | now rewrite Hc]. Qed.

Lemma blanks_allSpace w : blanks w -> allSpace w.
Proof.
  induction 1 as [| c w Hc _ IH]; constructor; [now apply blank_isSpace | assumption].
Qed.

(** [trim] takes the indentation off a tag clause, and nothing else. *)
Lemma trim_tagClause ind clause :
  blanks ind -> TagClause clause -> trim (ind ++ clause) = clause.
Proof.
  intros Hi (sp & value & -> & _ & _ & _).
  change (u16 "tag:" ++ sp ++ [dquote] ++ value ++ [dquote])
    with (116%Z :: (u16 "ag:" ++ sp ++ [dquote] ++ value ++ [dquote])).
  replace (u16 "ag:" ++ sp ++ [dquote] ++ value ++ [dquote])
    with ((u16 "ag:" ++ sp ++ [dquote] ++ value) ++ [dquote])
    by now rewrite <- !app_assoc.
  rewrite trim_core by reflexivity.
  unfold trimStart. rewrite (dropWhile_all isSpace (blanks_allSpace Hi)).
  reflexivity.
Qed.

Lemma mergeReplacer_tag m (st : nat) line nls ind clause :
  TagPair (rev (m_before m)) line nls ind clause ->
  groupText 1 m = line -> groupText 2 m = ind ++ clause ->
  mergeReplacer m st = (line ++ u16 " " ++ clause, S st).
Proof.
  intros (_ & _ & _ & _ & _ & Hi & Hc) G1 G2. unfold mergeReplacer.
  now rewrite G1, G2, trim_tagClause.
Qed.

Lemma TagMerges_trans n k s t u :
  TagMerges n s t -> TagMerges k t u -> TagMerges (n + k) s u.
Proof.
  induction 1 as [| n s t t' H1 H IH]; intros H2; [assumption |].
  simpl. econstructor; [eassumption | now apply IH].
Qed.

Lemma tagClause_last clause : TagClause clause -> exists c, clause = c ++ [dquote].
Proof.
  intros (sp & value & -> & _). exists (u16 "tag:" ++ sp ++ [dquote] ++ value).
  now rewrite <- !app_assoc.
Qed.

(** One pass of [replace]: as many merges as matches. *)
Lemma pass_merges b a st out st' :
  Spliced tagFixRegex mergeReplacer b a st out st' ->
  forall p, (endsLine b -> endsLine (rev p)) ->
  st <= st' /\ TagMerges (st' - st) (p ++ a) (p ++ out).
Proof.
  induction 1 as [b a st E | b gap m st out st' E B N HM Sp IH]; intros p Hp.
  - rewrite Nat.sub_diag. split; [lia | constructor].
  - destruct (tagFixRegex_match HM) as (line & nls & ind & clause & TP & Et & G1 & G2).
    rewrite (@mergeReplacer_tag m st _ _ _ _ TP G1 G2) in *. cbn [fst snd] in *.
    destruct (tagClause_last (proj2 (proj2 (proj2 (proj2 (proj2 (proj2 TP)))))))
      as (c & Ec).
    specialize (IH (p ++ gap ++ line ++ u16 " " ++ clause)).
    destruct IH as [Le IH].
    { rewrite Et, Ec, !app_assoc, rev_app_distr. simpl. discriminate. }
    split; [lia |].
    replace (st' - st) with (S (st' - S st)) by lia.
    apply tagMergesS with (t := p ++ gap ++ (line ++ u16 " " ++ clause) ++ m_after m).
    + rewrite Et.
      pose proof (@tagMerge (p ++ gap) line nls ind clause (m_after m)) as H.
      rewrite <- !app_assoc in *. apply H.
      destruct TP as (L & TP). split; [| exact TP].
      rewrite rev_involutive, B in L. rewrite rev_app_distr.
      destruct (rev gap); [apply Hp, L | exact L].
    + rewrite <- !app_assoc in *. exact IH.
Qed.

(** The loop of Fix 6: the merges it makes are the merges it counts. *)
Lemma mergeLoop_merges : forall fuel code count,
  count <= snd (mergeLoop tagFixRegex fuel code count)
  /\ TagMerges (snd (mergeLoop tagFixRegex fuel code count) - count) code
       (fst (mergeLoop tagFixRegex fuel code count)).
Proof.
  induction fuel as [| fuel IH]; intros code count; cbn [mergeLoop].
  - cbn. rewrite Nat.sub_diag. split; [lia | constructor].
  - destruct (test tagFixRegex code).
    + pose proof (replaceWith_global mergeReplacer code count (R := tagFixRegex)
                    eq_refl (merge_nonEmpty tagFixRegex_shape)) as Sp.
      apply pass_merges with (p := []) in Sp; [| trivial].
      destruct (replaceWith tagFixRegex code mergeReplacer count) as [code' count'].
      cbn [fst snd app] in Sp. destruct Sp as [Le Sp].
      destruct (IH code' count') as [Le' IH'].
      split; [lia |].
      replace (snd (mergeLoop tagFixRegex fuel code' count') - count)
        with ((count' - count) + (snd (mergeLoop tagFixRegex fuel code' count') - count'))
        by lia.
      eapply TagMerges_trans; eassumption.
    + cbn. rewrite Nat.sub_diag. split; [lia | constructor].
Qed.

(** *** A pair that is there is found *)

Lemma Consumes_empty caps : Consumes Empty [] caps.
Proof. intros b a. constructor. Qed.

Lemma Consumes_seq r1 r2 w1 w2 caps :
  Consumes r1 w1 caps -> Consumes r2 w2 caps -> Consumes (Seq r1 r2) (w1 ++ w2) caps.
Proof.
  intros H1 H2 b a. rewrite rev_app_distr, <- !app_assoc.
  eapply MSeq; [apply H1 | apply H2].
Qed.

Lemma Consumes_lit s caps : Consumes (lit s) s caps.
Proof. intros b a. apply Match_lit_intro, charsMatch_refl. Qed.

Lemma Consumes_star p g min w caps :
  Forall (fun c => p c = true) w -> min <= List.length w ->
  Consumes (Quant min None g (CharSet p)) w caps.
Proof. intros F L b a. apply Match_star_intro; assumption. Qed.

Lemma Consumes_char c caps : Consumes (Char c) [c] caps.
Proof. intros b a. apply MChar. unfold charMatches. apply Z.eqb_refl. Qed.

Lemma Consumes_alts l r w caps : In r l -> Consumes r w caps -> Consumes (alts l) w caps.
Proof. intros I H b a. eapply Match_alts_intro; [exact I | apply H]. Qed.

Lemma Group_intro n r w caps b a :
  Consumes r w caps ->
  Match false true (Group n r) (mkState b (w ++ a) caps)
    (mkState (rev w ++ b) a ((n, w) :: caps)).
Proof.
  intros H. pose proof (MGroup n (H b a)) as M. cbn [before after captures] in M.
  replace (consumed (mkState b (w ++ a) caps) (mkState (rev w ++ b) a caps)) with w in M;
    [exact M |].
  symmetry. apply consumed_eq. reflexivity.
Qed.

Lemma length_nonempty (w : str) : w <> [] -> 1 <= List.length w.
Proof. destruct w; [contradiction | simpl; lia]. Qed.

Lemma tagLine_intro line caps : CommitLine line -> Consumes tagLine line caps.
Proof.
  intros (ind & kw & sp & rest & -> & Hi & Hk & Hn & Hs & Hr).
  unfold tagLine. cbn [seqs fold_right].
  apply Consumes_seq; [apply Consumes_star; [exact Hi | lia] |].
  apply Consumes_seq.
  { destruct Hk as [-> | ->].
    - apply Consumes_alts with (r := lit (u16 "commit")); [now left | apply Consumes_lit].
    - apply Consumes_alts with (r := lit (u16 "merge"));
        [right; now left | apply Consumes_lit]. }
  apply Consumes_seq; [apply Consumes_star; [exact Hs | now apply length_nonempty] |].
  rewrite <- (app_nil_r rest).
  apply Consumes_seq; [apply Consumes_star; [exact Hr | lia] | apply Consumes_empty].
Qed.

Lemma tagPart_intro clause caps : TagClause clause -> Consumes tagPart clause caps.
Proof.
  intros (sp & value & -> & Hn & Hs & Hv).
  unfold tagPart. cbn [seqs fold_right].
  apply Consumes_seq; [apply Consumes_lit |].
  apply Consumes_seq; [apply Consumes_star; [exact Hs | now apply length_nonempty] |].
  apply Consumes_seq; [apply Consumes_char |].
  apply Consumes_seq; [apply Consumes_star; [exact Hv | lia] |].
  rewrite <- (app_nil_r [dquote]).
  apply Consumes_seq; [apply Consumes_char | apply Consumes_empty].
Qed.

Lemma tagPair_found s : HasTagPair s -> test tagFixRegex s = true.
Proof.
  intros (pre & line & nls & ind & clause & post & TP & ->).
  destruct TP as (L & Hl & Hn & Fn & Hi & Fi & Hc).
  apply test_true_iff.
  exists pre, (line ++ nls ++ ind ++ clause ++ post),
    (mkState (rev (ind ++ clause) ++ rev nls ++ rev line ++ rev pre) post
       [(2, ind ++ clause); (1, line)]).
  split; [reflexivity |].
  rewrite tagFixRegex_pattern. cbn [ignoreCase multiline tagFixRegex].
  eapply MSeq.
  { apply MStart. unfold atLineStart. cbn [before]. destruct (rev pre); [reflexivity | exact L]. }
  eapply MSeq; [apply Group_intro, tagLine_intro, Hl |].
  eapply MSeq.
  { apply Match_star_intro; [exact Fn | now apply length_nonempty]. }
  eapply MSeq; [| apply MEmpty].
  rewrite (app_assoc ind clause post).
  apply Group_intro. apply Consumes_seq.
  - apply Consumes_star; [exact Fi | now apply length_nonempty].
  - now apply tagPart_intro.
Qed.

(** *** The messages of the other rules *)

Lemma tagSummary_head msg : isTagSummary msg -> hd 0%Z msg = 77%Z.
Proof. intros (k & ->). reflexivity. Qed.

Lemma fixCapitalization_messages (P : str -> Prop) R K tmpl st :
  (forall kw, P (u16 "Fixed capitalization: " ++ [dquote] ++ kw ++ [dquote]
                   ++ u16 " " ++ [rightArrow] ++ u16 " " ++ [dquote] ++ K ++ [dquote])) ->
  Forall P (snd st) -> Forall P (snd (fixCapitalization R K tmpl st)).
Proof.
  intros HP H. destruct st as [code fx]. unfold fixCapitalization.
  destruct (test R code); [| assumption].
  destruct (exec R code) as [m |]; [| assumption].
  destruct (negb (str_eqb (groupText 2 m) K)); [| assumption].
  cbn [snd] in *. apply Forall_app. split; [assumption |].
  constructor; [apply HP | constructor].
Qed.

Lemma beforeFixTag_messages source :
  Forall (fun msg => ~ isTagSummary msg) (snd (beforeFixTag source)).
Proof.
  unfold beforeFixTag.
  repeat (apply fixCapitalization_messages;
          [intros kw H; apply tagSummary_head in H; discriminate H |]).
  unfold removeInvisible. cbn [snd].
  destruct (negb _); constructor; [| constructor].
  intros H. apply tagSummary_head in H. discriminate H.
Qed.

Lemma typeMessage_not_tagSummary k : ~ isTagSummary (mergeMessage "type:" k).
Proof.
  intros (k' & E). unfold mergeMessage in E. simpl in E. discriminate E.
Qed.

(** What the tag rule does.  It works on pairs made of a line that
    starts with optional blanks, [commit] or [merge] and at least one
    blank, then one or more line breaks, then an indented [tag:] clause
    with a quoted value.  From the text that Fix 0 to
    Fix 5 leave, it makes [n] merges, each putting the clause at the end
    of its commit line after a single space and changing nothing else,
    until no such pair is left; the [n] merges are reported by one
    summary entry that carries [n] (none when [n] is 0), and no other
    entry of the fix list is a tag summary. *)
Theorem tag_rule (source : str) :
  exists n later,
    TagMerges n (fst (beforeFixTag source)) (fst (fixTag (beforeFixTag source)))
    /\ ~ HasTagPair (fst (fixTag (beforeFixTag source)))
    /\ MermaidFixer.fixes (fixMermaidCode source)
       = snd (beforeFixTag source) ++ tagSummary n ++ later
    /\ Forall (fun msg => ~ isTagSummary msg) (snd (beforeFixTag source) ++ later)
    /\ output (fixMermaidCode source) = fst (fixType (fixTag (beforeFixTag source))).
Proof.
  change (MermaidFixer.fixes (fixMermaidCode source))
    with (snd (fixType (fixTag (beforeFixTag source)))).
  change (output (fixMermaidCode source))
    with (fst (fixType (fixTag (beforeFixTag source)))).
  pose proof (beforeFixTag_messages source) as Hmsg.
  destruct (beforeFixTag source) as [c5 f5]. cbn [fst snd] in *.
  unfold fixTag.
  pose proof (mergeLoop_merges (S (List.length c5)) c5 0) as [_ HM].
  destruct (mergeLoop_spec tagFixRegex_shape (S (List.length c5)) c5 0)
    as (_ & _ & _ & _ & _ & HT).
  specialize (HT ltac:(lia)).
  destruct (mergeLoop tagFixRegex (S (List.length c5)) c5 0) as [c6 n].
  cbn [fst snd] in *. rewrite Nat.sub_0_r in HM.
  unfold fixType.
  destruct (mergeLoop typeFixRegex (S (List.length c6)) c6 0) as [c7 k].
  exists n, (if 0 <? k then [mergeMessage "type:" k] else []).
  cbn [fst snd]. split; [assumption |]. split.
  { intros HP. apply tagPair_found in HP. congruence. }
  split; [| split; [| reflexivity]].
  - unfold tagSummary. destruct (0 <? n), (0 <? k);
      now rewrite <- ?app_assoc, ?app_nil_r.
  - apply Forall_app. split; [assumption |].
    destruct (0 <? k); constructor; [apply typeMessage_not_tagSummary | constructor].
Qed.

(** * The classifier on the trimmed text *)

Lemma dropWhile_idempotent p s : dropWhile p (dropWhile p s) = dropWhile p s.
Proof.
  induction s as [| a s IH]; [reflexivity |]. simpl.
  destruct (p a) eqn:E; [assumption |]. simpl. now rewrite E.
Qed.

Lemma trimEnd_idempotent s : trimEnd (trimEnd s) = trimEnd s.
Proof. unfold trimEnd. now rewrite rev_involutive, dropWhile_idempotent. Qed.

(** Trimming twice is trimming once, so it is all one whether a test
    that trims is given the text or the trimmed text. *)
Lemma trim_idempotent s : trim (trim s) = trim s.
Proof.
  assert (H : trim s = trimEnd (dropWhile isSpace s)) by reflexivity.
  rewrite H. clear H.
  destruct (dropWhile isSpace s) as [| c u] eqn:E; [reflexivity |].
  assert (Hc : isSpace c = false).
  { clear -E. induction s as [| a s IH]; [discriminate |]. simpl in E.
    destruct (isSpace a) eqn:Ea; [now apply IH |]. congruence. }
  change (c :: u) with ([] ++ c :: u). rewrite trimEnd_app_stop by assumption.
  cbn [app]. unfold trim, trimStart. cbn [dropWhile]. rewrite Hc.
  change (c :: trimEnd u) with ([] ++ c :: trimEnd u).
  rewrite trimEnd_app_stop by assumption. now rewrite trimEnd_idempotent.
Qed.

Lemma looksLikeMermaid_trim text : looksLikeMermaid (trim text) = looksLikeMermaid text.
Proof. unfold looksLikeMermaid. now rewrite trim_idempotent. Qed.

(** The answer [mermaid] in terms of the three tests, all of them run
    on the trimmed text. *)
Lemma detect_mermaid_tests (text : str) :
  trim text <> [] ->
  (type (detectContentType text) = mermaid <->
     looksLikeMermaid text = true
     /\ hasMarkdownFeatures (trim text) = false
     /\ containsMermaidBlocks (trim text) = false)
  /\ (type (detectContentType text) = mermaid ->
      mermaidBlockCount (detectContentType text) = 1
      /\ wasAutoWrapped (detectContentType text) = true
      /\ ContentDetector.fixes (detectContentType text)
         = [u16 "Auto-wrapped in ```mermaid code fence"]).
Proof.
  intros Ht. rewrite <- looksLikeMermaid_trim. unfold detectContentType.
  destruct (trim text) as [| c t] eqn:E; [contradiction |].
  cbn [isEmptyStr].
  destruct (looksLikeMermaid (c :: t)), (hasMarkdownFeatures (c :: t)),
    (containsMermaidBlocks (c :: t)); cbn;
    (split; [split; [intros H; try discriminate H; auto
                    | intros (H1 & H2 & H3); try discriminate; reflexivity]
            | intros H; try discriminate H; auto]).
Qed.

(** * The classifier, case by case *)

(** ** More on [trim] *)

Lemma dropWhile_split p s :
  exists ws, s = ws ++ dropWhile p s /\ Forall (fun c => p c = true) ws.
Proof.
  induction s as [| a s (ws & E & H)]; [now exists [] |]. simpl.
  destruct (p a) eqn:Ea.
  - exists (a :: ws). split; [simpl; congruence | now constructor].
  - now exists [].
Qed.

Lemma dropWhile_head p s c u : dropWhile p s = c :: u -> p c = false.
Proof.
  induction s as [| a s IH]; [discriminate |]. simpl.
  destruct (p a) eqn:Ea; [assumption |]. congruence.
Qed.

Lemma dropWhile_allSpace ws s :
  allSpace ws -> dropWhile isSpace (ws ++ s) = dropWhile isSpace s.
Proof. induction 1 as [| c ws Hc _ IH]; simpl; [reflexivity |]. now rewrite Hc. Qed.

Lemma trimEnd_allSpace s ws : allSpace ws -> trimEnd (s ++ ws) = trimEnd s.
Proof.
  intros H. unfold trimEnd. rewrite rev_app_distr, dropWhile_allSpace; [reflexivity |].
  now apply Forall_rev.
Qed.

Lemma trimEnd_split s :
  exists ws, s = trimEnd s ++ ws /\ allSpace ws.
Proof.
  unfold trimEnd. destruct (dropWhile_split isSpace (rev s)) as (ws & E & H).
  exists (rev ws). split; [| now apply Forall_rev].
  rewrite <- rev_app_distr, <- E. now rewrite rev_involutive.
Qed.

Lemma trimEnd_last s u d : trimEnd s = u ++ [d] -> isSpace d = false.
Proof.
  unfold trimEnd. intros E. apply (f_equal (@rev Z)) in E.
  rewrite rev_involutive, rev_app_distr in E. simpl in E.
  now apply dropWhile_head in E.
Qed.

Lemma trimEnd_cons c u : isSpace c = false -> trimEnd (c :: u) = c :: trimEnd u.
Proof. intros H. exact (@trimEnd_app_stop [] c u H). Qed.

(** A text is white space only, or white space around a core that
    begins and ends with a code unit that is not white space; [trim]
    gives the core. *)
Lemma trim_decompose s :
  (allSpace s /\ trim s = [])
  \/ exists ws c u ws',
       s = ws ++ c :: u ++ ws' /\ trim s = c :: u
       /\ allSpace ws /\ allSpace ws' /\ isSpace c = false
       /\ (u = [] \/ exists u' d, u = u' ++ [d] /\ isSpace d = false).
Proof.
  unfold trim, trimStart.
  destruct (dropWhile_split isSpace s) as (ws & E & Hws).
  destruct (dropWhile isSpace s) as [| c r] eqn:D.
  - left. split; [| reflexivity]. rewrite E, app_nil_r. exact Hws.
  - right. pose proof (dropWhile_head _ _ D) as Hc.
    rewrite trimEnd_cons by assumption.
    destruct (trimEnd_split r) as (ws' & Er & Hws').
    exists ws, c, (trimEnd r), ws'. repeat split; try assumption.
    + rewrite E at 1. now rewrite <- Er.
    + destruct (trimEnd r) as [| a t] eqn:T using rev_ind; [now left |].
      right. exists t, a. split; [reflexivity |]. now apply trimEnd_last in T.
Qed.

Lemma trim_nil_iff s : trim s = [] <-> allSpace s.
Proof.
  split.
  - intros H. destruct (trim_decompose s) as [[Hs _] | (ws & c & u & ws' & _ & E & _)];
      [assumption | congruence].
  - intros H. destruct (trim_decompose s) as [[_ E] | (ws & c & u & ws' & E & _ & _ & _ & Hc & _)];
      [assumption |].
    subst s. apply Forall_app in H as [_ H]. inversion H. congruence.
Qed.

(** White space around a text does not change what [trim] gives. *)
Lemma trim_surround ws t ws' :
  allSpace ws -> allSpace ws' -> trim (ws ++ t ++ ws') = trim t.
Proof.
  intros H H'. unfold trim, trimStart. rewrite dropWhile_allSpace by assumption.
  destruct (dropWhile_split isSpace t) as (w & E & Hw).
  destruct (dropWhile isSpace t) as [| c r] eqn:D.
  - rewrite app_nil_r in E. subst w.
    rewrite dropWhile_allSpace by assumption.
    replace (dropWhile isSpace ws') with (@nil Z); [reflexivity |].
    symmetry. rewrite <- (app_nil_r ws'). now rewrite dropWhile_allSpace.
  - rewrite E at 1. rewrite <- app_assoc, dropWhile_allSpace by assumption.
    simpl. rewrite (dropWhile_head _ _ D).
    rewrite app_comm_cons. now apply trimEnd_allSpace.
Qed.

(** X1. White space before and after the text never changes the answer
    of the classifier: every field of the result is the same. *)
Theorem detect_ignores_surrounding_space (ws text ws' : str) :
  allSpace ws -> allSpace ws' ->
  detectContentType (ws ++ text ++ ws') = detectContentType text.
Proof.
  intros H H'. unfold detectContentType. now rewrite trim_surround.
Qed.

Lemma detect_ignores_surrounding_space_witness :
  detectContentType (u16 "  " ++ u16 "# a" ++ newline) = detectContentType (u16 "# a").
Proof.
  apply (@detect_ignores_surrounding_space (u16 "  ") (u16 "# a") newline);
    repeat constructor.
Defined.

(** ** The decision table *)

(** What the classifier computes, as a function of the three tests on
    the trimmed text. *)
Lemma detect_type text :
  type (detectContentType text) =
  if isEmptyStr (trim text) then empty
  else if looksLikeMermaid (trim text) && negb (hasMarkdownFeatures (trim text))
          && negb (containsMermaidBlocks (trim text)) then mermaid
  else if containsMermaidBlocks (trim text)
          || hasMarkdownFeatures (trim text) && looksLikeMermaid (trim text) then mixed
  else markdown.
Proof.
  unfold detectContentType.
  destruct (isEmptyStr (trim text)); [reflexivity |].
  destruct (looksLikeMermaid (trim text)), (hasMarkdownFeatures (trim text)),
    (containsMermaidBlocks (trim text)); reflexivity.
Qed.

Lemma isEmptyStr_true_iff s : isEmptyStr s = true <-> s = [].
Proof. destruct s; split; intros H; try reflexivity; discriminate. Qed.

Lemma looksLikeMermaid_nonempty text : looksLikeMermaid text = true -> trim text <> [].
Proof.
  unfold looksLikeMermaid. destruct (trim text); [discriminate |]. discriminate.
Qed.

Lemma openingFence_nonempty text : HasOpeningFence text -> text <> [].
Proof.
  intros (pre & tag & ws & post & _ & _ & ->). destruct pre; discriminate.
Qed.

(** X2. The answer is [empty] exactly for a text of white space only
    (the empty text among them). *)
Theorem detect_empty_iff (text : str) :
  type (detectContentType text) = empty <-> allSpace text.
Proof.
  rewrite detect_type, <- trim_nil_iff, <- isEmptyStr_true_iff.
  destruct (isEmptyStr (trim text)); [tauto |].
  destruct (looksLikeMermaid (trim text)), (hasMarkdownFeatures (trim text)),
    (containsMermaidBlocks (trim text)); cbn; split; discriminate.
Qed.

(** X3. The answer is [mixed] exactly when the trimmed text holds an
    opening fence of a Mermaid block, or shows a Markdown feature and
    looks like bare Mermaid code; it is [markdown] exactly when the text
    is not blank, holds no opening fence and does not look like bare
    Mermaid code. *)
Theorem detect_mixed_markdown_iff (text : str) :
  (type (detectContentType text) = mixed <->
     HasOpeningFence (trim text)
     \/ (hasMarkdownFeatures (trim text) = true /\ looksLikeMermaid text = true))
  /\ (type (detectContentType text) = markdown <->
        ~ allSpace text /\ ~ HasOpeningFence (trim text)
        /\ looksLikeMermaid text = false).
Proof.
  rewrite detect_type, <- !containsMermaidBlocks_iff, <- trim_nil_iff,
    <- (looksLikeMermaid_trim text).
  destruct (isEmptyStr (trim text)) eqn:E.
  - apply isEmptyStr_true_iff in E. split; split; try discriminate.
    + intros [H | [_ H]].
      * apply containsMermaidBlocks_iff, openingFence_nonempty in H. contradiction.
      * apply looksLikeMermaid_nonempty in H. rewrite trim_idempotent in H.
        contradiction.
    + intros (H & _). contradiction.
  - assert (Hne : trim text <> []) by (intros H; rewrite H in E; discriminate).
    destruct (looksLikeMermaid (trim text)), (hasMarkdownFeatures (trim text)),
      (containsMermaidBlocks (trim text)); cbn; split; split;
      try discriminate; try tauto;
      try (intros [H | [H1 H2]]; discriminate);
      try (intros (_ & H1 & H2); try discriminate; now elim H1);
      auto.
Qed.

(** X4. The block count and the flags go with the answer: the count is
    at least 1 exactly for [mermaid] and [mixed] (and 0 otherwise), the
    auto-wrap flag and the fix notice come exactly with [mermaid], and
    the classifier never sets the auto-fix flag. *)
Theorem detect_count_and_flags (text : str) :
  (1 <= mermaidBlockCount (detectContentType text) <->
     type (detectContentType text) = mermaid \/ type (detectContentType text) = mixed)
  /\ (wasAutoWrapped (detectContentType text) = true <->
        type (detectContentType text) = mermaid)
  /\ (ContentDetector.fixes (detectContentType text) <> [] <->
        type (detectContentType text) = mermaid)
  /\ wasAutoFixed (detectContentType text) = false.
Proof.
  unfold detectContentType.
  destruct (isEmptyStr (trim text)).
  { cbn. repeat split; intros H; try discriminate H; try lia;
      try (destruct H; discriminate); now elim H. }
  assert (B : containsMermaidBlocks (trim text) = true ->
              1 <= countMermaidBlocks (trim text)).
  { intros B. rewrite countMermaidBlocks_spec.
    now apply openingFence_counted, containsMermaidBlocks_iff. }
  revert B. generalize (countMermaidBlocks (trim text)). intros k B.
  destruct (containsMermaidBlocks (trim text)), (looksLikeMermaid (trim text)),
    (hasMarkdownFeatures (trim text)); cbn; unfold orElse;
    destruct k as [| n];
    try (specialize (B eq_refl); lia); cbn;
    (split; [split; [intros H; auto; lia
                    | intros H; try lia; destruct H; discriminate] |]);
    (split; [split; intros H; try discriminate H; reflexivity |]);
    (split; [split; intros H; try discriminate H; try reflexivity; now elim H
            | reflexivity]).
Qed.

(** * The test for bare Mermaid code *)

Lemma keyword_listed k fl :
  In k MERMAID_KEYWORDS_LOWER ->
  str_eqb fl k || startsWith fl (k ++ u16 " ") || startsWith fl (k ++ [9%Z]) = true ->
  keywordLine fl = true.
Proof. intros Hk H. apply existsb_exists. now exists k. Qed.

Lemma misspellings_listed fl :
  str_eqb fl (u16 "gitgraph") || str_eqb fl (u16 "sequencediagram")
  || str_eqb fl (u16 "classdiagram") || str_eqb fl (u16 "statediagram")
  || str_eqb fl (u16 "erdiagram") || startsWith fl (u16 "graph ")
  || startsWith fl (u16 "flowchart ") = true ->
  keywordLine fl = true.
Proof.
  intros H. repeat (apply orb_true_iff in H as [H | H]).
  - apply (@keyword_listed (u16 "gitgraph")); [vm_compute; auto 40 |].
    now rewrite H.
  - apply (@keyword_listed (u16 "sequencediagram")); [vm_compute; auto 40 |].
    now rewrite H.
  - apply (@keyword_listed (u16 "classdiagram")); [vm_compute; auto 40 |].
    now rewrite H.
  - apply (@keyword_listed (u16 "statediagram")); [vm_compute; auto 40 |].
    now rewrite H.
  - apply (@keyword_listed (u16 "erdiagram")); [vm_compute; auto 40 |].
    now rewrite H.
  - apply (@keyword_listed (u16 "graph")); [vm_compute; auto 40 |].
    change (u16 "graph" ++ u16 " ") with (u16 "graph "). rewrite H.
    now rewrite orb_true_r.
  - apply (@keyword_listed (u16 "flowchart")); [vm_compute; auto 40 |].
    change (u16 "flowchart" ++ u16 " ") with (u16 "flowchart "). rewrite H.
    now rewrite orb_true_r.
Qed.

Lemma looksLikeMermaid_loop text :
  looksLikeMermaid text
  = negb (isEmptyStr (trim text)) && keywordLine (firstLineOf text).
Proof.
  unfold looksLikeMermaid. destruct (isEmptyStr (trim text)); [reflexivity |].
  cbn [negb andb]. fold (firstLineOf text). fold (keywordLine (firstLineOf text)).
  destruct (keywordLine (firstLineOf text)) eqn:E; [reflexivity |].
  match goal with |- (if ?b then _ else _) = _ => destruct b eqn:M end;
    [| reflexivity].
  apply misspellings_listed in M. congruence.
Qed.

(** X5. The list of common misspellings that [looksLikeMermaid] checks
    after its loop never decides: the answer is that of the loop over
    the lower-cased keywords alone, on the first line of the trimmed
    text. *)
Theorem looksLikeMermaid_is_keyword_loop (text : str) :
  looksLikeMermaid text
  = negb (isEmptyStr (trim text)) && keywordLine (firstLineOf text).
Proof. apply looksLikeMermaid_loop. Qed.

(** ** Only the first line that is not blank counts *)

Lemma split_nonempty sep s : split sep s <> [].
Proof.
  destruct s as [| a s]; simpl; [discriminate |].
  destruct (a =? sep)%Z; [discriminate |]. destruct (split sep s); discriminate.
Qed.

Lemma split_hd_line l : noNewline l -> hd [] (split 10 l) = l.
Proof.
  induction 1 as [| c l Hc _ IH]; [reflexivity |]. simpl.
  apply Z.eqb_neq in Hc. rewrite Hc.
  destruct (split 10 l) eqn:E; [now apply split_nonempty in E |].
  simpl in *. congruence.
Qed.

Lemma split_hd_first l rest :
  noNewline l -> hd [] (split 10 (l ++ 10%Z :: rest)) = l.
Proof.
  induction 1 as [| c l Hc _ IH]; [reflexivity |]. simpl.
  apply Z.eqb_neq in Hc. rewrite Hc.
  destruct (split 10 (l ++ 10%Z :: rest)) eqn:E; [now apply split_nonempty in E |].
  simpl in *. congruence.
Qed.

Lemma trimEnd_fixed u :
  u = [] \/ (exists u' d, u = u' ++ [d] /\ isSpace d = false) -> trimEnd u = u.
Proof.
  intros [-> | (u' & d & -> & Hd)]; [reflexivity |].
  now rewrite trimEnd_app_stop.
Qed.

Lemma trim_nonspace c u :
  isSpace c = false ->
  u = [] \/ (exists u' d, u = u' ++ [d] /\ isSpace d = false) ->
  trim (c :: u) = c :: u.
Proof.
  intros Hc Hu. unfold trim, trimStart. simpl. rewrite Hc.
  rewrite trimEnd_cons by assumption. now rewrite trimEnd_fixed.
Qed.

Lemma noNewline_core (c : Z) u w : noNewline (c :: u ++ w) -> noNewline (c :: u).
Proof.
  intros H. inversion H as [| ? ? Hc H']; subst. constructor; [assumption |].
  now apply Forall_app in H' as [? _].
Qed.

Lemma firstLineOf_first ws l rest :
  allSpace ws -> noNewline l -> ~ allSpace l ->
  trim (ws ++ l ++ newline ++ rest) <> []
  /\ firstLineOf (ws ++ l ++ newline ++ rest) = toLowerCase (trim l).
Proof.
  intros Hws Hl Hne.
  destruct (trim_decompose l) as [[H _] | (w1 & c & u & w2 & El & Et & H1 & H2 & Hc & Hu)];
    [contradiction |].
  assert (Hnl : noNewline (c :: u ++ w2)).
  { rewrite El in Hl. apply Forall_app in Hl as [_ Hl]. exact Hl. }
  assert (Hc10 : c <> 10%Z) by (inversion Hnl; assumption).
  assert (E : exists tail w',
             trim (ws ++ l ++ newline ++ rest) = c :: u ++ tail
             /\ allSpace w' /\ hd [] (split 10 (c :: u ++ tail)) = c :: u ++ w').
  { destruct (trimEnd_split rest) as (w3 & Er & H3).
    assert (T : trim (ws ++ l ++ newline ++ rest)
                = trimEnd (c :: u ++ w2 ++ newline ++ trimEnd rest)).
    { rewrite El. rewrite Er at 1.
      replace (ws ++ (w1 ++ c :: u ++ w2) ++ newline ++ trimEnd rest ++ w3)
        with ((ws ++ w1) ++ (c :: u ++ w2 ++ newline ++ trimEnd rest) ++ w3)
        by (now rewrite <- !app_assoc; simpl; rewrite <- !app_assoc).
      rewrite trim_surround; [| apply Forall_app; now split | assumption].
      unfold trim, trimStart. simpl. now rewrite Hc. }
    destruct (trimEnd rest) as [| d t] eqn:Dr using rev_ind.
    - exists [], []. rewrite T. rewrite trimEnd_cons by assumption.
      replace (u ++ w2 ++ newline ++ []) with (u ++ (w2 ++ newline))
        by now rewrite app_nil_r.
      rewrite trimEnd_allSpace
        by (apply Forall_app; split; [assumption | repeat constructor]).
      rewrite trimEnd_fixed by assumption. rewrite !app_nil_r.
      split; [reflexivity |]. split; [constructor |].
      apply split_hd_line. now apply noNewline_core in Hnl.
    - clear IHt. apply trimEnd_last in Dr.
      exists (w2 ++ newline ++ t ++ [d]), w2. rewrite T.
      replace (c :: u ++ w2 ++ newline ++ t ++ [d])
        with ((c :: u ++ w2 ++ newline ++ t) ++ [d])
        by (simpl; now rewrite <- !app_assoc).
      rewrite trimEnd_app_stop by assumption.
      split; [reflexivity |]. split; [assumption |].
      replace ((c :: u ++ w2 ++ newline ++ t) ++ [d])
        with ((c :: u ++ w2) ++ 10%Z :: (t ++ [d]))
        by (simpl; now rewrite <- !app_assoc).
      now apply split_hd_first. }
  destruct E as (tail & w' & T & Hw' & Hhd).
  split; [rewrite T; discriminate |].
  unfold firstLineOf. rewrite T, Hhd.
  change (c :: u ++ w') with ([] ++ (c :: u) ++ w').
  rewrite trim_surround by (assumption || constructor).
  now rewrite Et, trim_nonspace.
Qed.

Lemma firstLineOf_line l :
  noNewline l -> firstLineOf l = toLowerCase (trim l).
Proof.
  intros Hl. unfold firstLineOf.
  destruct (trim_decompose l) as [[_ E] | (w1 & c & u & w2 & El & Et & H1 & H2 & Hc & Hu)].
  - rewrite E. reflexivity.
  - rewrite Et. rewrite split_hd_line.
    + now rewrite trim_nonspace.
    + rewrite El in Hl. apply Forall_app in Hl as [_ Hl].
      now apply noNewline_core in Hl.
Qed.

(** X6. The test reads only the first line that is not blank: white
    space before that line and everything after its newline make no
    difference. *)
Theorem looksLikeMermaid_first_line (ws l rest : str) :
  allSpace ws -> noNewline l -> ~ allSpace l ->
  looksLikeMermaid (ws ++ l ++ newline ++ rest) = looksLikeMermaid l.
Proof.
  intros Hws Hl Hne.
  destruct (firstLineOf_first rest Hws Hl Hne) as [T F].
  rewrite !looksLikeMermaid_loop, F, firstLineOf_line by assumption.
  destruct (trim (ws ++ l ++ newline ++ rest)); [contradiction |].
  destruct (trim l) eqn:E; [| reflexivity].
  apply trim_nil_iff in E. contradiction.
Qed.

Lemma looksLikeMermaid_first_line_witness :
  looksLikeMermaid (newline ++ u16 "  Graph TD" ++ newline ++ u16 "# x")
  = looksLikeMermaid (u16 "  Graph TD").
Proof.
  apply (@looksLikeMermaid_first_line newline (u16 "  Graph TD") (u16 "# x")).
  - repeat constructor.
  - repeat constructor; discriminate.
  - intros H. apply Forall_forall with (x := 71%Z) in H; [discriminate H |].
    vm_compute. auto 20.
Defined.

(** ** The case of Basic Latin letters does not count *)

Lemma dropWhile_fold s : dropWhile isSpace (fold s) = fold (dropWhile isSpace s).
Proof.
  induction s as [| a s IH]; [reflexivity |]. simpl.
  rewrite isSpace_canonicalize. destruct (isSpace a); [assumption | reflexivity].
Qed.

Lemma rev_fold s : rev (fold s) = fold (rev s).
Proof. symmetry. apply map_rev. Qed.

Lemma trimEnd_fold s : trimEnd (fold s) = fold (trimEnd s).
Proof. unfold trimEnd. now rewrite rev_fold, dropWhile_fold, rev_fold. Qed.

Lemma trim_fold s : trim (fold s) = fold (trim s).
Proof. unfold trim, trimStart. now rewrite dropWhile_fold, trimEnd_fold. Qed.

Lemma canonicalize_newline a : (canonicalize a =? 10)%Z = (a =? 10)%Z.
Proof.
  unfold canonicalize, inRange.
  destruct (97 <=? a)%Z eqn:E1; [| reflexivity].
  destruct (a <=? 122)%Z eqn:E2; [| reflexivity]. simpl.
  apply Z.leb_le in E1, E2. z_cases.
Qed.

Lemma split_fold s : split 10 (fold s) = map fold (split 10 s).
Proof.
  induction s as [| a s IH]; [reflexivity |]. simpl.
  rewrite canonicalize_newline. fold (fold s). rewrite IH.
  destruct (a =? 10)%Z; [reflexivity |].
  destruct (split 10 s); reflexivity.
Qed.

Lemma lowerUnit_canonicalize a : lowerUnit (canonicalize a) = lowerUnit a.
Proof.
  unfold canonicalize, inRange.
  destruct (97 <=? a)%Z eqn:E1; [| reflexivity].
  destruct (a <=? 122)%Z eqn:E2; [| reflexivity]. simpl.
  apply Z.leb_le in E1, E2. unfold lowerUnit, inRange. z_cases.
  f_equal. lia.
Qed.

Lemma toLowerCase_fold s : toLowerCase (fold s) = toLowerCase s.
Proof.
  induction s as [| a s IH]; [reflexivity |]. simpl.
  fold (fold s). fold (toLowerCase (fold s)). fold (toLowerCase s).
  now rewrite lowerUnit_canonicalize, IH.
Qed.

Lemma looksLikeMermaid_fold s : looksLikeMermaid (fold s) = looksLikeMermaid s.
Proof.
  unfold looksLikeMermaid. rewrite trim_fold, split_fold.
  replace (hd [] (map fold (split 10 (trim s)))) with (fold (hd [] (split 10 (trim s))))
    by (destruct (split 10 (trim s)); reflexivity).
  rewrite trim_fold, toLowerCase_fold.
  destruct (trim s); reflexivity.
Qed.

(** X7. Two texts that differ only in the case of Basic Latin letters
    get the same answer: the test for bare Mermaid code is
    case-insensitive on the whole line, not only on the keyword. *)
Theorem looksLikeMermaid_ignores_case (s t : str) :
  fold s = fold t -> looksLikeMermaid s = looksLikeMermaid t.
Proof.
  intros H. rewrite <- (looksLikeMermaid_fold s), <- (looksLikeMermaid_fold t).
  now rewrite H.
Qed.

Lemma looksLikeMermaid_ignores_case_witness :
  looksLikeMermaid (u16 "GITGRAPH") = looksLikeMermaid (u16 "gitGraph").
Proof.
  apply (@looksLikeMermaid_ignores_case (u16 "GITGRAPH") (u16 "gitGraph")).
  vm_compute. reflexivity.
Defined.

(** * Text without Markdown punctuation *)

Lemma needs_sound P ml r :
  Needs P r ->
  forall x y, Match false ml r x y ->
  exists w1 a w2, after x = w1 ++ a :: w2 ++ after y /\ P a = true.
Proof.
  induction 1 as [c Hc | p Hp | r1 r2 _ IH | r1 r2 _ IH | r1 r2 _ IH1 _ IH2
                  | min max g r Hmin Hmax _ IH | n r _ IH]; intros x y M.
  - apply Match_Char_inv in M as (a & [Ma _] & _ & E). apply Z.eqb_eq in E. subst a.
    exists [], c, []. now split.
  - apply Match_Set_inv in M as (a & [Ma _] & _ & E).
    exists [], a, []. split; [assumption | now apply Hp].
  - apply Match_Seq_inv in M as (y1 & M1 & M2).
    apply IH in M1 as (w1 & a & w2 & E & Ha).
    apply Match_consumes in M2 as (w & E2 & _).
    exists w1, a, (w2 ++ w). split; [| assumption].
    rewrite E, E2. now rewrite <- app_assoc.
  - apply Match_Seq_inv in M as (y1 & M1 & M2).
    apply IH in M2 as (w1 & a & w2 & E & Ha).
    apply Match_consumes in M1 as (w & E1 & _).
    exists (w ++ w1), a, w2. split; [| assumption].
    rewrite E1, E. now rewrite <- app_assoc.
  - apply Match_Alt_inv in M as [M | M]; eauto.
  - apply Match_Quant_inv in M as [[[H0 | H0] _] | (_ & y1 & M1 & M2)];
      [lia | congruence |].
    apply IH in M1 as (w1 & a & w2 & E & Ha).
    apply Match_consumes in M2 as (w & E2 & _).
    exists w1, a, (w2 ++ w). split; [| assumption].
    rewrite E, E2. now rewrite <- app_assoc.
  - apply Match_Group_inv in M as (y1 & M1 & ->).
    apply IH in M1. exact M1.
Qed.

Lemma oneOf_incl l l' a :
  incl l l' -> oneOf l a = true -> oneOf l' a = true.
Proof.
  unfold oneOf. rewrite !existsb_exists. intros H (c & Hc & E). exists c. auto.
Qed.

Ltac needs_mark :=
  solve [ apply NeedsChar; reflexivity
        | apply NeedsSet; intros ?; apply oneOf_incl; intros ? Hin;
          vm_compute in Hin; vm_compute; tauto
        | apply NeedsQuant; [lia | reflexivity | needs_mark]
        | apply NeedsSeqL; needs_mark
        | apply NeedsSeqR; needs_mark ].

(** The pattern for ordered lists needs a digit at once followed by a
    full stop. *)
Lemma orderedList_needs ml x y :
  Match false ml
    (seqs [AssertStart; star space; plus (CharSet isDigit); chr "."; space]) x y ->
  exists pre d post, after x = pre ++ d :: 46%Z :: post /\ isDigit d = true.
Proof.
  cbn [seqs fold_right]. intros M.
  apply Match_Seq_inv in M as (x0 & M0 & M). apply Match_Start_inv in M0 as [-> _].
  apply Match_Seq_inv in M as (x1 & M1 & M). apply Match_consumes in M1 as (ws & E1 & _).
  apply Match_Seq_inv in M as (x2 & M2 & M).
  apply Match_star_inv in M2 as (w & [E2 _] & _ & Hw & Hlen).
  apply Match_Seq_inv in M as (x3 & M3 & _).
  apply Match_Char_inv in M3 as (a & [E3 _] & _ & Ea).
  apply Z.eqb_eq in Ea. subst a.
  destruct w as [| d w' _] using rev_ind; [simpl in Hlen; lia |].
  apply Forall_app in Hw as [_ Hd]. inversion Hd as [| ? ? Hd' _]; subst.
  exists (ws ++ w'), d, (after x3). split; [| exact Hd'].
  rewrite E1, E2, E3. now rewrite <- !app_assoc.
Qed.

Lemma plainText_no_features text :
  plainText text -> hasMarkdownFeatures text = false.
Proof.
  intros [Hm Hd]. destruct (hasMarkdownFeatures text) eqn:E; [| reflexivity].
  exfalso. apply hasMarkdownFeatures_true_iff in E as (pat & Hin & T).
  apply test_true_iff in T as (gap & a & y & -> & M).
  assert (Hmark : ignoreCase pat = false /\ Needs (oneOf markdownMarks) (pattern pat)
                  -> False).
  { intros [Hic N]. rewrite Hic in M.
    destruct (needs_sound N M) as (w1 & c & w2 & Ea & Hc). cbn [after] in Ea.
    rewrite Ea in Hm. apply Forall_app in Hm as [_ Hm].
    apply Forall_app in Hm as [_ Hm]. inversion Hm as [| ? ? Hc' _]; subst.
    congruence. }
  unfold mdPatterns in Hin. cbn [In] in Hin.
  repeat (destruct Hin as [<- | Hin];
          [try (apply Hmark; split; [reflexivity |];
                cbn [pattern seqs fold_right lit fence u16 codeBlockRegex];
                needs_mark) |]);
    [| contradiction].
  cbn [pattern ignoreCase multiline] in M.
  apply orderedList_needs in M as (pre & d & post & Ea & Hdig). cbn [after] in Ea.
  specialize (Hd (gap ++ pre) d post). rewrite Ea, <- app_assoc in Hd.
  specialize (Hd eq_refl). congruence.
Qed.

(** X8. A text with none of the characters [# - * + [ ~ > | = `] and no
    digit at once followed by a full stop shows no Markdown feature:
    none of the fifteen patterns matches it. *)
Theorem plain_text_no_markdown (text : str) :
  plainText text -> hasMarkdownFeatures text = false.
Proof. apply plainText_no_features. Qed.

Lemma plain_text_no_markdown_witness :
  hasMarkdownFeatures (u16 "Version 2 is out. See the notes") = false.
Proof.
  apply (@plain_text_no_markdown (u16 "Version 2 is out. See the notes")).
  split.
  - vm_compute. repeat constructor.
  - intros pre d post E.
    destruct (isDigit d) eqn:Hd; [exfalso | reflexivity].
    assert (H : forall s pre, s = pre ++ d :: 46%Z :: post ->
                existsb (fun p => isDigit (fst p) && (snd p =? 46)%Z)
                  (combine s (tl s)) = true).
    { clear -Hd. intros s pre0 ->. induction pre0 as [| c pre0 IH].
      - simpl. now rewrite Hd.
      - destruct pre0; simpl in *; rewrite IH; apply orb_true_r. }
    apply H in E. vm_compute in E. discriminate E.
Defined.

Lemma trim_sandwich text :
  exists ws ws', text = ws ++ trim text ++ ws' /\ allSpace ws /\ allSpace ws'.
Proof.
  destruct (trim_decompose text)
    as [[H E] | (ws & c & u & ws' & E & Et & H1 & H2 & _)].
  - exists text, []. rewrite E, app_nil_r. repeat split; [assumption | constructor].
  - exists ws, ws'. rewrite Et. repeat split; assumption.
Qed.

Lemma plainText_trim text : plainText text -> plainText (trim text).
Proof.
  intros [Hm Hd]. destruct (trim_sandwich text) as (ws & ws' & E & _).
  split.
  - rewrite E in Hm. apply Forall_app in Hm as [_ Hm].
    now apply Forall_app in Hm as [Hm _].
  - intros pre d post Et. apply (Hd (ws ++ pre) d (post ++ ws')).
    rewrite E at 1. rewrite Et. now rewrite <- !app_assoc.
Qed.

Lemma plainText_no_fence text : plainText text -> containsMermaidBlocks text = false.
Proof.
  intros [Hm _]. destruct (containsMermaidBlocks text) eqn:E; [| reflexivity].
  apply containsMermaidBlocks_iff in E as (pre & tag & ws & post & _ & _ & ->).
  apply Forall_app in Hm as [_ Hm]. inversion Hm as [| ? ? Hc _]. discriminate Hc.
Qed.

(** X9. Plain text is never taken for Markdown with features or for
    mixed content: unless it is blank, it is classified [mermaid] when
    it looks like bare Mermaid code, and [markdown] with the label
    [Text] and block count 0 otherwise. *)
Theorem plain_text_classified (text : str) :
  plainText text -> ~ allSpace text ->
  type (detectContentType text)
  = (if looksLikeMermaid text then mermaid else markdown)
  /\ (looksLikeMermaid text = false ->
      label (detectContentType text) = u16 "Text"
      /\ mermaidBlockCount (detectContentType text) = 0).
Proof.
  intros Hp Hne. apply plainText_trim in Hp.
  pose proof (plainText_no_features Hp) as Hmd.
  pose proof (plainText_no_fence Hp) as Hf.
  rewrite <- trim_nil_iff in Hne. rewrite <- (looksLikeMermaid_trim text).
  unfold detectContentType. rewrite Hmd, Hf.
  destruct (trim text) as [| c t]; [contradiction |]. cbn [isEmptyStr].
  destruct (looksLikeMermaid (c :: t)); cbn; split; try reflexivity;
    try discriminate; auto.
Qed.

Lemma plain_text_classified_witness :
  type (detectContentType (u16 "hello world")) = markdown.
Proof.
  refine (proj1 (@plain_text_classified (u16 "hello world") _ _)).
  - split; [vm_compute; repeat constructor |].
    intros pre d post E. destruct (isDigit d) eqn:Hd; [exfalso | reflexivity].
    assert (H : In d (u16 "hello world"))
      by (rewrite E; apply in_or_app; right; now left).
    vm_compute in H.
    repeat (destruct H as [<- | H]; [discriminate Hd |]). contradiction.
  - intros H. apply Forall_forall with (x := 104%Z) in H; [discriminate H |].
    now left.
Defined.

(** * What the fixer keeps *)

(** ** Replacements, piece by piece *)

Section SplicedRel.

Variables (S : Type) (R : RegExp) (f : replacer S).

(** A relation between a text and what becomes of it, kept by
    concatenation. *)
Variable Rel : str -> str -> Prop.
Hypothesis Rel_refl : forall s, Rel s s.
Hypothesis Rel_app : forall a a' b b', Rel a a' -> Rel b b' -> Rel (a ++ b) (a' ++ b').

Lemma Spliced_rel :
  (forall m st, MatchAt R m -> Rel (m_text m) (fst (f m st))) ->
  forall b a st out st', Spliced R f b a st out st' -> Rel a out.
Proof.
  intros Hf b a st out st' H. induction H; [apply Rel_refl |].
  apply Rel_app; [apply Rel_refl |]. apply Rel_app; [now apply Hf | assumption].
Qed.

End SplicedRel.

Section MergeRel.

Variable R : RegExp.
Hypothesis shape : MergeShape R.

Variable Rel : str -> str -> Prop.
Hypothesis Rel_refl : forall s, Rel s s.
Hypothesis Rel_trans : forall s t u, Rel s t -> Rel t u -> Rel s u.
Hypothesis Rel_app : forall a a' b b', Rel a a' -> Rel b b' -> Rel (a ++ b) (a' ++ b').
Hypothesis Rel_merge : forall c1 nls b c2,
  allIn [13; 10]%Z nls -> oneOf [32; 9]%Z b = true ->
  Rel (c1 ++ nls ++ b :: c2) (c1 ++ u16 " " ++ trim (b :: c2)).

Lemma mergeLoop_rel : forall fuel code count,
  Rel code (fst (mergeLoop R fuel code count)).
Proof.
  induction fuel as [| fuel IH]; intros code count; cbn [mergeLoop];
    [apply Rel_refl |].
  destruct (test R code); [| apply Rel_refl].
  pose proof (replaceWith_global mergeReplacer code count (proj1 shape)
                (merge_nonEmpty shape)) as Sp.
  destruct (replaceWith R code mergeReplacer count) as [code' count'].
  cbn [fst snd] in Sp. apply Rel_trans with code'; [| apply IH].
  eapply (@Spliced_rel _ _ _ Rel Rel_refl Rel_app); [| exact Sp].
  intros m st HM. destruct shape as [_ Sh].
  destruct (Sh m HM) as (c1 & nls & b & c2 & Et & _ & Fn & Hb & E1 & E2).
  unfold mergeReplacer. cbn [fst]. rewrite Et, E1, E2. now apply Rel_merge.
Qed.

End MergeRel.

Lemma fixTag_fst st :
  fst (fixTag st)
  = fst (mergeLoop tagFixRegex (S (List.length (fst st))) (fst st) 0).
Proof.
  destruct st as [code fx]. unfold fixTag. cbn [fst].
  now destruct (mergeLoop tagFixRegex _ code 0).
Qed.

Lemma fixType_fst st :
  fst (fixType st)
  = fst (mergeLoop typeFixRegex (S (List.length (fst st))) (fst st) 0).
Proof.
  destruct st as [code fx]. unfold fixType. cbn [fst].
  now destruct (mergeLoop typeFixRegex _ code 0).
Qed.

(** ** Fix 0 is a filter *)

Lemma visibleText_app s t : visibleText (s ++ t) = visibleText s ++ visibleText t.
Proof. apply filter_app. Qed.

Lemma visibleText_fixed s :
  Forall (fun c => invisible c = false) s -> visibleText s = s.
Proof.
  induction 1 as [| c s Hc _ IH]; [reflexivity |]. unfold visibleText in *.
  simpl. now rewrite Hc, IH.
Qed.

Lemma visibleText_clean s : Forall (fun c => invisible c = false) (visibleText s).
Proof.
  apply Forall_forall. intros c H. apply filter_In in H as [_ H].
  now apply negb_true_iff in H.
Qed.

(** Where the pattern for invisible code units finds no match, there is
    none of them. *)
Lemma zeroWidth_unmatched b gap rest :
  (forall g1 g2 y, gap ++ rest = g1 ++ g2 -> List.length g1 < List.length gap ->
     ~ Match false false (pattern zeroWidthRegex) (mkState (rev g1 ++ b) g2 []) y) ->
  Forall (fun c => invisible c = false) gap.
Proof.
  intros H. apply Forall_forall. intros c Hc.
  destruct (invisible c) eqn:E; [exfalso | reflexivity].
  apply in_split in Hc as (g1 & g2 & ->).
  eapply (H g1 (c :: g2 ++ rest)).
  - now rewrite <- app_assoc.
  - rewrite length_app. simpl. lia.
  - apply MSet. exact E.
Qed.

Lemma Spliced_zeroWidth b a st out st' :
  Spliced zeroWidthRegex (template zeroWidthRegex []) b a st out st' ->
  out = visibleText a.
Proof.
  induction 1 as [b a st E | b gap m st out st' E B N HM Sp IH].
  - symmetry. apply visibleText_fixed.
    apply (@zeroWidth_unmatched b a []).
    intros g1 g2 y Ea _. rewrite app_nil_r in Ea.
    exact (@execFrom_None zeroWidthRegex a b E g1 g2 y Ea).
  - apply zeroWidthRegex_match in HM as (c & Et & Hc).
    rewrite !visibleText_app, Et, <- IH. cbn [fst template getSubstitution app].
    replace (visibleText [c]) with (@nil Z)
      by (unfold visibleText, invisible; cbn [filter]; now rewrite Hc).
    f_equal. symmetry. apply visibleText_fixed.
    apply (@zeroWidth_unmatched b gap (m_text m ++ m_after m)).
    intros g1 g2 y Ea L.
    apply (@execFrom_leftmost zeroWidthRegex _ b m E g1 g2 y Ea).
    unfold m_index. rewrite B, length_app, length_rev. lia.
Qed.

Lemma replace_zeroWidth s : replace zeroWidthRegex s [] = visibleText s.
Proof.
  unfold replace. eapply Spliced_zeroWidth.
  apply replaceWith_global; [reflexivity |].
  intros m HM. apply zeroWidthRegex_match in HM as (c & -> & _). discriminate.
Qed.

Lemma bomRegex_start m : MatchAt bomRegex m -> m_before m = [].
Proof.
  intros (y & M & _).
  cbn [bomRegex pattern ignoreCase multiline seqs fold_right] in M.
  apply Match_Seq_inv in M as (y1 & M1 & _).
  apply Match_Start_inv in M1 as [_ H]. unfold atLineStart in H. cbn in H.
  destruct (m_before m); [reflexivity | discriminate].
Qed.

Lemma replace_bom s : visibleText (replace bomRegex s []) = visibleText s.
Proof.
  unfold replace. rewrite replaceWith_first by reflexivity.
  destruct (exec bomRegex s) as [m |] eqn:E; [| reflexivity].
  apply exec_sound in E as (HM & E).
  pose proof (bomRegex_match HM) as Et. pose proof (bomRegex_start HM) as Eb.
  cbn [fst template getSubstitution app]. rewrite Eb, Et in E. rewrite Eb.
  cbn [rev app] in *. subst s. reflexivity.
Qed.

Lemma visibleText_length s :
  List.length (visibleText s) = List.length s
  <-> Forall (fun c => invisible c = false) s.
Proof.
  split; [| intros H; now rewrite visibleText_fixed].
  induction s as [| c s IH]; intros H; [constructor |].
  unfold visibleText in *. simpl in H.
  pose proof (filter_length_le (fun c => negb (invisible c)) s) as L.
  destruct (invisible c) eqn:E; simpl in H; [lia |].
  constructor; [assumption | apply IH; lia].
Qed.

(** Fix 0 takes away every invisible code unit and nothing else; the
    replacement of a leading byte order mark is covered by the global
    replacement that follows it. *)
Lemma removeInvisible_filter source :
  removeInvisible source
  = (visibleText source,
     if forallb (fun c => negb (invisible c)) source then [] else [removedMessage]).
Proof.
  unfold removeInvisible. rewrite replace_zeroWidth, replace_bom. f_equal.
  destruct (forallb (fun c => negb (invisible c)) source) eqn:F.
  - replace (visibleText source) with source; [now rewrite Nat.eqb_refl |].
    symmetry. apply visibleText_fixed. rewrite forallb_forall in F.
    apply Forall_forall. intros c Hc. now apply negb_true_iff, F.
  - destruct (Nat.eqb_spec (List.length (visibleText source)) (List.length source))
      as [L | L]; [| reflexivity].
    apply visibleText_length in L. rewrite Forall_forall in L.
    assert (F' : forallb (fun c => negb (invisible c)) source = true)
      by (apply forallb_forall; intros c Hc; now apply negb_true_iff, L).
    congruence.
Qed.

(** ** No invisible code unit comes back *)

Lemma invisible_canonicalize c : invisible (canonicalize c) = invisible c.
Proof.
  unfold canonicalize, inRange.
  destruct (97 <=? c)%Z eqn:E1; [| reflexivity].
  destruct (c <=? 122)%Z eqn:E2; [| reflexivity]. simpl.
  apply Z.leb_le in E1, E2. unfold invisible, oneOf. simpl. z_cases.
Qed.

Lemma visible_fold s :
  Forall (fun c => invisible c = false) (fold s)
  <-> Forall (fun c => invisible c = false) s.
Proof.
  unfold fold. rewrite Forall_map.
  split; apply Forall_impl; intros c; now rewrite invisible_canonicalize.
Qed.

Lemma Forall_trim (P : Z -> Prop) s : Forall P s -> Forall P (trim s).
Proof.
  intros H. destruct (trim_sandwich s) as (ws & ws' & E & _). rewrite E in H.
  apply Forall_app in H as [_ H]. now apply Forall_app in H as [H _].
Qed.

Lemma mergeLoop_visible R fuel code count :
  MergeShape R ->
  Forall (fun c => invisible c = false) code ->
  Forall (fun c => invisible c = false) (fst (mergeLoop R fuel code count)).
Proof.
  intros Sh.
  apply (@mergeLoop_rel R Sh
           (fun s t => Forall (fun c => invisible c = false) s ->
                       Forall (fun c => invisible c = false) t)); auto.
  - intros a a' b b' H1 H2 H. apply Forall_app in H as [Ha Hb].
    apply Forall_app. auto.
  - intros c1 nls b c2 _ _ H. apply Forall_app in H as [H1 H].
    apply Forall_app in H as [_ H2].
    apply Forall_app. split; [assumption |].
    apply Forall_app. split; [repeat constructor | now apply Forall_trim].
Qed.

(** ** The messages of the rules *)

Lemma fixCapitalization_appends R K tmpl st :
  exists more,
    snd (fixCapitalization R K tmpl st) = snd st ++ more
    /\ Forall (fun msg => hd 0%Z msg = 70%Z) more.
Proof.
  destruct st as [code fx]. unfold fixCapitalization.
  destruct (test R code); [| exists []; now rewrite app_nil_r].
  destruct (exec R code) as [m |]; [| exists []; now rewrite app_nil_r].
  destruct (negb (str_eqb (groupText 2 m) K)); [| exists []; now rewrite app_nil_r].
  eexists. split; [reflexivity |]. repeat constructor.
Qed.

Lemma fixTag_appends st :
  exists more,
    snd (fixTag st) = snd st ++ more /\ Forall (fun msg => hd 0%Z msg = 77%Z) more.
Proof.
  destruct st as [code fx]. unfold fixTag.
  destruct (mergeLoop tagFixRegex _ code 0) as [code' n]. cbn [snd].
  destruct (0 <? n); [| exists []; now rewrite app_nil_r].
  eexists. split; [reflexivity |]. repeat constructor.
Qed.

Lemma fixType_appends st :
  exists more,
    snd (fixType st) = snd st ++ more /\ Forall (fun msg => hd 0%Z msg = 77%Z) more.
Proof.
  destruct st as [code fx]. unfold fixType.
  destruct (mergeLoop typeFixRegex _ code 0) as [code' n]. cbn [snd].
  destruct (0 <? n); [| exists []; now rewrite app_nil_r].
  eexists. split; [reflexivity |]. repeat constructor.
Qed.

(** The fix list is the notice of Fix 0, if any, followed by the
    messages of the other rules, which begin with [Fixed] or [Moved]. *)
Lemma fixes_after_invisible source :
  exists more,
    MermaidFixer.fixes (fixMermaidCode source) = snd (removeInvisible source) ++ more
    /\ Forall (fun msg => hd 0%Z msg = 70%Z \/ hd 0%Z msg = 77%Z) more.
Proof.
  unfold fixMermaidCode. cbn [MermaidFixer.fixes].
  set (st0 := removeInvisible source).
  destruct (fixCapitalization_appends gitGraphRegex (u16 "gitGraph") (u16 "$1gitGraph") st0)
    as (m1 & E1 & H1).
  set (st1 := fixCapitalization gitGraphRegex _ _ st0) in *.
  destruct (fixCapitalization_appends seqRegex (u16 "sequenceDiagram")
              (u16 "$1sequenceDiagram") st1) as (m2 & E2 & H2).
  set (st2 := fixCapitalization seqRegex _ _ st1) in *.
  destruct (fixCapitalization_appends classRegex (u16 "classDiagram")
              (u16 "$1classDiagram") st2) as (m3 & E3 & H3).
  set (st3 := fixCapitalization classRegex _ _ st2) in *.
  destruct (fixCapitalization_appends stateRegex (u16 "stateDiagram")
              (u16 "$1stateDiagram$3") st3) as (m4 & E4 & H4).
  set (st4 := fixCapitalization stateRegex _ _ st3) in *.
  destruct (fixCapitalization_appends erRegex (u16 "erDiagram")
              (u16 "$1erDiagram") st4) as (m5 & E5 & H5).
  set (st5 := fixCapitalization erRegex _ _ st4) in *.
  destruct (fixTag_appends st5) as (m6 & E6 & H6).
  destruct (fixType_appends (fixTag st5)) as (m7 & E7 & H7).
  exists (m1 ++ m2 ++ m3 ++ m4 ++ m5 ++ m6 ++ m7). split.
  - rewrite E7, E6, E5, E4, E3, E2, E1. now rewrite <- !app_assoc.
  - repeat (apply Forall_app; split);
      (eapply Forall_impl; [| eassumption]); cbn beta; auto.
Qed.

(** X10. The fixer takes away every zero-width space, non-joiner, joiner
    and byte order mark, wherever it stands (not only a byte order mark
    at the start), so that the output holds none; and it reports the
    removal exactly when the source held one. *)
Theorem fix_removes_invisible (source : str) :
  Forall (fun c => invisible c = false) (output (fixMermaidCode source))
  /\ (In removedMessage (MermaidFixer.fixes (fixMermaidCode source))
      <-> Exists (fun c => invisible c = true) source).
Proof.
  split.
  - unfold fixMermaidCode. cbn [output].
    rewrite removeInvisible_filter.
    set (c0 := visibleText source).
    match goal with |- context [(c0, ?f)] => generalize f; intros f0 end.
    pose proof (capitalization_stages c0 f0) as [F5 _].
    match type of F5 with fold (fst ?st) = _ => destruct st as [c5 f5] end.
    cbn [fst] in F5.
    assert (V5 : Forall (fun c => invisible c = false) c5).
    { apply visible_fold. rewrite F5. apply visible_fold, visibleText_clean. }
    rewrite fixType_fst. apply mergeLoop_visible; [apply typeFixRegex_shape |].
    rewrite fixTag_fst. apply mergeLoop_visible; [apply tagFixRegex_shape |].
    exact V5.
  - destruct (fixes_after_invisible source) as (more & -> & Hmore).
    rewrite removeInvisible_filter. cbn [snd].
    assert (Hno : ~ In removedMessage more).
    { intros H. rewrite Forall_forall in Hmore. apply Hmore in H.
      destruct H as [H | H]; discriminate H. }
    destruct (forallb (fun c => negb (invisible c)) source) eqn:F.
    + split; [intros H; now elim Hno |].
      intros H. apply Exists_exists in H as (c & Hc & E).
      rewrite forallb_forall in F. apply F in Hc. rewrite E in Hc. discriminate Hc.
    + split; [intros _ | intros _; now left].
      apply Exists_exists.
      destruct (forallb_forall (fun c => negb (invisible c)) source) as [_ H].
      destruct (Exists_dec (fun c => invisible c = true) source) as [Y | N].
      { intros c. destruct (invisible c); [now left | right; discriminate]. }
      { now apply Exists_exists in Y. }
      { rewrite H in F; [discriminate |]. intros c Hc.
        destruct (invisible c) eqn:E; [| reflexivity].
        elim N. apply Exists_exists. eauto. }
Qed.

(** ** Letters, digits and punctuation stay *)

Lemma essence_app s t : essence (s ++ t) = essence s ++ essence t.
Proof. unfold essence. now rewrite fold_app, filter_app. Qed.

Lemma essence_space ws : allSpace ws -> essence ws = [].
Proof.
  induction 1 as [| c ws Hc _ IH]; [reflexivity |]. unfold essence in *. simpl.
  now rewrite isSpace_canonicalize, Hc.
Qed.

Lemma essence_trim s : essence (trim s) = essence s.
Proof.
  destruct (trim_sandwich s) as (ws & ws' & E & H & H'). rewrite E at 2.
  rewrite !essence_app, (essence_space H), (essence_space H'). cbn [app].
  now rewrite app_nil_r.
Qed.

Lemma essence_visibleText s : essence (visibleText s) = essence s.
Proof.
  induction s as [| c s IH]; [reflexivity |]. unfold essence, visibleText in *.
  simpl. destruct (invisible c) eqn:E; simpl.
  - rewrite invisible_canonicalize, E, orb_true_r. exact IH.
  - now rewrite IH.
Qed.

Lemma essence_fold s t : fold s = fold t -> essence s = essence t.
Proof. unfold essence. now intros ->. Qed.

Lemma lineBreaks_allSpace w : allIn [13; 10]%Z w -> allSpace w.
Proof.
  apply Forall_impl. intros c H. unfold oneOf in H. simpl in H.
  rewrite orb_false_r in H. apply orb_true_iff in H as [H | H];
    apply Z.eqb_eq in H; subst; reflexivity.
Qed.

Lemma mergeLoop_essence R fuel code count :
  MergeShape R -> essence (fst (mergeLoop R fuel code count)) = essence code.
Proof.
  intros Sh.
  apply (@mergeLoop_rel R Sh (fun s t => essence t = essence s)); auto.
  - intros s t u H1 H2. congruence.
  - intros a a' b b' H1 H2. rewrite !essence_app. congruence.
  - intros c1 nls b c2 Hn Hb. rewrite !essence_app, essence_trim.
    rewrite (essence_space (lineBreaks_allSpace Hn)). reflexivity.
Qed.

(** X11. White space, invisible code units and the case of Basic Latin
    letters set aside, the output of the fixer is its input: it never
    adds, drops, reorders or replaces any other character. *)
Theorem fix_keeps_essence (source : str) :
  essence (output (fixMermaidCode source)) = essence source.
Proof.
  unfold fixMermaidCode. cbn [output].
  rewrite fixType_fst, mergeLoop_essence by apply typeFixRegex_shape.
  rewrite fixTag_fst, mergeLoop_essence by apply tagFixRegex_shape.
  rewrite removeInvisible_filter.
  match goal with |- context [(visibleText source, ?f)] => generalize f; intros f0 end.
  pose proof (capitalization_stages (visibleText source) f0) as [F5 _].
  rewrite (essence_fold _ _ F5). apply essence_visibleText.
Qed.

(** X12. The fixer never makes the text longer and never adds or takes
    away a backtick, so it can neither open nor close a code fence that
    the source does not spell out. *)
Theorem fix_never_longer (source : str) :
  List.length (output (fixMermaidCode source)) <= List.length source
  /\ backticks (output (fixMermaidCode source)) = backticks source.
Proof.
  destruct (fixMermaidCode_facts source) as (L & B & _). now split.
Qed.

(** * The type rule, pair by pair *)

Lemma typeFixRegex_pattern :
  pattern typeFixRegex
  = Seq AssertStart
      (Seq (Group 1 typeLine)
         (Seq (plus lineBreak) (Seq (Group 2 (Seq (plus blank) typePart)) Empty))).
Proof. reflexivity. Qed.

Lemma typeLine_inv x y line :
  Match false true typeLine x y -> Moves x line y -> TypeCommitLine line.
Proof.
  intros M V. unfold typeLine in M. cbn [seqs fold_right] in M.
  apply Match_Seq_inv in M. destruct M as (y1 & M1 & M).
  apply Match_Seq_inv in M. destruct M as (y2 & M2 & M).
  apply Match_Seq_inv in M. destruct M as (y3 & M3 & M).
  apply Match_Seq_inv in M. destruct M as (y4 & M4 & M).
  apply Match_Empty_inv in M. subst y4.
  apply Match_star_inv in M1. destruct M1 as (ind & V1 & _ & F1 & _).
  apply Match_lit_inv in M2. destruct M2 as (kw & V2 & _ & F2).
  apply charsMatch_cs in F2. subst kw.
  apply Match_star_inv in M3. destruct M3 as (sp & V3 & _ & F3 & L3).
  apply Match_star_inv in M4. destruct M4 as (rest & V4 & _ & F4 & _).
  pose proof (Moves_app V1 (Moves_app V2 (Moves_app V3 V4))) as V'.
  rewrite (Moves_inj V V').
  exists ind, sp, rest. split; [reflexivity |].
  split; [exact F1 |].
  split; [destruct sp; [simpl in L3; lia | discriminate] |].
  split; [exact F3 | exact F4].
Qed.

Lemma typePart_inv x y clause :
  Match false true typePart x y -> Moves x clause y -> TypeClause clause.
Proof.
  intros M V. unfold typePart in M. cbn [seqs fold_right] in M.
  apply Match_Seq_inv in M. destruct M as (y1 & M1 & M).
  apply Match_Seq_inv in M. destruct M as (y2 & M2 & M).
  apply Match_Seq_inv in M. destruct M as (y3 & M3 & M).
  apply Match_Empty_inv in M. subst y3.
  apply Match_lit_inv in M1. destruct M1 as (w & V1 & _ & F1).
  apply charsMatch_cs in F1. subst w.
  apply Match_star_inv in M2. destruct M2 as (sp & V2 & _ & F2 & L2).
  apply Match_star_inv in M3. destruct M3 as (value & V3 & _ & F3 & L3).
  pose proof (Moves_app V1 (Moves_app V2 V3)) as V'.
  rewrite (Moves_inj V V').
  exists sp, value. split; [reflexivity |].
  split; [destruct sp; [simpl in L2; lia | discriminate] |].
  split; [exact F2 |].
  split; [destruct value; [simpl in L3; lia | discriminate] | exact F3].
Qed.

(** A match of the type pattern is a pair to merge. *)
Lemma typeFixRegex_match m :
  MatchAt typeFixRegex m ->
  exists line nls ind clause,
    TypePair (rev (m_before m)) line nls ind clause
    /\ m_text m = line ++ nls ++ ind ++ clause
    /\ groupText 1 m = line /\ groupText 2 m = ind ++ clause.
Proof.
  intros HM. apply MatchAt_elim in HM. destruct HM as (y & M & V & C).
  rewrite typeFixRegex_pattern in M. cbn [ignoreCase multiline typeFixRegex] in M.
  apply mergePattern_inv in M; try reflexivity.
  destruct M as (line & nls & ind & clause & y1 & y2 & y3 & y4 & L & M1 & V1 & _
                   & Hn & Fn & _ & Hi & Fi & M4 & V4 & V' & C').
  exists line, nls, ind, clause.
  split; [| split; [apply (Moves_inj V V') |]].
  - unfold TypePair. rewrite rev_involutive.
    split; [exact L |]. split; [apply (typeLine_inv M1 V1) |].
    split; [assumption |]. split; [exact Fn |]. split; [assumption |].
    split; [exact Fi | apply (typePart_inv M4 V4)].
  - unfold groupText, group. rewrite <- C, C'. split; reflexivity.
Qed.

Lemma wordChar_noSpace c : isWordChar c = true -> isSpace c = false.
Proof.
  unfold isWordChar, isDigit, inRange. intros H.
  assert (B : (48 <= c <= 122)%Z).
  { repeat (apply orb_true_iff in H as [H | H]);
      try (apply andb_true_iff in H as [H1 H2]; apply Z.leb_le in H1, H2; lia).
    apply Z.eqb_eq in H. lia. }
  unfold isSpace, isWhiteSpace, isLineTerminator, inRange. z_cases.
Qed.

Lemma typeClause_last clause :
  TypeClause clause -> exists c d, clause = c ++ [d] /\ isSpace d = false.
Proof.
  intros (sp & value & -> & _ & _ & Hv & Fv).
  destruct value as [| d v _] using rev_ind; [contradiction |].
  exists (u16 "type:" ++ sp ++ v), d. split; [now rewrite <- !app_assoc |].
  apply Forall_app in Fv as [_ Fv]. inversion Fv; subst. now apply wordChar_noSpace.
Qed.

(** [trim] takes the indentation off a type clause, and nothing else. *)
Lemma trim_typeClause ind clause :
  blanks ind -> TypeClause clause -> trim (ind ++ clause) = clause.
Proof.
  intros Hi Hc. destruct (typeClause_last Hc) as (c & d & E & Hd).
  destruct Hc as (sp & value & E' & _).
  assert (Ec : exists c', c = 116%Z :: c').
  { rewrite E' in E. destruct c as [| x c]; [destruct sp; discriminate E |].
    injection E as <- _. eauto. }
  destruct Ec as (c' & ->). rewrite E.
  change (ind ++ (116%Z :: c') ++ [d]) with (ind ++ 116%Z :: c' ++ d :: []).
  rewrite trim_core by (reflexivity || assumption).
  unfold trimStart. rewrite (dropWhile_all isSpace (blanks_allSpace Hi)).
  reflexivity.
Qed.

Lemma mergeReplacer_type m (st : nat) line nls ind clause :
  TypePair (rev (m_before m)) line nls ind clause ->
  groupText 1 m = line -> groupText 2 m = ind ++ clause ->
  mergeReplacer m st = (line ++ u16 " " ++ clause, S st).
Proof.
  intros (_ & _ & _ & _ & _ & Hi & Hc) G1 G2. unfold mergeReplacer.
  now rewrite G1, G2, trim_typeClause.
Qed.

Lemma TypeMerges_trans n k s t u :
  TypeMerges n s t -> TypeMerges k t u -> TypeMerges (n + k) s u.
Proof.
  induction 1 as [| n s t t' H1 H IH]; intros H2; [assumption |].
  simpl. econstructor; [eassumption | now apply IH].
Qed.

(** One pass of [replace]: as many merges as matches. *)
Lemma pass_type_merges b a st out st' :
  Spliced typeFixRegex mergeReplacer b a st out st' ->
  forall p, (endsLine b -> endsLine (rev p)) ->
  st <= st' /\ TypeMerges (st' - st) (p ++ a) (p ++ out).
Proof.
  induction 1 as [b a st E | b gap m st out st' E B N HM Sp IH]; intros p Hp.
  - rewrite Nat.sub_diag. split; [lia | constructor].
  - destruct (typeFixRegex_match HM) as (line & nls & ind & clause & TP & Et & G1 & G2).
    rewrite (@mergeReplacer_type m st _ _ _ _ TP G1 G2) in *. cbn [fst snd] in *.
    destruct (typeClause_last (proj2 (proj2 (proj2 (proj2 (proj2 (proj2 TP)))))))
      as (c & d & Ec & Hd).
    specialize (IH (p ++ gap ++ line ++ u16 " " ++ clause)).
    destruct IH as [Le IH].
    { rewrite Et, Ec, !app_assoc, rev_app_distr. cbn [rev app endsLine].
      intros El. unfold isSpace in Hd. rewrite El, orb_true_r in Hd.
      discriminate Hd. }
    split; [lia |].
    replace (st' - st) with (S (st' - S st)) by lia.
    apply typeMergesS with (t := p ++ gap ++ (line ++ u16 " " ++ clause) ++ m_after m).
    + rewrite Et.
      pose proof (@typeMerge (p ++ gap) line nls ind clause (m_after m)) as H.
      rewrite <- !app_assoc in *. apply H.
      destruct TP as (L & TP). split; [| exact TP].
      rewrite rev_involutive, B in L. rewrite rev_app_distr.
      destruct (rev gap); [apply Hp, L | exact L].
    + rewrite <- !app_assoc in *. exact IH.
Qed.

(** The loop of Fix 7: the merges it makes are the merges it counts. *)
Lemma mergeLoop_type_merges : forall fuel code count,
  count <= snd (mergeLoop typeFixRegex fuel code count)
  /\ TypeMerges (snd (mergeLoop typeFixRegex fuel code count) - count) code
       (fst (mergeLoop typeFixRegex fuel code count)).
Proof.
  induction fuel as [| fuel IH]; intros code count; cbn [mergeLoop].
  - cbn. rewrite Nat.sub_diag. split; [lia | constructor].
  - destruct (test typeFixRegex code).
    + pose proof (replaceWith_global mergeReplacer code count (R := typeFixRegex)
                    eq_refl (merge_nonEmpty typeFixRegex_shape)) as Sp.
      apply pass_type_merges with (p := []) in Sp; [| trivial].
      destruct (replaceWith typeFixRegex code mergeReplacer count) as [code' count'].
      cbn [fst snd app] in Sp. destruct Sp as [Le Sp].
      destruct (IH code' count') as [Le' IH'].
      split; [lia |].
      replace (snd (mergeLoop typeFixRegex fuel code' count') - count)
        with ((count' - count) + (snd (mergeLoop typeFixRegex fuel code' count') - count'))
        by lia.
      eapply TypeMerges_trans; eassumption.
    + cbn. rewrite Nat.sub_diag. split; [lia | constructor].
Qed.

Lemma typeLine_intro line caps : TypeCommitLine line -> Consumes typeLine line caps.
Proof.
  intros (ind & sp & rest & -> & Hi & Hn & Hs & Hr).
  unfold typeLine. cbn [seqs fold_right].
  apply Consumes_seq; [apply Consumes_star; [exact Hi | lia] |].
  apply Consumes_seq; [apply Consumes_lit |].
  apply Consumes_seq; [apply Consumes_star; [exact Hs | now apply length_nonempty] |].
  rewrite <- (app_nil_r rest).
  apply Consumes_seq; [apply Consumes_star; [exact Hr | lia] | apply Consumes_empty].
Qed.

Lemma typePart_intro clause caps : TypeClause clause -> Consumes typePart clause caps.
Proof.
  intros (sp & value & -> & Hn & Hs & Hv & Fv).
  unfold typePart. cbn [seqs fold_right].
  apply Consumes_seq; [apply Consumes_lit |].
  apply Consumes_seq; [apply Consumes_star; [exact Hs | now apply length_nonempty] |].
  rewrite <- (app_nil_r value).
  apply Consumes_seq; [| apply Consumes_empty].
  apply Consumes_star; [exact Fv | now apply length_nonempty].
Qed.

Lemma typePair_found s : HasTypePair s -> test typeFixRegex s = true.
Proof.
  intros (pre & line & nls & ind & clause & post & TP & ->).
  destruct TP as (L & Hl & Hn & Fn & Hi & Fi & Hc).
  apply test_true_iff.
  exists pre, (line ++ nls ++ ind ++ clause ++ post),
    (mkState (rev (ind ++ clause) ++ rev nls ++ rev line ++ rev pre) post
       [(2, ind ++ clause); (1, line)]).
  split; [reflexivity |].
  rewrite typeFixRegex_pattern. cbn [ignoreCase multiline typeFixRegex].
  eapply MSeq.
  { apply MStart. unfold atLineStart. cbn [before]. destruct (rev pre); [reflexivity | exact L]. }
  eapply MSeq; [apply Group_intro, typeLine_intro, Hl |].
  eapply MSeq.
  { apply Match_star_intro; [exact Fn | now apply length_nonempty]. }
  eapply MSeq; [| apply MEmpty].
  rewrite (app_assoc ind clause post).
  apply Group_intro. apply Consumes_seq.
  - apply Consumes_star; [exact Fi | now apply length_nonempty].
  - now apply typePart_intro.
Qed.

(** X13. The type rule of [fixMermaidCode], which runs last, works on
    pairs made of a line that starts with optional blanks, [commit] and
    at least one blank, then one or more line breaks, then an indented
    [type:] clause with a value of word characters.  From the text that
    the tag rule leaves it makes [n] merges, each putting the clause at
    the end of its commit line after a single space and changing nothing
    else; the output holds no such pair any more; and the [n] merges are
    reported by one summary entry at the end of the fix list (none when
    [n] is 0). *)
Theorem type_rule (source : str) :
  exists n,
    TypeMerges n (fst (fixTag (beforeFixTag source))) (output (fixMermaidCode source))
    /\ ~ HasTypePair (output (fixMermaidCode source))
    /\ MermaidFixer.fixes (fixMermaidCode source)
       = snd (fixTag (beforeFixTag source)) ++ typeSummary n.
Proof.
  change (MermaidFixer.fixes (fixMermaidCode source))
    with (snd (fixType (fixTag (beforeFixTag source)))).
  change (output (fixMermaidCode source))
    with (fst (fixType (fixTag (beforeFixTag source)))).
  destruct (fixTag (beforeFixTag source)) as [c6 f6]. cbn [fst snd].
  unfold fixType.
  pose proof (mergeLoop_type_merges (S (List.length c6)) c6 0) as [_ HM].
  destruct (mergeLoop_spec typeFixRegex_shape (S (List.length c6)) c6 0)
    as (_ & _ & _ & _ & _ & HT).
  specialize (HT ltac:(lia)).
  destruct (mergeLoop typeFixRegex (S (List.length c6)) c6 0) as [c7 n].
  cbn [fst snd] in *. rewrite Nat.sub_0_r in HM.
  exists n. split; [assumption |]. split.
  - intros HP. apply typePair_found in HP. congruence.
  - unfold typeSummary. destruct (0 <? n); [reflexivity | now rewrite app_nil_r].
Qed.

(** * Documents, block by block *)

Lemma Match_seq_over ic ml r1 r2 w1 w2 b a caps :
  Match ic ml r1 (mkState b (w1 ++ w2 ++ a) caps) (mkState (rev w1 ++ b) (w2 ++ a) caps) ->
  Match ic ml r2 (mkState (rev w1 ++ b) (w2 ++ a) caps)
    (mkState (rev w2 ++ rev w1 ++ b) a caps) ->
  Match ic ml (Seq r1 r2) (mkState b ((w1 ++ w2) ++ a) caps)
    (mkState (rev (w1 ++ w2) ++ b) a caps).
Proof.
  intros M1 M2. rewrite rev_app_distr, <- !app_assoc. eapply MSeq; eassumption.
Qed.

Lemma Match_group_over ic ml n r w caps b a :
  Match ic ml r (mkState b (w ++ a) caps) (mkState (rev w ++ b) a caps) ->
  Match ic ml (Group n r) (mkState b (w ++ a) caps)
    (mkState (rev w ++ b) a ((n, w) :: caps)).
Proof.
  intros M. pose proof (MGroup n M) as M'. cbn [before after captures] in M'.
  replace (consumed (mkState b (w ++ a) caps) (mkState (rev w ++ b) a caps))
    with w in M'; [exact M' |].
  symmetry. apply consumed_eq. reflexivity.
Qed.

Lemma block_found text :
  HasCompleteBlock text -> execFrom mermaidBlockRegex [] text <> None.
Proof.
  intros (pre & tag & ws & body & post & Ht & Hws & ->).
  set (opening := (fence ++ tag) ++ ws ++ newline ++ []).
  replace (pre ++ fence ++ tag ++ ws ++ newline ++ body ++ fence ++ post)
    with (pre ++ opening ++ body ++ fence ++ post)
    by (unfold opening; now rewrite <- !app_assoc).
  apply execFrom_complete with
    (y := mkState (rev fence ++ rev body ++ rev opening ++ rev pre) post
            [(3, fence); (2, body); (1, opening)]).
  rewrite app_nil_r.
  cbn [mermaidBlockRegex pattern ignoreCase multiline seqs fold_right].
  eapply MSeq.
  { apply Match_group_over. unfold opening.
    apply Match_seq_over.
    { apply Match_lit_intro. apply charsMatch_ci.
      change (u16 "```mermaid") with (fence ++ u16 "mermaid").
      now rewrite !fold_app, Ht. }
    apply Match_seq_over.
    { apply Match_star_intro; [now apply allMatch_space | lia]. }
    apply Match_seq_over; [apply MChar; reflexivity | apply MEmpty]. }
  eapply MSeq.
  { apply Match_group_over. apply Match_star_intro; [apply allMatch_anyChar | lia]. }
  eapply MSeq; [| apply MEmpty].
  apply Match_group_over. apply Match_lit_intro, charsMatch_refl.
Qed.

Lemma block_sound text m :
  execFrom mermaidBlockRegex [] text = Some m -> HasCompleteBlock text.
Proof.
  intros E. apply execFrom_sound in E as (HM & gap & -> & _).
  apply mermaidBlockRegex_match in HM as (tag & ws & body & Ht & Hws & _ & _ & _ & ->).
  exists gap, tag, ws, body, (m_after m). repeat split; try assumption.
  now rewrite <- !app_assoc.
Qed.

Lemma fixMermaidInDocument_no_block document :
  ~ HasCompleteBlock document ->
  fixMermaidInDocument document false = mkFix document [] false.
Proof.
  intros H. unfold fixMermaidInDocument.
  pose proof (replaceWith_global blockReplacer document [] (R := mermaidBlockRegex)
                eq_refl mermaidBlockRegex_nonEmpty) as Sp.
  destruct (execFrom mermaidBlockRegex [] document) as [m |] eqn:E.
  { elim H. now apply block_sound in E. }
  destruct (Spliced_same Sp E) as [E1 E2].
  destruct (replaceWith mermaidBlockRegex document blockReplacer []) as [result allFixes].
  cbn [fst snd] in *. now subst.
Qed.

(** X14. A document that holds no complete Mermaid block (an opening
    fence with the tag, a newline and, further on, a closing fence)
    comes back untouched, with no fix and [wasModified] unset. *)
Theorem document_without_block_unchanged (document : str) :
  ~ HasCompleteBlock document ->
  fixMermaidInDocument document false = mkFix document [] false.
Proof. apply fixMermaidInDocument_no_block. Qed.

Lemma document_without_block_unchanged_witness :
  fixMermaidInDocument (u16 "gitgraph ```mermaid") false
  = mkFix (u16 "gitgraph ```mermaid") [] false.
Proof.
  apply (@document_without_block_unchanged (u16 "gitgraph ```mermaid")).
  intros H. apply block_found in H. vm_compute in H. now elim H.
Defined.

(** ** Sizes *)

Lemma blockReplacer_backticks m st :
  MatchAt mermaidBlockRegex m ->
  backticks (fst (blockReplacer m st)) = backticks (m_text m).
Proof.
  intros HM. destruct (blockReplacer_spec st HM) as (tag & ws & body & _ & _ & Et & Er & _).
  rewrite Er, Et, !backticks_app.
  destruct (fixMermaidCode_facts body) as (_ & B & _). now rewrite B.
Qed.

(** X16. Without wrapping, the document never gets longer and keeps its
    number of backticks; with wrapping, the result is the fixed text
    with exactly fifteen code units around it, six of them backticks. *)
Theorem document_size (document : str) :
  List.length (output (fixMermaidInDocument document false)) <= List.length document
  /\ backticks (output (fixMermaidInDocument document false)) = backticks document
  /\ List.length (output (fixMermaidInDocument document true))
     = List.length (output (fixMermaidCode document)) + 15
  /\ backticks (output (fixMermaidInDocument document true)) = backticks document + 6.
Proof.
  split; [| split; [| split]].
  - unfold fixMermaidInDocument.
    pose proof (replaceWith_global blockReplacer document [] (R := mermaidBlockRegex)
                  eq_refl mermaidBlockRegex_nonEmpty) as Sp.
    apply Spliced_blocks in Sp as (L & _).
    now destruct (replaceWith mermaidBlockRegex document blockReplacer []).
  - unfold fixMermaidInDocument.
    pose proof (replaceWith_global blockReplacer document [] (R := mermaidBlockRegex)
                  eq_refl mermaidBlockRegex_nonEmpty) as Sp.
    apply (@Spliced_eq _ _ _ backticks backticks_app) in Sp;
      [| intros m st; apply blockReplacer_backticks].
    now destruct (replaceWith mermaidBlockRegex document blockReplacer []).
  - unfold fixMermaidInDocument. cbn [output]. rewrite !length_app. cbn. lia.
  - unfold fixMermaidInDocument. cbn [output]. rewrite !backticks_app.
    destruct (fixMermaidCode_facts document) as (_ & B & _). rewrite B. cbn. lia.
Qed.

(** ** A document with one block *)

Lemma split_either (a b c d : str) :
  a ++ b = c ++ d ->
  (exists m, c = a ++ m /\ b = m ++ d)
  \/ (exists x m, a = c ++ x :: m /\ d = (x :: m) ++ b).
Proof.
  intros E. destruct (le_lt_dec (List.length a) (List.length c)) as [L | L].
  - left. now apply split_app.
  - right. symmetry in E. destruct (split_app _ _ _ _ E) as (m & Ea & Ed); [lia |].
    destruct m as [| x m]; [rewrite app_nil_r in Ea; subst; lia |]. eauto.
Qed.

Lemma backticks_fence s : backticks (fence ++ s) = 3 + backticks s.
Proof. rewrite backticks_app. reflexivity. Qed.

Lemma backticks_tag tag : fold tag = fold (u16 "mermaid") -> backticks tag = 0.
Proof. intros H. now rewrite <- backticks_fold, H. Qed.

Lemma backticks_head s : backticks (96%Z :: s) = S (backticks s).
Proof. now rewrite backticks_cons. Qed.

Lemma starts_backtick x m R T :
  fence ++ R = (x :: m) ++ T -> 1 <= backticks (x :: m).
Proof.
  intros E. apply (f_equal (hd 0%Z)) in E. cbn in E. subst x.
  rewrite backticks_head. lia.
Qed.

(** In a text whose only backticks are the two fences of one block,
    there is one way only to read a block. *)
Lemma block_unique pre tag ws body post gap tag' ws' body' post' :
  fold tag = fold (u16 "mermaid") -> allSpace ws -> noNewline ws ->
  firstLineNotBlank body ->
  backticks pre = 0 -> backticks body = 0 -> backticks post = 0 ->
  fold tag' = fold (u16 "mermaid") -> allSpace ws' ->
  pre ++ fence ++ tag ++ ws ++ newline ++ body ++ fence ++ post
  = gap ++ (fence ++ tag' ++ ws' ++ newline) ++ body' ++ fence ++ post' ->
  gap = pre /\ tag' = tag /\ ws' = ws /\ body' = body /\ post' = post.
Proof.
  intros Ht Hws Hnl Hb Bpre Bbody Bpost Ht' Hws' E.
  rewrite <- !app_assoc in E.
  pose proof (@backticks_tag tag Ht) as Btag.
  pose proof (@backticks_tag tag' Ht') as Btag'.
  pose proof (@backticks_space ws Hws) as Bws.
  pose proof (@backticks_space ws' Hws') as Bws'.
  (* the block begins where the first backtick is *)
  assert (Eg : gap = pre).
  { destruct (split_either _ _ _ _ E) as [(m & Eg & Et) | (x & m & Ep & Et)].
    - destruct m as [| x m]; [now rewrite app_nil_r in Eg |]. exfalso.
      pose proof (@starts_backtick _ _ _ _ Et) as Hx.
      apply (f_equal backticks) in Et.
      rewrite !backticks_app in Et.
      change (backticks fence) with 3 in Et. change (backticks newline) with 0 in Et.
      rewrite Btag, Bws, Bbody, Bpost, Btag', Bws' in Et. lia.
    - exfalso. pose proof (@starts_backtick _ _ _ _ Et) as Hx.
      rewrite Ep, backticks_app in Bpre. lia. }
  subst gap. apply app_inv_head in E. apply app_inv_head in E.
  apply app_inv_length in E as [<- E];
    [| rewrite <- (fold_length tag), <- (fold_length tag'); congruence].
  (* the white space after the tag ends at the first newline *)
  assert (Ew : ws' = ws).
  { destruct (split_either _ _ _ _ E) as [(m & Ew & Et) | (x & m & Ew & Et)].
    - destruct m as [| x m]; [now rewrite app_nil_r in Ew |]. exfalso.
      injection Et as <- Et. rewrite Ew in Hws'. apply Forall_app in Hws' as [_ Hm].
      inversion Hm as [| ? ? _ Hm']; subst.
      destruct (split_either _ _ _ _ Et) as [(k & Ek & Ef) | (y & k & Ek & Ef)].
      + destruct k as [| y k]; [discriminate Ef |].
        injection Ef as <- _. rewrite Ek in Hm'.
        apply Forall_app in Hm' as [_ Hm']. inversion Hm' as [| ? ? Hc _].
        discriminate Hc.
      + injection Ef as <- _. apply (Hb m k); assumption.
    - exfalso. injection Et as <- _. rewrite Ew in Hnl.
      apply Forall_app in Hnl as [_ Hnl]. inversion Hnl as [| ? ? Hc _].
      now elim Hc. }
  subst ws'. apply app_inv_head in E. apply app_inv_head in E.
  (* the body ends at the next backtick *)
  destruct (split_either _ _ _ _ E) as [(m & Em & Et) | (x & m & Em & Et)].
  - destruct m as [| x m].
    + rewrite app_nil_r in Em. cbn [app] in Et. apply app_inv_head in Et. now subst.
    + exfalso. pose proof (@starts_backtick _ _ _ _ Et) as Hx.
      apply (f_equal backticks) in Et. rewrite !backticks_app in Et.
      change (backticks fence) with 3 in Et. lia.
  - exfalso. pose proof (@starts_backtick _ _ _ _ Et) as Hx.
    rewrite Em, backticks_app in Bbody. lia.
Qed.

Lemma no_backtick_no_block b post :
  backticks post = 0 -> execFrom mermaidBlockRegex b post = None.
Proof.
  intros B. destruct (execFrom mermaidBlockRegex b post) as [m |] eqn:E; [| reflexivity].
  exfalso. apply execFrom_sound in E as (HM & gap & -> & _).
  apply mermaidBlockRegex_match in HM as (tag & ws & body & _ & _ & _ & _ & _ & Et).
  rewrite Et, !backticks_app in B. change (backticks fence) with 3 in B. lia.
Qed.

(** X17. A document whose only backticks are the opening and the closing
    fence of one Mermaid block (the tag followed by white space without
    a newline, the body not beginning with a blank line): the result is
    the document with the body replaced by what [fixMermaidCode] makes
    of it, and the fixes and the flag are those of the body. *)
Theorem document_single_block (pre tag ws body post : str) :
  fold tag = fold (u16 "mermaid") -> allSpace ws -> noNewline ws ->
  firstLineNotBlank body ->
  backticks pre = 0 -> backticks body = 0 -> backticks post = 0 ->
  fixMermaidInDocument
    (pre ++ fence ++ tag ++ ws ++ newline ++ body ++ fence ++ post) false
  = mkFix (pre ++ fence ++ tag ++ ws ++ newline ++ output (fixMermaidCode body)
             ++ fence ++ post)
      (MermaidFixer.fixes (fixMermaidCode body))
      (wasModified (fixMermaidCode body)).
Proof.
  intros Ht Hws Hnl Hb Bpre Bbody Bpost.
  set (doc := pre ++ fence ++ tag ++ ws ++ newline ++ body ++ fence ++ post).
  unfold fixMermaidInDocument.
  pose proof (replaceWith_global blockReplacer doc [] (R := mermaidBlockRegex)
                eq_refl mermaidBlockRegex_nonEmpty) as Sp.
  destruct (replaceWith mermaidBlockRegex doc blockReplacer []) as [result allFixes].
  cbn [fst snd] in Sp.
  assert (F : execFrom mermaidBlockRegex [] doc <> None).
  { apply block_found. exists pre, tag, ws, body, post. auto. }
  remember doc as d eqn:Ed. remember (@nil Z) as b0 eqn:Eb.
  remember (@nil str) as st0 eqn:Est.
  destruct Sp as [b a st E | b gap m st out st' E B N HM Sp]; [contradiction |].
  destruct (blockReplacer_spec st HM) as (tag' & ws' & body' & Ht' & Hws' & Et & Er & Es).
  rewrite Et in Ed. unfold doc in Ed. symmetry in Ed.
  replace (((fence ++ tag' ++ ws' ++ newline) ++ body' ++ fence) ++ m_after m)
    with ((fence ++ tag' ++ ws' ++ newline) ++ body' ++ fence ++ m_after m) in Ed
    by now rewrite <- !app_assoc.
  apply block_unique in Ed as (-> & -> & -> & -> & Ep); try assumption.
  rewrite Es in Sp. rewrite Er.
  pose proof (@no_backtick_no_block (rev (m_text m) ++ m_before m) (m_after m)
                (eq_trans (f_equal backticks Ep) Bpost)) as En.
  destruct (Spliced_same Sp En) as [-> ->]. subst st.
  rewrite Ep, <- !app_assoc. reflexivity.
Qed.

Lemma document_single_block_witness :
  fixMermaidInDocument
    ((u16 "# t" ++ newline) ++ fence ++ u16 "mermaid" ++ [] ++ newline
       ++ (u16 "gitgraph" ++ newline) ++ fence ++ newline) false
  = mkFix ((u16 "# t" ++ newline) ++ fence ++ u16 "mermaid" ++ [] ++ newline
             ++ output (fixMermaidCode (u16 "gitgraph" ++ newline)) ++ fence ++ newline)
      (MermaidFixer.fixes (fixMermaidCode (u16 "gitgraph" ++ newline)))
      (wasModified (fixMermaidCode (u16 "gitgraph" ++ newline))).
Proof.
  apply (@document_single_block (u16 "# t" ++ newline) (u16 "mermaid") []
           (u16 "gitgraph" ++ newline) newline);
    try reflexivity; try (repeat constructor).
  intros w r E H. destruct w as [| c w]; [discriminate E |].
  injection E as <- _. inversion H as [| ? ? Hc _]. discriminate Hc.
Defined.

(** * A diagram keyword at the start of the text *)

Lemma str_eqb_eq s : forall t, str_eqb s t = true -> s = t.
Proof.
  induction s as [| a s IH]; intros [| b t] H; try discriminate H; [reflexivity |].
  simpl in H. apply andb_true_iff in H as [H1 H2]. apply Z.eqb_eq in H1.
  f_equal; [assumption | now apply IH].
Qed.

Lemma isWordChar_canonicalize c : isWordChar (canonicalize c) = isWordChar c.
Proof.
  unfold canonicalize, inRange.
  destruct (97 <=? c)%Z eqn:E1; [| reflexivity].
  destruct (c <=? 122)%Z eqn:E2; [| reflexivity]. simpl.
  apply Z.leb_le in E1, E2. unfold isWordChar, isDigit, inRange. z_cases.
Qed.

Lemma isLineTerminator_canonicalize c :
  isLineTerminator (canonicalize c) = isLineTerminator c.
Proof.
  unfold canonicalize, inRange.
  destruct (97 <=? c)%Z eqn:E1; [| reflexivity].
  destruct (c <=? 122)%Z eqn:E2; [| reflexivity]. simpl.
  apply Z.leb_le in E1, E2. unfold isLineTerminator. z_cases.
Qed.

(** A spelling of a canonical keyword is made of word characters. *)
Lemma spelling_word K kw :
  In K canonicalKeywords -> fold kw = fold K ->
  Forall (fun c => isWordChar c = true) kw.
Proof.
  intros HK E.
  assert (H : Forall (fun c => isWordChar c = true) (fold kw)).
  { rewrite E. repeat (destruct HK as [<- | HK]; [repeat constructor |]).
    destruct HK. }
  unfold fold in H. rewrite Forall_map in H.
  eapply Forall_impl; [| exact H]. intros c Hc. cbn beta in Hc.
  now rewrite isWordChar_canonicalize in Hc.
Qed.

Lemma spelling_nonempty K kw :
  In K canonicalKeywords -> fold kw = fold K -> exists c t, kw = c :: t.
Proof.
  intros HK E. destruct kw as [| c t]; [| eauto]. exfalso.
  repeat (destruct HK as [<- | HK]; [discriminate E |]). destruct HK.
Qed.

Lemma spelling_last K kw :
  In K canonicalKeywords -> fold kw = fold K ->
  exists t c, kw = t ++ [c] /\ isWordChar c = true.
Proof.
  intros HK E. pose proof (spelling_word _ HK E) as W.
  destruct (spelling_nonempty _ HK E) as (c0 & t0 & ->).
  destruct (exists_last (l := c0 :: t0) ltac:(discriminate)) as (t & c & Ek).
  exists t, c. split; [assumption |]. rewrite Ek in W.
  apply Forall_app in W as [_ W]. now inversion W.
Qed.

(** ** The patterns match at the start *)

Lemma capStarts_tail ic ml kw rest b caps tail :
  (exists t c, kw = t ++ [c] /\ isWordChar c = true) -> startsNonWord rest ->
  tail = Seq WordBoundary Empty
  \/ tail = Seq (opt (Group 3 (lit (u16 "-v2")))) (Seq WordBoundary Empty) ->
  exists y, Match ic ml tail (mkState (rev kw ++ b) rest caps) y.
Proof.
  intros (t & c & -> & Hc) Hr Ht.
  assert (W : Match ic ml (Seq WordBoundary Empty)
                (mkState (rev (t ++ [c]) ++ b) rest caps)
                (mkState (rev (t ++ [c]) ++ b) rest caps)).
  { eapply MSeq; [| apply MEmpty]. apply MWord. unfold atWordBoundary.
    rewrite rev_app_distr. cbn [rev app before after isWordAt]. rewrite Hc.
    destruct rest as [| d rest]; [reflexivity |]. cbn in Hr. cbn [isWordAt].
    now rewrite Hr. }
  destruct Ht as [-> | ->]; eexists; [exact W |].
  eapply MSeq; [| exact W]. apply MStop. now left.
Qed.

Lemma capStarts_of names K tail :
  In K canonicalKeywords ->
  (exists n names', names = n :: names' /\ fold (u16 n) = fold K) ->
  tail = Seq WordBoundary Empty
  \/ tail = Seq (opt (Group 3 (lit (u16 "-v2")))) (Seq WordBoundary Empty) ->
  CapStarts
    (mkRegExp (Seq AssertStart (Seq (Group 1 (star space))
                                  (Seq (Group 2 (keyword names)) tail)))
       true true false) K.
Proof.
  intros HK (n & names' & -> & Hn) Ht ws kw rest Hws Hkw Hr.
  cbn [pattern ignoreCase multiline].
  destruct (@capStarts_tail true true kw rest (rev ws ++ [])
              [(2, kw); (1, ws)] tail (spelling_last _ HK Hkw) Hr Ht) as (y & My).
  exists y.
  eapply MSeq; [apply MStart; reflexivity |].
  eapply MSeq.
  { apply Match_group_over. apply Match_star_intro; [now apply allMatch_space | lia]. }
  eapply MSeq; [| exact My].
  apply Match_group_over. unfold keyword.
  eapply Match_alts_intro; [left; reflexivity |].
  apply Match_lit_intro. apply charsMatch_ci. congruence.
Qed.

Lemma gitGraphRegex_starts : CapStarts gitGraphRegex (u16 "gitGraph").
Proof.
  apply capStarts_of; [now left | eexists _, _; split; reflexivity | now left].
Qed.

Lemma seqRegex_starts : CapStarts seqRegex (u16 "sequenceDiagram").
Proof.
  apply capStarts_of; [right; now left | eexists _, _; split; reflexivity | now left].
Qed.

Lemma classRegex_starts : CapStarts classRegex (u16 "classDiagram").
Proof.
  apply capStarts_of;
    [right; right; now left | eexists _, _; split; reflexivity | now left].
Qed.

Lemma stateRegex_starts : CapStarts stateRegex (u16 "stateDiagram").
Proof.
  apply capStarts_of;
    [right; right; right; now left | eexists _, _; split; reflexivity | now right].
Qed.

Lemma erRegex_starts : CapStarts erRegex (u16 "erDiagram").
Proof.
  apply capStarts_of;
    [right; right; right; right; now left | eexists _, _; split; reflexivity
    | now left].
Qed.

(** ** One capitalization fix, seen from the start of the text *)

Lemma space_prefix_unique w1 a1 w2 a2 :
  allSpace w1 -> allSpace w2 ->
  (exists c t, a1 = c :: t /\ isSpace c = false) ->
  (exists c t, a2 = c :: t /\ isSpace c = false) ->
  w1 ++ a1 = w2 ++ a2 -> w1 = w2 /\ a1 = a2.
Proof.
  intros H1 H2 (c1 & t1 & -> & Hc1) (c2 & t2 & -> & Hc2) E.
  destruct (split_either _ _ _ _ E) as [(m & Em & Et) | (x & m & Em & Et)].
  - destruct m as [| x m].
    + rewrite app_nil_r in Em. subst w2. apply app_inv_head in E. auto.
    + exfalso. injection Et as <- _. rewrite Em in H2.
      apply Forall_app in H2 as [_ H2]. inversion H2. congruence.
  - exfalso. injection Et as <- _. rewrite Em in H1.
    apply Forall_app in H1 as [_ H1]. inversion H1. congruence.
Qed.

Lemma spelling_head K kw :
  In K canonicalKeywords -> fold kw = fold K ->
  forall x, exists c t, kw ++ x = c :: t /\ isSpace c = false.
Proof.
  intros HK E x. pose proof (spelling_word _ HK E) as W.
  destruct (spelling_nonempty _ HK E) as (c & t & ->).
  exists c, (t ++ x). split; [reflexivity |].
  inversion W; subst. now apply wordChar_noSpace.
Qed.

(** The fix for the keyword [K] itself spells it right and reports
    that, unless it is spelled right already. *)
Lemma cap_stage_own R K tmpl ws k r (st : str * list str) :
  CapShape R K tmpl -> CapStarts R K -> In K canonicalKeywords ->
  allSpace ws -> fold k = fold K -> startsNonWord r ->
  fst st = ws ++ k ++ r ->
  fst (fixCapitalization R K tmpl st) = ws ++ K ++ r
  /\ snd (fixCapitalization R K tmpl st)
     = if str_eqb k K then snd st else snd st ++ [capMessage k K].
Proof.
  intros [G Sh] St HK Hws Hk Hr Est. destruct st as [code fx].
  cbn [fst snd] in *. subst code. unfold fixCapitalization.
  destruct (St ws k r Hws Hk Hr) as (y & My).
  assert (T : test R (ws ++ k ++ r) = true).
  { apply test_true_iff. exists [], (ws ++ k ++ r), y. auto. }
  rewrite T. unfold test in T.
  destruct (exec R (ws ++ k ++ r)) as [m |] eqn:E; [| discriminate T].
  assert (Hb : m_before m = []).
  { destruct (m_before m) as [| c b] eqn:Eb; [reflexivity | exfalso].
    apply (@execFrom_leftmost R _ [] m E [] (ws ++ k ++ r) y eq_refl); [| exact My].
    unfold m_index. rewrite Eb. simpl. lia. }
  pose proof (exec_sound _ _ E) as (HM & E0). rewrite Hb in E0. cbn [rev app] in E0.
  destruct (Sh m HM) as (ws1 & kw1 & sfx & Et & G2 & Hk1 & Hws1 & _ & Hsub).
  rewrite Et, <- !app_assoc in E0.
  destruct (space_prefix_unique Hws Hws1 (spelling_head _ HK Hk _)
              (spelling_head _ HK Hk1 _) E0) as [<- E1].
  apply app_inv_length in E1 as [<- E1];
    [| rewrite <- (fold_length k), <- (fold_length kw1); congruence].
  rewrite G2. destruct (str_eqb k K) eqn:Ek; cbn [negb fst snd].
  - apply str_eqb_eq in Ek. now subst.
  - split; [| reflexivity]. unfold replace.
    rewrite replaceWith_first, E by assumption.
    cbn [fst template]. rewrite Hsub, Hb. cbn [rev app].
    rewrite <- !app_assoc. now rewrite <- E1.
Qed.

Lemma canonical_letters K :
  In K canonicalKeywords -> Forall (fun c => isLineTerminator c = false) K.
Proof.
  intros HK. repeat (destruct HK as [<- | HK]; [repeat constructor |]). destruct HK.
Qed.

(** The fix for another keyword leaves the start of the text alone. *)
Lemma cap_stage_other R K' tmpl K ws k r (st : str * list str) :
  CapShape R K' tmpl -> In K canonicalKeywords -> In K' canonicalKeywords ->
  K' <> K -> allSpace ws -> fold k = fold K -> startsNonWord r ->
  fst st = ws ++ k ++ r ->
  exists r' more,
    fst (fixCapitalization R K' tmpl st) = ws ++ k ++ r'
    /\ snd (fixCapitalization R K' tmpl st) = snd st ++ more
    /\ startsNonWord r'.
Proof.
  intros Sh HK HK' N Hws Hk Hr Est. destruct st as [code fx].
  cbn [fst snd] in *. subst code.
  destruct (@fixCapitalization_spec R K' tmpl (ws ++ k ++ r) fx Sh)
    as [E0 | [Hre (msg & Hm)]].
  { exists r, []. rewrite E0. cbn [fst snd]. now rewrite app_nil_r. }
  destruct Hre as (pre & kw' & post & E & Ef & _ & Hkw' & Hpre).
  assert (Hd : List.length ws + List.length k <= List.length pre
               \/ List.length pre + List.length kw' <= List.length ws).
  { pose proof (@regions_disjoint (fold (ws ++ k ++ r)) (fold ws) (fold K) (fold r)
                  (fold pre) (fold K') (fold post)) as Hd.
    rewrite !fold_length, <- (fold_length k), <- (fold_length kw'), Hk, Hkw',
      !fold_length in *.
    apply Hd.
    - now rewrite !fold_app, Hk.
    - now rewrite E, !fold_app, Hkw'.
    - apply endsSpace_fold. destruct ws as [| c0 w0] using rev_ind; [now left |].
      right. exists w0, c0. split; [reflexivity |].
      apply Forall_app in Hws as [_ Hc]. now inversion Hc.
    - now apply endsSpace_fold.
    - now apply canonical_noSpace.
    - now apply canonical_noSpace.
    - apply canonical_distinct; auto. }
  destruct Hd as [Hd | Hd].
  - replace (ws ++ k ++ r) with ((ws ++ k) ++ r) in E by now rewrite <- app_assoc.
    destruct (split_app _ _ _ _ E) as (m & Ep & Er);
      [rewrite length_app; lia |].
    destruct m as [| c0 m].
    + exfalso. rewrite app_nil_r in Ep. subst pre.
      destruct (spelling_last _ HK Hk) as (t & c & -> & Hc).
      destruct Hpre as [Hpre | (p' & c' & Hpre & Hc')].
      * destruct ws, t; discriminate Hpre.
      * rewrite !app_assoc in Hpre. apply app_inj_tail in Hpre as [_ <-].
        apply wordChar_noSpace in Hc. congruence.
    + exists ((c0 :: m) ++ K' ++ post), [msg]. split; [| split].
      * rewrite Ef, Ep. now rewrite <- !app_assoc.
      * exact Hm.
      * rewrite Er in Hr. exact Hr.
  - exfalso. symmetry in E.
    destruct (split_app _ _ _ _ E) as (m & Ews & E2); [lia |].
    destruct (split_app _ _ _ _ E2) as (m2 & Em & _).
    { apply (f_equal (@List.length Z)) in Ews. rewrite length_app in Ews. lia. }
    rewrite Ews, Em in Hws. apply Forall_app in Hws as [_ Hws].
    apply Forall_app in Hws as [Hws _].
    destruct (spelling_head _ HK' Hkw' []) as (c & t & Ec & Hc).
    rewrite app_nil_r in Ec. rewrite Ec in Hws. inversion Hws. congruence.
Qed.

(** Any of the five fixes, seen from a text that begins with a spelling
    [k] of the keyword [K]. *)
Lemma cap_stage_any R K' tmpl K ws k r (st : str * list str) :
  CapShape R K' tmpl -> CapStarts R K' ->
  In K canonicalKeywords -> In K' canonicalKeywords ->
  allSpace ws -> fold k = fold K -> startsNonWord r ->
  fst st = ws ++ k ++ r ->
  exists k' r',
    fst (fixCapitalization R K' tmpl st) = ws ++ k' ++ r'
    /\ fold k' = fold K /\ startsNonWord r'
    /\ (k = K -> k' = K)
    /\ (K' = K -> k' = K
                  /\ (k <> K -> In (capMessage k K)
                                  (snd (fixCapitalization R K' tmpl st))))
    /\ (K' <> K -> k' = k)
    /\ (forall msg, In msg (snd st) ->
                    In msg (snd (fixCapitalization R K' tmpl st))).
Proof.
  intros Sh St HK HK' Hws Hk Hr Est.
  destruct (list_eq_dec Z.eq_dec K' K) as [-> | N].
  - destruct (@cap_stage_own R K tmpl ws k r st Sh St HK Hws Hk Hr Est) as [E1 E2].
    exists K, r. rewrite E2.
    split; [exact E1 |]. split; [reflexivity |]. split; [exact Hr |].
    split; [reflexivity |]. split; [| split].
    + intros _. split; [reflexivity |]. intros Hn.
      destruct (str_eqb k K) eqn:Ek.
      * apply str_eqb_eq in Ek. contradiction.
      * apply in_or_app. right. now left.
    + intros Hn. now elim Hn.
    + intros msg Hin. destruct (str_eqb k K); [assumption |].
      apply in_or_app. now left.
  - destruct (@cap_stage_other R K' tmpl K ws k r st Sh HK HK' N Hws Hk Hr Est)
      as (r' & more & E1 & E2 & Hr').
    exists k, r'. rewrite E2.
    split; [exact E1 |]. split; [exact Hk |]. split; [exact Hr' |].
    split; [auto |]. split; [| split].
    + intros HE. contradiction.
    + reflexivity.
    + intros msg Hin. apply in_or_app. now left.
Qed.

(** ** The merges begin further on *)

Lemma start_before_pair ws K r pre tail :
  In K canonicalKeywords -> allSpace ws -> endsLine (rev pre) ->
  (exists ind kwc x,
     tail = ind ++ kwc ++ x /\ blanks ind
     /\ (kwc = u16 "commit" \/ kwc = u16 "merge")) ->
  pre ++ tail = ws ++ K ++ r -> exists m, pre = ws ++ K ++ m.
Proof.
  intros HK Hws Hpre (ind & kwc & x & -> & Hind & Hkwc) E.
  destruct (split_either _ _ _ _ E) as [(m1 & Ews & Et) | (c & m & Ep & Et)].
  - exfalso. rewrite Ews in Hws. apply Forall_app in Hws as [_ Hm1].
    assert (Hk : exists c t, kwc ++ x = c :: t /\ isSpace c = false).
    { destruct Hkwc as [-> | ->]; eexists _, _; split; reflexivity. }
    destruct (@space_prefix_unique ind (kwc ++ x) m1 (K ++ r)
                (blanks_allSpace Hind) Hm1 Hk
                (spelling_head K HK eq_refl r) Et) as [_ E2].
    apply (f_equal (firstn 2)) in E2.
    destruct Hkwc as [-> | ->];
      repeat (destruct HK as [<- | HK]; [discriminate E2 |]); destruct HK.
  - destruct (split_either _ _ _ _ Et) as [(m2 & Em & _) | (y & m3 & EK & _)].
    + exists m2. now rewrite Ep, Em.
    + exfalso. pose proof (@canonical_letters K HK) as L. rewrite EK in L.
      apply Forall_app in L as [L _]. rewrite Ep in Hpre.
      destruct (exists_last (l := c :: m) ltac:(discriminate)) as (t & d & Ed).
      rewrite Ed in L, Hpre. apply Forall_app in L as [_ L]. inversion L as [| ? ? Hd _].
      rewrite app_assoc, rev_app_distr in Hpre. cbn in Hpre. congruence.
Qed.

Lemma TagMerge_keeps_start ws K s t :
  In K canonicalKeywords -> allSpace ws -> TagMerge s t ->
  (exists r, s = ws ++ K ++ r) -> exists r', t = ws ++ K ++ r'.
Proof.
  intros HK Hws M (r & E). destruct M as [pre line nls ind clause post TP].
  destruct TP as (L & (i0 & kwc & sp & rest & -> & Hi0 & Hkwc & _) & _).
  destruct (@start_before_pair ws K r pre
              ((i0 ++ kwc ++ sp ++ rest) ++ nls ++ ind ++ clause ++ post))
    as (m & ->); auto.
  - exists i0, kwc, (sp ++ rest ++ nls ++ ind ++ clause ++ post).
    split; [now rewrite <- !app_assoc | auto].
  - eexists. now rewrite <- !app_assoc.
Qed.

Lemma TypeMerge_keeps_start ws K s t :
  In K canonicalKeywords -> allSpace ws -> TypeMerge s t ->
  (exists r, s = ws ++ K ++ r) -> exists r', t = ws ++ K ++ r'.
Proof.
  intros HK Hws M (r & E). destruct M as [pre line nls ind clause post TP].
  destruct TP as (L & (i0 & sp & rest & -> & Hi0 & _) & _).
  destruct (@start_before_pair ws K r pre
              ((i0 ++ u16 "commit" ++ sp ++ rest) ++ nls ++ ind ++ clause ++ post))
    as (m & ->); auto.
  - exists i0, (u16 "commit"), (sp ++ rest ++ nls ++ ind ++ clause ++ post).
    split; [now rewrite <- !app_assoc | auto].
  - eexists. now rewrite <- !app_assoc.
Qed.

Lemma TagMerges_keep_start ws K n s t :
  In K canonicalKeywords -> allSpace ws -> TagMerges n s t ->
  (exists r, s = ws ++ K ++ r) -> exists r', t = ws ++ K ++ r'.
Proof.
  intros HK Hws M. induction M as [| n s t u M1 _ IH]; [auto |].
  intros H. apply IH. eapply TagMerge_keeps_start; eassumption.
Qed.

Lemma TypeMerges_keep_start ws K n s t :
  In K canonicalKeywords -> allSpace ws -> TypeMerges n s t ->
  (exists r, s = ws ++ K ++ r) -> exists r', t = ws ++ K ++ r'.
Proof.
  intros HK Hws M. induction M as [| n s t u M1 _ IH]; [auto |].
  intros H. apply IH. eapply TypeMerge_keeps_start; eassumption.
Qed.

(** X18. A text that begins, after optional white space, with any
    spelling of one of the five keywords [gitGraph], [sequenceDiagram],
    [classDiagram], [stateDiagram] and [erDiagram], followed by a word
    boundary, and that holds no invisible code unit: the output begins
    with the same white space and the keyword in its canonical
    spelling, and when the spelling was not canonical the fix list
    holds the message that names both spellings. *)
Theorem keyword_at_start_fixed (ws kw rest K : str) :
  In K canonicalKeywords -> fold kw = fold K -> allSpace ws ->
  startsNonWord rest ->
  Forall (fun c => invisible c = false) (ws ++ kw ++ rest) ->
  (exists rest', output (fixMermaidCode (ws ++ kw ++ rest)) = ws ++ K ++ rest')
  /\ (kw <> K ->
      In (capMessage kw K) (MermaidFixer.fixes (fixMermaidCode (ws ++ kw ++ rest)))).
Proof.
  intros HK Hkw Hws Hr Hv. unfold fixMermaidCode. cbn [output MermaidFixer.fixes].
  rewrite removeInvisible_filter, visibleText_fixed by assumption.
  match goal with |- context [(ws ++ kw ++ rest, ?f)] => generalize f; intros f0 end.
  set (st0 := (ws ++ kw ++ rest, f0) : str * list str).
  destruct (@cap_stage_any gitGraphRegex (u16 "gitGraph") (u16 "$1gitGraph") K ws kw
              rest st0 gitGraphRegex_shape gitGraphRegex_starts HK
              ltac:(now left) Hws Hkw Hr eq_refl)
    as (k1 & r1 & E1 & F1 & R1 & A1 & B1 & C1 & D1).
  set (st1 := fixCapitalization gitGraphRegex _ _ st0) in *.
  destruct (@cap_stage_any seqRegex (u16 "sequenceDiagram") (u16 "$1sequenceDiagram")
              K ws k1 r1 st1 seqRegex_shape seqRegex_starts HK
              ltac:(right; now left) Hws F1 R1 E1)
    as (k2 & r2 & E2 & F2 & R2 & A2 & B2 & C2 & D2).
  set (st2 := fixCapitalization seqRegex _ _ st1) in *.
  destruct (@cap_stage_any classRegex (u16 "classDiagram") (u16 "$1classDiagram")
              K ws k2 r2 st2 classRegex_shape classRegex_starts HK
              ltac:(do 2 right; now left) Hws F2 R2 E2)
    as (k3 & r3 & E3 & F3 & R3 & A3 & B3 & C3 & D3).
  set (st3 := fixCapitalization classRegex _ _ st2) in *.
  destruct (@cap_stage_any stateRegex (u16 "stateDiagram") (u16 "$1stateDiagram$3")
              K ws k3 r3 st3 stateRegex_shape stateRegex_starts HK
              ltac:(do 3 right; now left) Hws F3 R3 E3)
    as (k4 & r4 & E4 & F4 & R4 & A4 & B4 & C4 & D4).
  set (st4 := fixCapitalization stateRegex _ _ st3) in *.
  destruct (@cap_stage_any erRegex (u16 "erDiagram") (u16 "$1erDiagram")
              K ws k4 r4 st4 erRegex_shape erRegex_starts HK
              ltac:(do 4 right; now left) Hws F4 R4 E4)
    as (k5 & r5 & E5 & F5 & R5 & A5 & B5 & C5 & D5).
  set (st5 := fixCapitalization erRegex _ _ st4) in *.
  assert (H5 : k5 = K /\ (kw <> K -> In (capMessage kw K) (snd st5))).
  { destruct HK as [<- | [<- | [<- | [<- | [<- | []]]]]].
    - destruct (B1 eq_refl) as [-> M]. split; [auto |]. auto 10.
    - rewrite (C1 ltac:(discriminate)) in *.
      destruct (B2 eq_refl) as [-> M]. split; [auto |]. auto 10.
    - rewrite (C1 ltac:(discriminate)) in *. rewrite (C2 ltac:(discriminate)) in *.
      destruct (B3 eq_refl) as [-> M]. split; [auto |]. auto 10.
    - rewrite (C1 ltac:(discriminate)) in *. rewrite (C2 ltac:(discriminate)) in *.
      rewrite (C3 ltac:(discriminate)) in *.
      destruct (B4 eq_refl) as [-> M]. split; [auto |]. auto 10.
    - rewrite (C1 ltac:(discriminate)) in *. rewrite (C2 ltac:(discriminate)) in *.
      rewrite (C3 ltac:(discriminate)) in *. rewrite (C4 ltac:(discriminate)) in *.
      destruct (B5 eq_refl) as [-> M]. split; [auto |]. auto 10. }
  destruct H5 as [-> M5]. split.
  - change (exists rest', fst (fixType (fixTag st5)) = ws ++ K ++ rest').
    rewrite fixType_fst.
    destruct (mergeLoop_type_merges (S (List.length (fst (fixTag st5))))
                (fst (fixTag st5)) 0) as [_ HT].
    eapply TypeMerges_keep_start; [exact HK | exact Hws | exact HT |].
    rewrite fixTag_fst.
    destruct (mergeLoop_merges (S (List.length (fst st5))) (fst st5) 0) as [_ HG].
    eapply TagMerges_keep_start; [exact HK | exact Hws | exact HG |].
    exists r5. exact E5.
  - intros Hn. destruct (fixType_appends (fixTag st5)) as (m7 & E7 & _).
    destruct (fixTag_appends st5) as (m6 & E6 & _).
    change (In (capMessage kw K) (snd (fixType (fixTag st5)))).
    rewrite E7, E6. apply in_or_app. left. apply in_or_app. left. auto.
Qed.

Lemma keyword_at_start_fixed_witness :
  (exists rest',
     output (fixMermaidCode ([] ++ u16 "GITGRAPH" ++ (newline ++ u16 "commit")))
     = [] ++ u16 "gitGraph" ++ rest')
  /\ (u16 "GITGRAPH" <> u16 "gitGraph" ->
      In (capMessage (u16 "GITGRAPH") (u16 "gitGraph"))
        (MermaidFixer.fixes
           (fixMermaidCode ([] ++ u16 "GITGRAPH" ++ (newline ++ u16 "commit"))))).
Proof.
  apply (@keyword_at_start_fixed [] (u16 "GITGRAPH") (newline ++ u16 "commit")
           (u16 "gitGraph")).
  - now left.
  - reflexivity.
  - constructor.
  - reflexivity.
  - vm_compute. repeat constructor.
Defined.

(** * App.tsx *)

(** ** Detection and fixing, composed *)

Lemma completeBlock_fence text :
  HasCompleteBlock text -> containsMermaidBlocks (trim text) = true.
Proof. intros H. now apply trim_completeBlock, completeBlock_tests in H. Qed.

(** X19. In the component, a text that the classifier calls [markdown]
    or [empty] reaches the Markdown renderer as it was typed: the fixer
    changes nothing and reports nothing. *)
Theorem markdown_passes_unchanged (markdownText : str) :
  type (detection markdownText) = markdown \/ type (detection markdownText) = empty ->
  processedText markdownText = markdownText
  /\ appliedFixes markdownText = []
  /\ hasAutoFixes markdownText = false.
Proof.
  intros H. unfold processedText, appliedFixes, hasAutoFixes, appliedFixes, fixResult.
  assert (Hb : ~ HasCompleteBlock markdownText).
  { intros Hb. pose proof (completeBlock_fence Hb) as Hf.
    unfold detection in H. rewrite detect_type in H.
    destruct (isEmptyStr (trim markdownText)) eqn:E.
    - apply isEmptyStr_true_iff in E.
      apply trim_completeBlock in Hb. rewrite E in Hb.
      destruct Hb as (pre & tag & ws & body & post & _ & _ & Hb).
      destruct pre; discriminate Hb.
    - rewrite Hf in H. rewrite andb_false_r in H. cbn in H.
      destruct H; discriminate. }
  replace (isMermaidType (type (detection markdownText))) with false
    by (destruct H as [-> | ->]; reflexivity).
  rewrite (fixMermaidInDocument_no_block Hb). auto.
Qed.

Lemma markdown_passes_unchanged_witness :
  processedText (u16 "# Title") = u16 "# Title".
Proof.
  apply (@markdown_passes_unchanged (u16 "# Title")). left. vm_compute. reflexivity.
Defined.

(** ** The line count *)

Lemma split_length s : List.length (split 10 s) = S (count_occ Z.eq_dec s 10%Z).
Proof.
  induction s as [| a s IH]; [reflexivity |]. cbn [split count_occ].
  destruct (Z.eqb_spec a 10) as [-> | N].
  - destruct (Z.eq_dec 10 10) as [_ | N]; [| now elim N]. cbn. now rewrite IH.
  - destruct (Z.eq_dec a 10) as [E | _]; [contradiction |].
    destruct (split 10 s) eqn:E; [now apply split_nonempty in E |].
    cbn in *. exact IH.
Qed.

(** X20. The line count of the status bar is one more than the number of
    newline characters of the text, so it is 1 for the empty text and
    never 0; carriage returns do not count. *)
Theorem lines_counts_newlines (markdownText : str) :
  lines markdownText = S (count_occ Z.eq_dec markdownText 10%Z).
Proof. apply split_length. Qed.

(** ** Escaping for HTML *)

Lemma getSubstitution_plain n r t : ~ In 36%Z t -> getSubstitution n r t = t.
Proof.
  induction t as [| c t IH]; intros H; [reflexivity |].
  assert (N : c <> 36%Z) by (intros ->; apply H; now left).
  assert (E : getSubstitution n r (c :: t) = c :: getSubstitution n r t).
  { destruct c as [| p | p]; try reflexivity.
    do 6 (destruct p as [p | p |]; try reflexivity). now elim N. }
  rewrite E, IH; [reflexivity |]. intros Hin. apply H. now right.
Qed.

Section ReplaceChar.

Variable c : Z.
Variable t : str.
Hypothesis t_plain : ~ In 36%Z t.


Lemma charRegex_match m :
  MatchAt (mkRegExp (Char c) false false true) m -> m_text m = [c].
Proof.
  intros H. apply MatchAt_elim in H as (y & M & V & _).
  cbn [pattern ignoreCase multiline] in M.
  apply Match_Char_inv in M as (a & V2 & _ & E). apply Z.eqb_eq in E. subst a.
  apply (Moves_inj V V2).
Qed.

Lemma charRegex_unmatched gap rest : forall b,
  (forall g1 g2 y, gap ++ rest = g1 ++ g2 -> List.length g1 < List.length gap ->
     ~ Match false false (Char c) (mkState (rev g1 ++ b) g2 []) y) ->
  flat_map (fun a => if (a =? c)%Z then t else [a]) gap = gap.
Proof.
  induction gap as [| a gap IH]; intros b H; [reflexivity |].
  cbn [flat_map]. destruct (Z.eqb_spec a c) as [-> | N].
  - exfalso. apply (H [] (c :: gap ++ rest) (mkState (c :: b) (gap ++ rest) []));
      [reflexivity | simpl; lia |].
    apply MChar. apply Z.eqb_refl.
  - cbn [app]. f_equal. apply (IH (a :: b)). intros g1 g2 y E L.
    specialize (H (a :: g1) g2 y). cbn [rev] in H. rewrite <- app_assoc in H.
    apply H; [simpl; now rewrite E | simpl; lia].
Qed.

Lemma Spliced_char b a st out st' :
  Spliced (mkRegExp (Char c) false false true)
    (template (mkRegExp (Char c) false false true) t) b a st out st' ->
  out = flat_map (fun a => if (a =? c)%Z then t else [a]) a.
Proof.
  induction 1 as [b a st E | b gap m st out st' E B N HM Sp IH].
  - symmetry. apply (@charRegex_unmatched a [] b).
    intros g1 g2 y Ea _. rewrite app_nil_r in Ea.
    exact (@execFrom_None _ a b E g1 g2 y Ea).
  - pose proof (charRegex_match HM) as Et.
    rewrite !flat_map_app, Et, <- IH. cbn [fst template].
    rewrite getSubstitution_plain by assumption.
    cbn [flat_map]. rewrite Z.eqb_refl, app_nil_r.
    f_equal. symmetry. apply (@charRegex_unmatched gap (m_text m ++ m_after m) b).
    intros g1 g2 y Ea L.
    apply (@execFrom_leftmost _ _ b m E g1 g2 y Ea).
    unfold m_index. rewrite B, length_app, length_rev. lia.
Qed.

(** Replacing every occurrence of one code unit by a text without [$]
    is a [flat_map]. *)
Lemma replace_char s :
  replace (mkRegExp (Char c) false false true) s t
  = flat_map (fun a => if (a =? c)%Z then t else [a]) s.
Proof.
  unfold replace. eapply Spliced_char.
  apply replaceWith_global; [reflexivity |].
  intros m HM. apply charRegex_match in HM. rewrite HM. discriminate.
Qed.

End ReplaceChar.

Lemma flat_map_flat_map (A : Type) (f g : A -> list A) s :
  flat_map g (flat_map f s) = flat_map (fun a => flat_map g (f a)) s.
Proof.
  induction s as [| a s IH]; [reflexivity |]. cbn [flat_map].
  now rewrite flat_map_app, IH.
Qed.

Lemma safeMsg_flat_map s : safeMsg s = flat_map escapeUnit s.
Proof.
  unfold safeMsg, gtRegex, ltRegex, ampRegex.
  rewrite !replace_char
    by (intros H; vm_compute in H;
        repeat (destruct H as [H | H]; [discriminate H |]); exact H).
  rewrite !flat_map_flat_map. apply flat_map_ext. intros a. unfold escapeUnit.
  destruct (Z.eqb_spec a 38) as [-> | N1]; [reflexivity |].
  destruct (Z.eqb_spec a 60) as [-> | N2]; [reflexivity |].
  destruct (Z.eqb_spec a 62) as [-> | N3]; [reflexivity |].
  cbn [flat_map app]. apply Z.eqb_neq in N2, N3. rewrite N2. cbn [flat_map app].
  now rewrite N3.
Qed.

Lemma escapeUnit_head a :
  exists t, escapeUnit a = (if (a =? 60)%Z || (a =? 62)%Z then 38%Z else a) :: t
            /\ (t = [] <-> a <> 38%Z /\ a <> 60%Z /\ a <> 62%Z)
            /\ hd 0%Z t = (if (a =? 38)%Z then 97%Z
                           else if (a =? 60)%Z then 108%Z
                           else if (a =? 62)%Z then 103%Z else 0%Z).
Proof.
  unfold escapeUnit.
  destruct (Z.eqb_spec a 38) as [-> | N1].
  { eexists. split; [reflexivity |]. split; [| reflexivity].
    split; [discriminate | intros (H & _); now elim H]. }
  destruct (Z.eqb_spec a 60) as [-> | N2].
  { eexists. split; [reflexivity |]. split; [| reflexivity].
    split; [discriminate | intros (_ & H & _); now elim H]. }
  destruct (Z.eqb_spec a 62) as [-> | N3].
  { eexists. split; [reflexivity |]. split; [| reflexivity].
    split; [discriminate | intros (_ & _ & H); now elim H]. }
  exists []. cbn. tauto.
Qed.

Lemma escape_injective s : forall t,
  flat_map escapeUnit s = flat_map escapeUnit t -> s = t.
Proof.
  induction s as [| a s IH]; intros [| b t] E.
  - reflexivity.
  - exfalso. cbn [flat_map] in E. destruct (escapeUnit_head b) as (x & Ex & _).
    rewrite Ex in E. discriminate E.
  - exfalso. cbn [flat_map] in E. destruct (escapeUnit_head a) as (x & Ex & _).
    rewrite Ex in E. discriminate E.
  - cbn [flat_map] in E.
    assert (Hab : a = b /\ flat_map escapeUnit s = flat_map escapeUnit t).
    { unfold escapeUnit in E.
      destruct (Z.eqb_spec a 38) as [-> | A1]; [| destruct (Z.eqb_spec a 60) as [-> | A2];
        [| destruct (Z.eqb_spec a 62) as [-> | A3]]];
      (destruct (Z.eqb_spec b 38) as [-> | B1]; [| destruct (Z.eqb_spec b 60) as [-> | B2];
        [| destruct (Z.eqb_spec b 62) as [-> | B3]]]);
      cbn in E; try discriminate E;
      try (injection E as E; split; [reflexivity | assumption]);
      try (injection E as E1 E; congruence).
      injection E as E1 E. auto. }
    destruct Hab as [-> H]. f_equal. now apply IH.
Qed.

(** X21. The three replacements by which the component escapes a text
    for HTML, made one after the other with the ampersand first, come to
    one simultaneous substitution of [&], [<] and [>] by [&amp;], [&lt;]
    and [&gt;]: no entity is escaped twice, a text is escaped piece by
    piece, and two different texts never get the same escaped text. *)
Theorem safeMsg_is_substitution :
  (forall errMsg, safeMsg errMsg = flat_map escapeUnit errMsg)
  /\ (forall s t, safeMsg (s ++ t) = safeMsg s ++ safeMsg t)
  /\ (forall s t, safeMsg s = safeMsg t -> s = t).
Proof.
  split; [apply safeMsg_flat_map |]. split.
  - intros s t. rewrite !safeMsg_flat_map. apply flat_map_app.
  - intros s t. rewrite !safeMsg_flat_map. apply escape_injective.
Qed.

Lemma ampersandsEscaped_nil : ampersandsEscaped [].
Proof. intros pre post E. destruct pre; discriminate E. Qed.

Lemma ampersandsEscaped_cons c out :
  c <> 38%Z -> ampersandsEscaped out -> ampersandsEscaped (c :: out).
Proof.
  intros N H pre post E. destruct pre as [| x pre].
  - injection E as -> _. now elim N.
  - injection E as _ E. now apply (H pre post).
Qed.

Lemma ampersandsEscaped_entity ent out :
  Forall (fun c => c <> 38%Z) ent ->
  ent = u16 "amp;" \/ ent = u16 "lt;" \/ ent = u16 "gt;" ->
  ampersandsEscaped out -> ampersandsEscaped (38%Z :: ent ++ out).
Proof.
  intros Hn He H pre post E. destruct pre as [| x pre].
  - injection E as <-. destruct He as [-> | [-> | ->]]; destruct out; vm_compute; auto.
  - injection E as _ E. revert pre post E.
    change (ampersandsEscaped (ent ++ out)).
    clear He. induction Hn as [| c ent Hc _ IH]; [exact H |].
    now apply ampersandsEscaped_cons.
Qed.

(** X22. An escaped text holds neither [<] nor [>], and each of its
    ampersands begins one of the entities [&amp;], [&lt;] and [&gt;]:
    put into HTML, it cannot open a tag or an entity of its own. *)
Theorem safeMsg_no_markup (errMsg : str) :
  Forall (fun c => c <> 60%Z /\ c <> 62%Z) (safeMsg errMsg)
  /\ ampersandsEscaped (safeMsg errMsg).
Proof.
  rewrite safeMsg_flat_map. induction errMsg as [| a s [IH1 IH2]].
  - split; [constructor | apply ampersandsEscaped_nil].
  - cbn [flat_map]. unfold escapeUnit.
    destruct (Z.eqb_spec a 38) as [-> | N1];
      [| destruct (Z.eqb_spec a 60) as [-> | N2];
         [| destruct (Z.eqb_spec a 62) as [-> | N3]]].
    + split; [repeat (constructor; [split; discriminate |]); exact IH1 |].
      apply (@ampersandsEscaped_entity (u16 "amp;")); auto.
      repeat constructor; discriminate.
    + split; [repeat (constructor; [split; discriminate |]); exact IH1 |].
      apply (@ampersandsEscaped_entity (u16 "lt;")); auto.
      repeat constructor; discriminate.
    + split; [repeat (constructor; [split; discriminate |]); exact IH1 |].
      apply (@ampersandsEscaped_entity (u16 "gt;")); auto.
      repeat constructor; discriminate.
    + split; [constructor; [split; assumption | exact IH1] |].
      now apply ampersandsEscaped_cons.
Qed.

(** ** Diagram ids *)

Lemma u16_injective s t : u16 s = u16 t -> s = t.
Proof.
  unfold u16. intros H.
  rewrite <- (string_of_list_ascii_of_string s), <- (string_of_list_ascii_of_string t).
  f_equal. revert H. generalize (list_ascii_of_string s) (list_ascii_of_string t).
  induction l as [| a l IH]; intros [| b l'] H; try discriminate H; [reflexivity |].
  injection H as H1 H2. apply Nat2Z.inj in H1 || apply N2Z.inj in H1.
  f_equal; [| now apply IH].
  now rewrite <- (ascii_N_embedding a), <- (ascii_N_embedding b), H1.
Qed.

Lemma showN_injective n m : showN n = showN m -> n = m.
Proof.
  unfold showN. intros H. apply u16_injective in H.
  assert (E : Some (N.to_uint n) = Some (N.to_uint m))
    by (rewrite <- !NilEmpty.usu; now rewrite H).
  injection E as E. rewrite <- (DecimalN.Unsigned.of_to n), <- (DecimalN.Unsigned.of_to m).
  now rewrite E.
Qed.

Lemma showN_digits n : Forall (fun c => isDigit c = true) (showN n).
Proof.
  unfold showN. generalize (N.to_uint n). intros d.
  induction d as [| d IH | d IH | d IH | d IH | d IH | d IH | d IH | d IH | d IH | d IH];
    [constructor | ..]; (constructor; [reflexivity | exact IH]).
Qed.

Lemma showZ_positive z : (0 < z)%Z -> showZ z = showN (Z.to_N z).
Proof.
  intros H. unfold showZ. destruct (Z.ltb_spec z 0); [lia |]. cbn [app].
  f_equal. destruct z; first [reflexivity | lia].
Qed.

(** The digits after the last hyphen of a text are what they are. *)
Lemma after_last_hyphen d1 : forall d2 x1 x2,
  Forall (fun c => isDigit c = true) d1 -> Forall (fun c => isDigit c = true) d2 ->
  x1 ++ 45%Z :: d1 = x2 ++ 45%Z :: d2 -> d1 = d2.
Proof.
  intros d2 x1 x2 H1 H2 E. apply (f_equal (@rev Z)) in E.
  rewrite !rev_app_distr in E. cbn [rev] in E. rewrite <- !app_assoc in E. cbn in E.
  apply Forall_rev in H1, H2. rewrite <- (rev_involutive d1), <- (rev_involutive d2).
  f_equal. revert E H1 H2. generalize (rev d1) (rev d2) (rev x1) (rev x2).
  clear. induction l as [| a l IH]; intros [| b l'] y1 y2 E H1 H2.
  - reflexivity.
  - exfalso. cbn in E. injection E as <- _. inversion H2 as [| ? ? Hb _].
    discriminate Hb.
  - exfalso. cbn in E. injection E as -> _. inversion H1 as [| ? ? Ha _].
    discriminate Ha.
  - cbn in E. injection E as -> E. f_equal.
    inversion H1; inversion H2; subst. eapply IH; eauto.
Qed.

Lemma nextMermaidId_counter now c :
  (0 <= c < 2 ^ 53)%Z ->
  snd (nextMermaidId now c) = (c + 1)%Z
  /\ exists pre, fst (nextMermaidId now c) = pre ++ 45%Z :: showN (Z.to_N (c + 1)).
Proof.
  intros H. unfold nextMermaidId, increment.
  destruct (Z.ltb_spec c (2 ^ 53)); [| lia]. cbn [fst snd].
  split; [reflexivity |].
  exists (u16 "mmd-" ++ showZ now). rewrite (@showZ_positive (c + 1)) by lia.
  now rewrite <- app_assoc.
Qed.

Lemma mermaidIds_later times : forall c id,
  (0 <= c)%Z -> (c + Z.of_nat (List.length times) <= 2 ^ 53)%Z ->
  In id (mermaidIds times c) ->
  exists pre k, (c < k)%Z /\ id = pre ++ 45%Z :: showN (Z.to_N k).
Proof.
  induction times as [| now times IH]; intros c id H0 H Hin; [destruct Hin |].
  cbn [mermaidIds List.length] in *.
  destruct (@nextMermaidId_counter now c ltac:(lia)) as (Ec & pre & Eid).
  destruct (nextMermaidId now c) as [id0 c0]. cbn [fst snd] in *. subst c0.
  destruct Hin as [<- | Hin].
  - exists pre, (c + 1)%Z. split; [lia | assumption].
  - apply IH in Hin as (pre' & k & Hk & E); [| lia | lia].
    exists pre', k. split; [lia | assumption].
Qed.

(** X23. However the clock runs, the ids that [nextMermaidId] hands out
    are all different, as long as it has been called no more than 2^53
    times: the counter that ends the id is never repeated. *)
Theorem mermaidIds_distinct (times : list Z) :
  (Z.of_nat (List.length times) <= 2 ^ 53)%Z -> NoDup (mermaidIds times 0).
Proof.
  assert (G : forall times c, (0 <= c)%Z ->
                (c + Z.of_nat (List.length times) <= 2 ^ 53)%Z ->
                NoDup (mermaidIds times c)).
  { clear. induction times as [| now times IH]; intros c H0 H; [constructor |].
    cbn [mermaidIds List.length] in *.
    destruct (@nextMermaidId_counter now c ltac:(lia)) as (Ec & pre & Eid).
    pose proof (@mermaidIds_later times (c + 1)%Z) as L.
    destruct (nextMermaidId now c) as [id0 c0]. cbn [fst snd] in *. subst c0.
    constructor; [| apply IH; lia].
    intros Hin. apply L in Hin as (pre' & k & Hk & E); [| lia | lia].
    rewrite Eid in E. apply after_last_hyphen in E; try apply showN_digits.
    apply showN_injective in E. lia. }
  intros H. apply G; lia.
Qed.

Lemma mermaidIds_distinct_witness :
  NoDup (mermaidIds [1700000000000; 1700000000000; 1699999999999]%Z 0).
Proof.
  apply (@mermaidIds_distinct [1700000000000; 1700000000000; 1699999999999]%Z).
  vm_compute. discriminate.
Defined.

(** ** The wording of the Mixed results *)

(** X24. When the answer is [mixed], the description names the block
    count that the result carries, which is at least 1, and says
    [diagrams] in the plural exactly when that count is above 1; this
    holds for both labels, although the first one computes the number
    and the plural from two different expressions. *)
Theorem mixed_description_agrees (text : str) :
  type (detectContentType text) = mixed ->
  1 <= mermaidBlockCount (detectContentType text)
  /\ ((label (detectContentType text) = u16 "Markdown + Mermaid"
       /\ description (detectContentType text)
          = u16 "Mixed content " ++ [emDash] ++ u16 " "
              ++ showNat (mermaidBlockCount (detectContentType text))
              ++ u16 " Mermaid diagram"
              ++ plural (mermaidBlockCount (detectContentType text))
              ++ u16 " detected")
      \/ (label (detectContentType text) = u16 "Fenced Mermaid"
          /\ description (detectContentType text)
             = showNat (mermaidBlockCount (detectContentType text))
                 ++ u16 " fenced Mermaid diagram"
                 ++ plural (mermaidBlockCount (detectContentType text)))).
Proof.
  unfold detectContentType.
  destruct (isEmptyStr (trim text)); [discriminate |].
  assert (B : containsMermaidBlocks (trim text) = true ->
              1 <= countMermaidBlocks (trim text)).
  { intros B. rewrite countMermaidBlocks_spec.
    now apply openingFence_counted, containsMermaidBlocks_iff. }
  revert B. generalize (countMermaidBlocks (trim text)). intros k B.
  destruct (containsMermaidBlocks (trim text)), (looksLikeMermaid (trim text)),
    (hasMarkdownFeatures (trim text));
    cbn [andb orb negb type label description mermaidBlockCount];
    intros H; try discriminate H; unfold orElse, plural;
    try specialize (B eq_refl);
    (destruct k as [| k]; [try lia | ]); cbn [Nat.eqb];
    (split; [lia |]); auto.
Qed.

Lemma mixed_description_agrees_witness :
  1 <= mermaidBlockCount (detectContentType (u16 "graph TD" ++ newline ++ u16 "# t")).
Proof.
  apply (@mixed_description_agrees (u16 "graph TD" ++ newline ++ u16 "# t")).
  vm_compute. reflexivity.
Defined.

(** * The diagram source in the placeholder *)

Example encode_examples :
  encodeURIComponent [233%Z] = Some (u16 "%C3%A9")
  /\ encodeSource [233%Z] = Some (u16 "JUMzJUE5")
  /\ encodeURIComponent [55357; 56832]%Z = Some (u16 "%F0%9F%98%80")
  /\ encodeURIComponent (u16 "a b&c/d") = Some (u16 "a%20b%26c%2Fd")
  /\ btoa (u16 "a") = Some (u16 "YQ==")
  /\ btoa (u16 "ab") = Some (u16 "YWI=")
  /\ btoa (u16 "abc") = Some (u16 "YWJj")
  /\ atob (u16 " YW Jj ") = Some (u16 "abc")
  /\ atob (u16 "YQ") = Some (u16 "a")
  /\ atob (u16 "YQ=") = None
  /\ decodeURIComponent (u16 "%e2%82%ac%41") = Some [8364; 65]%Z
  /\ decodeURIComponent (u16 "%C0%80") = None
  /\ decodeURIComponent (u16 "%ED%A0%80") = None
  /\ decodeURIComponent (u16 "%4") = None
  /\ encodeURIComponent [55357%Z] = None
  /\ decodeSource (u16 "JUYwJTlGJTk4JTgw") = Some [55357; 56832]%Z.
Proof. vm_compute. repeat split. Qed.

Ltac zb :=
  repeat match goal with
         | |- context [(?x <=? ?y)%Z] => destruct (Z.leb_spec x y)
         | |- context [(?x <? ?y)%Z] => destruct (Z.ltb_spec x y)
         | |- context [(?x =? ?y)%Z] => destruct (Z.eqb_spec x y)
         end.

Ltac zdecide :=
  repeat match goal with
         | |- context [(?x =? ?y)%Z] =>
             first [ replace (x =? y)%Z with false
                       by (symmetry; apply Z.eqb_neq; lia)
                   | replace (x =? y)%Z with true
                       by (symmetry; apply Z.eqb_eq; lia) ]
         | |- context [(?x <=? ?y)%Z] =>
             first [ replace (x <=? y)%Z with false
                       by (symmetry; apply Z.leb_gt; lia)
                   | replace (x <=? y)%Z with true
                       by (symmetry; apply Z.leb_le; lia) ]
         | |- context [(?x <? ?y)%Z] =>
             first [ replace (x <? y)%Z with false
                       by (symmetry; apply Z.ltb_ge; lia)
                   | replace (x <? y)%Z with true
                       by (symmetry; apply Z.ltb_lt; lia) ]
         end;
  cbn [andb orb negb].

Lemma hexValue_hexDigit n : (0 <= n < 16)%Z -> hexValue (hexDigit n) = Some n.
Proof.
  intros H. unfold hexValue, hexDigit, isDigit, inRange.
  destruct (Z.ltb_spec n 10); zb; cbn [andb orb negb];
    try (exfalso; lia); f_equal; lia.
Qed.

Lemma hex_round b :
  octet b -> parseHexOctet (hexDigit (b / 16)) (hexDigit (b mod 16)) = Some b.
Proof.
  unfold octet. intros H. unfold parseHexOctet.
  rewrite !hexValue_hexDigit by (Z.div_mod_to_equations; lia).
  f_equal. Z.div_mod_to_equations. lia.
Qed.

Lemma hexDigit_ascii n : (0 <= n < 16)%Z -> (48 <= hexDigit n <= 70)%Z.
Proof. intros H. unfold hexDigit. zb; lia. Qed.

Lemma percentEncode_ascii b :
  octet b -> Forall (fun c => (0 <= c <= 127)%Z) (percentEncode b).
Proof.
  unfold octet. intros H. unfold percentEncode.
  assert (A := @hexDigit_ascii (b / 16)). assert (B := @hexDigit_ascii (b mod 16)).
  repeat constructor; try lia.
  all: try (assert (0 <= b / 16 < 16)%Z by (Z.div_mod_to_equations; lia); lia).
  all: assert (0 <= b mod 16 < 16)%Z by (Z.div_mod_to_equations; lia); lia.
Qed.

Lemma decodeLoop_pct fuel h l rest :
  decodeLoop (S fuel) (37%Z :: h :: l :: rest)
  = match parseHexOctet h l with
    | None => None
    | Some B =>
        let n := leadingOnes B in
        if Nat.eqb n 0 then option_map (cons B) (decodeLoop fuel rest)
        else if Nat.eqb n 1 || (4 <? n) then None
        else
          match continuationBytes (n - 1) rest with
          | None => None
          | Some (bs, rest'') =>
              match utf8Decode (B :: bs) with
              | None => None
              | Some V => option_map (app (utf16Encode V)) (decodeLoop fuel rest'')
              end
          end
    end.
Proof. reflexivity. Qed.

Lemma decodeLoop_plain fuel c rest :
  c <> 37%Z ->
  decodeLoop (S fuel) (c :: rest) = option_map (cons c) (decodeLoop fuel rest).
Proof.
  intros H. destruct c as [|p|p]; try reflexivity.
  do 6 (destruct p as [p|p|]; try reflexivity).
  congruence.
Qed.

Lemma continuationBytes_S n h l rest :
  continuationBytes (S n) (37%Z :: h :: l :: rest)
  = match parseHexOctet h l with
    | Some B =>
        match continuationBytes n rest with
        | Some (bs, r) => Some (B :: bs, r)
        | None => None
        end
    | None => None
    end.
Proof. reflexivity. Qed.

Lemma continuationBytes_pct bs rest :
  Forall octet bs ->
  continuationBytes (List.length bs) (flat_map percentEncode bs ++ rest)
  = Some (bs, rest).
Proof.
  induction 1 as [|b bs Hb _ IH]; [reflexivity|].
  cbn [List.length flat_map]. unfold percentEncode at 1. cbn [app].
  rewrite continuationBytes_S, hex_round, IH by assumption. reflexivity.
Qed.

Lemma utf8Encode_shape cp :
  scalar cp -> (128 <= cp)%Z ->
  exists B bs,
    utf8Encode cp = B :: bs /\ Forall octet (B :: bs)
    /\ leadingOnes B = S (List.length bs)
    /\ (1 <= List.length bs <= 3)%nat
    /\ utf8Decode (B :: bs) = Some cp.
Proof.
  intros [R NS] L. unfold utf8Encode.
  destruct (Z.leb_spec cp 127); [lia|].
  destruct (Z.leb_spec cp 2047); [|destruct (Z.leb_spec cp 65535)];
    eexists; eexists; (split; [reflexivity|]).
  - split; [|split; [|split]].
    + unfold octet. repeat constructor; Z.div_mod_to_equations; lia.
    + unfold leadingOnes. zb; try reflexivity; exfalso; Z.div_mod_to_equations; lia.
    + cbn. lia.
    + unfold utf8Decode, isContinuation, inRange.
      replace ((192 + cp / 64 - 192) * 64 + (128 + cp mod 64 - 128))%Z with cp
        by (Z.div_mod_to_equations; lia).
      Z.div_mod_to_equations. zdecide. reflexivity.
  - split; [|split; [|split]].
    + unfold octet. repeat constructor; Z.div_mod_to_equations; lia.
    + unfold leadingOnes. zb; try reflexivity; exfalso; Z.div_mod_to_equations; lia.
    + cbn. lia.
    + unfold utf8Decode, isContinuation, inRange. cbv zeta.
      replace ((224 + cp / 4096 - 224) * 4096 + (128 + (cp / 64) mod 64 - 128) * 64
               + (128 + cp mod 64 - 128))%Z with cp
        by (Z.div_mod_to_equations; lia).
      Z.div_mod_to_equations. zdecide.
      destruct (Z.leb_spec 55296 cp), (Z.leb_spec cp 57343); cbn [andb negb];
        try reflexivity; exfalso; lia.
  - split; [|split; [|split]].
    + unfold octet. repeat constructor; Z.div_mod_to_equations; lia.
    + unfold leadingOnes. zb; try reflexivity; exfalso; Z.div_mod_to_equations; lia.
    + cbn. lia.
    + unfold utf8Decode, isContinuation, inRange. cbv zeta.
      replace ((240 + cp / 262144 - 240) * 262144
               + (128 + (cp / 4096) mod 64 - 128) * 4096
               + (128 + (cp / 64) mod 64 - 128) * 64
               + (128 + cp mod 64 - 128))%Z with cp
        by (Z.div_mod_to_equations; lia).
      Z.div_mod_to_equations. zdecide. reflexivity.
Qed.

Lemma utf16Encode_bmp c : (c <= 65535)%Z -> utf16Encode c = [c].
Proof. intros H. unfold utf16Encode. zb; [reflexivity|lia]. Qed.

Lemma surrogatePair_scalar c d :
  isLeadingSurrogate c = true -> isTrailingSurrogate d = true ->
  scalar (surrogatePairToCodePoint c d)
  /\ utf16Encode (surrogatePairToCodePoint c d) = [c; d].
Proof.
  unfold isLeadingSurrogate, isTrailingSurrogate, inRange.
  intros [A B]%andb_prop [C D]%andb_prop.
  apply Z.leb_le in A, B, C, D.
  unfold scalar, surrogatePairToCodePoint, utf16Encode. split; [lia|].
  zb; [exfalso; lia|].
  f_equal; [|f_equal]; Z.div_mod_to_equations; lia.
Qed.

Lemma decode_escape fuel cp rest :
  scalar cp ->
  decodeLoop (S fuel) (flat_map percentEncode (utf8Encode cp) ++ rest)
  = option_map (app (utf16Encode cp)) (decodeLoop fuel rest).
Proof.
  intros Sc. destruct (Z.leb_spec cp 127) as [L|L].
  - destruct Sc as [R _].
    unfold utf8Encode. destruct (Z.leb_spec cp 127); [|lia].
    cbn [flat_map]. unfold percentEncode. cbn [app].
    rewrite decodeLoop_pct, hex_round by (unfold octet; lia). cbv zeta.
    replace (leadingOnes cp) with 0%nat
      by (unfold leadingOnes; destruct (Z.ltb_spec cp 128); [reflexivity|lia]).
    cbn [Nat.eqb]. rewrite utf16Encode_bmp by lia.
    now destruct (decodeLoop fuel rest).
  - destruct (@utf8Encode_shape cp Sc ltac:(lia)) as (B & bs & E & O & N & Len & D).
    rewrite E. cbn [flat_map]. unfold percentEncode at 1. cbn [app].
    inversion O as [|? ? OB Obs]; subst.
    rewrite decodeLoop_pct, hex_round by assumption. cbv zeta.
    rewrite N. cbn [Nat.eqb].
    replace (S (List.length bs) - 1)%nat with (List.length bs) by lia.
    replace ((List.length bs =? 0) || (4 <? S (List.length bs)))%nat with false.
    2:{ destruct bs as [|b1 [|b2 [|b3 [|b4 bs]]]]; cbn in Len |- *; try reflexivity; lia. }
    rewrite continuationBytes_pct, D by assumption. reflexivity.
Qed.

Lemma unescaped_ascii c : uriUnescaped c = true -> (0 <= c <= 127)%Z /\ c <> 37%Z.
Proof.
  intros H. split; [|intros ->; discriminate].
  assert (D : (c < 0)%Z \/ (127 < c)%Z \/ (0 <= c <= 127)%Z) by lia.
  destruct D as [D|[D|D]]; [exfalso|exfalso|exact D]; revert H;
    unfold uriUnescaped, isWordChar, isDigit, inRange, oneOf;
    vm_compute u16; cbn [existsb]; z_cases; discriminate.
Qed.

Lemma decodeLoop_nil fuel : decodeLoop fuel [] = Some [].
Proof. now destruct fuel. Qed.

Lemma decode_encode n :
  forall text, (List.length text <= n)%nat -> Forall codeUnit text ->
  forall e, encodeURIComponent text = Some e ->
  forall fuel, (List.length e <= fuel)%nat -> decodeLoop fuel e = Some text.
Proof.
  induction n as [|n IH]; intros text Len CU e E fuel F.
  - destruct text; [|cbn in Len; lia]. cbn in E. injection E as <-.
    apply decodeLoop_nil.
  - destruct text as [|c rest].
    { cbn in E. injection E as <-. apply decodeLoop_nil. }
    inversion CU as [|? ? Hc CUrest]; subst. cbn [List.length] in Len.
    cbn [encodeURIComponent] in E.
    destruct (uriUnescaped c) eqn:U.
    { destruct (encodeURIComponent rest) as [e'|] eqn:E'; [|discriminate].
      cbn in E. injection E as <-. cbn [List.length] in F.
      destruct fuel as [|fuel]; [lia|].
      rewrite decodeLoop_plain by (apply (@unescaped_ascii c U)).
      rewrite (IH rest ltac:(lia) CUrest e' E' fuel ltac:(lia)). reflexivity. }
    destruct (isLeadingSurrogate c) eqn:Lead.
    { destruct rest as [|d rest']; [discriminate|].
      destruct (isTrailingSurrogate d) eqn:Trail; [|discriminate].
      destruct (encodeURIComponent rest') as [e'|] eqn:E'; [|discriminate].
      cbn [option_map] in E. injection E as <-.
      inversion CUrest as [|? ? Hd CUrest']; subst. cbn [List.length] in Len.
      destruct (@surrogatePair_scalar c d Lead Trail) as [Sc U16].
      destruct fuel as [|fuel].
      { exfalso. rewrite length_app in F.
        destruct (@utf8Encode_shape _ Sc) as (B & bs & Eq & _).
        - unfold isLeadingSurrogate, isTrailingSurrogate, inRange in Lead, Trail.
          apply andb_prop in Lead, Trail. unfold surrogatePairToCodePoint. lia.
        - rewrite Eq in F. cbn in F. lia. }
      rewrite decode_escape by assumption.
      rewrite length_app in F.
      rewrite (IH rest' ltac:(lia) CUrest' e' E' fuel).
      - rewrite U16. reflexivity.
      - destruct (@utf8Encode_shape _ Sc) as (B & bs & Eq & _).
        + unfold isLeadingSurrogate, isTrailingSurrogate, inRange in Lead, Trail.
          apply andb_prop in Lead, Trail. unfold surrogatePairToCodePoint. lia.
        + rewrite Eq in F. cbn in F. lia. }
    destruct (isTrailingSurrogate c) eqn:Trail; [discriminate|].
    destruct (encodeURIComponent rest) as [e'|] eqn:E'; [|discriminate].
    cbn [option_map] in E. injection E as <-.
    assert (Sc : scalar c).
    { unfold scalar, codeUnit in *. unfold isLeadingSurrogate, isTrailingSurrogate, inRange in Lead, Trail.
      split; [lia|]. intros [A B].
      destruct (Z.leb_spec c 56319).
      - replace (55296 <=? c)%Z with true in Lead by (symmetry; apply Z.leb_le; lia).
        replace (c <=? 56319)%Z with true in Lead by (symmetry; apply Z.leb_le; lia).
        discriminate.
      - replace (56320 <=? c)%Z with true in Trail by (symmetry; apply Z.leb_le; lia).
        replace (c <=? 57343)%Z with true in Trail by (symmetry; apply Z.leb_le; lia).
        discriminate. }
    assert (1 <= List.length (flat_map percentEncode (utf8Encode c)))%nat.
    { unfold utf8Encode. destruct (c <=? 127)%Z, (c <=? 2047)%Z, (c <=? 65535)%Z; cbn; lia. }
    rewrite length_app in F. destruct fuel as [|fuel]; [lia|].
    rewrite decode_escape by assumption.
    rewrite (IH rest ltac:(lia) CUrest e' E' fuel ltac:(lia)).
    rewrite utf16Encode_bmp by (unfold codeUnit in Hc; lia). reflexivity.
Qed.

Lemma decodeURIComponent_encode text e :
  Forall codeUnit text -> encodeURIComponent text = Some e ->
  decodeURIComponent e = Some text.
Proof.
  intros CU E. unfold decodeURIComponent.
  now apply (@decode_encode (List.length text) text (le_n _) CU e E).
Qed.

(** ** Base64 *)

Lemma base64Value_char n : (0 <= n < 64)%Z -> base64Value (base64Char n) = Some n.
Proof.
  intros H. unfold base64Char.
  destruct (Z.ltb_spec n 26); [|destruct (Z.ltb_spec n 52);
    [|destruct (Z.ltb_spec n 62); [|destruct (Z.eqb_spec n 62)]]];
    unfold base64Value, inRange; zb; cbn [andb orb negb];
    try (exfalso; lia); f_equal; lia.
Qed.

Lemma base64Value_alphabet c v :
  base64Value c = Some v ->
  isBase64 c = true /\ c <> 61%Z /\ isAsciiWhitespace c = false.
Proof.
  intros E.
  assert (R : (65 <= c <= 90)%Z \/ (97 <= c <= 122)%Z \/ (48 <= c <= 57)%Z
              \/ c = 43%Z \/ c = 47%Z).
  { revert E. unfold base64Value, inRange.
    destruct (Z.leb_spec 65 c), (Z.leb_spec c 90); cbn [andb]; try lia;
      destruct (Z.leb_spec 97 c), (Z.leb_spec c 122); cbn [andb]; try lia;
      destruct (Z.leb_spec 48 c), (Z.leb_spec c 57); cbn [andb]; try lia;
      destruct (Z.eqb_spec c 43); try lia;
      destruct (Z.eqb_spec c 47); try lia; discriminate. }
  unfold isBase64, isAsciiWhitespace, oneOf, inRange. cbn [existsb].
  repeat split; try lia;
    destruct R as [R|[R|[R|[R|R]]]]; zdecide; reflexivity.
Qed.

Lemma sextets_chars ns :
  Forall (fun n => (0 <= n < 64)%Z) ns -> sextets (map base64Char ns) = Some ns.
Proof.
  induction 1 as [|n ns H _ IH]; [reflexivity|].
  cbn [map sextets]. now rewrite base64Value_char, IH.
Qed.

Lemma sextets_app a b va vb :
  sextets a = Some va -> sextets b = Some vb -> sextets (a ++ b) = Some (va ++ vb).
Proof.
  revert va. induction a as [|c a IH]; intros va A B.
  - injection A as <-. exact B.
  - cbn [sextets app] in *. destruct (base64Value c); [|discriminate].
    destruct (sextets a) as [va'|]; [|discriminate].
    injection A as <-. now rewrite (IH va' eq_refl B).
Qed.

Lemma sextets_alphabet core vs :
  sextets core = Some vs ->
  Forall (fun c => isBase64 c = true /\ c <> 61%Z /\ isAsciiWhitespace c = false) core.
Proof.
  revert vs. induction core as [|c core IH]; intros vs E; [constructor|].
  cbn [sextets] in E. destruct (base64Value c) eqn:V; [|discriminate].
  destruct (sextets core) eqn:Sx; [|discriminate].
  constructor; [now apply base64Value_alphabet with z | now apply IH with l].
Qed.

Lemma list_ind3 (A : Type) (P : list A -> Prop) :
  P [] -> (forall a, P [a]) -> (forall a b, P [a; b]) ->
  (forall a b c l, P l -> P (a :: b :: c :: l)) ->
  forall l, P l.
Proof.
  intros H0 H1 H2 H3 l.
  enough (P l /\ (forall a, P (a :: l)) /\ (forall a b, P (a :: b :: l))) by tauto.
  induction l as [|x l (A0 & A1 & A2)]; [now auto|].
  repeat split; intros; auto.
Qed.

(** What [btoa] writes: the characters of the 6-bit values of the
    octets, then the padding. *)
Lemma base64Encode_shape bytes :
  Forall octet bytes ->
  exists core pad vs k,
    base64Encode bytes = core ++ pad /\ sextets core = Some vs
    /\ octetsOf vs = bytes
    /\ (pad = [] /\ List.length core = (0 + k * 4)%nat
        \/ pad = [61%Z] /\ List.length core = (3 + k * 4)%nat
        \/ pad = [61%Z; 61%Z] /\ List.length core = (2 + k * 4)%nat).
Proof.
  induction bytes as [|a|a b|a b c l IH] using list_ind3; intros O.
  - exists [], [], [], 0%nat.
    split; [reflexivity|split; [reflexivity|split; [reflexivity|]]].
    left. split; reflexivity.
  - inversion O as [|? ? Ha _]; subst. unfold octet in Ha.
    exists (map base64Char [a / 4; (a mod 4) * 16]%Z), [61; 61]%Z,
      [a / 4; (a mod 4) * 16]%Z, 0%nat.
    split; [reflexivity|]. split.
    { apply sextets_chars. repeat constructor; Z.div_mod_to_equations; lia. }
    split; [|now auto].
    cbn [octetsOf]. f_equal. Z.div_mod_to_equations; lia.
  - inversion O as [|? ? Ha O']; subst. inversion O' as [|? ? Hb _]; subst.
    unfold octet in Ha, Hb.
    exists (map base64Char [a / 4; (a mod 4) * 16 + b / 16; (b mod 16) * 4]%Z),
      [61%Z], [a / 4; (a mod 4) * 16 + b / 16; (b mod 16) * 4]%Z, 0%nat.
    split; [reflexivity|]. split.
    { apply sextets_chars. repeat constructor; Z.div_mod_to_equations; lia. }
    split; [|now auto].
    cbn [octetsOf]. f_equal; [|f_equal]; Z.div_mod_to_equations; lia.
  - inversion O as [|? ? Ha O']; subst. inversion O' as [|? ? Hb O'']; subst.
    inversion O'' as [|? ? Hc Ol]; subst. unfold octet in Ha, Hb, Hc.
    destruct (IH Ol) as (core & pad & vs & k & E & Sx & D & L).
    exists (map base64Char
              [a / 4; (a mod 4) * 16 + b / 16; (b mod 16) * 4 + c / 64; c mod 64]%Z
            ++ core), pad,
      ([a / 4; (a mod 4) * 16 + b / 16; (b mod 16) * 4 + c / 64; c mod 64]%Z ++ vs),
      (S k).
    split.
    { cbn [base64Encode]. rewrite E. reflexivity. }
    split.
    { apply sextets_app; [|assumption].
      apply sextets_chars. repeat constructor; Z.div_mod_to_equations; lia. }
    split.
    { cbn [app octetsOf]. rewrite D.
      f_equal; [|f_equal; [|f_equal]]; Z.div_mod_to_equations; lia. }
    rewrite length_app. cbn [map List.length].
    destruct L as [[-> ->]|[[-> ->]|[-> ->]]]; [left|right; left|right; right];
      (split; [reflexivity|cbn; lia]).
Qed.

Lemma stripPadding_two core : stripPadding (core ++ [61; 61]%Z) = core.
Proof.
  unfold stripPadding. rewrite rev_app_distr. cbn [rev app].
  apply rev_involutive.
Qed.

Lemma stripPadding_keep core :
  Forall (fun c => c <> 61%Z) core -> stripPadding core = core.
Proof.
  intros H. unfold stripPadding. apply Forall_rev in H.
  destruct (rev core) as [|x l]; [reflexivity|].
  inversion H as [|? ? Hx _]; subst.
  destruct x as [|p|p]; try reflexivity.
  do 6 (destruct p as [p|p|]; try reflexivity).
  congruence.
Qed.

Lemma stripPadding_one core :
  Forall (fun c => c <> 61%Z) core -> stripPadding (core ++ [61%Z]) = core.
Proof.
  intros H. unfold stripPadding. rewrite rev_app_distr. cbn [rev app].
  rewrite <- (rev_involutive core) at 2. apply Forall_rev in H.
  destruct (rev core) as [|x l]; [reflexivity|].
  inversion H as [|? ? Hx _]; subst.
  destruct x as [|p|p]; try reflexivity.
  do 6 (destruct p as [p|p|]; try reflexivity).
  congruence.
Qed.

Lemma filter_all (A : Type) (f : A -> bool) l :
  Forall (fun x => f x = true) l -> filter f l = l.
Proof.
  induction 1 as [|x l H _ IH]; [reflexivity|].
  cbn [filter]. now rewrite H, IH.
Qed.

Lemma atob_base64Encode bytes :
  Forall octet bytes -> atob (base64Encode bytes) = Some bytes.
Proof.
  intros O.
  destruct (base64Encode_shape O) as (core & pad & vs & k & E & Sx & D & L).
  pose proof (sextets_alphabet _ Sx) as A.
  assert (N61 : Forall (fun c => c <> 61%Z) core).
  { eapply Forall_impl; [|exact A]. cbn. tauto. }
  assert (NW : Forall (fun c => negb (isAsciiWhitespace c) = true) (core ++ pad)).
  { apply Forall_app. split.
    - eapply Forall_impl; [|exact A]. cbn. intros c (_ & _ & ->). reflexivity.
    - destruct L as [[-> _]|[[-> _]|[-> _]]]; repeat constructor. }
  unfold atob. rewrite E, (filter_all _ NW).
  assert (M : (List.length (core ++ pad) mod 4 = 0)%nat).
  { rewrite length_app.
    destruct L as [[-> ->]|[[-> ->]|[-> ->]]]; cbn [List.length].
    - rewrite Nat.add_0_r, Nat.Div0.mod_add. reflexivity.
    - replace (3 + k * 4 + 1)%nat with (0 + (S k) * 4)%nat by lia.
      rewrite Nat.Div0.mod_add. reflexivity.
    - replace (2 + k * 4 + 2)%nat with (0 + (S k) * 4)%nat by lia.
      rewrite Nat.Div0.mod_add. reflexivity. }
  rewrite M. cbn [Nat.eqb].
  assert (St : stripPadding (core ++ pad) = core).
  { destruct L as [[-> _]|[[-> _]|[-> _]]].
    - rewrite app_nil_r. now apply stripPadding_keep.
    - now apply stripPadding_one.
    - apply stripPadding_two. }
  rewrite St.
  assert (M1 : (List.length core mod 4 =? 1)%nat = false).
  { destruct L as [[_ ->]|[[_ ->]|[_ ->]]]; rewrite Nat.Div0.mod_add; reflexivity. }
  rewrite M1, Sx. cbn [option_map]. now rewrite D.
Qed.

(** ** The two directions together *)

Lemma escape_ascii cp :
  scalar cp ->
  Forall (fun c => (0 <= c <= 127)%Z) (flat_map percentEncode (utf8Encode cp)).
Proof.
  intros Sc.
  assert (O : Forall octet (utf8Encode cp)).
  { destruct (Z.leb_spec cp 127) as [L|L].
    - unfold utf8Encode. destruct (Z.leb_spec cp 127); [|lia].
      destruct Sc as [R _]. repeat constructor; lia.
    - destruct (@utf8Encode_shape cp Sc ltac:(lia)) as (B & bs & -> & O & _).
      exact O. }
  induction O as [|b bs Hb _ IH]; [constructor|].
  cbn [flat_map]. apply Forall_app. split; [now apply percentEncode_ascii|exact IH].
Qed.

Lemma not_surrogate_scalar c :
  codeUnit c -> isLeadingSurrogate c = false -> isTrailingSurrogate c = false ->
  scalar c.
Proof.
  unfold scalar, codeUnit, isLeadingSurrogate, isTrailingSurrogate, inRange.
  intros H Lead Trail. split; [lia|]. intros [A B].
  destruct (Z.leb_spec c 56319).
  - replace (55296 <=? c)%Z with true in Lead by (symmetry; apply Z.leb_le; lia).
    replace (c <=? 56319)%Z with true in Lead by (symmetry; apply Z.leb_le; lia).
    discriminate.
  - replace (56320 <=? c)%Z with true in Trail by (symmetry; apply Z.leb_le; lia).
    replace (c <=? 57343)%Z with true in Trail by (symmetry; apply Z.leb_le; lia).
    discriminate.
Qed.

Lemma unescaped_not_surrogate c :
  uriUnescaped c = true ->
  isLeadingSurrogate c = false /\ isTrailingSurrogate c = false.
Proof.
  intros [H _]%unescaped_ascii.
  unfold isLeadingSurrogate, isTrailingSurrogate, inRange.
  split; apply andb_false_iff; left; apply Z.leb_gt; lia.
Qed.

Lemma encode_ascii n :
  forall text, (List.length text <= n)%nat -> Forall codeUnit text ->
  forall e, encodeURIComponent text = Some e ->
  Forall (fun c => (0 <= c <= 127)%Z) e.
Proof.
  induction n as [|n IH]; intros text Len CU e E.
  - destruct text; [|cbn in Len; lia]. cbn in E. injection E as <-. constructor.
  - destruct text as [|c rest].
    { cbn in E. injection E as <-. constructor. }
    inversion CU as [|? ? Hc CUrest]; subst. cbn [List.length] in Len.
    cbn [encodeURIComponent] in E.
    destruct (uriUnescaped c) eqn:U.
    { destruct (encodeURIComponent rest) as [e'|] eqn:E'; [|discriminate].
      cbn in E. injection E as <-.
      constructor; [apply (@unescaped_ascii c U)|].
      apply (IH rest ltac:(lia) CUrest e' E'). }
    destruct (isLeadingSurrogate c) eqn:Lead.
    { destruct rest as [|d rest']; [discriminate|].
      destruct (isTrailingSurrogate d) eqn:Trail; [|discriminate].
      destruct (encodeURIComponent rest') as [e'|] eqn:E'; [|discriminate].
      cbn [option_map] in E. injection E as <-.
      inversion CUrest as [|? ? Hd CUrest']; subst. cbn [List.length] in Len.
      apply Forall_app. split.
      - apply escape_ascii, (@surrogatePair_scalar c d Lead Trail).
      - apply (IH rest' ltac:(lia) CUrest' e' E'). }
    destruct (isTrailingSurrogate c) eqn:Trail; [discriminate|].
    destruct (encodeURIComponent rest) as [e'|] eqn:E'; [|discriminate].
    cbn [option_map] in E. injection E as <-.
    apply Forall_app. split.
    + apply escape_ascii, (@not_surrogate_scalar c Hc Lead Trail).
    + apply (IH rest ltac:(lia) CUrest e' E').
Qed.

Lemma option_map_None (A B : Type) (f : A -> B) o :
  option_map f o = None <-> o = None.
Proof. destruct o; cbn; split; congruence. Qed.

Lemma encodeURIComponent_throws n :
  forall text, (List.length text <= n)%nat ->
  encodeURIComponent text = None <-> wellFormed text = false.
Proof.
  induction n as [|n IH]; intros text Len.
  - destruct text; [|cbn in Len; lia]. cbn. split; discriminate.
  - destruct text as [|c rest]; [cbn; split; discriminate|].
    cbn [List.length] in Len. cbn [encodeURIComponent wellFormed].
    destruct (uriUnescaped c) eqn:U.
    { destruct (@unescaped_not_surrogate c U) as [-> ->]. cbn [negb andb].
      rewrite option_map_None. apply IH. lia. }
    destruct (isLeadingSurrogate c) eqn:Lead.
    { destruct rest as [|d rest']; [tauto|].
      cbn [List.length] in Len.
      destruct (isTrailingSurrogate d) eqn:Trail; cbn [andb]; [|tauto].
      rewrite option_map_None. apply IH. lia. }
    destruct (isTrailingSurrogate c) eqn:Trail; cbn [negb andb]; [tauto|].
    rewrite option_map_None. apply IH. lia.
Qed.

Lemma btoa_ascii e :
  Forall (fun c => (0 <= c <= 127)%Z) e ->
  btoa e = Some (base64Encode e) /\ Forall octet e.
Proof.
  intros A. split.
  - unfold btoa.
    replace (forallb (fun c => (c <=? 255)%Z) e) with true; [reflexivity|].
    symmetry. apply forallb_forall. intros c Hc.
    rewrite Forall_forall in A. apply Z.leb_le. specialize (A c Hc). lia.
  - eapply Forall_impl; [|exact A]. unfold octet. intros; lia.
Qed.

Lemma encodeSource_Some text enc :
  Forall codeUnit text -> encodeSource text = Some enc ->
  exists e,
    encodeURIComponent text = Some e /\ Forall octet e /\ enc = base64Encode e.
Proof.
  intros CU E. unfold encodeSource in E.
  destruct (encodeURIComponent text) as [e|] eqn:Enc; [|discriminate].
  pose proof (@encode_ascii _ text (le_n _) CU e Enc) as A.
  destruct (btoa_ascii A) as [B O]. rewrite B in E. injection E as <-.
  now exists e.
Qed.

Lemma decodeSource_encodeSource text encoded :
  Forall codeUnit text -> encodeSource text = Some encoded ->
  decodeSource encoded = Some text.
Proof.
  intros CU E.
  destruct (encodeSource_Some CU E) as (e & Enc & O & ->).
  unfold decodeSource. rewrite (atob_base64Encode O).
  now apply decodeURIComponent_encode.
Qed.

(** X25. The diagram source comes back as it went in.  Whenever
    [btoa(encodeURIComponent(text))] gives the attribute value
    [encoded] for a string [text],
    [decodeURIComponent(atob(encoded))] gives [text] again and does
    not throw. *)
Theorem source_round_trip (text encoded : str) :
  Forall codeUnit text -> encodeSource text = Some encoded ->
  decodeSource encoded = Some text.
Proof. apply decodeSource_encodeSource. Qed.

Lemma source_round_trip_witness :
  Forall codeUnit (u16 "A-->B" ++ [233; 55357; 56832]%Z)
  /\ encodeSource (u16 "A-->B" ++ [233; 55357; 56832]%Z)
     = Some (u16 "QS0tJTNFQiVDMyVBOSVGMCU5RiU5OCU4MA==")
  /\ decodeSource (u16 "QS0tJTNFQiVDMyVBOSVGMCU5RiU5OCU4MA==")
     = Some (u16 "A-->B" ++ [233; 55357; 56832]%Z).
Proof.
  assert (CU : Forall codeUnit (u16 "A-->B" ++ [233; 55357; 56832]%Z))
    by (repeat constructor; unfold codeUnit; cbn; lia).
  assert (E : encodeSource (u16 "A-->B" ++ [233; 55357; 56832]%Z)
              = Some (u16 "QS0tJTNFQiVDMyVBOSVGMCU5RiU5OCU4MA=="))
    by (vm_compute; reflexivity).
  split; [exact CU|]. split; [exact E|].
  exact (source_round_trip CU E).
Defined.

(** X26. Storing the diagram source throws exactly for a text that is
    not well formed.  For a string [text],
    [btoa(encodeURIComponent(text))] throws if and only if some
    surrogate code unit of [text] stands without its partner;
    [btoa] itself never throws on what [encodeURIComponent] returns. *)
Theorem source_encoding_throws_iff (text : str) :
  Forall codeUnit text ->
  (encodeSource text = None <-> wellFormed text = false)
  /\ (forall escaped, encodeURIComponent text = Some escaped ->
      btoa escaped = Some (base64Encode escaped)).
Proof.
  intros CU.
  assert (B : forall escaped, encodeURIComponent text = Some escaped ->
                              btoa escaped = Some (base64Encode escaped)).
  { intros e Enc. apply btoa_ascii.
    apply (@encode_ascii _ text (le_n _) CU e Enc). }
  split; [|exact B].
  rewrite <- (@encodeURIComponent_throws _ text (le_n _)).
  unfold encodeSource.
  destruct (encodeURIComponent text) as [e|] eqn:Enc; [|tauto].
  rewrite (B e eq_refl). split; discriminate.
Qed.

Lemma source_encoding_throws_iff_witness :
  Forall codeUnit (u16 "A" ++ [56832%Z])
  /\ encodeSource (u16 "A" ++ [56832%Z]) = None.
Proof.
  assert (CU : Forall codeUnit (u16 "A" ++ [56832%Z]))
    by (repeat constructor; unfold codeUnit; cbn; lia).
  split; [exact CU|].
  apply (proj1 (source_encoding_throws_iff CU)). reflexivity.
Defined.

(** X27. The stored source never leaves its attribute.  The value that
    the renderer writes into [data-mermaid-source] for a string
    [text] holds only base64 letters, digits, [+], [/] and [=]: no
    double quote, no space, no [<], [>] or [&]; its length is a
    multiple of four. *)
Theorem source_attribute_alphabet (text encoded : str) :
  Forall codeUnit text -> encodeSource text = Some encoded ->
  Forall (fun c => isBase64 c = true) encoded
  /\ ~ In dquote encoded
  /\ (List.length encoded mod 4 = 0)%nat.
Proof.
  intros CU E.
  destruct (encodeSource_Some CU E) as (e & Enc & O & ->).
  destruct (base64Encode_shape O) as (core & pad & vs & k & -> & Sx & D & L).
  assert (A : Forall (fun c => isBase64 c = true) (core ++ pad)).
  { apply Forall_app. split.
    - pose proof (sextets_alphabet _ Sx) as A.
      eapply Forall_impl; [|exact A]. cbn. tauto.
    - destruct L as [[-> _]|[[-> _]|[-> _]]]; repeat constructor. }
  split; [exact A|]. split.
  - intros I. rewrite Forall_forall in A. specialize (A _ I). discriminate.
  - rewrite length_app.
    destruct L as [[-> ->]|[[-> ->]|[-> ->]]]; cbn [List.length].
    + rewrite Nat.add_0_r, Nat.Div0.mod_add. reflexivity.
    + replace (3 + k * 4 + 1)%nat with (0 + (S k) * 4)%nat by lia.
      rewrite Nat.Div0.mod_add. reflexivity.
    + replace (2 + k * 4 + 2)%nat with (0 + (S k) * 4)%nat by lia.
      rewrite Nat.Div0.mod_add. reflexivity.
Qed.

Lemma source_attribute_alphabet_witness :
  Forall codeUnit (u16 "a<b")
  /\ encodeSource (u16 "a<b") = Some (u16 "YSUzQ2I=")
  /\ Forall (fun c => isBase64 c = true) (u16 "YSUzQ2I=").
Proof.
  assert (CU : Forall codeUnit (u16 "a<b"))
    by (repeat constructor; unfold codeUnit; cbn; lia).
  assert (E : encodeSource (u16 "a<b") = Some (u16 "YSUzQ2I="))
    by (vm_compute; reflexivity).
  split; [exact CU|]. split; [exact E|].
  exact (proj1 (source_attribute_alphabet CU E)).
Defined.

(** X28. Both readers of the placeholder get the diagram as it was
    written.  For the attribute value that the renderer stores for a
    string [text], the drawing loop never reaches its decoding error:
    it hands [text] itself to [mermaid.render], except that it passes
    over the placeholder of an empty diagram, which keeps its loading
    notice; the export writes [text], unescaped, between
    [<div class="mermaid">] and [</div>], never its error notice. *)
Theorem diagram_read_back (text encoded : str) :
  Forall codeUnit text -> encodeSource text = Some encoded ->
  renderDiagram (Some encoded)
  = match text with
    | [] => passedOver
    | _ :: _ => rendered text
    end
  /\ exportDiagram encoded
     = u16 "<div class=" ++ [dquote] ++ u16 "mermaid" ++ [dquote] ++ u16 ">"
         ++ newline ++ text ++ newline ++ u16 "</div>".
Proof.
  intros CU E. pose proof (decodeSource_encodeSource CU E) as D.
  split; [|unfold exportDiagram; now rewrite D].
  destruct text as [|c text].
  - cbn in E. injection E as <-. reflexivity.
  - destruct encoded as [|e0 encoded]; [cbn in D; discriminate|].
    unfold renderDiagram. now rewrite D.
Qed.

Lemma diagram_read_back_witness :
  Forall codeUnit (u16 "A-->B")
  /\ encodeSource (u16 "A-->B") = Some (u16 "QS0tJTNFQg==")
  /\ renderDiagram (Some (u16 "QS0tJTNFQg==")) = rendered (u16 "A-->B").
Proof.
  assert (CU : Forall codeUnit (u16 "A-->B"))
    by (repeat constructor; unfold codeUnit; cbn; lia).
  assert (E : encodeSource (u16 "A-->B") = Some (u16 "QS0tJTNFQg=="))
    by (vm_compute; reflexivity).
  split; [exact CU|]. split; [exact E|].
  exact (proj1 (diagram_read_back CU E)).
Defined.

(** * The word count *)

Example splitBy_examples :
  splitBy (mkRegExp (plus space) false false false) (u16 "a  b" ++ newline ++ u16 "c")
  = [u16 "a"; u16 "b"; u16 "c"]
  /\ splitBy (mkRegExp (plus space) false false false) (u16 " a ")
     = [[]; u16 "a"; []]
  /\ splitBy (mkRegExp Empty false false false) (u16 "abc")
     = [u16 "a"; u16 "b"; u16 "c"]
  /\ splitBy (mkRegExp Empty false false false) [] = []
  /\ splitBy (mkRegExp (plus space) false false false) [] = [[]]
  /\ splitBy (mkRegExp (star space) false false false) (u16 "a b")
     = [u16 "a"; u16 "b"]
  /\ words (u16 "  one two" ++ newline ++ u16 "three ") = 3.
Proof. vm_compute. repeat split. Qed.

Lemma repeatMatcher_star m f c x :
  repeatMatcher m (S f) 0 None true c x
  = match
      m (fun y =>
           if Nat.eqb (List.length (after y)) (List.length (after x))
           then None
           else repeatMatcher m f 0 None true c y) x
    with
    | Some z => Some z
    | None => c x
    end.
Proof. reflexivity. Qed.

Lemma repeatMatcher_plus m f c x :
  repeatMatcher m (S f) 1 None true c x
  = m (fun y => repeatMatcher m f 0 None true c y) x.
Proof. reflexivity. Qed.

Lemma matcher_space c k b a caps :
  matcher false false space k (mkState b (c :: a) caps)
  = if isSpace c then k (mkState (c :: b) a caps) else None.
Proof. reflexivity. Qed.

Lemma star_space a :
  forall b caps fuel, (List.length a < fuel)%nat ->
  exists b',
    repeatMatcher (matcher false false space) fuel 0 None true Some
      (mkState b a caps)
    = Some (mkState b' (dropWhile isSpace a) caps).
Proof.
  induction a as [|c t IH]; intros b caps fuel F;
    (destruct fuel as [|f]; [cbn in F; lia|]).
  - exists b. reflexivity.
  - cbn [List.length] in F.
    rewrite repeatMatcher_star, matcher_space. cbn [dropWhile].
    destruct (isSpace c) eqn:Sp; [|now exists b].
    cbn [after List.length].
    replace (List.length t =? S (List.length t))%nat with false
      by (symmetry; apply Nat.eqb_neq; lia).
    destruct (IH (c :: b) caps f ltac:(lia)) as (b' & ->).
    now exists b'.
Qed.

Lemma plus_space b a :
  (forall c t, a = c :: t -> isSpace c = true ->
   exists b',
     matcher false false (plus space) Some (mkState b a [])
     = Some (mkState b' (dropWhile isSpace t) []))
  /\ ((a = [] \/ exists c t, a = c :: t /\ isSpace c = false) ->
      matcher false false (plus space) Some (mkState b a []) = None).
Proof.
  unfold plus. cbn [matcher after Nat.add]. split.
  - intros c t -> Sp. rewrite repeatMatcher_plus, matcher_space, Sp.
    apply star_space. cbn. lia.
  - intros [->|(c & t & -> & Sp)]; [reflexivity|].
    now rewrite repeatMatcher_plus, matcher_space, Sp.
Qed.

Lemma spaceRuns_dropWhile t : spaceRuns true t = spaceRuns false (dropWhile isSpace t).
Proof.
  induction t as [|c t IH]; [reflexivity|].
  cbn [spaceRuns dropWhile]. destruct (isSpace c) eqn:Sp; [exact IH|].
  cbn [spaceRuns]. now rewrite Sp.
Qed.

(** The pieces of [split(/\s+/)]: one more than the runs of white
    space. *)
Lemma splitLoop_count n :
  forall a, (List.length a <= n)%nat ->
  forall piece b fuel, (List.length a < fuel)%nat ->
  List.length (splitLoop (mkRegExp (plus space) false false false) fuel piece b a)
  = S (spaceRuns false a).
Proof.
  induction n as [|n IH]; intros a Len piece b fuel F;
    (destruct fuel as [|f]; [lia|]).
  - destruct a; [reflexivity|cbn in Len; lia].
  - destruct a as [|c t]; [reflexivity|].
    cbn [List.length] in Len, F.
    cbn [splitLoop ignoreCase multiline pattern].
    destruct (plus_space b (c :: t)) as [Yes No].
    destruct (isSpace c) eqn:Sp.
    + destruct (Yes c t eq_refl Sp) as (b' & ->).
      assert (C : exists d r,
                 consumed (mkState b (c :: t) [])
                   (mkState b' (dropWhile isSpace t) []) = d :: r).
      { unfold consumed. cbn [after List.length].
        pose proof (dropWhile_length isSpace t).
        replace (S (List.length t) - List.length (dropWhile isSpace t))%nat
          with (S (List.length t - List.length (dropWhile isSpace t)))%nat by lia.
        cbn [firstn]. eauto. }
      destruct C as (d & r & ->). cbn [after].
      replace (List.length
                 match piece with
                 | [] => piece :: splitLoop (mkRegExp (plus space) false false false) f []
                                    (rev (d :: r) ++ b) (dropWhile isSpace t)
                 | _ :: _ => piece :: splitLoop (mkRegExp (plus space) false false false) f []
                                        (rev (d :: r) ++ b) (dropWhile isSpace t)
                 end)
        with (S (List.length
                   (splitLoop (mkRegExp (plus space) false false false) f []
                      (rev (d :: r) ++ b) (dropWhile isSpace t))))
        by (now destruct piece).
      pose proof (dropWhile_length isSpace t).
      rewrite IH by lia.
      cbn [spaceRuns]. rewrite Sp, spaceRuns_dropWhile. reflexivity.
    + rewrite No by (right; eauto).
      rewrite IH by lia. cbn [spaceRuns]. now rewrite Sp.
Qed.

Lemma wordStarts_allSpace p ws : allSpace ws -> wordStarts p ws = 0.
Proof.
  intros H. revert p. induction H as [|c ws Hc _ IH]; intros p; [reflexivity|].
  cbn [wordStarts]. rewrite Hc. apply IH.
Qed.

Lemma wordStarts_leading ws s :
  allSpace ws -> wordStarts true (ws ++ s) = wordStarts true s.
Proof.
  induction 1 as [|c ws Hc _ IH]; [reflexivity|].
  cbn [app wordStarts]. now rewrite Hc.
Qed.

Lemma wordStarts_trailing ws s p :
  allSpace ws -> wordStarts p (s ++ ws) = wordStarts p s.
Proof.
  intros H. revert p. induction s as [|c s IH]; intros p.
  - cbn [app]. now rewrite wordStarts_allSpace.
  - cbn [app wordStarts]. now rewrite !IH.
Qed.

Lemma wordStarts_spaceRuns s d p :
  isSpace d = false ->
  wordStarts p (s ++ [d])
  = (spaceRuns p (s ++ [d]) + if p then 1 else 0)%nat.
Proof.
  intros Hd. revert p. induction s as [|c s IH]; intros p.
  - cbn [app wordStarts spaceRuns]. rewrite Hd. destruct p; reflexivity.
  - cbn [app wordStarts spaceRuns]. destruct (isSpace c).
    + rewrite IH. destruct p; lia.
    + rewrite IH. destruct p; lia.
Qed.

(** X29. The word count of the status bar is the number of words.
    [words] is the number of maximal runs of code units that are not
    white space in the text, whatever white space stands before,
    between and after them; it is 0 for a text that is empty or white
    space only. *)
Theorem words_counts_runs (markdownText : str) :
  words markdownText = wordStarts true markdownText.
Proof.
  unfold words.
  destruct (trim_decompose markdownText)
    as [[A ->]|(ws & c & u & ws' & E & -> & A & A' & Hc & L)].
  - now rewrite wordStarts_allSpace.
  - rewrite E, wordStarts_leading by assumption.
    change (c :: u ++ ws') with ((c :: u) ++ ws').
    rewrite wordStarts_trailing by assumption.
    unfold splitBy.
    rewrite (@splitLoop_count _ (c :: u) (le_n _)) by lia.
    assert (X : exists s d, c :: u = s ++ [d] /\ isSpace d = false).
    { destruct L as [->|(u' & d & -> & Hd)].
      - now exists [], c.
      - now exists (c :: u'), d. }
    destruct X as (s & d & Eq & Hd).
    assert (R : spaceRuns false (c :: u) = spaceRuns true (c :: u)).
    { cbn [spaceRuns]. now rewrite Hc. }
    rewrite R, Eq, (@wordStarts_spaceRuns s d true Hd). lia.
Qed.

(** * The Markdown patterns that decide *)

(** Where bold matches, italic matches: the second [*] is the first
    code unit that [.+?] takes. *)
Lemma bold_italic x y :
  Match false false
    (seqs [chr "*"; chr "*"; lazyPlus dot; chr "*"; chr "*"]) x y ->
  exists z, Match false false (seqs [chr "*"; lazyPlus dot; chr "*"]) x z.
Proof.
  cbn [seqs fold_right]. change (chr "*") with (Char 42). unfold lazyPlus.
  intros M.
  inversion M as [| | |? ? ? x1 ? M1 Ma| | | | | | | |]; subst; clear M.
  inversion Ma as [| | |? ? ? x2 ? M2 Mb| | | | | | | |]; subst; clear Ma.
  inversion Mb as [| | |? ? ? x3 ? M3 Mc| | | | | | | |]; subst; clear Mb.
  inversion Mc as [| | |? ? ? x4 ? M4 _| | | | | | | |]; subst; clear Mc.
  exists x4.
  eapply MSeq; [exact M1|].
  eapply MSeq; [|eapply MSeq; [exact M4|apply MEmpty]].
  inversion M2 as [|? b a t caps C| | | | | | | | | |]; subst.
  apply Z.eqb_eq in C. subst a.
  eapply MStep with (y := mkState (42%Z :: b) t caps);
    [reflexivity|apply MSet; reflexivity|discriminate|].
  cbn [pred option_map].
  inversion M3 as [| | | | | |? ? ? ? ? Z|? ? ? ? ? y' ? Z D N R| | | |]; subst.
  { destruct Z as [Z|Z]; discriminate. }
  eapply MStep; [reflexivity|exact D| |exact R].
  intros _. inversion D; subst. cbn [after List.length]. lia.
Qed.

(** Where a task list matches, an unordered list matches. *)
Lemma task_list x y :
  Match false true
    (seqs [AssertStart; star space; chr "-"; chr " "; chr "[";
           CharSet (oneOf (u16 " x")); chr "]"]) x y ->
  exists z,
    Match false true
      (seqs [AssertStart; star space; CharSet (oneOf (u16 "-*+")); space]) x z.
Proof.
  cbn [seqs fold_right]. change (chr "-") with (Char 45).
  change (chr " ") with (Char 32).
  intros M.
  inversion M as [| | |? ? ? x1 ? M1 Ma| | | | | | | |]; subst; clear M.
  inversion Ma as [| | |? ? ? x2 ? M2 Mb| | | | | | | |]; subst; clear Ma.
  inversion Mb as [| | |? ? ? x3 ? M3 Mc| | | | | | | |]; subst; clear Mb.
  inversion Mc as [| | |? ? ? x4 ? M4 _| | | | | | | |]; subst; clear Mc.
  exists x4.
  eapply MSeq; [exact M1|]. eapply MSeq; [exact M2|].
  inversion M3 as [|? b a t caps C| | | | | | | | | |]; subst.
  apply Z.eqb_eq in C. subst a.
  inversion M4 as [|? b' a' t' caps' C'| | | | | | | | | |]; subst.
  apply Z.eqb_eq in C'. subst a'.
  eapply MSeq; [apply MSet; reflexivity|].
  eapply MSeq; [apply MSet; reflexivity|apply MEmpty].
Qed.

Lemma test_transfer (R R' : RegExp) text :
  (forall x y,
     Match (ignoreCase R) (multiline R) (pattern R) x y ->
     exists z, Match (ignoreCase R') (multiline R') (pattern R') x z) ->
  test R text = true -> test R' text = true.
Proof.
  intros T H. apply test_true_iff in H. destruct H as (gap & a & y & -> & M).
  destruct (T _ _ M) as (z & M').
  apply test_true_iff. now exists gap, a, z.
Qed.

Lemma bold_italic_test text :
  test (mkRegExp (seqs [chr "*"; chr "*"; lazyPlus dot; chr "*"; chr "*"])
          false false false) text = true ->
  test (mkRegExp (seqs [chr "*"; lazyPlus dot; chr "*"]) false false false) text
  = true.
Proof. apply test_transfer. exact bold_italic. Qed.

Lemma task_list_test text :
  test (mkRegExp
          (seqs [AssertStart; star space; chr "-"; chr " "; chr "[";
                 CharSet (oneOf (u16 " x")); chr "]"])
          false true false) text = true ->
  test (mkRegExp
          (seqs [AssertStart; star space; CharSet (oneOf (u16 "-*+")); space])
          false true false) text = true.
Proof. apply test_transfer. exact task_list. Qed.

(** X30. Two of the fifteen Markdown patterns never decide the answer.
    Wherever the bold pattern matches, the italic pattern matches too,
    and wherever the task list pattern matches, the unordered list
    pattern does: [hasMarkdownFeatures] is true exactly when one of the
    thirteen other patterns matches the text. *)
Theorem bold_and_task_never_decide (text : str) :
  hasMarkdownFeatures text
  = existsb (fun pat => test pat text) decidingPatterns.
Proof.
  apply eq_true_iff_eq. rewrite hasMarkdownFeatures_true_iff, existsb_exists.
  unfold decidingPatterns, mdPatterns. cbn [firstn skipn app].
  split; intros (pat & I & T).
  - cbn [In] in I.
    destruct I as [<-|[<-|[<-|[<-|[<-|[<-|[<-|[<-|[<-|[<-|[<-|[<-|[<-|[<-|[<-|[]]]]]]]]]]]]]]]].
    6:{ eexists. split; [|exact (bold_italic_test _ T)].
        do 5 right. left. reflexivity. }
    14:{ eexists. split; [|exact (task_list_test _ T)].
         right. left. reflexivity. }
    all: eexists; (split; [|exact T]); cbn [In].
    + left. reflexivity.
    + right. left. reflexivity.
    + do 2 right. left. reflexivity.
    + do 3 right. left. reflexivity.
    + do 4 right. left. reflexivity.
    + do 5 right. left. reflexivity.
    + do 6 right. left. reflexivity.
    + do 7 right. left. reflexivity.
    + do 8 right. left. reflexivity.
    + do 9 right. left. reflexivity.
    + do 10 right. left. reflexivity.
    + do 11 right. left. reflexivity.
    + do 12 right. left. reflexivity.
  - exists pat. split; [|exact T]. cbn [In] in I |- *.
    destruct I as [<-|[<-|[<-|[<-|[<-|[<-|[<-|[<-|[<-|[<-|[<-|[<-|[<-|[]]]]]]]]]]]]]].
    + left. reflexivity.
    + right. left. reflexivity.
    + do 2 right. left. reflexivity.
    + do 3 right. left. reflexivity.
    + do 4 right. left. reflexivity.
    + do 6 right. left. reflexivity.
    + do 7 right. left. reflexivity.
    + do 8 right. left. reflexivity.
    + do 9 right. left. reflexivity.
    + do 10 right. left. reflexivity.
    + do 11 right. left. reflexivity.
    + do 12 right. left. reflexivity.
    + do 13 right. left. reflexivity.
Qed.

(** * The answer [mermaid] *)

Lemma str_eqb_true_iff s t : str_eqb s t = true <-> s = t.
Proof.
  split; [apply str_eqb_eq |]. intros ->. apply str_eqb_refl.
Qed.

Lemma keywordLine_iff line : keywordLine line = true <-> StartsWithKeyword line.
Proof.
  unfold keywordLine, StartsWithKeyword. rewrite existsb_exists.
  split; intros (k & Hk & H); exists k; (split; [assumption |]).
  - apply orb_true_iff in H as [H | H]; [apply orb_true_iff in H as [H | H] |].
    + left. now apply str_eqb_true_iff.
    + apply startsWith_true_iff in H as (r & ->). right.
      exists 32%Z, r. split; [now left |]. now rewrite <- app_assoc.
    + apply startsWith_true_iff in H as (r & ->). right.
      exists 9%Z, r. split; [now right |]. now rewrite <- app_assoc.
  - destruct H as [-> | (b & r & [-> | ->] & ->)].
    + rewrite str_eqb_refl. reflexivity.
    + apply orb_true_iff. left. apply orb_true_iff. right.
      apply startsWith_true_iff. exists r. now rewrite <- app_assoc.
    + apply orb_true_iff. right.
      apply startsWith_true_iff. exists r. now rewrite <- app_assoc.
Qed.

Lemma first_newline s :
  exists l rest,
    s = l ++ rest /\ noNewline l /\ (rest = [] \/ exists r, rest = newline ++ r).
Proof.
  induction s as [| c s (l & rest & E & N & R)].
  - exists [], []. repeat split; [constructor | now left].
  - destruct (Z.eq_dec c 10) as [-> | Hc].
    + exists [], (10%Z :: s). repeat split; [constructor |]. right. now exists s.
    + exists (c :: l), rest. subst s. repeat split; [now constructor | assumption].
Qed.

Lemma firstLine_exists text : trim text <> [] -> exists line, FirstLine text line.
Proof.
  intros H.
  destruct (trim_decompose text)
    as [[_ E] | (ws & c & u & ws' & E & _ & A & _ & Hc & _)]; [contradiction |].
  destruct (first_newline (u ++ ws')) as (l & rest & El & N & R).
  exists (c :: l), ws, rest. split; [| split; [assumption | split; [| split]]].
  - rewrite E. cbn [app]. now rewrite El.
  - constructor; [| assumption]. intros ->. discriminate Hc.
  - intros Hs. inversion Hs. congruence.
  - assumption.
Qed.

Lemma firstLine_value text line :
  FirstLine text line -> firstLineOf text = toLowerCase (trim line).
Proof.
  intros (ws & rest & -> & A & N & S & [-> | (r & ->)]).
  - rewrite app_nil_r. unfold firstLineOf.
    rewrite <- (app_nil_r (ws ++ line)), <- app_assoc.
    rewrite (@trim_surround ws line [] A ltac:(constructor)).
    apply (firstLineOf_line N).
  - apply (firstLineOf_first r A N S).
Qed.

(** C1, as the claim has it, fails in both directions: the two
    Markdown tests are run on the trimmed text.  A bare diagram that
    ends with a list marker and a space is answered [mermaid] though
    the text itself shows the marker; one that ends with a rule and a
    space passes the three tests as it stands and is answered
    [mixed]. *)
Lemma prose_markers_read_after_trim :
  (type (detectContentType markerBeforeTrim) = mermaid
   /\ hasMarkdownFeatures markerBeforeTrim = true)
  /\ (looksLikeMermaid ruleAfterTrim = true
      /\ hasMarkdownFeatures ruleAfterTrim = false
      /\ containsMermaidBlocks ruleAfterTrim = false
      /\ type (detectContentType ruleAfterTrim) = mixed).
Proof. vm_compute. repeat split. Qed.

(** C1, amended.  When the trimmed input is not empty, the classifier
    answers [mermaid] (the Diagram kind) exactly when three things
    hold: the first line that is not blank, trimmed and in lower case,
    is a diagram keyword or begins with one followed by a space or a
    tab; none of the fifteen Markdown patterns matches the trimmed
    text; and the trimmed text holds no opening fence of a Mermaid
    block.  The result then carries block count 1 and the auto-wrap
    notice as its only fix. *)
Theorem detect_mermaid_iff (text : str) :
  trim text <> [] ->
  (type (detectContentType text) = mermaid <->
     (exists line,
        FirstLine text line /\ StartsWithKeyword (toLowerCase (trim line)))
     /\ (forall pat, In pat mdPatterns -> test pat (trim text) = false)
     /\ ~ HasOpeningFence (trim text))
  /\ (type (detectContentType text) = mermaid ->
      mermaidBlockCount (detectContentType text) = 1
      /\ wasAutoWrapped (detectContentType text) = true
      /\ ContentDetector.fixes (detectContentType text)
         = [u16 "Auto-wrapped in ```mermaid code fence"]).
Proof.
  intros Ht. destruct (@detect_mermaid_tests text Ht) as [T R]. split; [| exact R].
  rewrite T, looksLikeMermaid_loop. clear T R.
  assert (N : negb (isEmptyStr (trim text)) = true)
    by (destruct (trim text); [contradiction | reflexivity]).
  rewrite N. cbn [andb].
  assert (K : keywordLine (firstLineOf text) = true <->
              exists line,
                FirstLine text line /\ StartsWithKeyword (toLowerCase (trim line))).
  { rewrite keywordLine_iff. split.
    - intros H. destruct (@firstLine_exists text Ht) as (line & F).
      exists line. split; [assumption |]. now rewrite <- (@firstLine_value text line F).
    - intros (line & F & H). now rewrite (@firstLine_value text line F). }
  assert (M : hasMarkdownFeatures (trim text) = false <->
              forall pat, In pat mdPatterns -> test pat (trim text) = false).
  { split.
    - intros H pat I. destruct (test pat (trim text)) eqn:E; [| reflexivity].
      assert (hasMarkdownFeatures (trim text) = true)
        by (apply hasMarkdownFeatures_true_iff; eauto).
      congruence.
    - intros H. destruct (hasMarkdownFeatures (trim text)) eqn:E; [| reflexivity].
      apply hasMarkdownFeatures_true_iff in E as (pat & I & E).
      rewrite (H pat I) in E. discriminate. }
  assert (B : containsMermaidBlocks (trim text) = false <->
              ~ HasOpeningFence (trim text)).
  { rewrite <- containsMermaidBlocks_iff.
    destruct (containsMermaidBlocks (trim text)); split; intros; congruence. }
  rewrite K, M, B. reflexivity.
Qed.

(** The theorem at work on a miscapitalized keyword alone. *)
Lemma detect_mermaid_iff_witness :
  trim (u16 "gitgraph") <> []
  /\ type (detectContentType (u16 "gitgraph")) = mermaid
  /\ mermaidBlockCount (detectContentType (u16 "gitgraph")) = 1.
Proof.
  assert (H : trim (u16 "gitgraph") <> []) by (vm_compute; discriminate).
  split; [exact H |].
  assert (T : type (detectContentType (u16 "gitgraph")) = mermaid)
    by (vm_compute; reflexivity).
  split; [exact T |].
  exact (proj1 (proj2 (detect_mermaid_iff (u16 "gitgraph") H) T)).
Defined.

(** * The blocks of a document, in the matcher's order of preference *)

Section Preference.

Variables ic ml : bool.

Lemma matcher_Seq r1 r2 c x :
  matcher ic ml (Seq r1 r2) c x = matcher ic ml r1 (matcher ic ml r2 c) x.
Proof. reflexivity. Qed.

Lemma matcher_Group n r c x :
  matcher ic ml (Group n r) c x
  = matcher ic ml r
      (fun y => c (mkState (before y) (after y) ((n, consumed x y) :: captures y)))
      x.
Proof. reflexivity. Qed.

Lemma matcher_Empty c x : matcher ic ml Empty c x = c x.
Proof. reflexivity. Qed.

Lemma greedy_nil p c b caps :
  matcher ic ml (Quant 0 None true (CharSet p)) c (mkState b [] caps)
  = c (mkState b [] caps).
Proof. reflexivity. Qed.

Lemma greedy_cons p c b a t caps :
  matcher ic ml (Quant 0 None true (CharSet p)) c (mkState b (a :: t) caps)
  = if setMatches ic p a then
      match
        matcher ic ml (Quant 0 None true (CharSet p)) c (mkState (a :: b) t caps)
      with
      | Some z => Some z
      | None => c (mkState b (a :: t) caps)
      end
    else c (mkState b (a :: t) caps).
Proof.
  cbn [matcher after List.length Nat.add]. rewrite repeatMatcher_star.
  cbn [matcher after before captures List.length].
  destruct (setMatches ic p a); [| reflexivity].
  replace (List.length t =? S (List.length t))%nat with false
    by (symmetry; apply Nat.eqb_neq; lia).
  reflexivity.
Qed.

Lemma repeatMatcher_lazy m f c x :
  repeatMatcher m (S f) 0 None false c x
  = match c x with
    | Some z => Some z
    | None =>
        m (fun y =>
             if Nat.eqb (List.length (after y)) (List.length (after x))
             then None
             else repeatMatcher m f 0 None false c y) x
    end.
Proof. reflexivity. Qed.

Lemma lazy_nil p c b caps :
  matcher ic ml (Quant 0 None false (CharSet p)) c (mkState b [] caps)
  = c (mkState b [] caps).
Proof.
  cbn [matcher after List.length Nat.add]. rewrite repeatMatcher_lazy.
  cbn [matcher after]. now destruct (c (mkState b [] caps)).
Qed.

Lemma lazy_cons p c b a t caps :
  matcher ic ml (Quant 0 None false (CharSet p)) c (mkState b (a :: t) caps)
  = match c (mkState b (a :: t) caps) with
    | Some z => Some z
    | None =>
        if setMatches ic p a
        then matcher ic ml (Quant 0 None false (CharSet p)) c (mkState (a :: b) t caps)
        else None
    end.
Proof.
  cbn [matcher after List.length Nat.add]. rewrite repeatMatcher_lazy.
  cbn [matcher after before captures List.length].
  destruct (c (mkState b (a :: t) caps)); [reflexivity |].
  destruct (setMatches ic p a); [| reflexivity].
  replace (List.length t =? S (List.length t))%nat with false
    by (symmetry; apply Nat.eqb_neq; lia).
  reflexivity.
Qed.

(** A greedy star takes the longest run that lets the rest of the
    pattern match. *)
Lemma greedy_longest p c : forall a b caps z,
  matcher ic ml (Quant 0 None true (CharSet p)) c (mkState b a caps) = Some z ->
  exists w rest,
    a = w ++ rest /\ allMatch ic p w
    /\ c (mkState (rev w ++ b) rest caps) = Some z
    /\ forall w' rest',
         w' <> [] -> allMatch ic p w' -> rest = w' ++ rest' ->
         c (mkState (rev (w ++ w') ++ b) rest' caps) = None.
Proof.
  induction a as [| a0 t IH]; intros b caps z H.
  - rewrite greedy_nil in H. exists [], []. repeat split; [constructor | assumption |].
    intros w' rest' N _ E. destruct w'; [contradiction | discriminate].
  - rewrite greedy_cons in H. destruct (setMatches ic p a0) eqn:Sa.
    + destruct (matcher ic ml (Quant 0 None true (CharSet p)) c
                  (mkState (a0 :: b) t caps)) as [z' |] eqn:R.
      * injection H as ->. apply IH in R as (w & rest & -> & A & C & Mx).
        exists (a0 :: w), rest. split; [reflexivity |].
        split; [now constructor |]. cbn [rev]. rewrite <- app_assoc.
        split; [exact C |]. intros w' rest' N A' E.
        cbn [app rev]. rewrite <- app_assoc. now apply Mx.
      * exists [], (a0 :: t). split; [reflexivity |]. split; [constructor |].
        split; [exact H |]. intros w' rest' N A' E.
        destruct w' as [| a1 w']; [contradiction |]. injection E as <- ->.
        inversion A' as [| ? ? _ A'']; subst.
        cbn [app rev]. rewrite <- app_assoc. cbn [app].
        destruct (c (mkState (rev w' ++ a0 :: b) rest' caps)) eqn:C; [| reflexivity].
        exfalso.
        assert (M : Match ic ml (Quant 0 None true (CharSet p))
                      (mkState (a0 :: b) (w' ++ rest') caps)
                      (mkState (rev w' ++ a0 :: b) rest' caps))
          by (apply Match_star_intro; [exact A'' | lia]).
        pose proof (matcher_complete M c) as Q. rewrite C in Q.
        apply Q; [discriminate | exact R].
    + exists [], (a0 :: t). split; [reflexivity |]. split; [constructor |].
      split; [exact H |]. intros w' rest' N A' E.
      destruct w' as [| a1 w']; [contradiction |]. injection E as <- ->.
      inversion A'; subst. congruence.
Qed.

(** A lazy star takes the shortest run that lets the rest of the
    pattern match. *)
Lemma lazy_shortest p c : forall a b caps z,
  matcher ic ml (Quant 0 None false (CharSet p)) c (mkState b a caps) = Some z ->
  exists w rest,
    a = w ++ rest /\ allMatch ic p w
    /\ c (mkState (rev w ++ b) rest caps) = Some z
    /\ forall w1 w2,
         w = w1 ++ w2 -> w2 <> [] ->
         c (mkState (rev w1 ++ b) (w2 ++ rest) caps) = None.
Proof.
  induction a as [| a0 t IH]; intros b caps z H.
  - rewrite lazy_nil in H. exists [], []. repeat split; [constructor | assumption |].
    intros w1 w2 E N. destruct w1, w2; try discriminate. contradiction.
  - rewrite lazy_cons in H.
    destruct (c (mkState b (a0 :: t) caps)) as [z' |] eqn:C.
    + injection H as ->. exists [], (a0 :: t). repeat split; [constructor | assumption |].
      intros w1 w2 E N. destruct w1, w2; try discriminate. contradiction.
    + destruct (setMatches ic p a0) eqn:Sa; [| discriminate].
      apply IH in H as (w & rest & -> & A & Cz & Mn).
      exists (a0 :: w), rest. split; [reflexivity |]. split; [now constructor |].
      cbn [rev]. rewrite <- app_assoc. split; [exact Cz |].
      intros w1 w2 E N. destruct w1 as [| a1 w1].
      * cbn in E. subst w2. exact C.
      * injection E as <- ->. cbn [rev]. rewrite <- app_assoc. now apply Mn.
Qed.

End Preference.

Lemma fence_continues b r caps :
  matcher true false (Seq (Group 3 (lit fence)) Empty) Some
    (mkState b (fence ++ r) caps) <> None.
Proof.
  apply matcher_complete
    with (y := mkState (rev fence ++ b) r ((3, fence) :: caps));
    [| discriminate].
  eapply MSeq; [| apply MEmpty].
  apply Match_group_over. apply Match_lit_intro, charsMatch_refl.
Qed.

Lemma body_continues b body r caps :
  matcher true false
    (Seq (Group 2 (lazyStar anyChar)) (Seq (Group 3 (lit fence)) Empty)) Some
    (mkState b (body ++ fence ++ r) caps) <> None.
Proof.
  apply matcher_complete
    with (y := mkState (rev fence ++ rev body ++ b) r
                 ((3, fence) :: (2, body) :: caps));
    [| discriminate].
  eapply MSeq.
  { apply Match_group_over. apply Match_star_intro; [apply allMatch_anyChar | lia]. }
  eapply MSeq; [| apply MEmpty].
  apply Match_group_over. apply Match_lit_intro, charsMatch_refl.
Qed.

Lemma newline_continues (c : cont) b rest caps :
  c (mkState (10%Z :: b) rest caps) <> None ->
  matcher true false (Seq (Char 10) Empty) c (mkState b (10%Z :: rest) caps)
  <> None.
Proof.
  intros H.
  apply matcher_complete with (y := mkState (10%Z :: b) rest caps); [| exact H].
  eapply MSeq; [apply MChar; reflexivity | apply MEmpty].
Qed.

(** The match that the block pattern finds at a place: the longest
    white space after the tag, then the shortest body. *)
Lemma block_first b a y :
  matcher true false (pattern mermaidBlockRegex) Some (mkState b a []) = Some y ->
  exists tag ws body rest,
    a = fence ++ tag ++ ws ++ newline ++ body ++ fence ++ rest
    /\ fold tag = fold (u16 "mermaid") /\ allSpace ws
    /\ firstLineNotBlank body
    /\ (forall b1 b2 r,
          body = b1 ++ b2 -> b2 <> [] -> b2 ++ fence ++ rest <> fence ++ r)
    /\ after y = rest
    /\ captures y = [(3, fence); (2, body); (1, fence ++ tag ++ ws ++ newline)].
Proof.
  cbn [mermaidBlockRegex pattern ignoreCase multiline seqs fold_right].
  intros H.
  rewrite matcher_Seq, matcher_Group, matcher_Seq in H.
  apply matcher_sound in H as (y1 & M1 & H).
  apply Match_lit_inv in M1 as (w & [V1 V1'] & C1 & F1).
  destruct y1 as [b1 a1 caps1]. cbn [before after captures] in V1, V1', C1.
  subst a b1 caps1.
  apply charsMatch_ci in F1. symmetry in F1.
  apply fold_fence_tag in F1 as (tag & -> & Ht).
  rewrite matcher_Seq in H. unfold star, space in H.
  apply greedy_longest in H as (ws & a2 & -> & Aws & H & Mx).
  pose proof (allMatch_space_inv Aws) as Hws.
  remember (rev ws ++ rev (fence ++ tag) ++ b) as b2 eqn:Eb2.
  rewrite matcher_Seq in H.
  apply matcher_sound in H as (y3 & M3 & H).
  inversion M3 as [| ? ? n a3 ? Cn | | | | | | | | | |]; subst a2 y3.
  apply charMatches_fixed in Cn; [| reflexivity | reflexivity]. subst n.
  rewrite matcher_Empty in H. cbv beta in H. cbn [before after captures] in H.
  rewrite (@consumed_eq _ ((fence ++ tag) ++ ws ++ [10%Z]) _) in H
    by (cbn [after]; now rewrite <- !app_assoc).
  rewrite matcher_Seq, matcher_Group in H. unfold lazyStar, anyChar in H.
  apply lazy_shortest in H as (body & a4 & -> & _ & H & Mn).
  cbv beta in H. cbn [before after captures] in H.
  rewrite (@consumed_eq _ body _) in H by reflexivity.
  remember (rev body ++ 10%Z :: b2) as b4 eqn:Eb4.
  apply matcher_sound in H as (y5 & M5 & E5). injection E5 as <-.
  apply Match_Seq_inv in M5 as (y6 & M6 & M7). apply Match_Empty_inv in M7. subst y6.
  apply Match_Group_inv in M6 as (y7 & M7 & ->).
  apply Match_lit_inv in M7 as (w3 & [V V'] & C & F).
  apply charsMatch_ci in F. symmetry in F. apply fold_fence in F. subst w3.
  cbn [before after captures] in V, V', C. subst a4.
  exists tag, ws, body, (after y7).
  split; [now rewrite <- !app_assoc |].
  split; [assumption |]. split; [assumption |]. split; [| split; [| split]].
  - intros wb r E A.
    assert (Hw : allMatch true isSpace (10%Z :: wb)).
    { apply allMatch_space. constructor; [reflexivity | assumption]. }
    specialize (Mx (10%Z :: wb) (10%Z :: r ++ fence ++ after y7)
                  ltac:(discriminate) Hw).
    rewrite E in Mx. unfold newline in Mx.
    specialize (Mx ltac:(now rewrite <- !app_assoc)).
    revert Mx. apply newline_continues. cbv beta. cbn [before after captures].
    apply body_continues.
  - intros b1 b2' r E N Eq.
    specialize (Mn b1 b2' E N). rewrite Eq in Mn.
    revert Mn. apply fence_continues.
  - reflexivity.
  - cbn [captures]. rewrite C.
    rewrite (@consumed_eq _ fence _) by reflexivity.
    now rewrite <- !app_assoc.
Qed.

(** Where [exec] finds its match, the matcher succeeds. *)
Lemma execFrom_at R : forall a b m,
  execFrom R b a = Some m ->
  exists gap a' y,
    a = gap ++ a' /\ m_before m = rev gap ++ b
    /\ matcher (ignoreCase R) (multiline R) (pattern R) Some
         (mkState (rev gap ++ b) a' []) = Some y
    /\ m_text m = consumed (mkState (rev gap ++ b) a' []) y
    /\ m_after m = after y /\ m_captures m = captures y.
Proof.
  induction a as [| c a IH]; intros b m H; rewrite execFrom_eq in H;
    destruct (matcher _ _ _ Some _) as [y |] eqn:E; try discriminate.
  1, 2: injection H as <-; exists [];
    eexists; exists y; cbn [rev app m_before m_text m_after m_captures];
    repeat split; exact E.
  apply IH in H as (gap & a' & y & -> & B & M & T & A & C).
  exists (c :: gap), a', y. cbn [rev app]. rewrite <- !app_assoc. cbn [app].
  repeat split; assumption.
Qed.

Lemma beginsBlock_match text b :
  BeginsBlock text ->
  exists y,
    Match true false (pattern mermaidBlockRegex) (mkState b text []) y.
Proof.
  intros (tag & ws & body & post & Ht & Hws & ->).
  set (opening := (fence ++ tag) ++ ws ++ newline ++ []).
  replace (fence ++ tag ++ ws ++ newline ++ body ++ fence ++ post)
    with (opening ++ body ++ fence ++ post)
    by (unfold opening; now rewrite <- !app_assoc).
  exists (mkState (rev fence ++ rev body ++ rev opening ++ b) post
            [(3, fence); (2, body); (1, opening)]).
  cbn [mermaidBlockRegex pattern ignoreCase multiline seqs fold_right].
  eapply MSeq.
  { apply Match_group_over. unfold opening.
    apply Match_seq_over.
    { apply Match_lit_intro. apply charsMatch_ci.
      change (u16 "```mermaid") with (fence ++ u16 "mermaid").
      now rewrite !fold_app, Ht. }
    apply Match_seq_over.
    { apply Match_star_intro; [now apply allMatch_space | lia]. }
    apply Match_seq_over; [apply MChar; reflexivity | apply MEmpty]. }
  eapply MSeq.
  { apply Match_group_over. apply Match_star_intro; [apply allMatch_anyChar | lia]. }
  eapply MSeq; [| apply MEmpty].
  apply Match_group_over. apply Match_lit_intro, charsMatch_refl.
Qed.

Lemma no_match_no_block b text :
  execFrom mermaidBlockRegex b text = None -> ~ HasCompleteBlock text.
Proof.
  intros E (pre & tag & ws & body & post & Ht & Hws & ->).
  destruct (@beginsBlock_match
              (fence ++ tag ++ ws ++ newline ++ body ++ fence ++ post)
              (rev pre ++ b)) as (y & M).
  { now exists tag, ws, body, post. }
  now apply (@execFrom_complete mermaidBlockRegex pre b _ y M).
Qed.

(** What the replacer makes of a match with these groups. *)
Lemma blockReplacer_groups m st opening body :
  m_captures m = [(3, fence); (2, body); (1, opening)] ->
  m_text m = opening ++ body ++ fence ->
  blockReplacer m st
  = (opening ++ output (fixMermaidCode body) ++ fence,
     st ++ MermaidFixer.fixes (fixMermaidCode body)).
Proof.
  intros C T. destruct m as [mb mt ma mc]. cbn [m_captures m_text] in C, T. subst.
  unfold blockReplacer, groupText, group, capture.
  cbn [m_captures m_text find fst snd Nat.eqb option_map].
  destruct (MermaidFixer.fixes (fixMermaidCode body)) eqn:Ef;
    cbn [List.length Nat.ltb Nat.leb]; [| reflexivity].
  destruct (fixMermaidCode_facts body) as (_ & _ & E & _).
  now rewrite (E Ef).
Qed.

Lemma first_match_block b gap m :
  execFrom mermaidBlockRegex b (gap ++ m_text m ++ m_after m) = Some m ->
  m_before m = rev gap ++ b ->
  exists tag ws body,
    FirstBlock gap tag ws body (m_after m)
    /\ m_text m = (fence ++ tag ++ ws ++ newline) ++ body ++ fence
    /\ m_captures m = [(3, fence); (2, body); (1, fence ++ tag ++ ws ++ newline)].
Proof.
  intros E B.
  pose proof (@execFrom_leftmost mermaidBlockRegex _ _ _ E) as Left.
  destruct (execFrom_at _ _ _ E) as (gap' & a' & y & Ea & B' & M & T & A & C).
  assert (gap' = gap).
  { rewrite B in B'. apply app_inv_tail in B'.
    apply (f_equal (@rev Z)) in B'. now rewrite !rev_involutive in B'. }
  subst gap'. apply app_inv_head in Ea. subst a'.
  cbn [ignoreCase multiline] in M.
  destruct (block_first _ _ M) as (tag & ws & body & rest & Et & Ht & Hws & Fl & Mn & Ar & Cy).
  rewrite <- A in Ar. subst rest.
  assert (Tm : m_text m = (fence ++ tag ++ ws ++ newline) ++ body ++ fence).
  { apply (app_inv_tail (m_after m)). rewrite Et. now rewrite <- !app_assoc. }
  exists tag, ws, body. split; [| split; [exact Tm | rewrite C; exact Cy]].
  split; [assumption |]. split; [assumption |]. split; [| split; assumption].
  intros g1 g2 Eg N HB.
  destruct (@beginsBlock_match _ (rev g1 ++ b) HB) as (y' & M').
  refine (Left g1 _ y' _ _ M').
  - rewrite Eg, Tm, <- !app_assoc. reflexivity.
  - unfold m_index. rewrite B, Eg, length_app, !length_rev, !length_app.
    destruct g2; [contradiction | cbn [List.length]; lia].
Qed.

Lemma Spliced_Blocks b a st out st' :
  Spliced mermaidBlockRegex blockReplacer b a st out st' ->
  exists fx, st' = st ++ fx /\ Blocks a out fx.
Proof.
  induction 1 as [b a st E | b gap m st out st' E B N HM Sp IH].
  - exists []. rewrite app_nil_r. split; [reflexivity |].
    constructor. now apply no_match_no_block in E.
  - destruct (first_match_block _ _ E B) as (tag & ws & body & F & T & C).
    rewrite (@blockReplacer_groups m st _ _ C T) in IH |- *. cbn [fst snd] in IH |- *.
    destruct IH as (fx & -> & Bl).
    exists (MermaidFixer.fixes (fixMermaidCode body) ++ fx).
    split; [now rewrite app_assoc |].
    rewrite T, <- !app_assoc.
    apply (BlocksNext F Bl).
Qed.

Lemma fixMermaidInDocument_Blocks document :
  Blocks document (output (fixMermaidInDocument document false))
    (MermaidFixer.fixes (fixMermaidInDocument document false)).
Proof.
  unfold fixMermaidInDocument.
  pose proof (replaceWith_global blockReplacer document [] (R := mermaidBlockRegex)
                eq_refl mermaidBlockRegex_nonEmpty) as Sp.
  apply Spliced_Blocks in Sp as (fx & E & Bl).
  destruct (replaceWith mermaidBlockRegex document blockReplacer []) as [result allFixes].
  cbn [fst snd output MermaidFixer.fixes] in *. now subst.
Qed.

(** ** One way only to read the blocks *)

Lemma space_no_backtick w pre post : allSpace w -> w <> pre ++ 96%Z :: post.
Proof.
  intros A E. subst w. apply Forall_app in A as [_ A]. inversion A as [| ? ? H _].
  discriminate H.
Qed.

Lemma cons_eq (A : Type) (a b : A) l l' : a :: l = b :: l' -> a = b /\ l = l'.
Proof. intros H. injection H. auto. Qed.

Lemma gap_not_longer gap tag ws body rest gap' tag' ws' body' rest' x m :
  fold tag = fold (u16 "mermaid") -> allSpace ws ->
  FirstBlock gap' tag' ws' body' rest' ->
  gap ++ fence ++ tag ++ ws ++ newline ++ body ++ fence ++ rest
  = gap' ++ fence ++ tag' ++ ws' ++ newline ++ body' ++ fence ++ rest' ->
  gap' <> gap ++ x :: m.
Proof.
  intros Ht Hws (_ & _ & Left & _) E Eg. subst gap'.
  rewrite <- app_assoc in E. apply app_inv_head in E.
  apply (Left gap (x :: m) eq_refl ltac:(discriminate)).
  rewrite <- E. now exists tag, ws, body, rest.
Qed.

Lemma ws_not_longer ws body rest ws' body' rest' x m :
  allSpace ws' -> firstLineNotBlank body ->
  ws ++ newline ++ body ++ fence ++ rest
  = ws' ++ newline ++ body' ++ fence ++ rest' ->
  ws' <> ws ++ x :: m.
Proof.
  intros A Fl E Ew. subst ws'.
  rewrite <- app_assoc in E. apply app_inv_head in E.
  cbn [app newline] in E. apply cons_eq in E as [<- E].
  apply Forall_app in A as [_ A]. inversion A as [| ? ? _ Am]; subst.
  change (m ++ 10%Z :: body' ++ fence ++ rest')
    with (m ++ newline ++ body' ++ fence ++ rest') in E.
  rewrite (app_assoc m newline) in E.
  destruct (split_either _ _ _ _ E) as [(k & Ek & Ef) | (y & k & Eb & _)].
  - destruct k as [| y k].
    + rewrite app_nil_r in Ek. apply (Fl m []); [| assumption].
      now rewrite app_nil_r.
      
    + apply (f_equal (hd 0%Z)) in Ef. cbn in Ef. subst y.
      refine (@space_no_backtick (m ++ newline) body k _ Ek).
      apply Forall_app. split; [assumption | now repeat constructor].
  - apply (Fl m (y :: k)); [| assumption]. now rewrite Eb, <- app_assoc.
Qed.

Lemma body_not_longer body rest body' rest' x m :
  (forall b1 b2 r,
     body' = b1 ++ b2 -> b2 <> [] -> b2 ++ fence ++ rest' <> fence ++ r) ->
  body ++ fence ++ rest = body' ++ fence ++ rest' ->
  body' <> body ++ x :: m.
Proof.
  intros Mn E Eb. subst body'.
  rewrite <- app_assoc in E. apply app_inv_head in E.
  apply (Mn body (x :: m) rest eq_refl ltac:(discriminate)). now symmetry.
Qed.

Lemma FirstBlock_unique gap tag ws body rest gap' tag' ws' body' rest' :
  FirstBlock gap tag ws body rest -> FirstBlock gap' tag' ws' body' rest' ->
  gap ++ fence ++ tag ++ ws ++ newline ++ body ++ fence ++ rest
  = gap' ++ fence ++ tag' ++ ws' ++ newline ++ body' ++ fence ++ rest' ->
  gap = gap' /\ tag = tag' /\ ws = ws' /\ body = body' /\ rest = rest'.
Proof.
  intros F F' E.
  pose proof F as (Ht & Hws & _ & Fl & Mn).
  pose proof F' as (Ht' & Hws' & _ & Fl' & Mn').
  assert (Eg : gap = gap').
  { destruct (split_either _ _ _ _ E) as [(m & Em & _) | (x & m & Em & _)].
    - destruct m as [| x m]; [now rewrite app_nil_r in Em |].
      now elim (@gap_not_longer gap tag ws body rest gap' tag' ws' body' rest' x m).
    - symmetry in E.
      now elim (@gap_not_longer gap' tag' ws' body' rest' gap tag ws body rest x m). }
  subst gap'. apply app_inv_head in E. apply app_inv_head in E.
  apply app_inv_length in E as [<- E];
    [| rewrite (fold_eq_length _ _ Ht), (fold_eq_length _ _ Ht'); reflexivity].
  assert (Ew : ws = ws').
  { destruct (split_either _ _ _ _ E) as [(m & Em & _) | (x & m & Em & _)].
    - destruct m as [| x m]; [now rewrite app_nil_r in Em |].
      now elim (@ws_not_longer ws body rest ws' body' rest' x m).
    - symmetry in E.
      now elim (@ws_not_longer ws' body' rest' ws body rest x m). }
  subst ws'. apply app_inv_head in E. apply app_inv_head in E.
  assert (Eb : body = body').
  { destruct (split_either _ _ _ _ E) as [(m & Em & _) | (x & m & Em & _)].
    - destruct m as [| x m]; [now rewrite app_nil_r in Em |].
      now elim (@body_not_longer body rest body' rest' x m).
    - symmetry in E.
      now elim (@body_not_longer body' rest' body rest x m). }
  subst body'. apply app_inv_head in E. apply app_inv_head in E.
  auto.
Qed.

Lemma Blocks_functional doc out fx :
  Blocks doc out fx ->
  forall out' fx', Blocks doc out' fx' -> out' = out /\ fx' = fx.
Proof.
  induction 1 as [text N | gap tag ws body rest rest1 fx F Bl IH];
    intros out' fx' B'.
  - inversion B' as [? N' | gap' tag' ws' body' rest' rest1' fx1' F' Bl' E]; subst.
    + auto.
    + elim N. destruct F' as (Ht' & Hws' & _).
      now exists gap', tag', ws', body', rest'.
  - inversion B' as [? N' E | gap' tag' ws' body' rest' rest1' fx1' F' Bl' E]; subst.
    + elim N'. destruct F as (Ht & Hws & _).
      now exists gap, tag, ws, body, rest.
    + symmetry in E.
      destruct (FirstBlock_unique F F' E) as (<- & <- & <- & <- & <-).
      destruct (IH _ _ Bl') as [-> ->]. auto.
Qed.

(** C7.  Without wrapping, the output of [fixMermaidInDocument] is the
    document read block after block, each time the first block of what
    is left: everything before a block, its opening fence with the tag
    and the white space after it, its closing fence and everything
    after the last block are copied as they are; only the body of a
    block, which ends at the first fence token that follows it, is
    replaced, by what [fixMermaidCode] makes of it, so that a block
    whose body comes back unchanged stays as it was.  The output is the
    only text that the document can be read to in this way. *)
Theorem document_frame (document out : str) :
  (exists fx, Blocks document out fx)
  <-> out = output (fixMermaidInDocument document false).
Proof.
  pose proof (fixMermaidInDocument_Blocks document) as B. split.
  - intros (fx & B'). now destruct (Blocks_functional B B').
  - intros ->. eauto.
Qed.

(** X15. The fix list of a document is the concatenation, in the order of
    the document, of the fix lists that [fixMermaidCode] gives for the
    bodies of its blocks, read one after the other as the block
    pattern finds them; no fix comes from anywhere else, and every
    block is read. *)
Theorem document_fixes_by_block (document : str) (fx : list str) :
  (exists out, Blocks document out fx)
  <-> fx = MermaidFixer.fixes (fixMermaidInDocument document false).
Proof.
  pose proof (fixMermaidInDocument_Blocks document) as B. split.
  - intros (out & B'). now destruct (Blocks_functional B B').
  - intros ->. eauto.
Qed.

(** Two blocks with prose between them: the prose stays, and both
    bodies are fixed. *)
Example blocks_two :
  fixMermaidInDocument
    (fence ++ u16 "mermaid" ++ newline ++ u16 "gitgraph" ++ newline ++ fence
       ++ u16 " gitgraph " ++ fence ++ u16 "MERMAID" ++ newline
       ++ u16 "erdiagram" ++ newline ++ fence) false
  = mkFix
      (fence ++ u16 "mermaid" ++ newline ++ u16 "gitGraph" ++ newline ++ fence
         ++ u16 " gitgraph " ++ fence ++ u16 "MERMAID" ++ newline
         ++ u16 "erDiagram" ++ newline ++ fence)
      (MermaidFixer.fixes (fixMermaidCode (u16 "gitgraph" ++ newline))
         ++ MermaidFixer.fixes (fixMermaidCode (u16 "erdiagram" ++ newline)))
      true.
Proof. vm_compute. reflexivity. Qed.

(** * Worked examples

    The examples that the specification lists as testable properties,
    and a few more, run through the embedding. *)

Example classify_empty :
  type (detectContentType []) = empty
  /\ type (detectContentType (u16 "   " ++ newline)) = empty
  /\ mermaidBlockCount (detectContentType (u16 "   " ++ newline)) = 0.
Proof. vm_compute. auto. Qed.

Example classify_bare_diagram :
  let r := detectContentType
             (u16 "gitgraph" ++ newline ++ u16 "  commit id: " ++ [dquote]
                ++ u16 "a" ++ [dquote]) in
  type r = mermaid /\ mermaidBlockCount r = 1.
Proof. vm_compute. auto. Qed.

Example classify_mixed :
  let r := detectContentType
             (u16 "# Title" ++ newline ++ newline ++ u16 "```mermaid" ++ newline
                ++ u16 "gitGraph" ++ newline ++ u16 "  commit" ++ newline ++ u16 "```") in
  type r = mixed /\ mermaidBlockCount r = 1.
Proof. vm_compute. auto. Qed.

Example classify_heading : type (detectContentType (u16 "# Just a heading")) = markdown.
Proof. vm_compute. reflexivity. Qed.

(** U+212A KELVIN SIGN lower-cases to the letter k. *)
Example classify_kelvin_sign :
  looksLikeMermaid (8490%Z :: u16 "anban") = true.
Proof. vm_compute. reflexivity. Qed.

Example fix_capitalization_variants :
  Forall
    (fun spelling =>
       output (fixMermaidCode (u16 spelling)) = u16 "gitGraph"
       /\ List.length (MermaidFixer.fixes (fixMermaidCode (u16 spelling))) = 1)
    ["gitgraph"; "GitGraph"; "GITGRAPH"]%string.
Proof. repeat constructor. Qed.

Example fix_state_diagram_suffix :
  output (fixMermaidCode (u16 "  STATEDIAGRAM-v2" ++ newline ++ u16 "a --> b"))
  = u16 "  stateDiagram-v2" ++ newline ++ u16 "a --> b".
Proof. vm_compute. reflexivity. Qed.

Example fix_tag_merge :
  let r := fixMermaidCode
             (u16 "commit id: " ++ [dquote] ++ u16 "v1.0" ++ [dquote] ++ newline
                ++ u16 "  tag: " ++ [dquote] ++ u16 "v1.0" ++ [dquote]) in
  output r
  = u16 "commit id: " ++ [dquote] ++ u16 "v1.0" ++ [dquote]
      ++ u16 " tag: " ++ [dquote] ++ u16 "v1.0" ++ [dquote]
  /\ MermaidFixer.fixes r = [mergeMessage "tag:" 1].
Proof. vm_compute. auto. Qed.

Example fix_three_tags :
  let tag := u16 "  tag: " ++ [dquote] ++ u16 "t" ++ [dquote] in
  let r := fixMermaidCode
             (u16 "commit a" ++ newline ++ tag ++ newline
                ++ u16 "merge b" ++ newline ++ newline ++ tag ++ newline
                ++ u16 "commit c" ++ newline ++ tag) in
  MermaidFixer.fixes r = [mergeMessage "tag:" 3]
  /\ mergeMessage "tag:" 3
     = u16 "Moved " ++ [dquote] ++ u16 "tag:" ++ [dquote] ++ u16 " to same line as "
         ++ [dquote] ++ u16 "commit" ++ [dquote] ++ u16 " (3 fixes)".
Proof. vm_compute. auto. Qed.

Example fix_wrap_bare_diagram :
  let r := fixMermaidInDocument
             (u16 "gitgraph" ++ newline ++ u16 "commit id: " ++ [dquote]
                ++ u16 "a" ++ [dquote]) true in
  output r
  = u16 "```mermaid" ++ newline ++ u16 "gitGraph" ++ newline ++ u16 "commit id: "
      ++ [dquote] ++ u16 "a" ++ [dquote] ++ newline ++ u16 "```"
  /\ wasModified r = true.
Proof. vm_compute. auto. Qed.

Example fix_invisible_once :
  let r := fixMermaidCode
             (65279%Z :: u16 "gitGraph" ++ [8205%Z] ++ newline ++ [8203%Z]
                ++ u16 "commit") in
  output r = u16 "gitGraph" ++ newline ++ u16 "commit"
  /\ MermaidFixer.fixes r = [u16 "Removed invisible characters (BOM/zero-width)"].
Proof. vm_compute. auto. Qed.

Example fix_document_blocks :
  let doc :=
    u16 "# T" ++ newline ++ u16 "```mermaid" ++ newline ++ u16 "gitgraph" ++ newline
      ++ u16 "```" ++ newline ++ u16 "```js" ++ newline ++ u16 "gitgraph" ++ newline
      ++ u16 "```" ++ newline ++ u16 "```Mermaid" ++ newline ++ u16 "gitGraph"
      ++ newline ++ u16 "```" in
  output (fixMermaidInDocument doc false)
  = u16 "# T" ++ newline ++ u16 "```mermaid" ++ newline ++ u16 "gitGraph" ++ newline
      ++ u16 "```" ++ newline ++ u16 "```js" ++ newline ++ u16 "gitgraph" ++ newline
      ++ u16 "```" ++ newline ++ u16 "```Mermaid" ++ newline ++ u16 "gitGraph"
      ++ newline ++ u16 "```".
Proof. vm_compute. reflexivity. Qed.
